(** * ts-qs: a shallow embedding of the query-string codec

    The development follows the layout of the repository:
    - [Js]        the JavaScript built-ins the code calls (strings, numbers,
                  percent coding), modelled once;
    - [Types]     src/types.ts: values, options, configuration checks;
    - [Encoding]  src/encoding.ts;
    - [Utils]     src/utils.ts;
    - [Parser]    src/parser.ts;
    - [Stringifier] src/stringifier.ts;
    - [Store]     stringify over an explicit object store, for the frame
                  property;
    - [Spec], [Laws] the notions the properties are stated with;
    followed by the properties.

    Conventions of the model.
    - A JavaScript string is a Rocq [string] holding the UTF-8 bytes of a
      well-formed text; ASCII characters are single bytes, so every test the
      code makes on a character (brackets, dots, '=', '&', '%') reads the
      same.  Lone surrogates are not represented.
    - A number is an exact decimal [Num m e] (value m / 10^e).  It agrees
      with a double for numerals of at most 15 significant digits; its
      text is written as [String] writes it, in full or, below 1e-6 and
      from 1e21 on, with an exponent; limits and indices are integers.
    - Objects are association lists in insertion order with unique keys;
      [Object_keys] computes the enumeration order of the language
      (canonical array indices ascending, then the other keys).
    - The code mutates the result tree in place.  Every object of that tree
      has one owner, so an update is modelled by returning the new tree and
      rebuilding the path to it.
    - [outcome] is the result of a call: a value, a thrown error, or
      [Unmodelled] for the corners of the language left out (writes through
      a primitive, named properties on arrays, a function of
      Object.prototype read as a value of the tree, dates without a time
      zone).  The stack of the host is not modelled: the recursion of the
      code over the segments of a key always returns here. *)

From Stdlib Require Import String Ascii List ZArith NArith Bool Lia Arith.
From Stdlib Require Import DecimalString.
From Stdlib Require DecimalFacts DecimalPos DecimalN.
From Stdlib Require Import Permutation.
Import ListNotations.

Set Warnings "-register-all".

Local Open Scope string_scope.
Local Open Scope list_scope.
Local Open Scope Z_scope.

Infix "+++" := String.append (at level 60, right associativity).

(** ** Results of calls *)

Inductive error :=
| TsQsError (code : string)
| TypeError
| URIError
| RangeError.

Inductive outcome (A : Type) :=
| Ok (a : A)
| Throw (e : error)
| Unmodelled.
Arguments Ok {A} a.
Arguments Throw {A} e.
Arguments Unmodelled {A}.

Definition bind {A B} (m : outcome A) (k : A -> outcome B) : outcome B :=
  match m with
  | Ok a => k a
  | Throw e => Throw e
  | Unmodelled => Unmodelled
  end.

Notation "'let*' x ':=' m 'in' k" := (bind m (fun x => k))
  (at level 10, x pattern, m at level 100, k at level 200).

(** [try { m } catch { h }]: a thrown error selects the handler. *)
Definition try_catch {A} (m : outcome A) (h : outcome A) : outcome A :=
  match m with
  | Throw _ => h
  | _ => m
  end.

(** ** JavaScript built-ins *)
Module Js.

(** *** Strings *)

Definition str_eqb (a b : string) : bool := String.eqb a b.

Fixpoint is_prefix (p s : string) : bool :=
  match p, s with
  | EmptyString, _ => true
  | String a p', String b s' => Ascii.eqb a b && is_prefix p' s'
  | String _ _, EmptyString => false
  end.

(** [s.includes(sub)] *)
Fixpoint includes (sub s : string) : bool :=
  is_prefix sub s ||
  match s with
  | EmptyString => false
  | String _ s' => includes sub s'
  end.

(** [s.indexOf(sub)], [None] for -1 *)
Fixpoint indexOf (sub s : string) : option nat :=
  if is_prefix sub s then Some 0%nat
  else match s with
       | EmptyString => None
       | String _ s' => option_map S (indexOf sub s')
       end.

(** [s.slice(0, n)] and [s.slice(n)] for 0 <= n *)
Fixpoint take (n : nat) (s : string) : string :=
  match n, s with
  | S k, String c s' => String c (take k s')
  | _, _ => EmptyString
  end.

Fixpoint drop (n : nat) (s : string) : string :=
  match n, s with
  | S k, String _ s' => drop k s'
  | _, _ => s
  end.

(** [s.split(d)] for a non-empty string [d]; [skip] counts the characters
    of a matched delimiter still to pass over. *)
Fixpoint split_from (d s : string) (skip : nat) : list string :=
  match s with
  | EmptyString => [EmptyString]
  | String c s' =>
      match skip with
      | S k => split_from d s' k
      | O =>
          if is_prefix d s then EmptyString :: split_from d s' (String.length d - 1)
          else match split_from d s' 0 with
               | h :: t => String c h :: t
               | [] => [String c EmptyString]
               end
      end
  end.

Fixpoint chars (s : string) : list string :=
  match s with
  | EmptyString => []
  | String c s' => String c EmptyString :: chars s'
  end.

(** With the empty delimiter the language splits into code units; the model
    splits into bytes, which is the same on ASCII text. *)
Definition split (d s : string) : list string :=
  match d with
  | EmptyString => chars s
  | _ => split_from d s 0
  end.

(** [l.join(sep)] *)
Fixpoint join (sep : string) (l : list string) : string :=
  match l with
  | [] => EmptyString
  | [x] => x
  | x :: t => x +++ sep +++ join sep t
  end.

(** [s.replace(/pat/g, rep)] for a literal, non-empty pattern. *)
Fixpoint replace_from (pat rep s : string) (skip : nat) : string :=
  match s with
  | EmptyString => EmptyString
  | String c s' =>
      match skip with
      | S k => replace_from pat rep s' k
      | O =>
          if is_prefix pat s then rep +++ replace_from pat rep s' (String.length pat - 1)
          else String c (replace_from pat rep s' 0)
      end
  end.

Definition replaceAll (pat rep s : string) : string := replace_from pat rep s 0.

(** [s.toUpperCase()] and [s.toLowerCase()] on ASCII letters *)
Fixpoint toUpperCase (s : string) : string :=
  match s with
  | EmptyString => EmptyString
  | String c s' =>
      let n := nat_of_ascii c in
      String (if (97 <=? n)%nat && (n <=? 122)%nat then ascii_of_nat (n - 32) else c)
             (toUpperCase s')
  end.

Definition is_digit (c : ascii) : bool :=
  let n := nat_of_ascii c in (48 <=? n)%nat && (n <=? 57)%nat.

Fixpoint all_digits (s : string) : bool :=
  match s with
  | EmptyString => true
  | String c s' => is_digit c && all_digits s'
  end.

(** [/^\d+$/.test(s)] *)
Definition is_digits1 (s : string) : bool :=
  match s with
  | EmptyString => false
  | _ => all_digits s
  end.

(** [parseInt(s, 10)] and [Number(s)] on a string of digits. *)
Fixpoint digits_value (s : string) (acc : Z) : Z :=
  match s with
  | EmptyString => acc
  | String c s' => digits_value s' (10 * acc + (Z.of_nat (nat_of_ascii c) - 48))
  end.

Definition parseInt (s : string) : Z := digits_value s 0.

(** *** White space and [trim] *)

(** The white space and line terminators [trim] removes, as UTF-8. *)
Definition white_space : list string :=
  let b := String.string_of_list_ascii in
  let a := ascii_of_nat in
  [ b [a 9%nat]; b [a 10%nat]; b [a 11%nat]; b [a 12%nat]; b [a 13%nat]; b [a 32%nat];
    b [a 194%nat; a 160%nat];
    b [a 225%nat; a 154%nat; a 128%nat];
    b [a 226%nat; a 128%nat; a 128%nat]; b [a 226%nat; a 128%nat; a 129%nat];
    b [a 226%nat; a 128%nat; a 130%nat]; b [a 226%nat; a 128%nat; a 131%nat];
    b [a 226%nat; a 128%nat; a 132%nat]; b [a 226%nat; a 128%nat; a 133%nat];
    b [a 226%nat; a 128%nat; a 134%nat]; b [a 226%nat; a 128%nat; a 135%nat];
    b [a 226%nat; a 128%nat; a 136%nat]; b [a 226%nat; a 128%nat; a 137%nat];
    b [a 226%nat; a 128%nat; a 138%nat];
    b [a 226%nat; a 128%nat; a 168%nat]; b [a 226%nat; a 128%nat; a 169%nat];
    b [a 226%nat; a 128%nat; a 175%nat];
    b [a 226%nat; a 129%nat; a 159%nat];
    b [a 227%nat; a 128%nat; a 128%nat];
    b [a 239%nat; a 187%nat; a 191%nat] ].

(** The length of the white-space character [s] starts with, 0 if none. *)
Definition ws_prefix_len (s : string) : nat :=
  match find (fun w => is_prefix w s) white_space with
  | Some w => String.length w
  | None => 0%nat
  end.

Fixpoint trimStart_fuel (fuel : nat) (s : string) : string :=
  match fuel with
  | O => s
  | S f =>
      match ws_prefix_len s with
      | O => s
      | n => trimStart_fuel f (drop n s)
      end
  end.

Definition trimStart (s : string) : string := trimStart_fuel (String.length s) s.

(** [trimEnd]: the text up to the end of the last character that is not
    white space.  [keep] is the length known to be kept, [pos] the current
    offset. *)
Fixpoint trimEnd_scan (s : string) (skip pos keep : nat) : nat :=
  match s with
  | EmptyString => keep
  | String _ s' =>
      match skip with
      | S k => trimEnd_scan s' k (S pos) keep
      | O =>
          match ws_prefix_len s with
          | O => trimEnd_scan s' 0 (S pos) (S pos)
          | S k => trimEnd_scan s' k (S pos) keep
          end
      end
  end.

Definition trimEnd (s : string) : string := take (trimEnd_scan s 0 0 0) s.

Definition trim (s : string) : string := trimEnd (trimStart s).

(** *** Numbers *)

Inductive number := Num (m : Z) (e : nat).

Definition number_eqb (a b : number) : bool :=
  match a, b with
  | Num m e, Num m' e' => (m =? m') && Nat.eqb e e'
  end.

(** Trailing zeros of the fraction are dropped: 1.50 is 1.5, 2.0 is 2. *)
Fixpoint normalize (m : Z) (e : nat) : number :=
  match e with
  | O => Num m O
  | S e' => if m mod 10 =? 0 then normalize (m / 10) e' else Num m e
  end.

Definition num_of_Z (z : Z) : number := Num z 0.

Definition num_is_zero (n : number) : bool :=
  match n with Num m _ => m =? 0 end.

(** [/^-?\d+(\.\d+)?$/.test(s)] *)
Definition numeric_regex (s : string) : bool :=
  let body := match s with
              | String "-" r => r
              | _ => s
              end in
  match split_from "." body 0 with
  | [i] => is_digits1 i
  | [i; f] => is_digits1 i && is_digits1 f
  | _ => false
  end.

(** [Number(s)] on a decimal literal; [None] stands for NaN.  The code
    applies [Number] only to strings that passed [numeric_regex] or
    [is_digits1]. *)
Definition Number (s : string) : option number :=
  if numeric_regex s then
    let neg := match s with String "-" _ => true | _ => false end in
    let body := if neg then drop 1 s else s in
    let sgn := if neg then (-1) else 1 in
    match split_from "." body 0 with
    | [i] => Some (Num (sgn * parseInt i) 0)
    | [i; f] =>
        Some (normalize (sgn * (parseInt i * 10 ^ Z.of_nat (String.length f) + parseInt f))
                        (String.length f))
    | _ => None
    end
  else None.

Definition N_to_string (n : N) : string := NilZero.string_of_uint (N.to_uint n).

Fixpoint pad_zeros (w : nat) (s : string) : string :=
  match (w - String.length s)%nat with
  | O => s
  | S _ => match w with
           | O => s
           | S w' => String "0" (pad_zeros w' s)
           end
  end.

(** The digits of a number written in full: the integer part, and after
    a point the [e] digits of the fraction. *)
Definition positional_text (m : Z) (e : nat) : string :=
  let a := Z.abs m in
  let sign := if m <? 0 then "-" else "" in
  match e with
  | O => sign +++ N_to_string (Z.to_N a)
  | _ =>
      let p := 10 ^ Z.of_nat e in
      sign +++ N_to_string (Z.to_N (a / p)) +++ "." +++
      pad_zeros e (N_to_string (Z.to_N (a mod p)))
  end.

(** The place of the first digit of a number that is not zero, counted
    from the point: the number lies between 10^(p-1) and 10^p. *)
Definition first_place (m : Z) (e : nat) : Z :=
  Z.of_nat (String.length (N_to_string (Z.to_N (Z.abs m)))) - Z.of_nat e.

(** [String(n)] writes an exponent from 1e21 on and below 1e-6. *)
Definition exponent_form (n : number) : bool :=
  match n with
  | Num m e =>
      negb (m =? 0) && ((21 <? first_place m e) || (first_place m e <=? -6))
  end.

(** The digits of [s] without the zeros at its end. *)
Fixpoint strip_zeros (s : string) : string :=
  match s with
  | EmptyString => EmptyString
  | String c s' =>
      match strip_zeros s' with
      | EmptyString => if Ascii.eqb c "0" then EmptyString else String c EmptyString
      | r => String c r
      end
  end.

(** The first digit, the others after a point, and the exponent with its
    sign: 1e+21, 1.5e-7. *)
Definition exponent_text (m : Z) (e : nat) : string :=
  let sign := if m <? 0 then "-" else "" in
  let x := first_place m e - 1 in
  let digits := strip_zeros (N_to_string (Z.to_N (Z.abs m))) in
  let mantissa := match digits with
                  | String d EmptyString => String d EmptyString
                  | String d r => String d ("." +++ r)
                  | EmptyString => "0"
                  end in
  sign +++ mantissa +++ "e" +++ (if x <? 0 then "-" else "+") +++
  N_to_string (Z.to_N (Z.abs x)).

(** [String(n)] for a number *)
Definition String_of_number (n : number) : string :=
  match n with
  | Num m e => if exponent_form n then exponent_text m e else positional_text m e
  end.

(** *** Hexadecimal and UTF-8 *)

Definition hex_val (c : ascii) : option N :=
  let n := N_of_ascii c in
  if (48 <=? n)%N && (n <=? 57)%N then Some (n - 48)%N
  else if (65 <=? n)%N && (n <=? 70)%N then Some (n - 55)%N
  else if (97 <=? n)%N && (n <=? 102)%N then Some (n - 87)%N
  else None.

Definition hex_digit (n : N) : ascii :=
  if (n <? 10)%N then ascii_of_N (48 + n) else ascii_of_N (55 + n).

(** [n.toString(16).toUpperCase().padStart(2, '0')] for n < 256 *)
Definition hex2 (n : N) : string :=
  String (hex_digit (n / 16)) (String (hex_digit (n mod 16)) EmptyString).

(** [n.toString(16).toUpperCase()] for n < 256 *)
Definition hex_upper (n : N) : string :=
  if (n <? 16)%N then String (hex_digit n) EmptyString else hex2 n.

(** The byte of a [%XX] escape at the head of [s]. *)
Definition escape_at (s : string) : option N :=
  match s with
  | String "%" (String a (String b _)) =>
      match hex_val a, hex_val b with
      | Some x, Some y => Some (16 * x + y)%N
      | _, _ => None
      end
  | _ => None
  end.

Definition in_range (lo hi x : N) : bool := ((lo <=? x) && (x <=? hi))%N.

Definition is_cont (x : N) : bool := in_range 128 191 x.

(** Well-formed UTF-8 sequences (no overlong form, no surrogate, at most
    U+10FFFF), given the lead byte and the bytes that follow it. *)
Definition utf8_seq_len (b0 : N) : nat :=
  if in_range 194 223 b0 then 2
  else if in_range 224 239 b0 then 3
  else if in_range 240 244 b0 then 4
  else 0.

Definition utf8_valid (b0 : N) (rest : list N) : bool :=
  match rest with
  | [b1] => in_range 194 223 b0 && is_cont b1
  | [b1; b2] =>
      is_cont b2 &&
      (if (b0 =? 224)%N then in_range 160 191 b1
       else if (b0 =? 237)%N then in_range 128 159 b1
       else in_range 224 239 b0 && is_cont b1)
  | [b1; b2; b3] =>
      is_cont b2 && is_cont b3 &&
      (if (b0 =? 240)%N then in_range 144 191 b1
       else if (b0 =? 244)%N then in_range 128 143 b1
       else in_range 241 243 b0 && is_cont b1)
  | _ => false
  end.

Definition bytes_to_string (l : list N) : string :=
  string_of_list_ascii (map ascii_of_N l).

(** The code point of a well-formed sequence. *)
Definition utf8_code_point (b0 : N) (rest : list N) : N :=
  match rest with
  | [] => b0
  | [b1] => ((b0 - 192) * 64 + (b1 - 128))%N
  | [b1; b2] => ((b0 - 224) * 4096 + (b1 - 128) * 64 + (b2 - 128))%N
  | [b1; b2; b3] =>
      ((b0 - 240) * 262144 + (b1 - 128) * 4096 + (b2 - 128) * 64 + (b3 - 128))%N
  | _ => b0
  end.

(** The UTF-8 bytes of a code point that is not a surrogate. *)
Definition utf8_encode (cp : N) : string :=
  if (cp <? 128)%N then bytes_to_string [cp]
  else if (cp <? 2048)%N then bytes_to_string [192 + cp / 64; 128 + cp mod 64]%N
  else if (cp <? 65536)%N then
    bytes_to_string [224 + cp / 4096; 128 + (cp / 64) mod 64; 128 + cp mod 64]%N
  else
    bytes_to_string [240 + cp / 262144; 128 + (cp / 4096) mod 64;
                     128 + (cp / 64) mod 64; 128 + cp mod 64]%N.

Definition raw_bytes (s : string) : list N := map N_of_ascii (list_ascii_of_string s).

(** The code points of a text; a byte outside a well-formed sequence counts
    for itself. *)
Fixpoint code_points_from (s : string) (skip : nat) : list N :=
  match s with
  | EmptyString => []
  | String c s' =>
      match skip with
      | S k => code_points_from s' k
      | O =>
          let b0 := N_of_ascii c in
          let n := utf8_seq_len b0 in
          let rest := raw_bytes (take (n - 1) s') in
          if (0 <? n)%nat && utf8_valid b0 rest
          then utf8_code_point b0 rest :: code_points_from s' (n - 1)
          else b0 :: code_points_from s' 0
      end
  end.

(** The UTF-16 code units of a text: what [charCodeAt] enumerates. *)
Definition code_units (s : string) : list N :=
  flat_map (fun cp =>
              if (cp <? 65536)%N then [cp]
              else [55296 + (cp - 65536) / 1024; 56320 + (cp - 65536) mod 1024]%N)
           (code_points_from s 0).

Definition is_surrogate (u : N) : bool := in_range 55296 57343 u.

(** *** encodeURIComponent and decodeURIComponent *)

Definition uri_unreserved (c : ascii) : bool :=
  let n := N_of_ascii c in
  in_range 65 90 n || in_range 97 122 n || in_range 48 57 n ||
  existsb (Ascii.eqb c) ["-"; "_"; "."; "!"; "~"; "*"; "'"; "("; ")"]%char.

Fixpoint encodeURIComponent (s : string) : string :=
  match s with
  | EmptyString => EmptyString
  | String c s' =>
      if uri_unreserved c then String c (encodeURIComponent s')
      else "%" +++ hex2 (N_of_ascii c) +++ encodeURIComponent s'
  end.

(** [None] is the URIError of a malformed escape. *)
Fixpoint decode_from (s : string) (skip : nat) : option string :=
  match s with
  | EmptyString => Some EmptyString
  | String c s' =>
      match skip with
      | S k => decode_from s' k
      | O =>
          if Ascii.eqb c "%" then
            match escape_at s with
            | None => None
            | Some b0 =>
                if (b0 <? 128)%N
                then option_map (String (ascii_of_N b0)) (decode_from s' 2)
                else
                  let n := utf8_seq_len b0 in
                  let conts :=
                    map (fun i => escape_at (drop (3 * i) s)) (seq 1 (n - 1)) in
                  if forallb (fun o => match o with Some _ => true | None => false end) conts
                  then
                    let rest := flat_map (fun o => match o with Some b => [b] | None => [] end) conts in
                    if utf8_valid b0 rest
                    then option_map (String.append (bytes_to_string (b0 :: rest)))
                                    (decode_from s' (3 * n - 1))
                    else None
                  else None
            end
          else option_map (String c) (decode_from s' 0)
      end
  end.

Definition decodeURIComponent (s : string) : outcome string :=
  match decode_from s 0 with
  | Some r => Ok r
  | None => Throw URIError
  end.

End Js.

(** ** src/types.ts *)
Module Types.

(** [QueryValue], with [undefined] and the unset slots of an array both
    read as [VUndefined] (no function of the repository tells them apart).
    A date is held as the text [toISOString] returns for it. *)
Inductive value :=
| VUndefined
| VNull
| VBool (b : bool)
| VNum (n : Js.number)
| VStr (s : string)
| VDate (iso : string)
| VArr (items : list value)
| VObj (props : list (string * value)).

Inductive ArrayFormat := Indices | Brackets | Repeat | Comma.
Inductive DuplicateStrategy := Combine | First | Last.
Inductive Charset := Utf8 | Iso88591.
Inductive Format := RFC3986 | RFC1738.
Inductive TokenKind := KKey | KValue.

(** Hooks are functions of the model; a hook that throws returns [Throw]. *)
Definition EncoderFunction :=
  string -> (string -> string) -> Charset -> TokenKind -> outcome string.
Definition DecoderFunction :=
  string -> (string -> string) -> Charset -> TokenKind -> outcome string.
Definition FilterFunction := string -> value -> value.
Definition SortFunction := string -> string -> Z.
Definition SerializeDateFunction := string -> string.

(** A delimiter is a string or a regular expression, the latter given by
    the split it performs. *)
Inductive Delimiter :=
| DelimString (s : string)
| DelimRegExp (split : string -> list string).

Inductive FilterKey := FKString (s : string) | FKNumber (n : Js.number).

Inductive Filter :=
| FilterKeys (keys : list FilterKey)
| FilterFn (f : FilterFunction).

Record ParseOptions := mkParseOptions {
  allowDots : bool;
  allowEmptyArrays : bool;
  allowPrototypes : bool;
  allowSparse : bool;
  arrayLimit : Z;
  charset : Charset;
  charsetSentinel : bool;
  comma : bool;
  decodeDotInKeys : bool;
  decoder : option DecoderFunction;
  delimiter : Delimiter;
  depth : Z;
  duplicates : DuplicateStrategy;
  ignoreQueryPrefix : bool;
  interpretNumericEntities : bool;
  parameterLimit : Z;
  parseArrays : bool;
  plainObjects : bool;
  strictNullHandling : bool;
  strictDepth : bool;
  parseNumbers : bool;
  parseBooleans : bool;
  parseDates : bool
}.

(** The defaults of [ParseConfig]. *)
Definition defaultParseOptions : ParseOptions := {|
  allowDots := false;
  allowEmptyArrays := false;
  allowPrototypes := false;
  allowSparse := false;
  arrayLimit := 20;
  charset := Utf8;
  charsetSentinel := false;
  comma := false;
  decodeDotInKeys := false;
  decoder := None;
  delimiter := DelimString "&";
  depth := 5;
  duplicates := Combine;
  ignoreQueryPrefix := false;
  interpretNumericEntities := false;
  parameterLimit := 1000;
  parseArrays := true;
  plainObjects := false;
  strictNullHandling := false;
  strictDepth := false;
  parseNumbers := false;
  parseBooleans := false;
  parseDates := false
|}.

(** Options given by the caller override the defaults one field at a
    time. *)
Definition with_strictNullHandling (b : bool) (o : ParseOptions) : ParseOptions :=
  mkParseOptions (allowDots o) (allowEmptyArrays o) (allowPrototypes o) (allowSparse o)
    (arrayLimit o) (charset o) (charsetSentinel o) (comma o) (decodeDotInKeys o)
    (decoder o) (delimiter o) (depth o) (duplicates o) (ignoreQueryPrefix o)
    (interpretNumericEntities o) (parameterLimit o) (parseArrays o) (plainObjects o)
    b (strictDepth o) (parseNumbers o) (parseBooleans o) (parseDates o).

Definition with_dots (dots decodeDots : bool) (o : ParseOptions) : ParseOptions :=
  mkParseOptions dots (allowEmptyArrays o) (allowPrototypes o) (allowSparse o)
    (arrayLimit o) (charset o) (charsetSentinel o) (comma o) decodeDots
    (decoder o) (delimiter o) (depth o) (duplicates o) (ignoreQueryPrefix o)
    (interpretNumericEntities o) (parameterLimit o) (parseArrays o) (plainObjects o)
    (strictNullHandling o) (strictDepth o) (parseNumbers o) (parseBooleans o) (parseDates o).

Definition with_depth (d : Z) (strict : bool) (o : ParseOptions) : ParseOptions :=
  mkParseOptions (allowDots o) (allowEmptyArrays o) (allowPrototypes o) (allowSparse o)
    (arrayLimit o) (charset o) (charsetSentinel o) (comma o) (decodeDotInKeys o)
    (decoder o) (delimiter o) d (duplicates o) (ignoreQueryPrefix o)
    (interpretNumericEntities o) (parameterLimit o) (parseArrays o) (plainObjects o)
    (strictNullHandling o) strict (parseNumbers o) (parseBooleans o) (parseDates o).

Definition with_parameterLimit (n : Z) (o : ParseOptions) : ParseOptions :=
  mkParseOptions (allowDots o) (allowEmptyArrays o) (allowPrototypes o) (allowSparse o)
    (arrayLimit o) (charset o) (charsetSentinel o) (comma o) (decodeDotInKeys o)
    (decoder o) (delimiter o) (depth o) (duplicates o) (ignoreQueryPrefix o)
    (interpretNumericEntities o) n (parseArrays o) (plainObjects o)
    (strictNullHandling o) (strictDepth o) (parseNumbers o) (parseBooleans o) (parseDates o).

Definition with_coercion (numbers booleans : bool) (o : ParseOptions) : ParseOptions :=
  mkParseOptions (allowDots o) (allowEmptyArrays o) (allowPrototypes o) (allowSparse o)
    (arrayLimit o) (charset o) (charsetSentinel o) (comma o) (decodeDotInKeys o)
    (decoder o) (delimiter o) (depth o) (duplicates o) (ignoreQueryPrefix o)
    (interpretNumericEntities o) (parameterLimit o) (parseArrays o) (plainObjects o)
    (strictNullHandling o) (strictDepth o) numbers booleans (parseDates o).

Definition with_ignoreQueryPrefix (b : bool) (o : ParseOptions) : ParseOptions :=
  mkParseOptions (allowDots o) (allowEmptyArrays o) (allowPrototypes o) (allowSparse o)
    (arrayLimit o) (charset o) (charsetSentinel o) (comma o) (decodeDotInKeys o)
    (decoder o) (delimiter o) (depth o) (duplicates o) b
    (interpretNumericEntities o) (parameterLimit o) (parseArrays o) (plainObjects o)
    (strictNullHandling o) (strictDepth o) (parseNumbers o) (parseBooleans o) (parseDates o).

Definition with_comma (b : bool) (o : ParseOptions) : ParseOptions :=
  mkParseOptions (allowDots o) (allowEmptyArrays o) (allowPrototypes o) (allowSparse o)
    (arrayLimit o) (charset o) (charsetSentinel o) b (decodeDotInKeys o)
    (decoder o) (delimiter o) (depth o) (duplicates o) (ignoreQueryPrefix o)
    (interpretNumericEntities o) (parameterLimit o) (parseArrays o) (plainObjects o)
    (strictNullHandling o) (strictDepth o) (parseNumbers o) (parseBooleans o) (parseDates o).

Definition with_duplicates (s : DuplicateStrategy) (o : ParseOptions) : ParseOptions :=
  mkParseOptions (allowDots o) (allowEmptyArrays o) (allowPrototypes o) (allowSparse o)
    (arrayLimit o) (charset o) (charsetSentinel o) (comma o) (decodeDotInKeys o)
    (decoder o) (delimiter o) (depth o) s (ignoreQueryPrefix o)
    (interpretNumericEntities o) (parameterLimit o) (parseArrays o) (plainObjects o)
    (strictNullHandling o) (strictDepth o) (parseNumbers o) (parseBooleans o) (parseDates o).

Definition with_allowSparse (b : bool) (o : ParseOptions) : ParseOptions :=
  mkParseOptions (allowDots o) (allowEmptyArrays o) (allowPrototypes o) b
    (arrayLimit o) (charset o) (charsetSentinel o) (comma o) (decodeDotInKeys o)
    (decoder o) (delimiter o) (depth o) (duplicates o) (ignoreQueryPrefix o)
    (interpretNumericEntities o) (parameterLimit o) (parseArrays o) (plainObjects o)
    (strictNullHandling o) (strictDepth o) (parseNumbers o) (parseBooleans o) (parseDates o).

(** [ParseConfig.validate] *)
Definition validateParse (o : ParseOptions) : outcome unit :=
  if arrayLimit o <? 0 then Throw (TsQsError "INVALID_ARRAY_LIMIT")
  else if depth o <? 0 then Throw (TsQsError "INVALID_DEPTH")
  else if parameterLimit o <? 0 then Throw (TsQsError "INVALID_PARAMETER_LIMIT")
  else if decodeDotInKeys o && negb (allowDots o) then Throw (TsQsError "INVALID_DOT_DECODE")
  else Ok tt.

Record StringifyOptions := mkStringifyOptions {
  addQueryPrefix : bool;
  s_allowDots : bool;
  s_allowEmptyArrays : bool;
  arrayFormat : ArrayFormat;
  s_charset : Charset;
  s_charsetSentinel : bool;
  commaRoundTrip : bool;
  s_delimiter : string;
  encode : bool;
  encodeDotInKeys : bool;
  encodeValuesOnly : bool;
  encoder : option EncoderFunction;
  filter : option Filter;
  format : Format;
  indices : bool;
  serializeDate : option SerializeDateFunction;
  skipNulls : bool;
  sort : option SortFunction;
  s_strictNullHandling : bool
}.

(** The defaults of [StringifyConfig]. *)
Definition defaultStringifyOptions : StringifyOptions := {|
  addQueryPrefix := false;
  s_allowDots := false;
  s_allowEmptyArrays := false;
  arrayFormat := Indices;
  s_charset := Utf8;
  s_charsetSentinel := false;
  commaRoundTrip := false;
  s_delimiter := "&";
  encode := true;
  encodeDotInKeys := false;
  encodeValuesOnly := false;
  encoder := None;
  filter := None;
  format := RFC3986;
  indices := true;
  serializeDate := None;
  skipNulls := false;
  sort := None;
  s_strictNullHandling := false
|}.

Definition with_arrayFormat (f : ArrayFormat) (o : StringifyOptions) : StringifyOptions :=
  mkStringifyOptions (addQueryPrefix o) (s_allowDots o) (s_allowEmptyArrays o) f
    (s_charset o) (s_charsetSentinel o) (commaRoundTrip o) (s_delimiter o) (encode o)
    (encodeDotInKeys o) (encodeValuesOnly o) (encoder o) (filter o) (format o)
    (indices o) (serializeDate o) (skipNulls o) (sort o) (s_strictNullHandling o).

Definition with_skipNulls (b : bool) (o : StringifyOptions) : StringifyOptions :=
  mkStringifyOptions (addQueryPrefix o) (s_allowDots o) (s_allowEmptyArrays o)
    (arrayFormat o) (s_charset o) (s_charsetSentinel o) (commaRoundTrip o) (s_delimiter o)
    (encode o) (encodeDotInKeys o) (encodeValuesOnly o) (encoder o) (filter o) (format o)
    (indices o) (serializeDate o) b (sort o) (s_strictNullHandling o).

Definition with_strictNulls (b : bool) (o : StringifyOptions) : StringifyOptions :=
  mkStringifyOptions (addQueryPrefix o) (s_allowDots o) (s_allowEmptyArrays o)
    (arrayFormat o) (s_charset o) (s_charsetSentinel o) (commaRoundTrip o) (s_delimiter o)
    (encode o) (encodeDotInKeys o) (encodeValuesOnly o) (encoder o) (filter o) (format o)
    (indices o) (serializeDate o) (skipNulls o) (sort o) b.

(** [StringifyConfig.validate] *)
Definition validateStringify (o : StringifyOptions) : outcome unit :=
  if encodeDotInKeys o && negb (s_allowDots o) then Throw (TsQsError "INVALID_DOT_ENCODE")
  else Ok tt.

(** *** Objects as insertion-ordered property lists *)

Definition props := list (string * value).

Fixpoint lookup (k : string) (ps : props) : option value :=
  match ps with
  | [] => None
  | (k', v) :: t => if String.eqb k k' then Some v else lookup k t
  end.

(** [obj[k] = v] on own properties: an existing key keeps its place, a new
    key goes last. *)
Fixpoint assign (k : string) (v : value) (ps : props) : props :=
  match ps with
  | [] => [(k, v)]
  | (k', v') :: t => if String.eqb k k' then (k, v) :: t else (k', v') :: assign k v t
  end.

(** A canonical array index: decimal, no leading zero, below 2^32 - 1. *)
Definition is_index_key (k : string) : bool :=
  Js.is_digits1 k &&
  (String.eqb k "0" || negb (Js.is_prefix "0" k)) &&
  (Js.parseInt k <? 4294967295).

Fixpoint insert_by_index (k : string) (l : list string) : list string :=
  match l with
  | [] => [k]
  | h :: t => if Js.parseInt k <? Js.parseInt h then k :: l else h :: insert_by_index k t
  end.

(** [Object.keys]: index keys in ascending order, then the other keys in
    insertion order. *)
Definition Object_keys (ps : props) : list string :=
  let ks := map fst ps in
  fold_right insert_by_index [] (List.filter is_index_key ks)
  ++ List.filter (fun k => negb (is_index_key k)) ks.

(** The names every ordinary object inherits from Object.prototype. *)
Definition inherited_names : list string :=
  [ "constructor"; "__defineGetter__"; "__defineSetter__"; "hasOwnProperty";
    "__lookupGetter__"; "__lookupSetter__"; "isPrototypeOf";
    "propertyIsEnumerable"; "toString"; "valueOf"; "__proto__"; "toLocaleString" ].

Definition is_inherited (k : string) : bool := existsb (String.eqb k) inherited_names.

(** [!v] *)
Definition falsy (v : value) : bool :=
  match v with
  | VUndefined | VNull | VBool false | VStr EmptyString => true
  | VNum n => Js.num_is_zero n
  | _ => false
  end.

End Types.

(** ** src/encoding.ts *)
Module Encoding.
Import Types.

(** [s.replace(/[!'()*]/g, c => '%' + hex(c))] *)
Fixpoint escape_marks (s : string) : string :=
  match s with
  | EmptyString => EmptyString
  | String c s' =>
      if existsb (Ascii.eqb c) ["!"; "'"; "("; ")"; "*"]%char
      then "%" +++ Js.hex_upper (N_of_ascii c) +++ escape_marks s'
      else String c (escape_marks s')
  end.

Definition rfc3986Encoder (str : string) : string :=
  escape_marks (Js.encodeURIComponent str).

Definition rfc1738Encoder (str : string) : string :=
  Js.replaceAll "%20" "+" (rfc3986Encoder str).

Definition defaultDecoder (str : string) : string :=
  match Js.decodeURIComponent (Js.replaceAll "+" " " str) with
  | Ok r => r
  | _ => str
  end.

Definition getEncoder (f : Format) : string -> string :=
  match f with
  | RFC1738 => rfc1738Encoder
  | RFC3986 => rfc3986Encoder
  end.

Definition encodeISO88591 (str : string) : string :=
  String.concat ""
    (map (fun code =>
            if (code <=? 255)%N then "%" +++ Js.hex2 code
            else "%26%23" +++ Js.N_to_string code +++ "%3B")
         (Js.code_units str)).

(** [str.replace(/%([0-9A-F]{2})/gi, ...)] *)
Fixpoint decodeISO88591_from (s : string) (skip : nat) : string :=
  match s with
  | EmptyString => EmptyString
  | String c s' =>
      match skip with
      | S k => decodeISO88591_from s' k
      | O =>
          match Js.escape_at s with
          | Some code => Js.utf8_encode code +++ decodeISO88591_from s' 2
          | None => String c (decodeISO88591_from s' 0)
          end
      end
  end.

Definition decodeISO88591 (str : string) : string := decodeISO88591_from str 0.

Definition encode (str : string) (defaultEncoder : string -> string) (cs : Charset) : string :=
  match cs with
  | Iso88591 => encodeISO88591 str
  | Utf8 => defaultEncoder str
  end.

Definition decode (str : string) (defaultDecoder : string -> string) (cs : Charset) : string :=
  match cs with
  | Iso88591 => decodeISO88591 str
  | Utf8 => defaultDecoder str
  end.

(** The digits at the head of [s]. *)
Fixpoint digit_run (s : string) : string :=
  match s with
  | String c s' => if Js.is_digit c then String c (digit_run s') else EmptyString
  | EmptyString => EmptyString
  end.

(** The entity [&#ddd;] at the head of [s]: its number and its length. *)
Definition entity_at (s : string) : option (Z * nat) :=
  if Js.is_prefix "&#" s then
    let ds := digit_run (Js.drop 2 s) in
    if negb (String.eqb ds "") && Js.is_prefix ";" (Js.drop (2 + String.length ds) s)
    then Some (Js.parseInt ds, (3 + String.length ds)%nat)
    else None
  else None.

(** [str.replace(/&#(\d+);/g, ...)], with [String.fromCharCode] reducing
    the number modulo 2^16; a surrogate code unit is outside the model. *)
Fixpoint parseNumericEntities_from (s : string) (skip : nat) : outcome string :=
  match s with
  | EmptyString => Ok EmptyString
  | String c s' =>
      match skip with
      | S k => parseNumericEntities_from s' k
      | O =>
          match entity_at s with
          | Some (num, len) =>
              let code := Z.to_N (num mod 65536) in
              if Js.is_surrogate code then Unmodelled
              else let* r := parseNumericEntities_from s' (len - 1) in
                   Ok (Js.utf8_encode code +++ r)
          | None =>
              let* r := parseNumericEntities_from s' 0 in Ok (String c r)
          end
      end
  end.

Definition parseNumericEntities (str : string) : outcome string :=
  parseNumericEntities_from str 0.

(** The text up to the first '&'. *)
Fixpoint until_amp (s : string) : string :=
  match s with
  | EmptyString => EmptyString
  | String c s' => if Ascii.eqb c "&" then EmptyString else String c (until_amp s')
  end.

(** The capture of the pattern utf8= followed by any run without '&', on
    its first match anywhere in the text. *)
Fixpoint utf8_match (s : string) : option string :=
  if Js.is_prefix "utf8=" s then Some (until_amp (Js.drop 5 s))
  else match s with
       | EmptyString => None
       | String _ s' => utf8_match s'
       end.

(** U+2713, the check mark *)
Definition check_mark : string := Js.bytes_to_string [226; 156; 147]%N.

Definition detectCharset (str : string) : outcome Charset :=
  match utf8_match str with
  | Some m =>
      if String.eqb m "" then Ok Utf8
      else
        let* value := Js.decodeURIComponent m in
        if String.eqb value check_mark then Ok Utf8
        else if Js.includes "10003" value then Ok Iso88591
        else Ok Utf8
  | None => Ok Utf8
  end.

Definition addCharsetSentinel (str : string) (cs : Charset) : string :=
  let sentinel := match cs with
                  | Utf8 => "utf8=%E2%9C%93"
                  | Iso88591 => "utf8=%26%2310003%3B"
                  end in
  if String.eqb str "" then sentinel else sentinel +++ "&" +++ str.

(** [str.replace(/^utf8=[^&]*&?/, '')] *)
Definition removeCharsetSentinel (str : string) : string :=
  if Js.is_prefix "utf8=" str then
    let m := until_amp (Js.drop 5 str) in
    let rest := Js.drop (5 + String.length m) str in
    if Js.is_prefix "&" rest then Js.drop 1 rest else rest
  else str.

End Encoding.

(** ** Property access of the language on a [value] *)
Module Obj.
Import Types.

(** [target[k]] read.  [plain] tells whether the objects at hand were made
    by [createPlainObject] (no prototype). *)
Definition get (plain : bool) (target : value) (k : string) : outcome value :=
  match target with
  | VObj ps =>
      match lookup k ps with
      | Some v => Ok v
      | None => if negb plain && is_inherited k then Unmodelled else Ok VUndefined
      end
  | _ => Unmodelled
  end.

(** [target[k]] is found on Object.prototype: [k] is no property of the
    object's own and is a name every ordinary object inherits.  What the
    code reads there is a function, or for [__proto__] the prototype
    itself: it is not undefined and not an array, and no [value] stands
    for it. *)
Definition inherited (plain : bool) (target : value) (k : string) : bool :=
  match target with
  | VObj ps =>
      match lookup k ps with
      | Some _ => false
      | None => negb plain && is_inherited k
      end
  | _ => false
  end.

(** [target[k] = v] *)
Definition set (plain : bool) (target : value) (k : string) (v : value) : outcome value :=
  match target with
  | VObj ps =>
      if negb plain && String.eqb k "__proto__" then Unmodelled
      else Ok (VObj (assign k v ps))
  | _ => Unmodelled
  end.

(** [arr[i] = v] on an array, which grows with unset slots when [i] is
    past the end; an index from 2^32 - 1 on would be a named property. *)
Definition array_set (i : Z) (v : value) (l : list value) : outcome (list value) :=
  if (i <? 0) || (4294967295 <=? i) then Unmodelled
  else
    let n := Z.to_nat i in
    if (n <? length l)%nat then Ok (firstn n l ++ v :: skipn (S n) l)
    else Ok (l ++ repeat VUndefined (n - length l) ++ [v]).

(** [arr[i]] read *)
Definition array_get (i : Z) (l : list value) : value :=
  if i <? 0 then VUndefined else nth (Z.to_nat i) l VUndefined.

End Obj.

(** ** src/utils.ts *)
Module Utils.
Import Types.

Definition isObject (v : value) : bool :=
  match v with
  | VObj _ | VDate _ => true
  | _ => false
  end.

Definition createPlainObject : value := VObj [].

Definition is_undefined (v : value) : bool :=
  match v with VUndefined => true | _ => false end.

Definition compactArray (arr : list value) : list value :=
  List.filter (fun item => negb (is_undefined item)) arr.

Definition isNumericString (str : string) : bool :=
  Js.numeric_regex str &&
  match Js.Number str with Some _ => true | None => false end.

Definition isBooleanString (str : string) : bool :=
  String.eqb str "true" || String.eqb str "false".

(** A pattern in which [d] stands for a digit and any other character for
    itself. *)
Fixpoint matches (pat s : string) : bool :=
  match pat, s with
  | EmptyString, EmptyString => true
  | String p pat', String c s' =>
      (if Ascii.eqb p "d" then Js.is_digit c else Ascii.eqb p c) && matches pat' s'
  | _, _ => false
  end.

Definition date_regex (str : string) : bool :=
  matches "dddd-dd-ddTdd:dd:dd" str || matches "dddd-dd-ddTdd:dd:ddZ" str ||
  matches "dddd-dd-ddTdd:dd:dd.ddd" str || matches "dddd-dd-ddTdd:dd:dd.dddZ" str.

Definition days_in_month (y m : Z) : Z :=
  if m =? 2 then
    if ((y mod 4 =? 0) && negb (y mod 100 =? 0)) || (y mod 400 =? 0) then 29 else 28
  else if (m =? 4) || (m =? 6) || (m =? 9) || (m =? 11) then 30
  else 31.

Definition field (str : string) (from len : nat) : Z :=
  Js.parseInt (Js.take len (Js.drop from str)).

(** [new Date(str)] on a text that passed [date_regex], as the text
    [toISOString] gives back, [None] for an invalid date.  Only the UTC
    form with every field in its calendar range is modelled: the reading of
    a text without 'Z' depends on the time zone of the host, and that of an
    out-of-range field on the engine. *)
Definition Date_of_string (str : string) : outcome (option string) :=
  let y := field str 0 4 in
  let mo := field str 5 2 in
  let d := field str 8 2 in
  let h := field str 11 2 in
  let mi := field str 14 2 in
  let s := field str 17 2 in
  if Js.includes "Z" str &&
     (1 <=? mo) && (mo <=? 12) && (1 <=? d) && (d <=? days_in_month y mo) &&
     (h <=? 23) && (mi <=? 59) && (s <=? 59)
  then Ok (Some (if Js.includes "." str then str
                 else Js.take 19 str +++ ".000Z"))
  else Unmodelled.

Definition isDateString (str : string) : outcome bool :=
  if negb (date_regex str) then Ok false
  else
    let* date := Date_of_string str in
    Ok (match date with Some _ => true | None => false end).

Definition autoConvert (str : string) (parseNumbers parseBooleans parseDates : bool)
  : outcome value :=
  if String.eqb str "" then Ok (VStr str)
  else if parseBooleans && isBooleanString str then Ok (VBool (String.eqb str "true"))
  else if parseNumbers && isNumericString str then
    match Js.Number str with
    | Some n => Ok (VNum n)
    | None => Unmodelled
    end
  else if parseDates then
    let* isDate := isDateString str in
    if isDate then
      let* date := Date_of_string str in
      match date with
      | Some iso => Ok (VDate iso)
      | None => Unmodelled
      end
    else Ok (VStr str)
  else Ok (VStr str).

Definition hasPrototypePollution (key : string) : bool :=
  String.eqb key "__proto__" || String.eqb key "constructor" || String.eqb key "prototype".

Definition safeSetProperty (plain : bool) (obj : value) (key : string) (v : value)
           (allowPrototypes : bool) : outcome value :=
  if negb allowPrototypes && hasPrototypePollution key then Ok obj
  else Obj.set plain obj key v.

(** The loop of [parseBracketNotation] over the characters of the key. *)
Fixpoint parseBracketNotation_loop (key : string) (segments : list string)
         (current : string) (inBrackets : bool) (bracketDepth : Z) : list string :=
  match key with
  | EmptyString =>
      if negb (String.eqb current "") then segments ++ [current] else segments
  | String char key' =>
      if Ascii.eqb char "[" && negb inBrackets then
        if negb (String.eqb current "")
        then parseBracketNotation_loop key' (segments ++ [current]) "" true 1
        else parseBracketNotation_loop key' segments current true 1
      else if Ascii.eqb char "[" && inBrackets then
        parseBracketNotation_loop key' segments (current +++ String char "") inBrackets
                                  (bracketDepth + 1)
      else if Ascii.eqb char "]" && inBrackets then
        if bracketDepth - 1 =? 0
        then parseBracketNotation_loop key' (segments ++ [current]) "" false (bracketDepth - 1)
        else parseBracketNotation_loop key' segments (current +++ String char "") inBrackets
                                       (bracketDepth - 1)
      else
        parseBracketNotation_loop key' segments (current +++ String char "") inBrackets
                                  bracketDepth
  end.

Definition parseBracketNotation (key : string) : list string :=
  parseBracketNotation_loop key [] "" false 0.

Definition isArrayIndex (key : string) : bool := Js.is_digits1 key.

Fixpoint insert_sorted (x : Z) (l : list Z) : list Z :=
  match l with
  | [] => [x]
  | h :: t => if x <=? h then x :: l else h :: insert_sorted x t
  end.

Definition sort_numbers (l : list Z) : list Z := fold_right insert_sorted [] l.

(** [Math.max(...l)] for a non-empty [l] of non-negative numbers *)
Definition Math_max (l : list Z) : Z := fold_right Z.max 0 l.

(** The loop [for (const key of keys) arr[Number(key)] = obj[key]]; on a
    string of digits [Number] is [parseInt]. *)
Fixpoint fill_array (ps : props) (keys : list string) (arr : list value)
  : outcome (list value) :=
  match keys with
  | [] => Ok arr
  | key :: rest =>
      let index := Js.parseInt key in
      let v := match lookup key ps with Some v => v | None => VUndefined end in
      let* arr' := Obj.array_set index v arr in
      fill_array ps rest arr'
  end.

Definition maybeConvertToArray (obj : props) (allowSparse : bool) : outcome value :=
  let keys := Object_keys obj in
  if (length keys =? 0)%nat then Ok (VObj obj)
  else
    let allNumeric := forallb isArrayIndex keys in
    if negb allNumeric then Ok (VObj obj)
    else
      let indices := sort_numbers (map Js.parseInt keys) in
      let maxIndex := Math_max indices in
      if negb allowSparse && (Z.of_nat (length keys) * 2 <=? maxIndex) then Ok (VObj obj)
      else
        let* arr := fill_array obj keys [] in
        Ok (VArr (if allowSparse then arr else compactArray arr)).

Definition checkLimit (current limit : Z) (type : string) (throwOnExceeded : bool)
  : outcome unit :=
  if limit <? current then
    if throwOnExceeded then Throw (TsQsError ("LIMIT_EXCEEDED_" +++ Js.toUpperCase type))
    else Ok tt
  else Ok tt.

Definition splitByDelimiter (str : string) (d : Delimiter) : list string :=
  match d with
  | DelimRegExp split => split str
  | DelimString s => Js.split s str
  end.

(** [getNestedPath]; on a string [keys[0] || ''] is [keys[0]]. *)
Definition getNestedPath (keys : list string) : string :=
  match keys with
  | [] => ""
  | [k] => k
  | first :: rest => first +++ Js.join "" (map (fun key => "[" +++ key +++ "]") rest)
  end.

(** [{...v}] for an object: its own properties in the order of
    [Object.keys].  A date has none. *)
Definition spread (v : value) : props :=
  match v with
  | VObj ps =>
      map (fun k => (k, match lookup k ps with Some x => x | None => VUndefined end))
          (Object_keys ps)
  | _ => []
  end.

(** The loop of [deepMerge] over the keys of the source, which are all own
    keys.  [subs] holds, for each own property of the source in order, the
    recursive call on the value of that property. *)
Section MergeLoop.
Variable subs : list (string * (value -> outcome value)).
Variable source : props.

Fixpoint deepMerge_loop (keys : list string) (result : value) : outcome value :=
  match keys with
  | [] => Ok result
  | key :: rest =>
      let sourceValue := match lookup key source with Some v => v | None => VUndefined end in
      let* targetValue := Obj.get false result key in
      let* merged :=
        if isObject sourceValue && isObject targetValue then
          match find (fun s => String.eqb key (fst s)) subs with
          | Some (_, call) => call targetValue
          | None => Unmodelled
          end
        else Ok sourceValue in
      let* result' := Obj.set false result key merged in
      deepMerge_loop rest result'
  end.

End MergeLoop.

(** [deepMerge]; its parameters are objects. *)
Fixpoint deepMerge (target source : value) {struct source} : outcome value :=
  if negb (isObject target) then Unmodelled
  else
    let result := VObj (spread target) in
    match source with
    | VObj sps =>
        deepMerge_loop (map (fun p => (fst p, fun t => deepMerge t (snd p))) sps) sps
                       (Object_keys sps) result
    | VDate _ => Ok result
    | _ => Unmodelled
    end.

End Utils.

(** ** src/parser.ts *)
Module Parser.
Import Types Utils Encoding.

Definition decodeKey (key : string) (opts : ParseOptions) (cs : Charset) : outcome string :=
  if String.eqb key "" then Ok ""
  else
    try_catch
      (let* decoded :=
         match decoder opts with
         | Some f => f key defaultDecoder cs KKey
         | None => Ok (decode key defaultDecoder cs)
         end in
       if interpretNumericEntities opts then parseNumericEntities decoded
       else Ok decoded)
      (Ok key).

Definition decodeValue (v : string) (opts : ParseOptions) (cs : Charset) : outcome value :=
  if String.eqb v "" then Ok (if strictNullHandling opts then VNull else VStr "")
  else
    try_catch
      (let* decoded :=
         match decoder opts with
         | Some f => f v defaultDecoder cs KValue
         | None => Ok (decode v defaultDecoder cs)
         end in
       let* decoded :=
         if interpretNumericEntities opts then parseNumericEntities decoded
         else Ok decoded in
       autoConvert decoded (parseNumbers opts) (parseBooleans opts) (parseDates opts))
      (Ok (VStr v)).

Definition parseKeyPath (key : string) (opts : ParseOptions) : list string :=
  if allowDots opts && Js.includes "." key then
    let key := if decodeDotInKeys opts then Js.replaceAll "%2E" "." key else key in
    Js.split "." key
  else if Js.includes "[" key then parseBracketNotation key
  else [key].

(** The write-back of a contained object or array that the code mutated in
    place: the property keeps its position. *)
Definition put (obj : value) (key : string) (v : value) : value :=
  match obj with
  | VObj ps => VObj (assign key v ps)
  | _ => obj
  end.

Definition handleDuplicateKey (obj : value) (key : string) (v : value)
           (opts : ParseOptions) : outcome value :=
  let plain := plainObjects opts in
  if Obj.inherited plain obj key then
    (* [existing] is read off Object.prototype: neither undefined nor an
       array.  The pair [existing, value] can be written only past the
       guard of [safeSetProperty]. *)
    match duplicates opts with
    | First => Ok obj
    | Last => safeSetProperty plain obj key v (allowPrototypes opts)
    | Combine =>
        if negb (allowPrototypes opts) && hasPrototypePollution key then Ok obj
        else Unmodelled
    end
  else
    let* existing := Obj.get plain obj key in
    if is_undefined existing then safeSetProperty plain obj key v (allowPrototypes opts)
    else
      match duplicates opts with
      | First => Ok obj
      | Last => safeSetProperty plain obj key v (allowPrototypes opts)
      | Combine =>
          match existing with
          | VArr l => Ok (put obj key (VArr (l ++ [v])))
          | _ => safeSetProperty plain obj key (VArr [existing; v]) (allowPrototypes opts)
          end
      end.

(** [while (arr.length <= index) arr.push(undefined)] *)
Definition grow (l : list value) (index : Z) : list value :=
  l ++ repeat VUndefined (Z.to_nat (index + 1) - length l).

(** The copy loop of the last branch of [handleArrayValue]. *)
Fixpoint copy_elements (l : list value) (i : N) (acc : props) : props :=
  match l with
  | [] => acc
  | x :: t =>
      copy_elements t (i + 1)
        (if is_undefined x then acc else assign (Js.N_to_string i) x acc)
  end.

(** [handleArrayValue].  The two calls it makes to [setNestedValue] are
    passed in: [setHere] continues with [remainingPath], [setNext] with
    [remainingPath.slice(1)].  The array [arr] is [obj[key]], which the
    caller has made sure is not falsy. *)
Definition handleArrayValue (setHere setNext : value -> Z -> outcome value)
           (obj : value) (key : string) (remainingPath : list string) (v : value)
           (opts : ParseOptions) (depth : Z) : outcome value :=
  let plain := plainObjects opts in
  let* arr := Obj.get plain obj key in
  let indexKey := hd_error remainingPath in
  let single := (length remainingPath =? 1)%nat in
  match indexKey with
  | Some EmptyString =>
      (* Empty brackets - push to array *)
      match arr with
      | VArr l =>
          if single then Ok (put obj key (VArr (l ++ [v])))
          else
            let* newObj := setNext (VObj []) depth in
            Ok (put obj key (VArr (l ++ [newObj])))
      | _ => Throw TypeError
      end
  | Some indexKey =>
      if isArrayIndex indexKey then
        (* Numeric index *)
        let index := Js.parseInt indexKey in
        if arrayLimit opts <? index then
          (* Convert to object *)
          let* obj1 := if negb (isObject arr) then Obj.set plain obj key (VObj [])
                       else Ok obj in
          let* target := Obj.get plain obj1 key in
          let* target' := setHere target depth in
          Ok (put obj1 key target')
        else
          let stored := if allowEmptyArrays opts &&
                           match v with VStr EmptyString => true | _ => false end
                        then VArr [] else v in
          match arr with
          | VArr l =>
              let l := grow l index in
              if single then
                let* l' := Obj.array_set index stored l in
                Ok (put obj key (VArr l'))
              else
                let cur := Obj.array_get index l in
                let cur := if falsy cur then VObj [] else cur in
                let* cur' := setNext cur depth in
                let* l' := Obj.array_set index cur' l in
                Ok (put obj key (VArr l'))
          | VObj ps =>
              match lookup "length" ps with
              | Some _ => Unmodelled
              | None =>
                  let name := Js.N_to_string (Z.to_N index) in
                  if single then
                    let* arr' := Obj.set plain arr name stored in
                    Ok (put obj key arr')
                  else
                    let* cur := Obj.get plain arr name in
                    let cur := if falsy cur then VObj [] else cur in
                    let* cur' := setNext cur depth in
                    let* arr' := Obj.set plain arr name cur' in
                    Ok (put obj key arr')
              end
          | _ => Unmodelled
          end
      else
        (* Convert array to object for non-numeric keys *)
        match arr with
        | VArr l =>
            let objValue := VObj (copy_elements l 0 []) in
            let* obj1 := Obj.set plain obj key objValue in
            let* objValue' := setHere objValue depth in
            Ok (put obj1 key objValue')
        | _ => Unmodelled
        end
  | None =>
      match arr with
      | VArr l =>
          let objValue := VObj (copy_elements l 0 []) in
          let* obj1 := Obj.set plain obj key objValue in
          let* objValue' := setHere objValue depth in
          Ok (put obj1 key objValue')
      | _ => Unmodelled
      end
  end.

Fixpoint setNestedValue (opts : ParseOptions) (v : value) (keyPath : list string)
         (obj : value) (depth : Z) {struct keyPath} : outcome value :=
  let plain := plainObjects opts in
  (* Check depth limit *)
  if strictDepth opts && (Types.depth opts <? depth) then
    Throw (TsQsError "DEPTH_EXCEEDED")
  else if Types.depth opts <? depth then
    (* Convert remaining path to string *)
    let remainingKey := String.concat "" (map (fun k => "[" +++ k +++ "]") (tl keyPath)) in
    let finalKey := hd "undefined" keyPath +++ remainingKey in
    handleDuplicateKey obj finalKey v opts
  else
    match keyPath with
    | [] => Ok obj
    | currentKey :: rest =>
        if String.eqb currentKey "" then Ok obj
        else if negb (allowPrototypes opts) && hasPrototypePollution currentKey then Ok obj
        else
          match rest with
          | [] => handleDuplicateKey obj currentKey v opts
          | nextKey :: rest' =>
              let isArrayAccess := isArrayIndex nextKey || String.eqb nextKey "" in
              let* cur := Obj.get plain obj currentKey in
              let* obj1 :=
                if falsy cur then
                  Obj.set plain obj currentKey
                          (if isArrayAccess && parseArrays opts then VArr [] else VObj [])
                else Ok obj in
              if isArrayAccess && parseArrays opts then
                handleArrayValue (setNestedValue opts v rest) (setNestedValue opts v rest')
                                 obj1 currentKey rest v opts (depth + 1)
              else
                let* cur1 := Obj.get plain obj1 currentKey in
                if isObject cur1 then
                  let* sub := setNestedValue opts v rest cur1 (depth + 1) in
                  Ok (put obj1 currentKey sub)
                else Ok obj1
          end
    end.

Fixpoint mapM {A B} (f : A -> outcome B) (l : list A) : outcome (list B) :=
  match l with
  | [] => Ok []
  | x :: t => let* y := f x in let* ys := mapM f t in Ok (y :: ys)
  end.

Definition parseKeyValue (result : value) (key : string) (v : value)
           (opts : ParseOptions) : outcome value :=
  let* v :=
    match v with
    | VStr s =>
        if comma opts && Js.includes "," s then
          let* items := mapM (fun piece =>
                                autoConvert (Js.trim piece) (parseNumbers opts)
                                            (parseBooleans opts) (parseDates opts))
                             (Js.split "," s) in
          Ok (VArr items)
        else Ok v
    | _ => Ok v
    end in
  let keyPath := parseKeyPath key opts in
  setNestedValue opts v keyPath result 0.

(** The body of the loop of [parse] for one pair that is within the
    limit; a [continue] leaves the result as it is. *)
Definition parse_pair (opts : ParseOptions) (cs : Charset) (pair_ : string)
           (result : value) : outcome value :=
  (* Skip empty pairs *)
  if String.eqb pair_ "" then Ok result
  else
    let equalIndex := Js.indexOf "=" pair_ in
    let '(key, v) :=
      match equalIndex with
      | None => (pair_, if strictNullHandling opts then "" else "")
      | Some i => (Js.take i pair_, Js.drop (i + 1) pair_)
      end in
    let* decodedKey := decodeKey key opts cs in
    let* decodedValue := decodeValue v opts cs in
    (* Skip if key is empty after decoding *)
    if String.eqb decodedKey "" then Ok result
    else parseKeyValue result decodedKey decodedValue opts.

(** The loop of [parse] over the pairs; running out of pairs or reaching
    the [break] returns the result. *)
Fixpoint parse_loop (opts : ParseOptions) (cs : Charset) (pairs : list string)
         (parameterCount : Z) (result : value) : outcome value :=
  match pairs with
  | [] => Ok result
  | pair_ :: rest =>
      let parameterCount := parameterCount + 1 in
      let* _ := checkLimit parameterCount (parameterLimit opts) "Parameter" false in
      if parameterLimit opts <? parameterCount then Ok result
      else
        let* result' := parse_pair opts cs pair_ result in
        parse_loop opts cs rest parameterCount result'
  end.

(** The steps of [parse] before its loop: trimming, the query prefix, the
    charset sentinel, and the split into pairs. *)
Definition split_pairs (input : string) (opts : ParseOptions)
  : outcome (Charset * list string) :=
  let str := Js.trim input in
  (* Remove leading question mark *)
  let str := if ignoreQueryPrefix opts && Js.is_prefix "?" str then Js.drop 1 str
             else str in
  (* Handle charset detection *)
  let* (cs, str) :=
    if charsetSentinel opts then
      let* cs := detectCharset str in Ok (cs, removeCharsetSentinel str)
    else Ok (charset opts, str) in
  Ok (cs, splitByDelimiter str (delimiter opts)).

Definition parse (input : string) (options : ParseOptions) : outcome value :=
  let* _ := validateParse options in
  let opts := options in
  (* Handle empty input *)
  if String.eqb input "" then Ok (VObj [])
  else
    let* (cs, pairs) := split_pairs input opts in
    parse_loop opts cs pairs 0 (VObj []).

End Parser.

(** ** src/stringifier.ts *)
Module Stringifier.
Import Types Utils.

Definition encodeKey (key : string) (encoder : string -> string)
           (opts : StringifyOptions) : outcome string :=
  if negb (Types.encode opts) then Ok key
  else
    match Types.encoder opts with
    | Some f => f key encoder (s_charset opts) KKey
    | None =>
        if encodeValuesOnly opts then Ok key
        else Ok (Encoding.encode key encoder (s_charset opts))
    end.

Definition encodeValue (v : string) (encoder : string -> string)
           (opts : StringifyOptions) : outcome string :=
  if negb (Types.encode opts) then Ok v
  else
    match Types.encoder opts with
    | Some f => f v encoder (s_charset opts) KValue
    | None => Ok (Encoding.encode v encoder (s_charset opts))
    end.

(** [String(v)].  An array prints its elements joined by commas, with
    null and undefined elements empty; an ordinary object prints as
    [object Object], unless an own property hides the inherited toString,
    which is a TypeError.  The text of a date depends on the host. *)
Fixpoint String_of (v : value) : outcome string :=
  match v with
  | VUndefined => Ok "undefined"
  | VNull => Ok "null"
  | VBool b => Ok (if b then "true" else "false")
  | VNum n => Ok (Js.String_of_number n)
  | VStr s => Ok s
  | VDate _ => Unmodelled
  | VArr items =>
      let* parts :=
        (fix each (l : list value) : outcome (list string) :=
           match l with
           | [] => Ok []
           | x :: t =>
               let* s := match x with
                         | VUndefined | VNull => Ok ""
                         | _ => String_of x
                         end in
               let* ss := each t in
               Ok (s :: ss)
           end) items in
      Ok (Js.join "," parts)
  | VObj ps =>
      match lookup "toString" ps with
      | Some _ => Throw TypeError
      | None => Ok "[object Object]"
      end
  end.

Definition stringifyNull (key : string) (encoder : string -> string)
           (opts : StringifyOptions) : outcome (list string) :=
  let* k := encodeKey key encoder opts in
  if s_strictNullHandling opts then Ok [k] else Ok [k +++ "="].

(** [v] is a string, a number or a boolean. *)
Definition stringifyPrimitive (key : string) (v : value) (encoder : string -> string)
           (opts : StringifyOptions) : outcome (list string) :=
  let* encodedKey := encodeKey key encoder opts in
  let* text := String_of v in
  let* encodedValue := encodeValue text encoder opts in
  Ok [encodedKey +++ "=" +++ encodedValue].

Definition stringifyDate (key : string) (iso : string) (encoder : string -> string)
           (opts : StringifyOptions) : outcome (list string) :=
  let* encodedKey := encodeKey key encoder opts in
  let dateString := match serializeDate opts with
                    | Some f => f iso
                    | None => iso
                    end in
  let* encodedValue := encodeValue dateString encoder opts in
  Ok [encodedKey +++ "=" +++ encodedValue].

(** [keys.sort(cmp)]: a stable sort by the comparator. *)
Fixpoint sort_insert (cmp : SortFunction) (x : string) (l : list string) : list string :=
  match l with
  | [] => [x]
  | h :: t => if cmp x h <=? 0 then x :: l else h :: sort_insert cmp x t
  end.

Definition sort_keys (cmp : option SortFunction) (keys : list string) : list string :=
  match cmp with
  | Some f => fold_right (sort_insert f) [] keys
  | None => keys
  end.

(** The value of the comma format: every element that is not undefined,
    converted by [String], encoded, and joined by the encoded comma. *)
Definition comma_values (array : list value) (encoder : string -> string)
           (opts : StringifyOptions) : outcome string :=
  let* values :=
    Parser.mapM (fun v => let* text := String_of v in encodeValue text encoder opts)
                (List.filter (fun v => negb (is_undefined v)) array) in
  Ok (Js.join (encoder ",") values).

Section Walk.
Variable encoder : string -> string.
Variable opts : StringifyOptions.

(** The loop of [stringifyArray] from index [i] on, with the call back to
    [stringifyValue] passed in as [recur]. *)
Section ArrayLoop.
Variable recur : string -> value -> list string -> outcome (list string).
Variable key : string.
Variable array : list value.
Variable keyPath : list string.

Fixpoint stringifyArray_loop (items : list value) (i : N) : outcome (list string) :=
  match items with
  | [] => Ok []
  | v :: rest =>
      if is_undefined v then stringifyArray_loop rest (i + 1)%N
      else
        match arrayFormat opts with
        | Comma =>
            (* Handle comma format specially *)
            if (i =? 0)%N then
              let* values := comma_values array encoder opts in
              let* k := encodeKey key encoder opts in
              Ok [k +++ "=" +++ values]
            else stringifyArray_loop rest (i + 1)%N
        | fmt =>
            let arrayKey :=
              match fmt with
              | Indices => key +++ "[" +++ Js.N_to_string i +++ "]"
              | Brackets => key +++ "[]"
              | _ => key
              end in
            let* valuePairs := recur arrayKey v (keyPath ++ [key]) in
            let* more := stringifyArray_loop rest (i + 1)%N in
            Ok (valuePairs ++ more)
        end
  end.

Definition stringifyArray : outcome (list string) :=
  if (length array =? 0)%nat then
    if s_allowEmptyArrays opts then
      let* k := encodeKey key encoder opts in Ok [k +++ "[]"]
    else Ok []
  else stringifyArray_loop array 0%N.

End ArrayLoop.

(** The loop of [stringifyObject] over the keys.  [subs] holds, for each
    own property in order, the call back to [stringifyValue] on the value
    of that property; the loop selects it by key, as the code reads
    [obj[objKey]]. *)
Section ObjectLoop.
Variable subs : list (string * (string -> list string -> outcome (list string))).
Variable key : string.
Variable obj : props.
Variable keyPath : list string.

Fixpoint stringifyObject_loop (ks : list string) : outcome (list string) :=
  match ks with
  | [] => Ok []
  | objKey :: rest =>
      match lookup objKey obj with
      | None | Some VUndefined => stringifyObject_loop rest
      | Some v =>
          if skipNulls opts && match v with VNull => true | _ => false end
          then stringifyObject_loop rest
          else
            let nestedKey :=
              if s_allowDots opts then
                if encodeDotInKeys opts
                then key +++ "." +++ Js.replaceAll "." "%2E" objKey
                else key +++ "." +++ objKey
              else key +++ "[" +++ objKey +++ "]" in
            let* valuePairs :=
              match find (fun s => String.eqb objKey (fst s)) subs with
              | Some (_, call) => call nestedKey (keyPath ++ [key])
              | None => Ok []
              end in
            let* more := stringifyObject_loop rest in
            Ok (valuePairs ++ more)
      end
  end.

Definition stringifyObject : outcome (list string) :=
  stringifyObject_loop (sort_keys (sort opts) (Object_keys obj)).

End ObjectLoop.

Fixpoint stringifyValue (key : string) (v : value) (keyPath : list string) {struct v}
  : outcome (list string) :=
  match v with
  | VNull => stringifyNull key encoder opts
  | VUndefined => Ok []
  | VArr array => stringifyArray stringifyValue key array keyPath
  | VDate iso => stringifyDate key iso encoder opts
  | VObj obj =>
      stringifyObject
        (map (fun p => (fst p, fun nestedKey kp => stringifyValue nestedKey (snd p) kp)) obj)
        key obj keyPath
  | _ => stringifyPrimitive key v encoder opts
  end.

End Walk.

(** [applyFilter].  The test [stringKey in input] is read on own
    properties; a name found only on Object.prototype is outside the
    model. *)
Definition applyFilter (input : props) (f : option Filter) : outcome props :=
  match f with
  | None => Ok input
  | Some (FilterKeys keys) =>
      fold_left
        (fun acc key =>
           let* result := acc in
           let stringKey := match key with
                            | FKString s => s
                            | FKNumber n => Js.String_of_number n
                            end in
           match lookup stringKey input with
           | Some v =>
               if String.eqb stringKey "__proto__" then Unmodelled
               else Ok (assign stringKey v result)
           | None => if is_inherited stringKey then Unmodelled else Ok result
           end)
        keys (Ok [])
  | Some (FilterFn fn) =>
      fold_left
        (fun acc key =>
           let* result := acc in
           let v := match lookup key input with Some v => v | None => VUndefined end in
           let filtered := fn key v in
           if is_undefined filtered then Ok result
           else if String.eqb key "__proto__" then Unmodelled
           else Ok (assign key filtered result))
        (Object_keys input) (Ok [])
  end.

(** The loop of [stringify] over the keys of the filtered input. *)
Fixpoint stringify_loop (filtered : props) (keys : list string)
         (encoder : string -> string) (opts : StringifyOptions) : outcome (list string) :=
  match keys with
  | [] => Ok []
  | key :: rest =>
      match lookup key filtered with
      | None | Some VUndefined => stringify_loop filtered rest encoder opts
      | Some v =>
          if skipNulls opts && match v with VNull => true | _ => false end
          then stringify_loop filtered rest encoder opts
          else
            let* encodedPairs := stringifyValue encoder opts key v [] in
            let* more := stringify_loop filtered rest encoder opts in
            Ok (encodedPairs ++ more)
      end
  end.

(** The part of [stringify] that follows the filter: keys, pairs, joining,
    sentinel and prefix. *)
Definition emit (filtered : props) (opts : StringifyOptions) : outcome string :=
  let keys := sort_keys (sort opts) (Object_keys filtered) in
  let encoder := if Types.encode opts then Encoding.getEncoder (format opts)
                 else (fun str => str) in
  let* pairs := stringify_loop filtered keys encoder opts in
  let result := Js.join (s_delimiter opts) pairs in
  let result := if s_charsetSentinel opts
                then Encoding.addCharsetSentinel result (s_charset opts)
                else result in
  let result := if addQueryPrefix opts && negb (String.eqb result "")
                then "?" +++ result else result in
  Ok result.

(** [stringify].  An input that is falsy or not an object gives the empty
    text; the input type admits neither an array nor a date. *)
Definition stringify (input : value) (options : StringifyOptions) : outcome string :=
  let* _ := validateStringify options in
  let opts := options in
  match input with
  | VObj ps =>
      let* filtered := applyFilter ps (filter opts) in
      emit filtered opts
  | VArr _ | VDate _ => Unmodelled
  | _ => Ok ""
  end.

End Stringifier.

(** ** stringify over an object store

    To state that [stringify] leaves its input alone, objects live in a
    store and values refer to them by address.  [stringify] receives the
    address of its input; [applyFilter] allocates the object [result] and
    writes into it; everything after the filter only reads.  The arrays
    the code builds for itself ([Object.keys], [filter], the spread of
    [keyPath], [pairs]) hold strings and never reach the store. *)
Module Store.
Import Types.

Inductive hval :=
| HUndefined
| HNull
| HBool (b : bool)
| HNum (n : Js.number)
| HStr (s : string)
| HRef (addr : nat).

Inductive cell :=
| CObj (props : list (string * hval))
| CArr (items : list hval)
| CDate (iso : string).

Definition store := list cell.

(** [{}]: a new object at the next free address. *)
Definition alloc (st : store) (c : cell) : store * nat := (st ++ [c], length st).

Fixpoint hlookup (k : string) (ps : list (string * hval)) : option hval :=
  match ps with
  | [] => None
  | (k', v) :: t => if String.eqb k k' then Some v else hlookup k t
  end.

Fixpoint hassign (k : string) (v : hval) (ps : list (string * hval)) : list (string * hval) :=
  match ps with
  | [] => [(k, v)]
  | (k', v') :: t => if String.eqb k k' then (k, v) :: t else (k', v') :: hassign k v t
  end.

Fixpoint update_cell (st : store) (addr : nat) (f : cell -> cell) : store :=
  match st, addr with
  | [], _ => []
  | c :: t, O => f c :: t
  | c :: t, S a => c :: update_cell t a f
  end.

(** [target[k] = v] for the object at [addr]; any address can be written. *)
Definition write (st : store) (addr : nat) (k : string) (v : hval) : store :=
  update_cell st addr
    (fun c => match c with
              | CObj ps => CObj (hassign k v ps)
              | other => other
              end).

(** [target[k]] *)
Definition read (st : store) (addr : nat) (k : string) : hval :=
  match nth_error st addr with
  | Some (CObj ps) => match hlookup k ps with Some v => v | None => HUndefined end
  | _ => HUndefined
  end.

Definition own_keys (st : store) (addr : nat) : list string :=
  match nth_error st addr with
  | Some (CObj ps) =>
      Object_keys (map (fun p => (fst p, VUndefined)) ps)
  | _ => []
  end.

(** A transform hook runs caller code on the store. *)
Definition FilterFunction := string -> hval -> store -> store * hval.

Inductive Filter :=
| FilterKeys (keys : list FilterKey)
| FilterFn (f : FilterFunction).

(** One turn of the loop over an allow-list: [if (stringKey in input)
    result[stringKey] = input[stringKey]]; the test is read on own
    properties. *)
Definition keys_step (input result : nat) (st : store) (key : FilterKey) : store :=
  let stringKey := match key with
                   | FKString s => s
                   | FKNumber n => Js.String_of_number n
                   end in
  if existsb (String.eqb stringKey) (own_keys st input)
  then write st result stringKey (read st input stringKey)
  else st.

(** One turn of the loop over the entries with a transform function. *)
Definition fn_step (fn : FilterFunction) (input result : nat) (st : store)
           (key : string) : store :=
  let (st1, filtered) := fn key (read st input key) st in
  match filtered with
  | HUndefined => st1
  | _ => write st1 result key filtered
  end.

(** [applyFilter]: returns the input itself without a filter, and
    otherwise the address of the new object [result]. *)
Definition applyFilter (st : store) (input : nat) (f : option Filter) : store * nat :=
  match f with
  | None => (st, input)
  | Some (FilterKeys keys) =>
      let (st0, result) := alloc st (CObj []) in
      (fold_left (keys_step input result) keys st0, result)
  | Some (FilterFn fn) =>
      let (st0, result) := alloc st (CObj []) in
      (fold_left (fn_step fn input result) (own_keys st0 input) st0, result)
  end.

(** The tree a value of the store stands for, followed to depth [fuel]. *)
Fixpoint reify (fuel : nat) (st : store) (v : hval) : option value :=
  match v with
  | HUndefined => Some VUndefined
  | HNull => Some VNull
  | HBool b => Some (VBool b)
  | HNum n => Some (VNum n)
  | HStr s => Some (VStr s)
  | HRef addr =>
      match fuel with
      | O => None
      | S fuel' =>
          match nth_error st addr with
          | Some (CObj ps) =>
              option_map VObj
                (fold_right
                   (fun p acc =>
                      match reify fuel' st (snd p), acc with
                      | Some x, Some l => Some ((fst p, x) :: l)
                      | _, _ => None
                      end)
                   (Some []) ps)
          | Some (CArr items) =>
              option_map VArr
                (fold_right
                   (fun h acc =>
                      match reify fuel' st h, acc with
                      | Some x, Some l => Some (x :: l)
                      | _, _ => None
                      end)
                   (Some []) items)
          | Some (CDate iso) => Some (VDate iso)
          | None => None
          end
      end
  end.

(** [stringify] on the store: the final store and the text.  The filter is
    given at the level of the store, the other options are those of
    [Types]; a structure deeper than [fuel] (a cyclic one at any fuel) has
    no text in the model. *)
Definition stringify (fuel : nat) (st : store) (input : hval) (flt : option Filter)
           (opts : StringifyOptions) : store * outcome string :=
  match validateStringify opts with
  | Ok _ =>
      match input with
      | HRef addr =>
          match nth_error st addr with
          | Some (CObj _) =>
              let '(st', filtered) := applyFilter st addr flt in
              (st', match reify fuel st' (HRef filtered) with
                    | Some (VObj ps) => Stringifier.emit ps opts
                    | _ => Unmodelled
                    end)
          | _ => (st, Unmodelled)
          end
      | _ => (st, Ok "")
      end
  | Throw e => (st, Throw e)
  | Unmodelled => (st, Unmodelled)
  end.

(** A transform hook that leaves the objects it finds as they are: it may
    allocate, it does not write to what was there. *)
Definition preserves (fn : FilterFunction) : Prop :=
  forall (k : string) (v : hval) (st : store),
    firstn (length st) (fst (fn k v st)) = st.

Definition filter_preserves (flt : option Filter) : Prop :=
  match flt with
  | Some (FilterFn fn) => preserves fn
  | _ => True
  end.

Definition in_store (st : store) (v : hval) : bool :=
  match v with
  | HRef addr => (addr <? length st)%nat
  | _ => true
  end.

(** Every reference held in the store points into the store. *)
Definition closed (st : store) : bool :=
  forallb (fun c => match c with
                    | CObj ps => forallb (fun p => in_store st (snd p)) ps
                    | CArr items => forallb (in_store st) items
                    | CDate _ => true
                    end) st.

End Store.

(** ** Notions used to state the properties *)
Module Spec.
Import Types.

(** Running a step over a list of inputs, stopping at the first call that
    does not return. *)
Fixpoint foldM {A B} (f : A -> B -> outcome B) (l : list A) (b : B) : outcome B :=
  match l with
  | [] => Ok b
  | x :: t => let* b' := f x b in foldM f t b'
  end.

(** A scalar that is not falsy: what keeps its place when a later pair
    addresses a path through it. *)
Definition truthy_scalar (v : value) : bool :=
  match v with
  | VStr s => negb (String.eqb s "")
  | VNum n => negb (Js.num_is_zero n)
  | VBool b => b
  | _ => false
  end.

(** A segment that takes the array branch of [setNestedValue]. *)
Definition array_segment (opts : ParseOptions) (seg : string) : bool :=
  (Utils.isArrayIndex seg || String.eqb seg "") && parseArrays opts.

Definition depth_exceeded : error := TsQsError "DEPTH_EXCEEDED".


(** What the sparse-to-dense rule asks of a mapping: it is due for
    conversion when it has keys, all of them decimal, and either sparse
    arrays are allowed or the largest index is below twice the number of
    entries. *)
Definition convertible (allowSparse : bool) (keys : list string) : bool :=
  negb (length keys =? 0)%nat && forallb Utils.isArrayIndex keys &&
  (allowSparse ||
   (Utils.Math_max (map Js.parseInt keys) <? 2 * Z.of_nat (length keys))).

(** A tree in which no mapping is left that the rule would convert. *)
Fixpoint normalized (allowSparse : bool) (v : value) : bool :=
  match v with
  | VObj ps =>
      negb (convertible allowSparse (map fst ps)) &&
      (fix all (l : props) : bool :=
         match l with
         | [] => true
         | (_, x) :: t => normalized allowSparse x && all t
         end) ps
  | VArr items =>
      (fix all (l : list value) : bool :=
         match l with
         | [] => true
         | x :: t => normalized allowSparse x && all t
         end) items
  | _ => true
  end.

(** The value the conversion loop leaves at index [i]: that of the last
    key, in the order of the loop, whose number is [i]. *)
Definition slot (obj : props) (keys : list string) (init : value) (i : Z) : value :=
  fold_left
    (fun acc k =>
       if Js.parseInt k =? i
       then match lookup k obj with Some v => v | None => VUndefined end
       else acc)
    keys init.

(** One more than the largest index among [keys], 0 without keys. *)
Definition extent (keys : list string) : Z :=
  fold_right (fun k m => Z.max (Js.parseInt k + 1) m) 0 keys.

(** A key that is neither empty, nor one the injection guard drops, nor a
    name inherited from Object.prototype. *)
Definition ordinary (k : string) : bool :=
  negb (String.eqb k "") && negb (Utils.hasPrototypePollution k) &&
  negb (is_inherited k).

(** A named segment: an ordinary key that does not take the array
    branch. *)
Definition named (opts : ParseOptions) (seg : string) : bool :=
  ordinary seg && negb (array_segment opts seg).

(** The mappings nested along [ks], with [leaf] innermost. *)
Fixpoint nest (ks : list string) (leaf : value) : value :=
  match ks with
  | [] => leaf
  | k :: t => VObj [(k, nest t leaf)]
  end.

(** The segments past the depth limit as one key: the first as it is, the
    others in brackets. *)
Definition collapse (tail : list string) : string :=
  hd "undefined" tail +++ String.concat "" (map (fun k => "[" +++ k +++ "]") (tl tail)).

(** *** The round trip *)

Fixpoint all_chars (P : ascii -> bool) (s : string) : bool :=
  match s with
  | EmptyString => true
  | String c s' => P c && all_chars P s'
  end.

Definition is_ascii (c : ascii) : bool := (N_of_ascii c <? 128)%N.

Definition not_bracket (c : ascii) : bool :=
  negb (Ascii.eqb c "[") && negb (Ascii.eqb c "]").

(** A well-formed text: every byte is ASCII or belongs to a well-formed
    sequence of two, three or four bytes.  These are the strings of
    JavaScript without a lone surrogate. *)
Fixpoint well_formed (s : string) : bool :=
  match s with
  | EmptyString => true
  | String c0 s1 =>
      let b0 := N_of_ascii c0 in
      if (b0 <? 128)%N then well_formed s1
      else
        match s1 with
        | String c1 s2 =>
            if Js.utf8_valid b0 [N_of_ascii c1] then well_formed s2
            else
              match s2 with
              | String c2 s3 =>
                  if Js.utf8_valid b0 [N_of_ascii c1; N_of_ascii c2] then well_formed s3
                  else
                    match s3 with
                    | String c3 s4 =>
                        Js.utf8_valid b0 [N_of_ascii c1; N_of_ascii c2; N_of_ascii c3] &&
                        well_formed s4
                    | EmptyString => false
                    end
              | EmptyString => false
              end
        | EmptyString => false
        end
  end.

(** The escape [%XX] of the byte [c], before [rest]. *)
Definition escaped (c : ascii) (rest : string) : string :=
  String "%" (String (Js.hex_digit (N_of_ascii c / 16))
                     (String (Js.hex_digit (N_of_ascii c mod 16)) rest)).

(** A key that comes back as one segment: ordinary, well formed, free of
    brackets, and not a string of digits. *)
Definition key_ok (k : string) : bool :=
  ordinary k && well_formed k && all_chars not_bracket k &&
  negb (Utils.isArrayIndex k).

Definition is_leaf (v : value) : bool :=
  match v with
  | VStr _ | VNum _ | VBool _ => true
  | _ => false
  end.

(** A well-formed string, a number or a boolean. *)
Definition leaf_ok (v : value) : bool :=
  match v with
  | VStr s => well_formed s
  | VNum _ | VBool _ => true
  | _ => false
  end.

(** [String(v)] of a leaf *)
Definition leaf_text (v : value) : string :=
  match v with
  | VStr s => s
  | VNum n => Js.String_of_number n
  | VBool b => if b then "true" else "false"
  | _ => ""
  end.

Fixpoint distinct (l : list string) : bool :=
  match l with
  | [] => true
  | k :: t => negb (existsb (String.eqb k) t) && distinct t
  end.

(** The trees that come back from stringify followed by parse under the
    default options, with [r] levels of nesting left: leaves; mappings
    that are not empty, with distinct keys that are [key_ok]; sequences of
    1 to 21 elements, each a leaf or such a mapping. *)
Fixpoint tree_ok (r : nat) (v : value) {struct v} : bool :=
  match v with
  | VStr _ | VNum _ | VBool _ => leaf_ok v
  | VObj ps =>
      match r with
      | O => false
      | S r' =>
          negb (length ps =? 0)%nat && distinct (map fst ps) &&
          forallb (fun p => key_ok (fst p) && tree_ok r' (snd p)) ps
      end
  | VArr items =>
      match r with
      | O => false
      | S r' =>
          negb (length items =? 0)%nat && (length items <=? 21)%nat &&
          forallb
            (fun item =>
               match item with
               | VObj ps =>
                   negb (length ps =? 0)%nat && distinct (map fst ps) &&
                   forallb (fun p => key_ok (fst p) && tree_ok r' (snd p)) ps
               | _ => leaf_ok item
               end) items
      end
  | _ => false
  end.

(** The inputs of the round trip: a mapping with distinct keys that are
    [key_ok], values that nest at most six levels, and at most 1000
    leaves ([leaves] counts them). *)
Definition roundtrippable_props (leaves : nat) (ps : props) : bool :=
  distinct (map fst ps) &&
  forallb (fun p => key_ok (fst p) && tree_ok 6 (snd p)) ps &&
  (leaves <=? 1000)%nat.

(** The coercion parse applies to the text of a leaf. *)
Definition convert (numbers booleans : bool) (text : string) : value :=
  match Utils.autoConvert text numbers booleans false with
  | Ok v => v
  | _ => VStr text
  end.

(** The tree with every leaf replaced by what parse makes of its text:
    the value up to scalar widening. *)
Fixpoint coerce (numbers booleans : bool) (v : value) : value :=
  match v with
  | VObj ps => VObj (map (fun p => (fst p, coerce numbers booleans (snd p))) ps)
  | VArr items => VArr (map (coerce numbers booleans) items)
  | VStr _ | VNum _ | VBool _ => convert numbers booleans (leaf_text v)
  | _ => v
  end.

(** The segments below a key, each in brackets. *)
Definition brackets (path : list string) : string :=
  String.concat "" (map (fun k => "[" +++ k +++ "]") path).

Section ItemPaths.
Variable paths : value -> list (list string * value).

(** The leaves below the elements of a sequence, from index [i] on. *)
Fixpoint item_paths (l : list value) (i : N) : list (list string * value) :=
  match l with
  | [] => []
  | x :: t =>
      map (fun q => (Js.N_to_string i :: fst q, snd q)) (paths x)
      ++ item_paths t (i + 1)%N
  end.

End ItemPaths.

(** The leaves of a tree with the path of segments that leads to each, in
    the order stringify visits them. *)
Fixpoint paths_of (v : value) : list (list string * value) :=
  match v with
  | VObj ps =>
      flat_map (fun p => map (fun q => (fst p :: fst q, snd q)) (paths_of (snd p))) ps
  | VArr items => item_paths paths_of items 0%N
  | _ => [([], v)]
  end.

(** The pair stringify emits for a leaf below [key]. *)
Definition emit_pair (key : string) (q : list string * value) : string :=
  Encoding.rfc3986Encoder (key +++ brackets (fst q)) +++ "=" +++
  Encoding.rfc3986Encoder (leaf_text (snd q)).

(** [stringifyValue] emits one pair for each leaf of [v], in order. *)
Definition walks (v : value) : Prop :=
  forall (key : string) (keyPath : list string),
    Stringifier.stringifyValue Encoding.rfc3986Encoder defaultStringifyOptions key v keyPath
    = Ok (map (emit_pair key) (paths_of v)).

(** The pairs of a whole mapping. *)
Definition pairs_of (ps : props) : list string :=
  flat_map (fun p => map (emit_pair (fst p)) (paths_of (snd p))) ps.

(** The characters of an encoded token: visible ASCII other than '&', '='
    and '+'. *)
Definition token_char (c : ascii) : bool :=
  let n := N_of_ascii c in
  (33 <=? n)%N && (n <=? 126)%N &&
  negb (Ascii.eqb c "&") && negb (Ascii.eqb c "=") && negb (Ascii.eqb c "+").

(** The characters of an emitted pair: those of a token, and '='. *)
Definition pair_char (c : ascii) : bool := token_char c || Ascii.eqb c "=".

(** The characters of the emitted text: those of a pair, and '&'. *)
Definition query_char (c : ascii) : bool := pair_char c || Ascii.eqb c "&".

(** The encoding of one character under RFC 3986. *)
Definition encode_char (c : ascii) : string :=
  Encoding.escape_marks
    (if Js.uri_unreserved c then String c "" else "%" +++ Js.hex2 (N_of_ascii c)).

(** What parse stores for a leaf. *)
Definition conv (numbers booleans : bool) (leaf : value) : value :=
  convert numbers booleans (leaf_text leaf).

(** The call parse makes for the leaf [q] reached below the segments
    [prefix], on the object [o] at depth [d]. *)
Definition place (opts : ParseOptions) (numbers booleans : bool) (d : Z)
           (prefix : list string) (q : list string * value) (o : value) : outcome value :=
  Parser.setNestedValue opts (conv numbers booleans (snd q)) (prefix ++ fst q) o d.

(** Placing the leaves of [v] under a new key [k] of a mapping adds the
    coerced tree under that key. *)
Definition builds (numbers booleans : bool) (d : Z) (v : value) : Prop :=
  forall (built : props) (k : string),
    key_ok k = true -> lookup k built = None ->
    foldM (place (with_coercion numbers booleans defaultParseOptions) numbers booleans d [k])
          (paths_of v) (VObj built)
    = Ok (VObj (built ++ [(k, coerce numbers booleans v)])).

(** The path of [q] starts with a key that is [key_ok]. *)
Definition starts_named (q : list string * value) : Prop :=
  exists next rest, fst q = next :: rest /\ key_ok next = true.

(** A mapping that is not empty, with distinct keys that are [key_ok],
    each of whose values is built at depth [d] and has a leaf. *)
Definition mapping_built (numbers booleans : bool) (d : Z) (eps : props) : Prop :=
  eps <> [] /\ distinct (map fst eps) = true /\
  Forall (fun p => key_ok (fst p) = true /\ builds numbers booleans d (snd p) /\
                   paths_of (snd p) <> []) eps.

(** An element of a sequence: a leaf or such a mapping. *)
Definition item_built (numbers booleans : bool) (d : Z) (item : value) : Prop :=
  is_leaf item = true \/ exists eps, item = VObj eps /\ mapping_built numbers booleans d eps.

(** The pair emitted for a leaf of the whole mapping: its path starts
    with the key of a property. *)
Definition emit_root (q : list string * value) : string :=
  match fst q with
  | k :: path => emit_pair k (path, snd q)
  | [] => ""
  end.

(** A segment of a rendered key: well formed and free of brackets. *)
Definition seg_ok (seg : string) : bool :=
  well_formed seg && all_chars not_bracket seg.

(** The tree with every leaf replaced by its text: what parse returns
    without coercion. *)
Fixpoint stringly (v : value) : value :=
  match v with
  | VObj ps => VObj (map (fun p => (fst p, stringly (snd p))) ps)
  | VArr items => VArr (map stringly items)
  | VStr _ | VNum _ | VBool _ => VStr (leaf_text v)
  | _ => v
  end.

(** The leaves of a well-formed tree: segments that render, leaves that
    are well-formed. *)
Definition path_ok (q : list string * value) : Prop :=
  Forall (fun seg => seg_ok seg = true) (fst q) /\ leaf_ok (snd q) = true.

Definition roundtrippable (v : value) : bool :=
  match v with
  | VObj ps => roundtrippable_props (length (paths_of v)) ps
  | _ => false
  end.

(** *** A path through the result *)

(** The mapping found under [k], empty when there is none. *)
Definition sub (k : string) (o : props) : props :=
  match lookup k o with
  | Some (VObj ps) => ps
  | _ => []
  end.

(** The mapping that the segments [ks] lead to in [o].  A step that finds
    nothing, or a falsy value, continues in a new mapping; a step that
    finds a mapping continues in it; there is no way on through anything
    else. *)
Fixpoint at_path (ks : list string) (o : props) : option props :=
  match ks with
  | [] => Some o
  | k :: t =>
      match lookup k o with
      | None => at_path t []
      | Some x =>
          if falsy x then at_path t []
          else match x with
               | VObj ps => at_path t ps
               | _ => None
               end
      end
  end.

(** [o] with [leaf] in the place that [ks] leads to. *)
Fixpoint put_path (ks : list string) (leaf : value) (o : props) : value :=
  match ks with
  | [] => leaf
  | k :: t => VObj (assign k (put_path t leaf (sub k o)) o)
  end.

(** [ps] after the value [x] has arrived for the key [k], under a strategy
    for duplicates. *)
Definition merged (strategy : DuplicateStrategy) (k : string) (x : value)
           (ps : props) : props :=
  match lookup k ps with
  | None | Some VUndefined => assign k x ps
  | Some y =>
      match strategy with
      | First => ps
      | Last => assign k x ps
      | Combine =>
          match y with
          | VArr l => assign k (VArr (l ++ [x])) ps
          | _ => assign k (VArr [y; x]) ps
          end
      end
  end.

(** The options under which the text of the input is read in the plain
    way: a valid configuration, pairs separated by '&', no query prefix
    to remove, no charset sentinel, no dot notation, no comma lists. *)
Definition plain_syntax (opts : ParseOptions) : bool :=
  match validateParse opts with Ok _ => true | _ => false end &&
  match delimiter opts with DelimString s => String.eqb s "&" | _ => false end &&
  negb (ignoreQueryPrefix opts) && negb (charsetSentinel opts) &&
  negb (allowDots opts) && negb (comma opts).

(** Pairs as they stand in a query string: not empty, and written with
    the characters of tokens and '='. *)
Definition pairs_ok (pairs : list string) : bool :=
  forallb (fun a => Spec.all_chars Spec.pair_char a && negb (String.eqb a "")) pairs.

(** Segments that can be written in brackets. *)
Definition bracket_free (path : list string) : bool :=
  forallb (Spec.all_chars Spec.not_bracket) path.

(** *** The comma format *)



End Spec.

(** ** Notions used to state the further properties *)
Module Laws.
Import Types.

(** The characters of an encoded token: letters, digits, the marks
    - _ . ~ and the '%' of an escape. *)
Definition encoded_char (c : ascii) : bool :=
  let n := N_of_ascii c in
  Js.in_range 65 90 n || Js.in_range 97 122 n || Js.in_range 48 57 n ||
  existsb (Ascii.eqb c) ["-"; "_"; "."; "~"; "%"]%char.

(** The text a character-wise encoding gives. *)
Fixpoint per_char (f : ascii -> string) (s : string) : string :=
  match s with
  | EmptyString => EmptyString
  | String c s' => f c +++ per_char f s'
  end.

(** The encoding of one character under RFC 1738: a space is a '+'. *)
Definition form_char (c : ascii) : string :=
  if Ascii.eqb c " " then "+" else Spec.encode_char c.

(** The same once the decoder has put the spaces back. *)
Definition spaced_char (c : ascii) : string :=
  if Ascii.eqb c " " then " " else Spec.encode_char c.

(** A text of ISO-8859-1: every character is ASCII or lies in U+0080 to
    U+00FF, which UTF-8 writes as a lead byte C2 or C3 and one continuation
    byte. *)
Fixpoint latin1 (s : string) : bool :=
  match s with
  | EmptyString => true
  | String c0 s1 =>
      if (N_of_ascii c0 <? 128)%N then latin1 s1
      else
        match s1 with
        | String c1 s2 =>
            Js.in_range 194 195 (N_of_ascii c0) && Js.is_cont (N_of_ascii c1) && latin1 s2
        | EmptyString => false
        end
  end.


(** A tree in which the keys of every mapping are distinct and none is a
    name inherited from Object.prototype. *)
Fixpoint mergeable (v : value) : bool :=
  match v with
  | VObj ps =>
      Spec.distinct (map fst ps) &&
      forallb (fun p => negb (is_inherited (fst p)) && mergeable (snd p)) ps
  | VArr items => forallb mergeable items
  | _ => true
  end.

(** A leaf, or a sequence of at least [least] leaves. *)
Definition flat_value (least : nat) (v : value) : bool :=
  match v with
  | VArr items => (least <=? length items)%nat && forallb Spec.leaf_ok items
  | _ => Spec.leaf_ok v
  end.

(** A mapping with distinct keys that are [key_ok] and flat values: the
    inputs of the brackets and repeat formats. *)
Definition flat (least : nat) (ps : props) : bool :=
  Spec.distinct (map fst ps) &&
  forallb (fun p => Spec.key_ok (fst p) && flat_value least (snd p)) ps.

(** The leaves of a flat value, in order. *)
Definition flat_items (v : value) : list value :=
  match v with
  | VArr items => items
  | _ => [v]
  end.

(** The key an element of a sequence is written under. *)
Definition element_key (f : ArrayFormat) (key : string) : string :=
  match f with
  | Brackets => key +++ "[]"
  | _ => key
  end.

(** The key a leaf of the property [p] is written under. *)
Definition flat_key (f : ArrayFormat) (p : string * value) : string :=
  match snd p with
  | VArr _ => element_key f (fst p)
  | _ => fst p
  end.

Definition flat_pair (key : string) (item : value) : string :=
  Encoding.rfc3986Encoder key +++ "=" +++ Encoding.rfc3986Encoder (Spec.leaf_text item).

(** The pairs stringify emits for a flat mapping. *)
Definition flat_pairs (f : ArrayFormat) (ps : props) : list string :=
  flat_map (fun p => map (flat_pair (flat_key f p)) (flat_items (snd p))) ps.

(** A number that [String] writes in full and [Number] reads back as it
    is: it has no trailing zero in its fraction, at most 15 significant
    digits (every such decimal is the shortest text of the double nearest
    to it, so that no rounding shows), and a text without exponent (it is
    zero, or its magnitude is 1e-6 or more). *)
Definition plain_number (n : Js.number) : bool :=
  match n with
  | Js.Num m e =>
      Js.number_eqb (Js.normalize m e) (Js.Num m e) &&
      (Z.abs m <? 10 ^ 15) && negb (Js.exponent_form n)
  end.

(** A leaf that coercion gives back as it is: a string that reads neither
    as a boolean nor as a number, a number that is [plain_number], a
    boolean. *)
Definition exact_leaf (v : value) : bool :=
  match v with
  | VStr s => negb (Utils.isBooleanString s) && negb (Utils.isNumericString s)
  | VNum n => plain_number n
  | _ => true
  end.

(** A tree all of whose leaves are such. *)
Fixpoint exact (v : value) : bool :=
  match v with
  | VObj ps => forallb (fun p => exact (snd p)) ps
  | VArr items => forallb exact items
  | _ => exact_leaf v
  end.

(** The characters of a query string written with encoding: those of an
    encoded token, the '+' of RFC 1738, and the separators '&' and '='. *)
Definition query_safe (c : ascii) : bool :=
  encoded_char c || existsb (Ascii.eqb c) ["+"; "&"; "="]%char.

(** The tree in which every property that holds null, in a mapping at any
    level, holds undefined instead.  The elements of sequences stay. *)
Fixpoint without_nulls (v : value) : value :=
  match v with
  | VObj ps =>
      VObj (map (fun p => (fst p, match snd p with
                                  | VNull => VUndefined
                                  | _ => without_nulls (snd p)
                                  end)) ps)
  | VArr items => VArr (map without_nulls items)
  | _ => v
  end.

(** A tree whose leaves are strings or undefined (as the holes of a
    sequence are): it holds no number, boolean, null or date. *)
Fixpoint textual (v : value) : bool :=
  match v with
  | VObj ps => forallb (fun p => textual (snd p)) ps
  | VArr items => forallb textual items
  | VStr _ | VUndefined => true
  | _ => false
  end.

(** A query of pairs with plain keys and leaves as values, duplicates
    allowed. *)
Definition plain_pairs (ps : props) : bool :=
  forallb (fun p => Spec.key_ok (fst p) && Spec.leaf_ok (snd p)) ps.

(** The text of such a query. *)
Definition query_of (ps : props) : string :=
  Js.join "&" (map (fun p => flat_pair (fst p) (snd p)) ps).

(** A leaf whose text holds no comma. *)
Definition piece_ok (v : value) : bool :=
  Spec.leaf_ok v && negb (Js.includes "," (Spec.leaf_text v)).

(** A leaf that can stand in a comma-separated value: its text holds no
    comma and no white space at either end. *)
Definition item_ok (v : value) : bool :=
  piece_ok v && String.eqb (Js.trim (Spec.leaf_text v)) (Spec.leaf_text v).

(** A leaf, or a sequence of two or more leaves. *)
Definition comma_value_ok (v : value) : bool :=
  match v with
  | VArr items => (2 <=? length items)%nat && forallb item_ok items
  | _ => piece_ok v
  end.

(** The inputs of the comma format: a mapping with distinct plain keys
    and such values. *)
Definition comma_flat (ps : props) : bool :=
  Spec.distinct (map fst ps) &&
  forallb (fun p => Spec.key_ok (fst p) && comma_value_ok (snd p)) ps.

(** The text of a value as a whole. *)
Definition comma_text (v : value) : string :=
  match v with
  | VArr items => Js.join "," (map Spec.leaf_text items)
  | _ => Spec.leaf_text v
  end.

(** The pair stringify writes for a property. *)
Definition comma_pair (p : string * value) : string :=
  Encoding.rfc3986Encoder (fst p) +++ "=" +++ Encoding.rfc3986Encoder (comma_text (snd p)).

(** Null, or a leaf whose text is not empty. *)
Definition null_or_leaf (v : value) : bool :=
  match v with
  | VNull => true
  | _ => Spec.leaf_ok v && negb (String.eqb (Spec.leaf_text v) "")
  end.

(** A mapping with distinct plain keys and such values. *)
Definition null_flat (ps : props) : bool :=
  Spec.distinct (map fst ps) &&
  forallb (fun p => Spec.key_ok (fst p) && null_or_leaf (snd p)) ps.

(** The pair written for a property under strict null handling: the key
    alone for null. *)
Definition null_pair (p : string * value) : string :=
  match snd p with
  | VNull => Encoding.rfc3986Encoder (fst p)
  | v => flat_pair (fst p) v
  end.

End Laws.

(** * Properties *)

Import Types.

(** ** Parameter ceiling *)
Section ParameterLimit.
Variable opts : ParseOptions.

Lemma checkLimit_silent (current limit : Z) (type : string) :
  Utils.checkLimit current limit type false = Ok tt.
Proof. unfold Utils.checkLimit. destruct (limit <? current); reflexivity. Qed.

Lemma parse_loop_from (cs : Charset) (pairs : list string) :
  forall (n : Z) (result : value),
    Parser.parse_loop opts cs pairs n result =
    Spec.foldM (Parser.parse_pair opts cs)
               (firstn (Z.to_nat (parameterLimit opts - n)) pairs) result.
Proof.
  induction pairs as [|p rest IH]; intros n result.
  - rewrite firstn_nil. reflexivity.
  - cbn [Parser.parse_loop]. rewrite checkLimit_silent. cbn [bind].
    destruct (parameterLimit opts <? n + 1) eqn:E.
    + apply Z.ltb_lt in E.
      replace (Z.to_nat (parameterLimit opts - n)) with O by lia.
      reflexivity.
    + apply Z.ltb_ge in E.
      replace (Z.to_nat (parameterLimit opts - n))
        with (S (Z.to_nat (parameterLimit opts - (n + 1)))) by lia.
      cbn [firstn Spec.foldM].
      destruct (Parser.parse_pair opts cs p result); cbn [bind]; auto.
Qed.

(** C8.  On an input of any number of pairs, parse returns what
    processing the first [parameterLimit] pairs, one after the other,
    returns: the pairs past the ceiling are not looked at, the ceiling
    itself raises nothing, and the pairs before it are handled as in an
    input that ends there. *)
Theorem parameter_limit_truncates (input : string) :
  Parser.parse input opts =
  (let* _ := validateParse opts in
   if String.eqb input "" then Ok (VObj [])
   else
     let* (cs, pairs) := Parser.split_pairs input opts in
     Spec.foldM (Parser.parse_pair opts cs)
                (firstn (Z.to_nat (parameterLimit opts)) pairs) (VObj [])).
Proof.
  unfold Parser.parse.
  destruct (validateParse opts); cbn [bind]; try reflexivity.
  destruct (String.eqb input ""); try reflexivity.
  destruct (Parser.split_pairs input opts) as [[cs pairs]| |]; cbn [bind];
    try reflexivity.
  rewrite parse_loop_from. now rewrite Z.sub_0_r.
Qed.
End ParameterLimit.

(** ** Strict null handling *)

Lemma decodeValue_empty (opts : ParseOptions) (cs : Charset) :
  Parser.decodeValue "" opts cs =
  Ok (if strictNullHandling opts then VNull else VStr "").
Proof. reflexivity. Qed.

(** C2.  Under strictNullHandling the pair "a=" is read like the pair "a":
    both give null, where the claim, the README and the test of the
    repository ask for the empty string in the first case.  Without the
    option both give the empty string. *)
Theorem strict_null_explicit_empty_value :
  let strict := with_strictNullHandling true defaultParseOptions in
  Parser.parse "a" strict = Ok (VObj [("a", VNull)]) /\
  Parser.parse "a=" strict = Ok (VObj [("a", VNull)]) /\
  Parser.parse "a&b=" strict = Ok (VObj [("a", VNull); ("b", VNull)]) /\
  Parser.parse "a" defaultParseOptions = Ok (VObj [("a", VStr "")]) /\
  Parser.parse "a=" defaultParseOptions = Ok (VObj [("a", VStr "")]).
Proof. repeat split; vm_compute; reflexivity. Qed.

(** ** Dots in keys *)

Lemma is_prefix_char (d c : ascii) (s : string) :
  Js.is_prefix (String d "") (String c s) = Ascii.eqb d c.
Proof. cbn [Js.is_prefix]. apply andb_true_r. Qed.

Lemma includes_cons (d c : ascii) (s : string) :
  Js.includes (String d "") (String c s) = Ascii.eqb d c || Js.includes (String d "") s.
Proof. cbn [Js.includes]. now rewrite is_prefix_char. Qed.

Lemma split_dot_segments (s : string) :
  Forall (fun seg => Js.includes "." seg = false) (Js.split_from "." s 0).
Proof.
  induction s as [|c s IH].
  - repeat constructor.
  - cbn [Js.split_from]. rewrite is_prefix_char.
    destruct (Ascii.eqb "." c) eqn:E.
    + constructor; [reflexivity | exact IH].
    + destruct (Js.split_from "." s 0) as [|h t].
      * constructor; [|constructor]. rewrite includes_cons, E. reflexivity.
      * inversion IH as [|? ? Hh Ht]; subst.
        constructor; [|exact Ht].
        rewrite includes_cons, E. exact Hh.
Qed.

(** C3.  With dot notation on, whenever the key holds a dot the path is the
    split of the key on '.', taken after "%2E" has been replaced by '.':
    no segment of the path holds a dot, so a dot that arrives as "%2E"
    separates like any other. *)
Theorem decoded_dots_split (key : string) (opts : ParseOptions) :
  allowDots opts = true ->
  Js.includes "." key = true ->
  Forall (fun seg => Js.includes "." seg = false) (Parser.parseKeyPath key opts).
Proof.
  intros Hd Hk. unfold Parser.parseKeyPath. rewrite Hd, Hk. cbn [andb].
  unfold Js.split. apply split_dot_segments.
Qed.

Lemma decoded_dots_split_witness :
  let opts := with_dots true true defaultParseOptions in
  allowDots opts = true /\
  Js.includes "." "a%2Eb.c" = true /\
  Parser.parseKeyPath "a%2Eb.c" opts = ["a"; "b"; "c"] /\
  Forall (fun seg => Js.includes "." seg = false) (Parser.parseKeyPath "a%2Eb.c" opts).
Proof.
  split; [reflexivity|].
  split; [reflexivity|].
  split; [reflexivity|].
  apply (decoded_dots_split "a%2Eb.c" (with_dots true true defaultParseOptions));
    reflexivity.
Defined.

(** The same on a whole input: the key token "a%252Eb.c" decodes to
    "a%2Eb.c" and nests three levels deep. *)
Example decoded_dots_parse :
  Parser.parse "a%252Eb.c=x" (with_dots true true defaultParseOptions) =
  Ok (VObj [("a", VObj [("b", VObj [("c", VStr "x")])])]).
Proof. vm_compute. reflexivity. Qed.

(** ** Array limit *)

(** C4.  An index past arrayLimit replaces the sequence by an empty mapping:
    the element stored before under index 0 is gone, where the claim has it
    kept under the key "0". *)
Theorem array_limit_discards_elements :
  Parser.parse "a[0]=x&a[21]=y" defaultParseOptions =
  Ok (VObj [("a", VObj [("21", VStr "y")])]).
Proof. vm_compute. reflexivity. Qed.

(** Within the limit the sequence is grown with undefined slots. *)
Example array_index_grows :
  Parser.parse "a[3]=x" defaultParseOptions =
  Ok (VObj [("a", VArr [VUndefined; VUndefined; VUndefined; VStr "x"])]).
Proof. vm_compute. reflexivity. Qed.

(** ** A scalar on the path *)

(** C10, as stated, fails for a scalar that is falsy: the zero that the
    first pair stores does not hold its place, and the later pair is
    written. *)
Lemma falsy_scalar_replaced :
  Parser.parse "a=0" (with_coercion true false defaultParseOptions) =
    Ok (VObj [("a", VNum (Js.Num 0 0))]) /\
  Parser.parse "a=0&a[b]=2" (with_coercion true false defaultParseOptions) =
    Ok (VObj [("a", VObj [("b", VNum (Js.Num 2 0))])]).
Proof. split; vm_compute; reflexivity. Qed.

(** A deeper path that continues with an array segment is not discarded
    either: the code calls push on the scalar. *)
Example deeper_array_path_throws :
  Parser.parse "a=1&a[]=2" defaultParseOptions = Throw TypeError.
Proof. vm_compute. reflexivity. Qed.

(** The example of the claim on a whole input. *)
Example scalar_keeps_its_place :
  Parser.parse "a=1&a[b]=2" defaultParseOptions = Ok (VObj [("a", VStr "1")]).
Proof. vm_compute. reflexivity. Qed.

(** At the depth limit the later pair is not discarded: the rest of its
    path is collapsed into one key before the scalar is looked at, and
    stored next to it. *)
Example scalar_at_depth_limit :
  Parser.parse "x[a]=1&x[a][b]=2" (with_depth 0 false defaultParseOptions) =
  Ok (VObj [("x", VObj [("a", VStr "1"); ("a[b]", VStr "2")])]).
Proof. vm_compute. reflexivity. Qed.

(** ** The comma format *)


(** What per-element emission gives on the same input. *)
Example indices_recurse_into_mapping :
  Stringifier.stringify (VObj [("a", VArr [VObj [("b", VStr "c")]; VStr "d"])])
                        defaultStringifyOptions
  = Ok "a%5B0%5D%5Bb%5D=c&a%5B1%5D=d".
Proof. vm_compute. reflexivity. Qed.

Example comma_scalars :
  Stringifier.stringify (VObj [("a", VArr [VStr "b"; VStr "c"])])
                        (with_arrayFormat Comma defaultStringifyOptions)
  = Ok "a=b%2Cc".
Proof. vm_compute. reflexivity. Qed.

Section CommaFormat.
Variable encoder : string -> string.
Variable opts : StringifyOptions.
Hypothesis Hfmt : arrayFormat opts = Comma.
Hypothesis Hencoder : Types.encoder opts = None.




End CommaFormat.



(** ** stringify leaves its input alone *)
Section Frame.
Import Store.

Lemma length_update_cell (f : cell -> cell) (st : store) :
  forall addr, length (update_cell st addr f) = length st.
Proof.
  induction st as [|c t IH]; intros [|a]; cbn; auto.
Qed.

Lemma firstn_update_cell (f : cell -> cell) (st : store) :
  forall n addr, (n <= addr)%nat ->
    firstn n (update_cell st addr f) = firstn n st.
Proof.
  induction st as [|c t IH]; intros n addr Hle.
  - destruct addr; reflexivity.
  - destruct addr as [|a].
    + assert (n = O) by lia. subst. reflexivity.
    + destruct n as [|n]; [reflexivity|].
      cbn. f_equal. apply IH. lia.
Qed.

Lemma firstn_write (st : store) (n addr : nat) (k : string) (v : hval) :
  (n <= addr)%nat -> firstn n (write st addr k v) = firstn n st.
Proof. intros. unfold write. now apply firstn_update_cell. Qed.

Lemma length_write (st : store) (addr : nat) (k : string) (v : hval) :
  length (write st addr k v) = length st.
Proof. apply length_update_cell. Qed.

Lemma firstn_extends (st st1 : store) (n : nat) :
  (n <= length st)%nat -> firstn (length st) st1 = st ->
  firstn n st1 = firstn n st /\ (length st <= length st1)%nat.
Proof.
  intros Hn He. split.
  - transitivity (firstn n (firstn (length st) st1)).
    + rewrite firstn_firstn. f_equal. lia.
    + now rewrite He.
  - apply (f_equal (@length cell)) in He. rewrite length_firstn in He. lia.
Qed.

Lemma filter_keys_frame (input result n : nat) (keys : list FilterKey) :
  forall st, (n <= result)%nat ->
    firstn n (fold_left (keys_step input result) keys st) = firstn n st.
Proof.
  induction keys as [|key keys IH]; intros st Hle; [reflexivity|].
  cbn [fold_left]. rewrite (IH _ Hle). unfold keys_step.
  destruct (existsb _ _); [now apply firstn_write | reflexivity].
Qed.

Lemma fn_step_frame (fn : FilterFunction) (input result n : nat) (st : store)
      (key : string) :
  preserves fn -> (n <= result)%nat -> (n <= length st)%nat ->
  firstn n (fn_step fn input result st key) = firstn n st /\
  (n <= length (fn_step fn input result st key))%nat.
Proof.
  intros Hfn Hle Hlen. unfold fn_step.
  specialize (Hfn key (read st input key) st).
  destruct (fn key (read st input key) st) as [st1 filtered]. cbn [fst] in Hfn.
  destruct (firstn_extends st st1 n Hlen Hfn) as [Hp Hl].
  destruct filtered; rewrite ?firstn_write, ?length_write by exact Hle;
    split; try exact Hp; lia.
Qed.

Lemma filter_fn_frame (fn : FilterFunction) (input result n : nat) (keys : list string) :
  preserves fn ->
  forall st, (n <= result)%nat -> (n <= length st)%nat ->
    firstn n (fold_left (fn_step fn input result) keys st) = firstn n st.
Proof.
  intros Hfn. induction keys as [|key keys IH]; intros st Hle Hlen; [reflexivity|].
  cbn [fold_left].
  destruct (fn_step_frame fn input result n st key Hfn Hle Hlen) as [Hp Hl].
  rewrite (IH _ Hle Hl). exact Hp.
Qed.

Lemma applyFilter_frame (st : store) (input : nat) (flt : option Filter) :
  filter_preserves flt ->
  firstn (length st) (fst (applyFilter st input flt)) = st.
Proof.
  intros Hflt. destruct flt as [[keys|fn]|]; cbn [applyFilter alloc fst].
  - rewrite (filter_keys_frame input (length st) (length st) keys (st ++ [CObj []]))
      by lia.
    rewrite firstn_app, Nat.sub_diag, firstn_all. cbn. apply app_nil_r.
  - cbn in Hflt.
    rewrite (filter_fn_frame fn input (length st) (length st) _ Hflt (st ++ [CObj []]))
      by (rewrite ?length_app; cbn; lia).
    rewrite firstn_app, Nat.sub_diag, firstn_all. cbn. apply app_nil_r.
  - apply firstn_all.
Qed.

Lemma stringify_frame (fuel : nat) (st : store) (input : hval) (flt : option Filter)
      (opts : StringifyOptions) :
  filter_preserves flt ->
  firstn (length st) (fst (Store.stringify fuel st input flt opts)) = st.
Proof.
  intros Hflt. unfold Store.stringify.
  destruct (validateStringify opts); cbn [fst]; try apply firstn_all.
  destruct input; cbn [fst]; try apply firstn_all.
  destruct (nth_error st addr) as [[ps|items|iso]|]; cbn [fst]; try apply firstn_all.
  pose proof (applyFilter_frame st addr flt Hflt) as H.
  destruct (applyFilter st addr flt) as [st' filtered]. exact H.
Qed.

Lemma nth_error_extends (st st1 : store) (addr : nat) :
  firstn (length st) st1 = st -> (addr < length st)%nat ->
  nth_error st1 addr = nth_error st addr.
Proof.
  intros He Hlt. transitivity (nth_error (firstn (length st) st1) addr).
  - rewrite nth_error_firstn. apply Nat.ltb_lt in Hlt. now rewrite Hlt.
  - now rewrite He.
Qed.

Lemma closed_cell (st : store) (addr : nat) (c : cell) :
  closed st = true -> nth_error st addr = Some c ->
  match c with
  | CObj ps => forallb (fun p => in_store st (snd p)) ps = true
  | CArr items => forallb (in_store st) items = true
  | CDate _ => True
  end.
Proof.
  unfold closed. intros Hc Hn. rewrite forallb_forall in Hc.
  specialize (Hc c (nth_error_In _ _ Hn)). destruct c; auto.
Qed.

Lemma reify_extends (st st1 : store) :
  closed st = true -> firstn (length st) st1 = st ->
  forall fuel v, in_store st v = true -> reify fuel st1 v = reify fuel st v.
Proof.
  intros Hc He. induction fuel as [|fuel IH]; intros v Hv;
    destruct v; try reflexivity.
  cbn [in_store] in Hv. apply Nat.ltb_lt in Hv.
  cbn [reify]. rewrite (nth_error_extends st st1 addr He Hv).
  destruct (nth_error st addr) as [c|] eqn:Hn; [|reflexivity].
  pose proof (closed_cell st addr c Hc Hn) as Hcell. clear Hn.
  destruct c as [ps|items|iso]; [| |reflexivity]; f_equal.
  - induction ps as [|p ps IHps]; [reflexivity|].
    cbn [forallb] in Hcell. apply andb_prop in Hcell as [Hp Hps].
    cbn [fold_right]. rewrite (IH _ Hp), (IHps Hps). reflexivity.
  - induction items as [|h items IHi]; [reflexivity|].
    cbn [forallb] in Hcell. apply andb_prop in Hcell as [Hh Hi].
    cbn [fold_right]. rewrite (IH _ Hh), (IHi Hi). reflexivity.
Qed.

(** C9.  After stringify, with or without a filter, every object that was
    in the store is what it was before, and the input stands for the same
    tree at every depth.  A transform function is caller code: it is asked
    not to write to the objects it is shown. *)
Theorem stringify_leaves_input (fuel : nat) (st : store) (input : hval)
        (flt : option Filter) (opts : StringifyOptions) :
  filter_preserves flt ->
  closed st = true ->
  in_store st input = true ->
  let st' := fst (Store.stringify fuel st input flt opts) in
  firstn (length st) st' = st /\
  forall depth, reify depth st' input = reify depth st input.
Proof.
  intros Hflt Hc Hin st'.
  pose proof (stringify_frame fuel st input flt opts Hflt) as Hframe.
  split; [exact Hframe|].
  intros depth. now apply reify_extends.
Qed.

End Frame.

Lemma stringify_leaves_input_witness :
  let st := [ Store.CObj [("a", Store.HStr "b"); ("c", Store.HRef 1); ("e", Store.HRef 2)];
              Store.CObj [("d", Store.HNum (Js.Num 1 0))];
              Store.CArr [Store.HStr "x"; Store.HNull] ] in
  let flt := Some (Store.FilterKeys [FKString "c"; FKString "a"]) in
  let run := Store.stringify 5 st (Store.HRef 0) flt defaultStringifyOptions in
  Store.filter_preserves flt /\
  Store.closed st = true /\
  Store.in_store st (Store.HRef 0) = true /\
  snd run = Ok "c%5Bd%5D=1&a=b" /\
  firstn (length st) (fst run) = st /\
  forall depth, Store.reify depth (fst run) (Store.HRef 0) = Store.reify depth st (Store.HRef 0).
Proof.
  split; [exact I|].
  split; [reflexivity|].
  split; [reflexivity|].
  split; [vm_compute; reflexivity|].
  apply (stringify_leaves_input 5
           [ Store.CObj [("a", Store.HStr "b"); ("c", Store.HRef 1); ("e", Store.HRef 2)];
             Store.CObj [("d", Store.HNum (Js.Num 1 0))];
             Store.CArr [Store.HStr "x"; Store.HNull] ]
           (Store.HRef 0) (Some (Store.FilterKeys [FKString "c"; FKString "a"]))
           defaultStringifyOptions); [exact I | reflexivity | reflexivity].
Defined.

(** ** Sparse-to-dense conversion *)

(** parse does not call the conversion.  The inner mapping of this result
    has the single key "0" and stays a mapping. *)
Lemma parse_keeps_index_mapping :
  exists r,
    Parser.parse "a[0][0]=x" defaultParseOptions = Ok r /\
    r = VObj [("a", VArr [VObj [("0", VStr "x")]])] /\
    Spec.normalized (allowSparse defaultParseOptions) r = false.
Proof.
  eexists. split; [vm_compute; reflexivity|]. split; reflexivity.
Qed.

Section Conversion.

Lemma digits_value_nonneg (s : string) :
  forall acc, Js.all_digits s = true -> 0 <= acc -> 0 <= Js.digits_value s acc.
Proof.
  induction s as [|c s IH]; intros acc Hd Hacc; [exact Hacc|].
  cbn [Js.all_digits] in Hd. apply andb_prop in Hd as [Hc Hs].
  cbn [Js.digits_value]. apply IH; [exact Hs|].
  unfold Js.is_digit in Hc. apply andb_prop in Hc as [Hlo _].
  apply Nat.leb_le in Hlo. lia.
Qed.

Lemma parseInt_nonneg (k : string) : Utils.isArrayIndex k = true -> 0 <= Js.parseInt k.
Proof.
  unfold Utils.isArrayIndex, Js.is_digits1, Js.parseInt. intros H.
  apply digits_value_nonneg; [|lia]. destruct k; [discriminate|exact H].
Qed.

Lemma array_set_spec (i : Z) (v : value) (l : list value) :
  0 <= i < 4294967295 ->
  exists l',
    Obj.array_set i v l = Ok l' /\
    Z.of_nat (length l') = Z.max (Z.of_nat (length l)) (i + 1) /\
    forall j, 0 <= j ->
      Obj.array_get j l' = if i =? j then v else Obj.array_get j l.
Proof.
  intros [Hlo Hhi]. unfold Obj.array_set.
  replace (i <? 0) with false by (symmetry; apply Z.ltb_ge; lia).
  replace (4294967295 <=? i) with false by (symmetry; apply Z.leb_gt; lia).
  cbn [orb].
  destruct (Z.to_nat i <? length l)%nat eqn:E.
  - apply Nat.ltb_lt in E. eexists. split; [reflexivity|]. split.
    + rewrite length_app. cbn [length]. rewrite length_firstn, length_skipn. lia.
    + intros j Hj. unfold Obj.array_get.
      replace (j <? 0) with false by (symmetry; apply Z.ltb_ge; lia).
      destruct (i =? j) eqn:Eij.
      * apply Z.eqb_eq in Eij. subst j.
        rewrite app_nth2; rewrite length_firstn;
          replace (Nat.min (Z.to_nat i) (length l)) with (Z.to_nat i) by lia;
          [now rewrite Nat.sub_diag | lia].
      * apply Z.eqb_neq in Eij.
        destruct (Nat.lt_ge_cases (Z.to_nat j) (Z.to_nat i)) as [Hlt|Hge].
        -- rewrite app_nth1 by (rewrite length_firstn; lia).
           now rewrite nth_firstn, (proj2 (Nat.ltb_lt _ _) Hlt).
        -- assert (Hgt : (Z.to_nat i < Z.to_nat j)%nat) by lia.
           rewrite app_nth2 by (rewrite length_firstn; lia).
           rewrite length_firstn.
           replace (Nat.min (Z.to_nat i) (length l)) with (Z.to_nat i) by lia.
           replace (Z.to_nat j - Z.to_nat i)%nat
             with (S (Z.to_nat j - S (Z.to_nat i))) by lia.
           cbn [nth]. rewrite nth_skipn. f_equal. lia.
  - apply Nat.ltb_ge in E. eexists. split; [reflexivity|]. split.
    + rewrite !length_app, repeat_length. cbn [length]. lia.
    + intros j Hj. unfold Obj.array_get.
      replace (j <? 0) with false by (symmetry; apply Z.ltb_ge; lia).
      destruct (i =? j) eqn:Eij.
      * apply Z.eqb_eq in Eij. subst j.
        rewrite app_nth2 by lia. rewrite app_nth2 by (rewrite repeat_length; lia).
        rewrite repeat_length.
        replace (Z.to_nat i - length l - (Z.to_nat i - length l))%nat with O by lia.
        reflexivity.
      * apply Z.eqb_neq in Eij.
        destruct (Nat.lt_ge_cases (Z.to_nat j) (length l)) as [Hlt|Hge].
        -- now rewrite app_nth1 by lia.
        -- rewrite app_nth2 by lia. rewrite (nth_overflow l) by lia.
           destruct (Nat.lt_ge_cases (Z.to_nat j - length l) (Z.to_nat i - length l))
             as [Hin|Hout].
           ++ rewrite app_nth1 by (rewrite repeat_length; lia).
              apply nth_repeat.
           ++ rewrite app_nth2 by (rewrite repeat_length; lia).
              rewrite repeat_length.
              assert (Hne : Z.to_nat j <> Z.to_nat i) by lia.
              destruct (Z.to_nat j - length l - (Z.to_nat i - length l))%nat as [|[|m]] eqn:Ed;
                [lia | reflexivity | reflexivity].
Qed.

Variable obj : props.

Lemma fill_array_spec (keys : list string) :
  forall arr,
    (forall k, In k keys -> 0 <= Js.parseInt k < 4294967295) ->
    exists arr',
      Utils.fill_array obj keys arr = Ok arr' /\
      Z.of_nat (length arr') = Z.max (Z.of_nat (length arr)) (Spec.extent keys) /\
      forall i, 0 <= i ->
        Obj.array_get i arr' =
        fold_left
          (fun acc k =>
             if Js.parseInt k =? i
             then match lookup k obj with Some v => v | None => VUndefined end
             else acc)
          keys (Obj.array_get i arr).
Proof.
  induction keys as [|k keys IH]; intros arr Hr.
  - exists arr. split; [reflexivity|]. split; [cbn; lia|]. reflexivity.
  - cbn [Utils.fill_array].
    destruct (array_set_spec (Js.parseInt k)
                (match lookup k obj with Some v => v | None => VUndefined end) arr)
      as (arr1 & Hset & Hlen1 & Hget1); [apply Hr; now left|].
    rewrite Hset. cbn [bind].
    destruct (IH arr1) as (arr' & Hfill & Hlen & Hget);
      [intros; apply Hr; now right|].
    exists arr'. split; [exact Hfill|]. split.
    + rewrite Hlen, Hlen1. cbn [Spec.extent fold_right]. fold (Spec.extent keys). lia.
    + intros i Hi. rewrite (Hget i Hi). cbn [fold_left]. now rewrite (Hget1 i Hi).
Qed.

Lemma Math_max_insert (x : Z) (l : list Z) :
  Utils.Math_max (Utils.insert_sorted x l) = Z.max x (Utils.Math_max l).
Proof.
  induction l as [|h t IH]; [reflexivity|].
  cbn [Utils.insert_sorted]. destruct (x <=? h); [reflexivity|].
  cbn [Utils.Math_max fold_right] in *. fold (Utils.Math_max t).
  fold (Utils.Math_max (Utils.insert_sorted x t)). rewrite IH. lia.
Qed.

Lemma Math_max_sort (l : list Z) :
  Utils.Math_max (Utils.sort_numbers l) = Utils.Math_max l.
Proof.
  induction l as [|h t IH]; [reflexivity|].
  cbn [Utils.sort_numbers fold_right]. fold (Utils.sort_numbers t).
  rewrite Math_max_insert, IH. reflexivity.
Qed.

Lemma Math_max_bound (keys : list string) (k : string) :
  In k keys -> Js.parseInt k <= Utils.Math_max (map Js.parseInt keys).
Proof.
  induction keys as [|h t IH]; intros Hin; [destruct Hin|].
  cbn [map Utils.Math_max fold_right]. fold (Utils.Math_max (map Js.parseInt t)).
  destruct Hin as [->|Hin]; [lia|]. specialize (IH Hin). lia.
Qed.

Lemma extent_Math_max (keys : list string) :
  keys <> [] -> forallb Utils.isArrayIndex keys = true ->
  Spec.extent keys = Utils.Math_max (map Js.parseInt keys) + 1.
Proof.
  induction keys as [|h t IH]; intros Hne Hall; [congruence|].
  cbn [forallb] in Hall. apply andb_prop in Hall as [Hh Ht].
  pose proof (parseInt_nonneg h Hh) as Hpos.
  cbn [Spec.extent map Utils.Math_max fold_right].
  fold (Spec.extent t). fold (Utils.Math_max (map Js.parseInt t)).
  destruct t as [|h' t'].
  - cbn. lia.
  - rewrite IH by (congruence || exact Ht). lia.
Qed.

(** What the helper of the conversion does, were it called.  On a
    mapping with at least one key, all keys decimal and below 2^32 - 1, the
    helper keeps the mapping when sparse arrays are not allowed and the
    largest index is at least twice the number of keys; otherwise it builds
    the sequence that runs up to the largest index, holds each value at its
    index and undefined in every other slot, and returns it as it is when
    sparse arrays are allowed, and with the undefined slots removed when
    they are not. *)
Theorem maybeConvertToArray_spec (allowSparse : bool) :
  let keys := Object_keys obj in
  let maxIndex := Utils.Math_max (map Js.parseInt keys) in
  keys <> [] ->
  forallb Utils.isArrayIndex keys = true ->
  maxIndex < 4294967295 ->
  if negb allowSparse && (Z.of_nat (length keys) * 2 <=? maxIndex)
  then Utils.maybeConvertToArray obj allowSparse = Ok (VObj obj)
  else exists arr,
      Z.of_nat (length arr) = maxIndex + 1 /\
      (forall i, 0 <= i -> Obj.array_get i arr = Spec.slot obj keys VUndefined i) /\
      Utils.maybeConvertToArray obj allowSparse =
      Ok (VArr (if allowSparse then arr else Utils.compactArray arr)).
Proof.
  intros keys maxIndex Hne Hall Hmax.
  assert (Hlen : (length keys =? 0)%nat = false)
    by (destruct keys; [congruence|reflexivity]).
  unfold Utils.maybeConvertToArray. fold keys. rewrite Hlen, Hall. cbn [negb].
  rewrite Math_max_sort. fold maxIndex.
  destruct (negb allowSparse && (Z.of_nat (length keys) * 2 <=? maxIndex));
    [reflexivity|].
  destruct (fill_array_spec keys []) as (arr & Hfill & Hl & Hget).
  { intros k Hin. split.
    - apply parseInt_nonneg. rewrite forallb_forall in Hall. now apply Hall.
    - pose proof (Math_max_bound keys k Hin). fold maxIndex in H. lia. }
  exists arr. split; [|split].
  - rewrite Hl, (extent_Math_max keys Hne Hall). fold maxIndex.
    assert (0 <= maxIndex).
    { destruct keys as [|k0 ks]; [congruence|].
      pose proof (Math_max_bound (k0 :: ks) k0 (or_introl eq_refl)) as Hb.
      fold maxIndex in Hb.
      assert (0 <= Js.parseInt k0)
        by (apply parseInt_nonneg; cbn [forallb] in Hall;
            now apply andb_prop in Hall as [? _]).
      lia. }
    cbn [length]. lia.
  - intros i Hi. rewrite (Hget i Hi). unfold Spec.slot. f_equal.
    unfold Obj.array_get. destruct (i <? 0); [reflexivity|]. now destruct (Z.to_nat i).
  - rewrite Hfill. reflexivity.
Qed.

End Conversion.

Lemma maybeConvertToArray_spec_witness :
  let obj := [("1", VStr "a"); ("3", VStr "b")] in
  Object_keys obj <> [] /\
  forallb Utils.isArrayIndex (Object_keys obj) = true /\
  Utils.Math_max (map Js.parseInt (Object_keys obj)) < 4294967295 /\
  Utils.maybeConvertToArray obj true =
    Ok (VArr [VUndefined; VStr "a"; VUndefined; VStr "b"]) /\
  Utils.maybeConvertToArray obj false = Ok (VArr [VStr "a"; VStr "b"]) /\
  Utils.maybeConvertToArray [("1", VStr "a"); ("4", VStr "b")] false =
    Ok (VObj [("1", VStr "a"); ("4", VStr "b")]) /\
  exists arr,
    Z.of_nat (length arr) = 3 + 1 /\
    (forall i, 0 <= i -> Obj.array_get i arr = Spec.slot obj (Object_keys obj) VUndefined i) /\
    Utils.maybeConvertToArray obj true = Ok (VArr arr).
Proof.
  split; [discriminate|].
  split; [reflexivity|].
  split; [reflexivity|].
  split; [reflexivity|].
  split; [reflexivity|].
  split; [reflexivity|].
  apply (maybeConvertToArray_spec [("1", VStr "a"); ("3", VStr "b")] true);
    [discriminate | reflexivity | reflexivity].
Defined.

(** *** parse and the option allowSparse *)
Section Sparse.
Variable opts : ParseOptions.
Variable b : bool.
Local Abbreviation sopts := (with_allowSparse b opts).

(** [handleArrayValue] uses its two calls back only through their
    values. *)
Lemma handleArrayValue_ext (f f' g g' : value -> Z -> outcome value)
      (o : value) (k : string) (rp : list string) (x : value) (os : ParseOptions) (d : Z) :
  (forall t d', f t d' = f' t d') ->
  (forall t d', g t d' = g' t d') ->
  Parser.handleArrayValue f g o k rp x os d = Parser.handleArrayValue f' g' o k rp x os d.
Proof.
  intros Hf Hg. unfold Parser.handleArrayValue.
  destruct (Obj.get (plainObjects os) o k) as [arr| |]; cbn [bind]; [|reflexivity..].
  destruct (hd_error rp) as [[|c s]|].
  - destruct arr; try reflexivity. now rewrite Hg.
  - destruct (Utils.isArrayIndex (String c s)).
    + destruct (arrayLimit os <? _).
      * destruct (if negb (Utils.isObject arr) then _ else _); cbn [bind]; [|reflexivity..].
        destruct (Obj.get _ _ _); cbn [bind]; [|reflexivity..]. now rewrite Hf.
      * destruct arr; try reflexivity.
        -- now rewrite Hg.
        -- destruct (lookup "length" props0); [reflexivity|].
           destruct (length rp =? 1)%nat; [reflexivity|].
           destruct (Obj.get _ _ _); cbn [bind]; [|reflexivity..]. now rewrite Hg.
    + destruct arr; try reflexivity. now rewrite Hf.
  - destruct arr; try reflexivity. now rewrite Hf.
Qed.

Lemma setNestedValue_allowSparse (v : value) (n : nat) :
  forall (kp : list string) (o : value) (d : Z),
    (length kp <= n)%nat ->
    Parser.setNestedValue sopts v kp o d = Parser.setNestedValue opts v kp o d.
Proof.
  induction n as [|n IH]; intros kp o d Hn.
  - destruct kp; [reflexivity|cbn in Hn; lia].
  - destruct kp as [|k rest]; [reflexivity|]. cbn [length] in Hn.
    cbn [Parser.setNestedValue].
    change (strictDepth sopts) with (strictDepth opts).
    change (depth sopts) with (depth opts).
    change (allowPrototypes sopts) with (allowPrototypes opts).
    change (plainObjects sopts) with (plainObjects opts).
    change (parseArrays sopts) with (parseArrays opts).
    destruct (strictDepth opts && (depth opts <? d)); [reflexivity|].
    destruct (depth opts <? d); [reflexivity|].
    destruct (String.eqb k ""); [reflexivity|].
    destruct (negb (allowPrototypes opts) && Utils.hasPrototypePollution k); [reflexivity|].
    destruct rest as [|next rest']; [reflexivity|]. cbn [length] in Hn.
    destruct (Obj.get (plainObjects opts) o k) as [cur| |]; cbn [bind]; [|reflexivity..].
    destruct (if falsy cur then _ else _) as [obj1| |]; cbn [bind]; [|reflexivity..].
    destruct ((Utils.isArrayIndex next || String.eqb next "") && parseArrays opts).
    + apply (handleArrayValue_ext _ _ _ _ obj1 k (next :: rest') v opts (d + 1)).
      * intros t d'. apply IH. cbn [length]. lia.
      * intros t d'. apply IH. lia.
    + destruct (Obj.get (plainObjects opts) obj1 k) as [cur1| |]; cbn [bind]; [|reflexivity..].
      destruct (Utils.isObject cur1); [|reflexivity].
      rewrite IH by (cbn [length]; lia). reflexivity.
Qed.

Lemma parse_loop_allowSparse (cs : Charset) (pairs : list string) :
  forall (count : Z) (o : value),
    Parser.parse_loop sopts cs pairs count o = Parser.parse_loop opts cs pairs count o.
Proof.
  induction pairs as [|p pairs IH]; intros count o; [reflexivity|].
  cbn [Parser.parse_loop].
  change (parameterLimit sopts) with (parameterLimit opts).
  destruct (Utils.checkLimit _ _ _ _); cbn [bind]; [|reflexivity..].
  destruct (parameterLimit opts <? count + 1); [reflexivity|].
  assert (Hpair : Parser.parse_pair sopts cs p o = Parser.parse_pair opts cs p o).
  { unfold Parser.parse_pair. destruct (String.eqb p ""); [reflexivity|].
    destruct (match Js.indexOf "=" p with Some i => _ | None => _ end) as [key t].
    change (Parser.decodeKey key sopts cs) with (Parser.decodeKey key opts cs).
    change (Parser.decodeValue t sopts cs) with (Parser.decodeValue t opts cs).
    destruct (Parser.decodeKey key opts cs) as [dk| |]; cbn [bind]; [|reflexivity..].
    destruct (Parser.decodeValue t opts cs) as [dv| |]; cbn [bind]; [|reflexivity..].
    destruct (String.eqb dk ""); [reflexivity|].
    unfold Parser.parseKeyValue.
    change (comma sopts) with (comma opts).
    change (parseNumbers sopts) with (parseNumbers opts).
    change (parseBooleans sopts) with (parseBooleans opts).
    change (parseDates sopts) with (parseDates opts).
    change (Parser.parseKeyPath dk sopts) with (Parser.parseKeyPath dk opts).
    match goal with
    | |- bind ?m _ = bind ?m _ => destruct m as [x| |]; cbn [bind]; [|reflexivity..]
    end.
    now apply (setNestedValue_allowSparse x (length (Parser.parseKeyPath dk opts))). }
  rewrite Hpair. destruct (Parser.parse_pair opts cs p o); cbn [bind]; auto.
Qed.

End Sparse.

(** C5.  parse does not normalize: the option allowSparse has no effect
    on what parse returns, on any input and whatever the other options,
    and the conversion is not performed.  The inner mapping of "a[0][0]=x",
    with the single key "0", stays a mapping where the rule gives the
    sequence of one element; the mapping of "a[25]=x" stays a mapping
    under allowSparse, where the rule gives the sequence with 25 holes. *)
Theorem parse_ignores_allowSparse :
  (forall (input : string) (opts : ParseOptions) (b : bool),
      Parser.parse input (with_allowSparse b opts) = Parser.parse input opts) /\
  (Parser.parse "a[0][0]=x" defaultParseOptions =
     Ok (VObj [("a", VArr [VObj [("0", VStr "x")]])]) /\
   Utils.maybeConvertToArray [("0", VStr "x")] false = Ok (VArr [VStr "x"])) /\
  (Parser.parse "a[25]=x" (with_allowSparse true defaultParseOptions) =
     Ok (VObj [("a", VObj [("25", VStr "x")])]) /\
   Utils.maybeConvertToArray [("25", VStr "x")] true =
     Ok (VArr (repeat VUndefined 25 ++ [VStr "x"]))).
Proof.
  split; [|split; split; vm_compute; reflexivity].
  intros input opts b. unfold Parser.parse.
  change (validateParse (with_allowSparse b opts)) with (validateParse opts).
  destruct (validateParse opts); cbn [bind]; [|reflexivity..].
  destruct (String.eqb input ""); [reflexivity|].
  change (Parser.split_pairs input (with_allowSparse b opts))
    with (Parser.split_pairs input opts).
  destruct (Parser.split_pairs input opts) as [[cs pairs]| |]; cbn [bind]; [|reflexivity..].
  apply parse_loop_allowSparse.
Qed.

(** ** Depth limit *)


(** Nor does a deep key raise when its pair is dropped on the way. *)
Example deep_key_dropped_no_error :
  Parser.parse "a=1&a[b][c]=2" (with_depth 0 true defaultParseOptions) =
  Ok (VObj [("a", VStr "1")]).
Proof. vm_compute. reflexivity. Qed.

(** An index past arrayLimit is a segment like a named one: this key of
    three segments raises the error at depth 1. *)
Example index_past_limit_counts :
  Parser.parse "a[21][b]=x" (with_depth 1 true defaultParseOptions) =
  Throw Spec.depth_exceeded.
Proof. vm_compute. reflexivity. Qed.

Section Depth.

Lemma ordinary_not_proto (k : string) :
  Spec.ordinary k = true -> String.eqb k "__proto__" = false.
Proof.
  unfold Spec.ordinary, Utils.hasPrototypePollution. intros H.
  apply andb_prop in H as [H _]. apply andb_prop in H as [_ H].
  destruct (String.eqb k "__proto__"); [discriminate|reflexivity].
Qed.

Lemma inherited_own (plain : bool) (ps : props) (k : string) :
  is_inherited k = false -> Obj.inherited plain (VObj ps) k = false.
Proof.
  intros H. unfold Obj.inherited. rewrite H, andb_false_r. now destruct (lookup k ps).
Qed.

Lemma ordinary_not_inherited (k : string) :
  Spec.ordinary k = true -> is_inherited k = false.
Proof.
  unfold Spec.ordinary. intros H. apply andb_prop in H as [_ H].
  now apply negb_true_iff in H.
Qed.

End Depth.

Section DepthError.
Variable opts : ParseOptions.

Lemma bind_throw {A B} (m : outcome A) (k : A -> outcome B) (e : error) :
  bind m k = Throw e -> m = Throw e \/ exists a, m = Ok a /\ k a = Throw e.
Proof.
  destruct m as [a| |]; cbn; intros H; try discriminate.
  - right. now exists a.
  - left. now injection H as ->.
Qed.

Lemma get_quiet (plain : bool) (o : value) (k : string) (e : error) :
  Obj.get plain o k <> Throw e.
Proof.
  unfold Obj.get. destruct o; try discriminate.
  destruct (lookup k props0); [discriminate|]. now destruct (negb plain && is_inherited k).
Qed.

Lemma set_quiet (plain : bool) (o : value) (k : string) (x : value) (e : error) :
  Obj.set plain o k x <> Throw e.
Proof.
  unfold Obj.set. destruct o; try discriminate.
  now destruct (negb plain && String.eqb k "__proto__").
Qed.

Lemma array_set_quiet (i : Z) (x : value) (l : list value) (e : error) :
  Obj.array_set i x l <> Throw e.
Proof.
  unfold Obj.array_set. destruct ((i <? 0) || (4294967295 <=? i)); [discriminate|].
  now destruct (Z.to_nat i <? length l)%nat.
Qed.

Lemma safeSetProperty_quiet (plain : bool) (o : value) (k : string) (x : value)
      (allow : bool) (e : error) :
  Utils.safeSetProperty plain o k x allow <> Throw e.
Proof.
  unfold Utils.safeSetProperty.
  destruct (negb allow && Utils.hasPrototypePollution k); [discriminate|apply set_quiet].
Qed.

Lemma handleDuplicateKey_quiet (o : value) (k : string) (x : value) (e : error) :
  Parser.handleDuplicateKey o k x opts <> Throw e.
Proof.
  unfold Parser.handleDuplicateKey. intros H.
  destruct (Obj.inherited (plainObjects opts) o k).
  { destruct (duplicates opts); [|discriminate|now apply safeSetProperty_quiet in H].
    now destruct (negb (allowPrototypes opts) && Utils.hasPrototypePollution k). }
  apply bind_throw in H as [H|(existing & _ & H)]; [now apply get_quiet in H|].
  destruct (Utils.is_undefined existing); [now apply safeSetProperty_quiet in H|].
  destruct (duplicates opts); [|discriminate|now apply safeSetProperty_quiet in H].
  destruct existing; try (now apply safeSetProperty_quiet in H). discriminate.
Qed.



End DepthError.

Section DepthParse.
Variable opts : ParseOptions.

Lemma autoConvert_quiet (s : string) (n b dt : bool) (e : error) :
  Utils.autoConvert s n b dt <> Throw e.
Proof.
  unfold Utils.autoConvert, Utils.isDateString, Utils.Date_of_string.
  destruct (String.eqb s ""); [discriminate|].
  destruct (b && Utils.isBooleanString s); [discriminate|].
  destruct (n && Utils.isNumericString s); [now destruct (Js.Number s)|].
  destruct dt; [|discriminate].
  destruct (negb (Utils.date_regex s)); cbn [bind]; [discriminate|].
  match goal with |- context [if ?c then Ok (Some ?x) else _] => destruct c end;
    cbn [bind]; discriminate.
Qed.

Lemma mapM_quiet {A B} (f : A -> outcome B) (l : list A) (e : error) :
  (forall x, f x <> Throw e) -> Parser.mapM f l <> Throw e.
Proof.
  intros Hf. induction l as [|x t IH]; [discriminate|].
  cbn [Parser.mapM]. intros H.
  apply bind_throw in H as [H|(? & _ & H)]; [now apply Hf in H|].
  apply bind_throw in H as [H|(? & _ & H)]; [now apply IH in H|discriminate].
Qed.

Lemma try_catch_quiet {A} (m : outcome A) (a : A) (e : error) :
  try_catch m (Ok a) <> Throw e.
Proof. destruct m; discriminate. Qed.

Lemma decodeKey_quiet (key : string) (cs : Charset) (e : error) :
  Parser.decodeKey key opts cs <> Throw e.
Proof.
  unfold Parser.decodeKey. destruct (String.eqb key ""); [discriminate|].
  apply try_catch_quiet.
Qed.

Lemma decodeValue_quiet (s : string) (cs : Charset) (e : error) :
  Parser.decodeValue s opts cs <> Throw e.
Proof.
  unfold Parser.decodeValue. destruct (String.eqb s ""); [discriminate|].
  apply try_catch_quiet.
Qed.






End DepthParse.

(** The scenario of the specification: depth 3, strictDepth, a key nested
    seven levels deep. *)
Example depth_exceeded_parse :
  Parser.parse "a[b][c][d][e][f][g]=x" (with_depth 3 true defaultParseOptions) =
  Throw (TsQsError "DEPTH_EXCEEDED").
Proof. vm_compute. reflexivity. Qed.

(** ** Round trip: the text level *)
Section Text.

Lemma append_assoc (a b c : string) : (a +++ b) +++ c = a +++ b +++ c.
Proof. induction a as [|x a IH]; cbn; [reflexivity|now rewrite IH]. Qed.

Lemma append_nil_r (a : string) : a +++ "" = a.
Proof. induction a as [|x a IH]; cbn; [reflexivity|now rewrite IH]. Qed.

Lemma length_append (a b : string) :
  String.length (a +++ b) = (String.length a + String.length b)%nat.
Proof. induction a as [|x a IH]; cbn; [reflexivity|now rewrite IH]. Qed.

Lemma all_chars_app (P : ascii -> bool) (a b : string) :
  Spec.all_chars P (a +++ b) = Spec.all_chars P a && Spec.all_chars P b.
Proof.
  induction a as [|x a IH]; cbn; [reflexivity|]. rewrite IH. apply andb_assoc.
Qed.

Lemma all_chars_weaken (P Q : ascii -> bool) (s : string) :
  (forall c, P c = true -> Q c = true) ->
  Spec.all_chars P s = true -> Spec.all_chars Q s = true.
Proof.
  intros HPQ. induction s as [|c s IH]; cbn; [reflexivity|].
  intros H. apply andb_prop in H as [Hc Hs]. now rewrite (HPQ c Hc), IH.
Qed.

Lemma escape_marks_app (a b : string) :
  Encoding.escape_marks (a +++ b) = Encoding.escape_marks a +++ Encoding.escape_marks b.
Proof.
  induction a as [|c a IH]; [reflexivity|].
  cbn [String.append Encoding.escape_marks]. rewrite IH.
  destruct (existsb _ _); [|reflexivity].
  cbn [String.append]. now rewrite append_assoc.
Qed.

Lemma encoder_cons (c : ascii) (s : string) :
  Encoding.rfc3986Encoder (String c s) = Spec.encode_char c +++ Encoding.rfc3986Encoder s.
Proof.
  unfold Encoding.rfc3986Encoder, Spec.encode_char. cbn [Js.encodeURIComponent].
  destruct (Js.uri_unreserved c).
  - change (String c (Js.encodeURIComponent s))
      with (String c "" +++ Js.encodeURIComponent s).
    apply escape_marks_app.
  - rewrite <- append_assoc. apply escape_marks_app.
Qed.

Lemma encode_char_token (c : ascii) :
  Spec.all_chars Spec.token_char (Spec.encode_char c) = true.
Proof. destruct c as [[] [] [] [] [] [] [] []]; reflexivity. Qed.

Lemma encoder_token (s : string) :
  Spec.all_chars Spec.token_char (Encoding.rfc3986Encoder s) = true.
Proof.
  induction s as [|c s IH]; [reflexivity|].
  now rewrite encoder_cons, all_chars_app, encode_char_token, IH.
Qed.

Lemma encoder_empty (s : string) :
  Encoding.rfc3986Encoder s = "" -> s = "".
Proof.
  destruct s as [|c s]; [reflexivity|]. rewrite encoder_cons.
  destruct c as [[] [] [] [] [] [] [] []]; discriminate.
Qed.

Lemma decode_char (c : ascii) (rest : string) :
  Spec.is_ascii c = true ->
  Js.decode_from (Spec.encode_char c +++ rest) 0 = option_map (String c) (Js.decode_from rest 0).
Proof.
  intros H. destruct c as [[] [] [] [] [] [] [] []]; try discriminate H; reflexivity.
Qed.

Lemma encode_char_high (c : ascii) (rest : string) :
  (N_of_ascii c <? 128)%N = false -> Spec.encode_char c +++ rest = Spec.escaped c rest.
Proof.
  intros H. destruct c as [[] [] [] [] [] [] [] []]; try discriminate H; reflexivity.
Qed.

Lemma escape_at_escaped (c : ascii) (rest : string) :
  Js.escape_at (Spec.escaped c rest) = Some (N_of_ascii c).
Proof. destruct c as [[] [] [] [] [] [] [] []]; reflexivity. Qed.

Lemma drop_escaped (k : nat) (c : ascii) (rest : string) :
  Js.drop (3 + k) (Spec.escaped c rest) = Js.drop k rest.
Proof. reflexivity. Qed.

Lemma drop_0 (s : string) : Js.drop 0 s = s.
Proof. now destruct s. Qed.

(** The step of the decoder at the escape of a lead byte. *)
Lemma decode_lead (c0 : ascii) (rest : string) :
  (N_of_ascii c0 <? 128)%N = false ->
  Js.decode_from (Spec.escaped c0 rest) 0 =
  let n := Js.utf8_seq_len (N_of_ascii c0) in
  let conts := map (fun i => Js.escape_at (Js.drop (3 * i) (Spec.escaped c0 rest)))
                   (seq 1 (n - 1)) in
  if forallb (fun o => match o with Some _ => true | None => false end) conts
  then
    let bytes := flat_map (fun o => match o with Some b => [b] | None => [] end) conts in
    if Js.utf8_valid (N_of_ascii c0) bytes
    then option_map (String.append (Js.bytes_to_string (N_of_ascii c0 :: bytes)))
                    (Js.decode_from (Js.drop 1 (Spec.escaped c0 rest)) (3 * n - 1))
    else None
  else None.
Proof.
  intros Hhigh. pose proof (escape_at_escaped c0 rest) as He.
  unfold Spec.escaped in *. cbn [Js.decode_from].
  change (Ascii.eqb "%" "%") with true. cbv iota. rewrite He, Hhigh. reflexivity.
Qed.

Lemma in_range_spec (lo hi x : N) :
  Js.in_range lo hi x = true <-> (lo <= x <= hi)%N.
Proof.
  unfold Js.in_range. rewrite andb_true_iff, !N.leb_le. tauto.
Qed.

Ltac ranges :=
  repeat match goal with
  | H : _ && _ = true |- _ => apply andb_prop in H as [? ?]
  | H : Js.is_cont _ = true |- _ => unfold Js.is_cont in H
  | H : Js.in_range _ _ _ = true |- _ => apply in_range_spec in H
  | H : (if ?b then _ else _) = true |- _ => destruct b eqn:?
  | H : (_ =? _)%N = true |- _ => apply N.eqb_eq in H
  | H : (_ =? _)%N = false |- _ => apply N.eqb_neq in H
  | H : (_ <? _)%N = false |- _ => apply N.ltb_ge in H
  | H : (_ <? _)%N = true |- _ => apply N.ltb_lt in H
  end.

Lemma in_range_false (lo hi x : N) :
  (x < lo \/ hi < x)%N -> Js.in_range lo hi x = false.
Proof.
  intros H. unfold Js.in_range. apply andb_false_iff.
  rewrite !N.leb_gt. lia.
Qed.

Lemma in_range_true (lo hi x : N) :
  (lo <= x <= hi)%N -> Js.in_range lo hi x = true.
Proof. apply in_range_spec. Qed.

Lemma valid4_len (b0 b1 b2 b3 : N) :
  Js.utf8_valid b0 [b1; b2; b3] = true -> Js.utf8_seq_len b0 = 4%nat /\ (b0 <? 128)%N = false.
Proof.
  cbn [Js.utf8_valid]. intros H. ranges; unfold Js.utf8_seq_len;
    rewrite (in_range_false 194 223), (in_range_false 224 239), (in_range_true 240 244) by lia;
    (split; [reflexivity|]); apply N.ltb_ge; lia.
Qed.

Ltac decode_sequence V :=
  cbv zeta; cbn [Nat.sub seq map Nat.mul Nat.add];
  repeat first [rewrite (drop_escaped 0) | rewrite (drop_escaped 3)
               | rewrite (drop_escaped 6) | rewrite drop_0 | rewrite escape_at_escaped];
  cbn [forallb flat_map app andb]; rewrite V;
  unfold Js.bytes_to_string; cbn [map string_of_list_ascii];
  rewrite !ascii_N_embedding.

Lemma decode4 (c0 c1 c2 c3 : ascii) (rest : string) :
  Js.utf8_valid (N_of_ascii c0) [N_of_ascii c1; N_of_ascii c2; N_of_ascii c3] = true ->
  Js.decode_from (Spec.escaped c0 (Spec.escaped c1 (Spec.escaped c2 (Spec.escaped c3 rest)))) 0 =
  option_map (fun r => String c0 (String c1 (String c2 (String c3 r))))
             (Js.decode_from rest 0).
Proof.
  intros V. destruct (valid4_len _ _ _ _ V) as [Hn Hhigh].
  rewrite (decode_lead c0 _ Hhigh), Hn. decode_sequence V.
  change (Js.decode_from (Js.drop 1 (Spec.escaped c0 ?r)) _) with (Js.decode_from rest 0).
  destruct (Js.decode_from rest 0); reflexivity.
Qed.

Lemma valid2_len (b0 b1 : N) :
  Js.utf8_valid b0 [b1] = true -> Js.utf8_seq_len b0 = 2%nat /\ (b0 <? 128)%N = false.
Proof.
  cbn [Js.utf8_valid]. intros H. ranges. unfold Js.utf8_seq_len.
  rewrite (in_range_true 194 223) by lia. split; [reflexivity|]. apply N.ltb_ge. lia.
Qed.

Lemma valid3_len (b0 b1 b2 : N) :
  Js.utf8_valid b0 [b1; b2] = true -> Js.utf8_seq_len b0 = 3%nat /\ (b0 <? 128)%N = false.
Proof.
  cbn [Js.utf8_valid]. intros H. ranges; unfold Js.utf8_seq_len;
    rewrite (in_range_false 194 223), (in_range_true 224 239) by lia;
    (split; [reflexivity|]); apply N.ltb_ge; lia.
Qed.

Lemma decode2 (c0 c1 : ascii) (rest : string) :
  Js.utf8_valid (N_of_ascii c0) [N_of_ascii c1] = true ->
  Js.decode_from (Spec.escaped c0 (Spec.escaped c1 rest)) 0 =
  option_map (fun r => String c0 (String c1 r)) (Js.decode_from rest 0).
Proof.
  intros V. destruct (valid2_len _ _ V) as [Hn Hhigh].
  rewrite (decode_lead c0 _ Hhigh), Hn. decode_sequence V.
  change (Js.decode_from (Js.drop 1 (Spec.escaped c0 ?r)) _) with (Js.decode_from rest 0).
  destruct (Js.decode_from rest 0); reflexivity.
Qed.

Lemma decode3 (c0 c1 c2 : ascii) (rest : string) :
  Js.utf8_valid (N_of_ascii c0) [N_of_ascii c1; N_of_ascii c2] = true ->
  Js.decode_from (Spec.escaped c0 (Spec.escaped c1 (Spec.escaped c2 rest))) 0 =
  option_map (fun r => String c0 (String c1 (String c2 r))) (Js.decode_from rest 0).
Proof.
  intros V. destruct (valid3_len _ _ _ V) as [Hn Hhigh].
  rewrite (decode_lead c0 _ Hhigh), Hn. decode_sequence V.
  change (Js.decode_from (Js.drop 1 (Spec.escaped c0 ?r)) _) with (Js.decode_from rest 0).
  destruct (Js.decode_from rest 0); reflexivity.
Qed.

Lemma valid_conts (b0 : N) (l : list N) :
  Js.utf8_valid b0 l = true -> Forall (fun b => (b <? 128)%N = false) l.
Proof.
  destruct l as [|b1 [|b2 [|b3 [|b4 l]]]]; try discriminate;
    cbn [Js.utf8_valid]; intros H; ranges;
    repeat constructor; apply N.ltb_ge; lia.
Qed.

(** Decoding the escapes of a well-formed text gives the text back. *)
Lemma decode_encoder_bound (n : nat) :
  forall s, (String.length s <= n)%nat -> Spec.well_formed s = true ->
            Js.decode_from (Encoding.rfc3986Encoder s) 0 = Some s.
Proof.
  induction n as [|n IH]; intros s Hlen H.
  - destruct s; [reflexivity|cbn in Hlen; lia].
  - destruct s as [|c0 s1]; [reflexivity|].
    cbn [String.length] in Hlen. cbn [Spec.well_formed] in H.
    rewrite encoder_cons.
    destruct (N_of_ascii c0 <? 128)%N eqn:E0.
    { rewrite (decode_char c0 _ E0), (IH s1); [reflexivity|lia|exact H]. }
    destruct s1 as [|c1 s2]; [discriminate H|]. cbn [String.length] in Hlen.
    rewrite encoder_cons.
    destruct (Js.utf8_valid (N_of_ascii c0) [N_of_ascii c1]) eqn:V1.
    { pose proof (valid_conts _ _ V1) as Hc. inversion Hc as [|? ? H1 _]; subst.
      rewrite (encode_char_high c0 _ E0), (encode_char_high c1 _ H1).
      rewrite (decode2 c0 c1 _ V1), (IH s2); [reflexivity|lia|exact H]. }
    destruct s2 as [|c2 s3]; [discriminate H|]. cbn [String.length] in Hlen.
    rewrite encoder_cons.
    destruct (Js.utf8_valid (N_of_ascii c0) [N_of_ascii c1; N_of_ascii c2]) eqn:V2.
    { pose proof (valid_conts _ _ V2) as Hc.
      inversion Hc as [|? ? H1 Hc']; subst. inversion Hc' as [|? ? H2 _]; subst.
      rewrite (encode_char_high c0 _ E0), (encode_char_high c1 _ H1),
        (encode_char_high c2 _ H2).
      rewrite (decode3 c0 c1 c2 _ V2), (IH s3); [reflexivity|lia|exact H]. }
    destruct s3 as [|c3 s4]; [discriminate H|]. cbn [String.length] in Hlen.
    rewrite encoder_cons. apply andb_prop in H as [V3 H].
    pose proof (valid_conts _ _ V3) as Hc.
    inversion Hc as [|? ? H1 Hc']; subst. inversion Hc' as [|? ? H2 Hc'']; subst.
    inversion Hc'' as [|? ? H3 _]; subst.
    rewrite (encode_char_high c0 _ E0), (encode_char_high c1 _ H1),
      (encode_char_high c2 _ H2), (encode_char_high c3 _ H3).
    rewrite (decode4 c0 c1 c2 c3 _ V3), (IH s4); [reflexivity|lia|exact H].
Qed.

Lemma ascii_well_formed (s : string) :
  Spec.all_chars Spec.is_ascii s = true -> Spec.well_formed s = true.
Proof.
  induction s as [|c s IH]; [reflexivity|].
  cbn [Spec.all_chars Spec.well_formed]. intros H. apply andb_prop in H as [Hc Hs].
  unfold Spec.is_ascii in Hc. rewrite Hc. auto.
Qed.

Lemma well_formed_app_bound (n : nat) :
  forall a b, (String.length a <= n)%nat ->
              Spec.well_formed a = true -> Spec.well_formed b = true ->
              Spec.well_formed (a +++ b) = true.
Proof.
  induction n as [|n IH]; intros a b Hlen Ha Hb.
  - destruct a; [exact Hb|cbn in Hlen; lia].
  - destruct a as [|c0 a1]; [exact Hb|].
    cbn [String.length] in Hlen. cbn [Spec.well_formed] in Ha.
    cbn [String.append Spec.well_formed].
    destruct (N_of_ascii c0 <? 128)%N; [apply IH; auto; lia|].
    destruct a1 as [|c1 a2]; [discriminate Ha|]. cbn [String.length] in Hlen.
    cbn [String.append].
    destruct (Js.utf8_valid _ [_]); [apply IH; auto; lia|].
    destruct a2 as [|c2 a3]; [discriminate Ha|]. cbn [String.length] in Hlen.
    cbn [String.append].
    destruct (Js.utf8_valid _ [_; _]); [apply IH; auto; lia|].
    destruct a3 as [|c3 a4]; [discriminate Ha|]. cbn [String.length] in Hlen.
    cbn [String.append]. apply andb_prop in Ha as [V Ha]. rewrite V.
    apply IH; auto; lia.
Qed.

Lemma well_formed_app (a b : string) :
  Spec.well_formed a = true -> Spec.well_formed b = true -> Spec.well_formed (a +++ b) = true.
Proof. apply (well_formed_app_bound (String.length a)). lia. Qed.

Lemma decode_encoder (s : string) :
  Spec.well_formed s = true ->
  Js.decode_from (Encoding.rfc3986Encoder s) 0 = Some s.
Proof. apply (decode_encoder_bound (String.length s)). lia. Qed.

Lemma replace_plus (s : string) :
  Spec.all_chars Spec.token_char s = true -> Js.replaceAll "+" " " s = s.
Proof.
  unfold Js.replaceAll. induction s as [|c s IH]; [reflexivity|].
  cbn [Spec.all_chars]. intros H. apply andb_prop in H as [Hc Hs].
  cbn [Js.replace_from]. rewrite is_prefix_char.
  replace (Ascii.eqb "+" c) with false.
  - now rewrite (IH Hs).
  - unfold Spec.token_char in Hc. rewrite Ascii.eqb_sym.
    destruct (Ascii.eqb c "+"); [|reflexivity].
    now rewrite andb_false_r in Hc.
Qed.

(** Decoding undoes encoding on well-formed text. *)
Lemma defaultDecoder_encoder (s : string) :
  Spec.well_formed s = true ->
  Encoding.defaultDecoder (Encoding.rfc3986Encoder s) = s.
Proof.
  intros H. unfold Encoding.defaultDecoder, Js.decodeURIComponent.
  rewrite (replace_plus _ (encoder_token s)). now rewrite (decode_encoder s H).
Qed.

Lemma query_char_no_space (c : ascii) (s : string) :
  Spec.query_char c = true -> Js.ws_prefix_len (String c s) = O.
Proof.
  intros H. destruct c as [[] [] [] [] [] [] [] []]; try discriminate H; reflexivity.
Qed.

Lemma trimEnd_scan_query (s : string) :
  Spec.all_chars Spec.query_char s = true ->
  forall pos keep,
    Js.trimEnd_scan s 0 pos keep =
    match s with EmptyString => keep | _ => (pos + String.length s)%nat end.
Proof.
  induction s as [|c s IH]; intros H pos keep; [reflexivity|].
  cbn [Spec.all_chars] in H. apply andb_prop in H as [Hc Hs].
  cbn [Js.trimEnd_scan]. rewrite (query_char_no_space c s Hc).
  rewrite (IH Hs). destruct s; cbn [String.length]; lia.
Qed.

Lemma take_all (s : string) : Js.take (String.length s) s = s.
Proof. induction s as [|c s IH]; cbn; [reflexivity|now rewrite IH]. Qed.

Lemma trim_query (s : string) :
  Spec.all_chars Spec.query_char s = true -> Js.trim s = s.
Proof.
  intros H. unfold Js.trim.
  assert (Hstart : Js.trimStart s = s).
  { unfold Js.trimStart. destruct s as [|c s]; [reflexivity|].
    cbn [Spec.all_chars] in H. apply andb_prop in H as [Hc _].
    cbn [String.length Js.trimStart_fuel]. now rewrite (query_char_no_space c s Hc). }
  rewrite Hstart. unfold Js.trimEnd. rewrite (trimEnd_scan_query s H).
  destruct s; [reflexivity|]. cbn [Nat.add]. apply take_all.
Qed.

End Text.

(** ** Round trip: pairs *)
Section Pairs.
Variables numbers booleans : bool.
Let opts := with_coercion numbers booleans defaultParseOptions.

Lemma token_not_amp (c : ascii) : Spec.pair_char c = true -> Ascii.eqb "&" c = false.
Proof. destruct c as [[] [] [] [] [] [] [] []]; try discriminate; reflexivity. Qed.

Lemma token_not_eq (c : ascii) : Spec.token_char c = true -> Ascii.eqb "=" c = false.
Proof. destruct c as [[] [] [] [] [] [] [] []]; try discriminate; reflexivity. Qed.

Lemma split_single (a : string) :
  Spec.all_chars Spec.pair_char a = true -> Js.split_from "&" a 0 = [a].
Proof.
  induction a as [|c a IH]; [reflexivity|]. cbn [Spec.all_chars]. intros H.
  apply andb_prop in H as [Hc Ha]. cbn [Js.split_from].
  now rewrite is_prefix_char, (token_not_amp c Hc), (IH Ha).
Qed.

Lemma split_cons (a rest : string) :
  Spec.all_chars Spec.pair_char a = true ->
  Js.split_from "&" (a +++ String "&" rest) 0 = a :: Js.split_from "&" rest 0.
Proof.
  induction a as [|c a IH]; [reflexivity|]. cbn [Spec.all_chars]. intros H.
  apply andb_prop in H as [Hc Ha]. cbn [String.append Js.split_from].
  now rewrite is_prefix_char, (token_not_amp c Hc), (IH Ha).
Qed.

Lemma join_cons (sep a b : string) (l : list string) :
  Js.join sep (a :: b :: l) = a +++ sep +++ Js.join sep (b :: l).
Proof. reflexivity. Qed.

Lemma split_join (l : list string) :
  l <> [] ->
  Forall (fun a => Spec.all_chars Spec.pair_char a = true) l ->
  Js.split "&" (Js.join "&" l) = l.
Proof.
  unfold Js.split. intros Hne Hl. induction Hl as [|a l Ha Hl IH]; [congruence|].
  destruct l as [|b l]; [now apply split_single|].
  rewrite join_cons.
  change ("&" +++ Js.join "&" (b :: l)) with (String "&" (Js.join "&" (b :: l))).
  rewrite (split_cons a _ Ha). f_equal. apply IH. discriminate.
Qed.

Lemma join_query (l : list string) :
  Forall (fun a => Spec.all_chars Spec.pair_char a = true) l ->
  Spec.all_chars Spec.query_char (Js.join "&" l) = true.
Proof.
  assert (Hw : forall a, Spec.all_chars Spec.pair_char a = true ->
                         Spec.all_chars Spec.query_char a = true).
  { intros a. apply all_chars_weaken. intros c Hc. unfold Spec.query_char.
    now rewrite Hc. }
  induction 1 as [|a l Ha Hl IH]; [reflexivity|].
  destruct l as [|b l]; [now apply Hw|].
  rewrite join_cons, !all_chars_app, (Hw a Ha), IH. reflexivity.
Qed.

Lemma join_empty (l : list string) :
  Forall (fun a => a <> "") l -> l <> [] -> Js.join "&" l <> "".
Proof.
  intros Hl Hne. destruct Hl as [|a l Ha Hl]; [congruence|].
  destruct l; cbn [Js.join]; [exact Ha|]. destruct a; [congruence|discriminate].
Qed.

Lemma indexOf_eq (a b : string) :
  Spec.all_chars Spec.token_char a = true ->
  Js.indexOf "=" (a +++ String "=" b) = Some (String.length a).
Proof.
  induction a as [|c a IH]; [reflexivity|]. cbn [Spec.all_chars]. intros H.
  apply andb_prop in H as [Hc Ha]. cbn [String.append Js.indexOf String.length].
  now rewrite is_prefix_char, (token_not_eq c Hc), (IH Ha).
Qed.

Lemma take_append (a b : string) : Js.take (String.length a) (a +++ b) = a.
Proof. induction a as [|c a IH]; cbn; [now destruct b|now rewrite IH]. Qed.

Lemma drop_append (a b : string) :
  Js.drop (String.length a + 1) (a +++ String "=" b) = b.
Proof. induction a as [|c a IH]; cbn; [reflexivity|exact IH]. Qed.

Lemma autoConvert_convert (s : string) :
  Utils.autoConvert s numbers booleans false = Ok (Spec.convert numbers booleans s).
Proof.
  unfold Spec.convert.
  assert (H : exists x, Utils.autoConvert s numbers booleans false = Ok x).
  { unfold Utils.autoConvert, Utils.isNumericString.
    destruct (String.eqb s ""); [eauto|].
    destruct (booleans && Utils.isBooleanString s); [eauto|].
    destruct (Js.Number s).
    - destruct (numbers && _); eauto.
    - rewrite !andb_false_r. eauto. }
  destruct H as [x Hx]. now rewrite Hx.
Qed.

Lemma decodeKey_encoder (k : string) :
  Spec.well_formed k = true ->
  Parser.decodeKey (Encoding.rfc3986Encoder k) opts Utf8 = Ok k.
Proof.
  intros Hk. unfold Parser.decodeKey.
  destruct (String.eqb (Encoding.rfc3986Encoder k) "") eqn:E.
  - apply String.eqb_eq in E. apply encoder_empty in E. now subst.
  - cbn [opts with_coercion decoder defaultParseOptions interpretNumericEntities bind
         Encoding.decode try_catch].
    now rewrite (defaultDecoder_encoder k Hk).
Qed.

Lemma decodeValue_encoder (t : string) :
  Spec.well_formed t = true ->
  Parser.decodeValue (Encoding.rfc3986Encoder t) opts Utf8 =
  Ok (Spec.convert numbers booleans t).
Proof.
  intros Ht. unfold Parser.decodeValue.
  destruct (String.eqb (Encoding.rfc3986Encoder t) "") eqn:E.
  - apply String.eqb_eq in E. apply encoder_empty in E. subst. reflexivity.
  - cbn [opts with_coercion decoder defaultParseOptions interpretNumericEntities bind
         Encoding.decode parseNumbers parseBooleans parseDates].
    rewrite (defaultDecoder_encoder t Ht), autoConvert_convert. reflexivity.
Qed.

(** What parse makes of one emitted pair. *)
Lemma parse_pair_encoded (k t : string) (result : value) :
  k <> "" ->
  Spec.well_formed k = true ->
  Spec.well_formed t = true ->
  Parser.parse_pair opts Utf8
    (Encoding.rfc3986Encoder k +++ "=" +++ Encoding.rfc3986Encoder t) result =
  Parser.parseKeyValue result k (Spec.convert numbers booleans t) opts.
Proof.
  intros Hne Hk Ht. unfold Parser.parse_pair.
  replace (String.eqb (Encoding.rfc3986Encoder k +++ "=" +++ Encoding.rfc3986Encoder t) "")
    with false.
  2:{ symmetry. apply String.eqb_neq. intros E.
      apply (f_equal String.length) in E. rewrite !length_append in E.
      cbn in E. lia. }
  change ("=" +++ Encoding.rfc3986Encoder t) with (String "=" (Encoding.rfc3986Encoder t)).
  rewrite (indexOf_eq _ _ (encoder_token k)), take_append, drop_append.
  rewrite (decodeKey_encoder k Hk), (decodeValue_encoder t Ht). cbn [bind].
  replace (String.eqb k "") with false; [reflexivity|].
  symmetry. now apply String.eqb_neq.
Qed.

End Pairs.

(** ** Round trip: key paths *)
Section KeyPaths.

Lemma brackets_cons (k : string) (path : list string) :
  Spec.brackets (k :: path) = String "[" (k +++ String "]" (Spec.brackets path)).
Proof.
  unfold Spec.brackets. destruct path as [|p path]; cbn [map String.concat String.append].
  - reflexivity.
  - now rewrite append_assoc.
Qed.

Lemma not_bracket_eqb (c : ascii) :
  Spec.not_bracket c = true -> Ascii.eqb c "[" = false /\ Ascii.eqb c "]" = false.
Proof.
  unfold Spec.not_bracket. intros H. apply andb_prop in H as [H1 H2].
  split; [now destruct (Ascii.eqb c "[")|now destruct (Ascii.eqb c "]")].
Qed.

Lemma loop_plain (s : string) :
  Spec.all_chars Spec.not_bracket s = true ->
  forall rest segs cur inB d,
    Utils.parseBracketNotation_loop (s +++ rest) segs cur inB d =
    Utils.parseBracketNotation_loop rest segs (cur +++ s) inB d.
Proof.
  induction s as [|c s IH]; intros H rest segs cur inB d.
  - now rewrite append_nil_r.
  - cbn [Spec.all_chars] in H. apply andb_prop in H as [Hc Hs].
    destruct (not_bracket_eqb c Hc) as [Ho Hcl].
    cbn [String.append Utils.parseBracketNotation_loop].
    rewrite Ho, Hcl. cbn [andb]. rewrite (IH Hs), append_assoc. reflexivity.
Qed.

Lemma loop_segment (p rest : string) (segs : list string) (cur : string) (d : Z) :
  Spec.all_chars Spec.not_bracket p = true ->
  Utils.parseBracketNotation_loop (String "[" (p +++ String "]" rest)) segs cur false d =
  Utils.parseBracketNotation_loop rest
    ((if negb (String.eqb cur "") then segs ++ [cur] else segs) ++ [p]) "" false 0.
Proof.
  intros Hp. destruct cur as [|c0 cur];
    cbn [Utils.parseBracketNotation_loop Ascii.eqb Bool.eqb andb negb String.eqb];
    rewrite (loop_plain p Hp); reflexivity.
Qed.

Lemma loop_brackets (path : list string) :
  Forall (fun p => Spec.all_chars Spec.not_bracket p = true) path ->
  forall segs,
    Utils.parseBracketNotation_loop (Spec.brackets path) segs "" false 0 = segs ++ path.
Proof.
  induction 1 as [|p path Hp Hpath IH]; intros segs.
  - cbn. now rewrite app_nil_r.
  - rewrite brackets_cons, (loop_segment p _ segs "" 0 Hp). cbn [String.eqb negb].
    rewrite IH, <- app_assoc. reflexivity.
Qed.

Lemma includes_plain (s : string) :
  Spec.all_chars Spec.not_bracket s = true -> Js.includes "[" s = false.
Proof.
  induction s as [|c s IH]; [reflexivity|]. cbn [Spec.all_chars]. intros H.
  apply andb_prop in H as [Hc Hs]. destruct (not_bracket_eqb c Hc) as [Ho _].
  rewrite includes_cons, (IH Hs), Ascii.eqb_sym, Ho. reflexivity.
Qed.

Lemma includes_bracket (s rest : string) :
  Js.includes "[" (s +++ String "[" rest) = true.
Proof.
  induction s as [|c s IH].
  - cbn [String.append]. rewrite includes_cons. reflexivity.
  - cbn [String.append]. rewrite includes_cons, IH. apply orb_true_r.
Qed.

(** The path of a rendered key is the key and its segments. *)
Lemma parseKeyPath_render (opts : ParseOptions) (k : string) (path : list string) :
  allowDots opts = false ->
  k <> "" ->
  Spec.all_chars Spec.not_bracket k = true ->
  Forall (fun p => Spec.all_chars Spec.not_bracket p = true) path ->
  Parser.parseKeyPath (k +++ Spec.brackets path) opts = k :: path.
Proof.
  intros Hdots Hne Hk Hpath. unfold Parser.parseKeyPath. rewrite Hdots. cbn [andb].
  destruct path as [|p path].
  - cbn. now rewrite append_nil_r, (includes_plain k Hk).
  - rewrite brackets_cons, includes_bracket.
    unfold Utils.parseBracketNotation. rewrite (loop_plain k Hk). cbn [String.append].
    inversion Hpath as [|? ? Hp Hrest]; subst.
    rewrite (loop_segment p _ [] k 0 Hp).
    replace (negb (String.eqb k "")) with true
      by (symmetry; apply negb_true_iff; now apply String.eqb_neq).
    now rewrite (loop_brackets path Hrest).
Qed.

End KeyPaths.

(** ** Round trip: what stringify emits *)
Section Emit.
Let enc := Encoding.rfc3986Encoder.
Let sopts := defaultStringifyOptions.

Lemma emit_step (key k : string) (q : list string * value) :
  Spec.emit_pair (key +++ "[" +++ k +++ "]") q = Spec.emit_pair key (k :: fst q, snd q).
Proof.
  unfold Spec.emit_pair. cbn [fst snd]. rewrite brackets_cons.
  do 2 f_equal. rewrite !append_assoc. cbn [String.append]. reflexivity.
Qed.

Lemma walks_leaf (v : value) : Spec.is_leaf v = true -> Spec.walks v.
Proof.
  intros Hl key kp. unfold Spec.emit_pair.
  destruct v; try discriminate Hl; cbn; now rewrite append_nil_r.
Qed.

Lemma walks_defined (v : value) : Spec.walks v -> Utils.is_undefined v = false.
Proof.
  intros H. destruct v; try reflexivity. specialize (H "" []). discriminate H.
Qed.

Lemma key_ok_not_index (k : string) : Spec.key_ok k = true -> is_index_key k = false.
Proof.
  unfold Spec.key_ok, is_index_key, Utils.isArrayIndex. intros H.
  apply andb_prop in H as [_ H]. apply negb_true_iff in H. now rewrite H.
Qed.

Lemma Object_keys_named (ps : props) :
  Forall (fun p => Spec.key_ok (fst p) = true) ps -> Object_keys ps = map fst ps.
Proof.
  intros H. unfold Object_keys.
  assert (Hi : List.filter is_index_key (map fst ps) = []
               /\ List.filter (fun k => negb (is_index_key k)) (map fst ps) = map fst ps).
  { induction H as [|p ps Hp Hps [IH1 IH2]]; [now split|].
    cbn [map List.filter]. rewrite (key_ok_not_index _ Hp). cbn [negb].
    now rewrite IH1, IH2. }
  destruct Hi as [-> ->]. reflexivity.
Qed.

Lemma distinct_head (pre post : list string) (k : string) :
  Spec.distinct (pre ++ k :: post) = true -> existsb (String.eqb k) pre = false.
Proof.
  induction pre as [|k0 pre IH]; [reflexivity|].
  cbn [app Spec.distinct existsb]. intros H. apply andb_prop in H as [Hk0 Hd].
  rewrite (IH Hd), orb_false_r. apply negb_true_iff in Hk0.
  rewrite existsb_app in Hk0. apply orb_false_elim in Hk0 as [_ Hk0].
  cbn [existsb] in Hk0. apply orb_false_elim in Hk0 as [Hk0 _].
  now rewrite String.eqb_sym.
Qed.

Lemma lookup_middle (pre post : props) (k : string) (v : value) :
  existsb (String.eqb k) (map fst pre) = false ->
  lookup k (pre ++ (k, v) :: post) = Some v.
Proof.
  induction pre as [|[k0 v0] pre IH]; cbn [app map lookup existsb fst].
  - now rewrite String.eqb_refl.
  - intros H. apply orb_false_elim in H as [H0 H]. now rewrite H0, IH.
Qed.

Lemma find_middle {B} (g : string * value -> string * B) (pre post : props)
      (k : string) (v : value) :
  (forall p, fst (g p) = fst p) ->
  existsb (String.eqb k) (map fst pre) = false ->
  find (fun s => String.eqb k (fst s)) (map g (pre ++ (k, v) :: post)) = Some (g (k, v)).
Proof.
  intros Hg. induction pre as [|[k0 v0] pre IH]; cbn [app map find existsb fst].
  - now rewrite Hg, String.eqb_refl.
  - intros H. apply orb_false_elim in H as [H0 H]. rewrite Hg. cbn [fst].
    now rewrite H0, IH.
Qed.

Lemma object_loop (key : string) (kp : list string) (ps : props) :
  Spec.distinct (map fst ps) = true ->
  forall post pre,
    ps = pre ++ post ->
    Forall (fun p => Spec.walks (snd p)) post ->
    Stringifier.stringifyObject_loop sopts
      (map (fun p => (fst p, fun nestedKey kp' =>
                               Stringifier.stringifyValue enc sopts nestedKey (snd p) kp')) ps)
      key ps kp (map fst post)
    = Ok (map (Spec.emit_pair key)
              (flat_map (fun p => map (fun q => (fst p :: fst q, snd q))
                                      (Spec.paths_of (snd p))) post)).
Proof.
  unfold enc, sopts.
  intros Hd. induction post as [|[k v] post IH]; intros pre Hps Hw; [reflexivity|].
  inversion Hw as [|? ? Hv Hpost]; subst. cbn [fst snd] in Hv.
  assert (Hk : existsb (String.eqb k) (map fst pre) = false).
  { rewrite map_app in Hd. now apply distinct_head in Hd. }
  cbn [map fst Stringifier.stringifyObject_loop].
  rewrite (lookup_middle pre post k v Hk).
  rewrite (find_middle
             (fun p => (fst p, fun nestedKey kp' =>
                                 Stringifier.stringifyValue Encoding.rfc3986Encoder
                                   defaultStringifyOptions nestedKey (snd p) kp'))
             pre post k v (fun p => eq_refl) Hk).
  specialize (IH (pre ++ [(k, v)])). rewrite <- app_assoc in IH.
  specialize (IH eq_refl Hpost). cbn [app] in IH. rewrite IH. clear IH.
  pose proof (walks_defined v Hv) as Hu.
  cbn [skipNulls defaultStringifyOptions andb s_allowDots fst snd].
  rewrite (Hv (key +++ "[" +++ k +++ "]") (kp ++ [key])).
  assert (Hbody :
    (let* valuePairs := Ok (map (Spec.emit_pair (key +++ "[" +++ k +++ "]")) (Spec.paths_of v)) in
     let* more := Ok (map (Spec.emit_pair key)
                         (flat_map (fun p => map (fun q => (fst p :: fst q, snd q))
                                                 (Spec.paths_of (snd p))) post)) in
     Ok (valuePairs ++ more)) =
    Ok (map (Spec.emit_pair key)
            (flat_map (fun p => map (fun q => (fst p :: fst q, snd q))
                                    (Spec.paths_of (snd p))) ((k, v) :: post)))).
  { cbn [bind flat_map fst snd]. rewrite map_app, map_map. do 2 f_equal.
    apply map_ext. intros q. apply emit_step. }
  destruct v; try discriminate Hu; exact Hbody.
Qed.

Lemma walks_object (ps : props) :
  Spec.distinct (map fst ps) = true ->
  Forall (fun p => Spec.key_ok (fst p) = true) ps ->
  Forall (fun p => Spec.walks (snd p)) ps ->
  Spec.walks (VObj ps).
Proof.
  intros Hd Hk Hw key kp. cbn [Stringifier.stringifyValue Spec.paths_of].
  unfold Stringifier.stringifyObject.
  cbn [sort defaultStringifyOptions Stringifier.sort_keys].
  rewrite (Object_keys_named ps Hk).
  now apply (object_loop key kp ps Hd ps []).
Qed.

Lemma array_loop (key : string) (kp : list string) (array : list value) :
  forall items i,
    Forall Spec.walks items ->
    Stringifier.stringifyArray_loop enc sopts (Stringifier.stringifyValue enc sopts)
                                    key array kp items i
    = Ok (map (Spec.emit_pair key) (Spec.item_paths Spec.paths_of items i)).
Proof.
  unfold enc, sopts.
  induction items as [|v items IH]; intros i Hw; [reflexivity|].
  inversion Hw as [|? ? Hv Hitems]; subst.
  cbn [Stringifier.stringifyArray_loop Spec.item_paths].
  rewrite (walks_defined v Hv). cbn [arrayFormat defaultStringifyOptions].
  rewrite (Hv _ _), (IH _ Hitems). cbn [bind].
  rewrite map_app, map_map. do 2 f_equal.
  apply map_ext. intros q. apply emit_step.
Qed.

Lemma walks_array (items : list value) :
  items <> [] -> Forall Spec.walks items -> Spec.walks (VArr items).
Proof.
  intros Hne Hw key kp. cbn [Stringifier.stringifyValue Spec.paths_of].
  unfold Stringifier.stringifyArray.
  destruct items as [|v items]; [congruence|]. cbn [length Nat.eqb].
  now apply array_loop.
Qed.

Lemma tree_ok_leaf (r : nat) (v : value) :
  Spec.is_leaf v = true -> Spec.tree_ok r v = Spec.leaf_ok v.
Proof. destruct v; try discriminate; now destruct r. Qed.

Lemma leaf_ok_leaf (v : value) : Spec.leaf_ok v = true -> Spec.is_leaf v = true.
Proof. destruct v; try discriminate; reflexivity. Qed.

Lemma props_ok_split (ok : value -> bool) (ps : props) :
  forallb (fun p => Spec.key_ok (fst p) && ok (snd p)) ps = true ->
  Forall (fun p => Spec.key_ok (fst p) = true) ps /\
  Forall (fun p => ok (snd p) = true) ps.
Proof.
  intros H. rewrite forallb_forall in H. split; apply Forall_forall; intros p Hp;
    specialize (H p Hp); now apply andb_prop in H.
Qed.

Lemma tree_ok_walks (r : nat) : forall v, Spec.tree_ok r v = true -> Spec.walks v.
Proof.
  induction r as [|r IH]; intros v Hv.
  - destruct v; try discriminate Hv; now apply walks_leaf.
  - destruct v as [| | | | | |items|ps]; try discriminate Hv;
      try (now apply walks_leaf).
    + cbn [Spec.tree_ok] in Hv.
      apply andb_prop in Hv as [Hv Hall]. apply andb_prop in Hv as [Hne _].
      apply walks_array.
      * destruct items; [discriminate|congruence].
      * apply Forall_forall. intros item Hin. rewrite forallb_forall in Hall.
        specialize (Hall item Hin).
        destruct item as [| | | | | |?|eps]; try discriminate Hall;
          try (now apply walks_leaf).
        apply andb_prop in Hall as [Hall Hps]. apply andb_prop in Hall as [_ Hd].
        destruct (props_ok_split _ _ Hps) as [Hk Hc].
        apply walks_object; auto.
        apply Forall_forall. intros p Hp. apply IH.
        rewrite Forall_forall in Hc. now apply Hc.
    + cbn [Spec.tree_ok] in Hv.
      apply andb_prop in Hv as [Hv Hps]. apply andb_prop in Hv as [_ Hd].
      destruct (props_ok_split _ _ Hps) as [Hk Hc].
      apply walks_object; auto.
      apply Forall_forall. intros p Hp. apply IH.
      rewrite Forall_forall in Hc. now apply Hc.
Qed.

End Emit.

(** ** Round trip: what parse builds *)
Section Build.
Variables numbers booleans : bool.
Let popts := with_coercion numbers booleans defaultParseOptions.

Lemma key_ok_facts (k : string) :
  Spec.key_ok k = true ->
  String.eqb k "" = false /\ Utils.hasPrototypePollution k = false /\
  is_inherited k = false /\ String.eqb k "__proto__" = false /\
  Utils.isArrayIndex k = false /\
  Spec.well_formed k = true /\ Spec.all_chars Spec.not_bracket k = true.
Proof.
  unfold Spec.key_ok. intros H.
  apply andb_prop in H as [H Hidx]. apply andb_prop in H as [H Hbr].
  apply andb_prop in H as [Ho Hasc].
  pose proof (ordinary_not_proto k Ho) as Hproto.
  unfold Spec.ordinary in Ho. apply andb_prop in Ho as [Ho Hinh].
  apply andb_prop in Ho as [Hne Hpp].
  repeat split; auto; now apply negb_true_iff.
Qed.

Lemma assign_absent (k : string) (x : value) (ps : props) :
  lookup k ps = None -> assign k x ps = ps ++ [(k, x)].
Proof.
  induction ps as [|[k0 v0] ps IH]; cbn [lookup assign app]; [reflexivity|].
  destruct (String.eqb k k0); [discriminate|]. intros H. now rewrite IH.
Qed.

Lemma assign_last (k : string) (x y : value) (ps : props) :
  lookup k ps = None -> assign k x (ps ++ [(k, y)]) = ps ++ [(k, x)].
Proof.
  induction ps as [|[k0 v0] ps IH]; cbn [lookup assign app].
  - now rewrite String.eqb_refl.
  - destruct (String.eqb k k0); [discriminate|]. intros H. now rewrite IH.
Qed.

Lemma lookup_last (k : string) (y : value) (ps : props) :
  lookup k ps = None -> lookup k (ps ++ [(k, y)]) = Some y.
Proof.
  induction ps as [|[k0 v0] ps IH]; cbn [lookup app].
  - now rewrite String.eqb_refl.
  - destruct (String.eqb k k0); [discriminate|]. exact IH.
Qed.

(** A leaf under a new key is added at the end, at any depth. *)
Lemma set_leaf (x : value) (k : string) (built : props) (d : Z) :
  Spec.key_ok k = true ->
  lookup k built = None ->
  Parser.setNestedValue popts x [k] (VObj built) d = Ok (VObj (built ++ [(k, x)])).
Proof.
  intros Hk Hb.
  destruct (key_ok_facts k Hk) as (Hne & Hpp & Hinh & Hproto & _).
  assert (Hdup : Parser.handleDuplicateKey (VObj built) k x popts
                 = Ok (VObj (built ++ [(k, x)]))).
  { unfold Parser.handleDuplicateKey, Obj.inherited, Obj.get.
    rewrite Hb, Hinh, andb_false_r.
    cbn [bind Utils.is_undefined]. unfold Utils.safeSetProperty, Obj.set.
    rewrite Hpp, Hproto, !andb_false_r. now rewrite (assign_absent k x built Hb). }
  cbn [Parser.setNestedValue hd tl map String.concat].
  rewrite append_nil_r, Hne, Hpp, andb_false_r.
  cbn [popts with_coercion defaultParseOptions strictDepth andb].
  now destruct (_ <? d).
Qed.

(** One step of [setNestedValue] on a path of two segments or more, within
    the depth limit. *)
Lemma set_step (x : value) (k next : string) (rest : list string) (obj : value) (d : Z) :
  d <= 5 ->
  Spec.key_ok k = true ->
  Parser.setNestedValue popts x (k :: next :: rest) obj d =
  (let isArrayAccess := Utils.isArrayIndex next || String.eqb next "" in
   let* cur := Obj.get false obj k in
   let* obj1 :=
     if falsy cur
     then Obj.set false obj k (if isArrayAccess then VArr [] else VObj [])
     else Ok obj in
   if isArrayAccess then
     Parser.handleArrayValue (Parser.setNestedValue popts x (next :: rest))
                             (Parser.setNestedValue popts x rest)
                             obj1 k (next :: rest) x popts (d + 1)
   else
     let* cur1 := Obj.get false obj1 k in
     if Utils.isObject cur1 then
       let* sub := Parser.setNestedValue popts x (next :: rest) cur1 (d + 1) in
       Ok (Parser.put obj1 k sub)
     else Ok obj1).
Proof.
  intros Hd Hk.
  destruct (key_ok_facts k Hk) as (Hne & Hpp & _).
  remember (next :: rest) as tail eqn:Htail.
  cbn [Parser.setNestedValue]. subst tail. cbv beta match.
  cbn [popts with_coercion defaultParseOptions strictDepth depth andb plainObjects
       allowPrototypes parseArrays negb].
  replace (5 <? d) with false by (symmetry; apply Z.ltb_ge; lia).
  rewrite Hne, Hpp. cbn [andb]. rewrite !andb_true_r. reflexivity.
Qed.

Lemma set_on_object (plain : bool) (o : props) (key : string) (y a : value) :
  Obj.set plain (VObj o) key y = Ok a -> exists o', a = VObj o'.
Proof.
  unfold Obj.set. destruct (_ && _); [discriminate|]. intros H. injection H as <-. eauto.
Qed.

Lemma handleArrayValue_keeps_object (setHere setNext : value -> Z -> outcome value)
      (o : props) (key : string) (rp : list string) (x : value) (d : Z) (r : value) :
  Parser.handleArrayValue setHere setNext (VObj o) key rp x popts d = Ok r ->
  exists o', r = VObj o'.
Proof.
  unfold Parser.handleArrayValue. intros H.
  repeat match type of H with
         | bind (Obj.set ?p (VObj ?o0) ?k ?y) _ = Ok _ =>
             let E := fresh "E" in
             destruct (Obj.set p (VObj o0) k y) as [?| |] eqn:E; cbn [bind] in H;
             try discriminate H; apply set_on_object in E as [? ->]
         | bind (if ?c then _ else _) _ = Ok _ => destruct c
         | bind (Ok _) _ = Ok _ => cbn [bind] in H
         | bind ?m _ = Ok _ => destruct m; cbn [bind] in H; try discriminate H
         | (match ?c with _ => _ end) = Ok _ => destruct c; try discriminate H
         | (if ?c then _ else _) = Ok _ => destruct c; try discriminate H
         end;
    injection H as <-; cbn [Parser.put]; eauto.
Qed.

(** A call on a mapping returns a mapping. *)
Lemma set_keeps_object (x : value) (path : list string) (o : props) (d : Z) (r : value) :
  Parser.setNestedValue popts x path (VObj o) d = Ok r -> exists o', r = VObj o'.
Proof.
  assert (Hdup : forall key, Parser.handleDuplicateKey (VObj o) key x popts = Ok r ->
                             exists o', r = VObj o').
  { intros key. unfold Parser.handleDuplicateKey, Utils.safeSetProperty, Obj.inherited,
      Obj.get, Obj.set, Parser.put.
    intros H.
    repeat match type of H with
           | context [match ?c with _ => _ end] => destruct c; cbn [bind] in H
           end; try discriminate H; injection H as <-; eauto. }
  destruct path as [|k rest]; intros H.
  - cbn [Parser.setNestedValue hd tl] in H.
    destruct (_ && _); [discriminate|]. destruct (_ <? _); [now apply Hdup in H|].
    injection H as <-. eauto.
  - remember rest as rest0 eqn:Hr in H. cbn [Parser.setNestedValue] in H. subst rest0.
    destruct (_ && _); [discriminate|].
    destruct (_ <? _); [now apply Hdup in H|].
    destruct (String.eqb k ""); [injection H as <-; eauto|].
    destruct (_ && _); [injection H as <-; eauto|].
    destruct rest as [|next rest']; [now apply Hdup in H|].
    destruct (Obj.get (plainObjects popts) (VObj o) k) as [cur| |]; cbn [bind] in H;
      try discriminate H.
    destruct (if falsy cur then _ else _) as [obj1| |] eqn:Hobj1; cbn [bind] in H;
      try discriminate H.
    assert (Ho1 : exists o1, obj1 = VObj o1).
    { destruct (falsy cur); [now apply set_on_object in Hobj1|].
      injection Hobj1 as <-. eauto. }
    destruct Ho1 as [o1 ->].
    destruct (_ && _).
    + now apply handleArrayValue_keeps_object in H.
    + destruct (Obj.get _ _ _); cbn [bind] in H; try discriminate H.
      destruct (Utils.isObject _); [|injection H as <-; eauto].
      destruct (Parser.setNestedValue _ _ _ _ _); cbn [bind] in H; try discriminate H.
      injection H as <-. cbn [Parser.put]. eauto.
Qed.

Lemma named_next (next : string) :
  Spec.key_ok next = true ->
  (Utils.isArrayIndex next || String.eqb next "") = false.
Proof.
  intros H. destruct (key_ok_facts next H) as (Hne & _ & _ & _ & Hidx & _).
  now rewrite Hne, Hidx.
Qed.

Lemma get_absent (k : string) (built : props) :
  Spec.key_ok k = true -> lookup k built = None ->
  Obj.get false (VObj built) k = Ok VUndefined.
Proof.
  intros Hk Hb. destruct (key_ok_facts k Hk) as (_ & _ & Hinh & _).
  unfold Obj.get. now rewrite Hb, Hinh.
Qed.

Lemma get_last (k : string) (y : value) (built : props) :
  lookup k built = None -> Obj.get false (VObj (built ++ [(k, y)])) k = Ok y.
Proof. intros Hb. unfold Obj.get. now rewrite (lookup_last k y built Hb). Qed.

Lemma set_absent (k : string) (y : value) (built : props) :
  Spec.key_ok k = true -> lookup k built = None ->
  Obj.set false (VObj built) k y = Ok (VObj (built ++ [(k, y)])).
Proof.
  intros Hk Hb. destruct (key_ok_facts k Hk) as (_ & _ & _ & Hproto & _).
  unfold Obj.set. now rewrite Hproto, (assign_absent k y built Hb).
Qed.

Lemma put_last (k : string) (y z : value) (built : props) :
  lookup k built = None ->
  Parser.put (VObj (built ++ [(k, y)])) k z = VObj (built ++ [(k, z)]).
Proof. intros Hb. cbn [Parser.put]. now rewrite (assign_last k z y built Hb). Qed.

(** A mapping that is not there yet behaves as an empty one. *)
Lemma create_obj (x : value) (k next : string) (rest : list string) (built : props) (d : Z) :
  d <= 5 -> Spec.key_ok k = true -> Spec.key_ok next = true ->
  lookup k built = None ->
  Parser.setNestedValue popts x (k :: next :: rest) (VObj built) d =
  Parser.setNestedValue popts x (k :: next :: rest) (VObj (built ++ [(k, VObj [])])) d.
Proof.
  intros Hd Hk Hn Hb. rewrite !(set_step x k next rest _ d Hd Hk).
  cbv zeta. rewrite (named_next next Hn).
  rewrite (get_absent k built Hk Hb), (get_last k _ built Hb).
  cbn [bind falsy]. rewrite (set_absent k _ built Hk Hb). reflexivity.
Qed.

(** A path through a mapping continues inside it, one level deeper. *)
Lemma lift_obj (x : value) (k next : string) (rest : list string) (built inner : props)
      (d : Z) :
  d <= 5 -> Spec.key_ok k = true -> Spec.key_ok next = true ->
  lookup k built = None ->
  Parser.setNestedValue popts x (k :: next :: rest) (VObj (built ++ [(k, VObj inner)])) d =
  (let* sub := Parser.setNestedValue popts x (next :: rest) (VObj inner) (d + 1) in
   Ok (VObj (built ++ [(k, sub)]))).
Proof.
  intros Hd Hk Hn Hb. rewrite (set_step x k next rest _ d Hd Hk).
  cbv zeta. rewrite (named_next next Hn), (get_last k _ built Hb).
  cbn [bind falsy]. rewrite (get_last k _ built Hb). cbn [bind Utils.isObject].
  destruct (Parser.setNestedValue popts x (next :: rest) (VObj inner) (d + 1));
    cbn [bind]; try reflexivity.
  now rewrite (put_last k _ _ built Hb).
Qed.

(** The decimal text of an index below 21. *)
Lemma index_facts (n : nat) :
  (n < 21)%nat ->
  let idx := Js.N_to_string (N.of_nat n) in
  Utils.isArrayIndex idx = true /\
  Js.parseInt idx = Z.of_nat n /\
  Spec.well_formed idx = true /\
  Spec.all_chars Spec.not_bracket idx = true /\
  exists c s, idx = String c s.
Proof.
  intros Hn.
  do 21 (destruct n as [|n]; [vm_compute; repeat split; eauto|]).
  lia.
Qed.

Lemma grow_exact (l : list value) (n : nat) :
  length l = n -> Parser.grow l (Z.of_nat n) = l ++ [VUndefined].
Proof.
  intros H. unfold Parser.grow.
  replace (Z.to_nat (Z.of_nat n + 1) - length l)%nat with 1%nat by lia. reflexivity.
Qed.

Lemma grow_full (l : list value) (n : nat) :
  length l = S n -> Parser.grow l (Z.of_nat n) = l.
Proof.
  intros H. unfold Parser.grow.
  replace (Z.to_nat (Z.of_nat n + 1) - length l)%nat with 0%nat by lia.
  apply app_nil_r.
Qed.

Lemma array_get_last (done : list value) (e : value) (n : nat) :
  length done = n -> Obj.array_get (Z.of_nat n) (done ++ [e]) = e.
Proof.
  intros H. unfold Obj.array_get.
  replace (Z.of_nat n <? 0) with false by (symmetry; apply Z.ltb_ge; lia).
  rewrite Nat2Z.id, app_nth2 by lia. now rewrite H, Nat.sub_diag.
Qed.

Lemma array_set_last (done : list value) (e y : value) (n : nat) :
  length done = n -> (n < 21)%nat ->
  Obj.array_set (Z.of_nat n) y (done ++ [e]) = Ok (done ++ [y]).
Proof.
  intros H Hn. unfold Obj.array_set.
  replace (Z.of_nat n <? 0) with false by (symmetry; apply Z.ltb_ge; lia).
  replace (4294967295 <=? Z.of_nat n) with false by (symmetry; apply Z.leb_gt; lia).
  cbn [orb]. rewrite Nat2Z.id, length_app. cbn [length].
  replace (n <? length done + 1)%nat with true by (symmetry; apply Nat.ltb_lt; lia).
  rewrite firstn_app, skipn_app. rewrite <- H at 1. rewrite firstn_all.
  replace (n - length done)%nat with 0%nat by lia.
  replace (S n - length done)%nat with 1%nat by lia.
  rewrite (skipn_all2 done) by lia. cbn. now rewrite app_nil_r.
Qed.

(** One call of [handleArrayValue] on a numeric index below 21 of an
    array. *)
Lemma array_step (setHere setNext : value -> Z -> outcome value) (x : value)
      (k : string) (n : nat) (rest : list string) (built : props) (l : list value) (d : Z) :
  (n < 21)%nat -> lookup k built = None ->
  Parser.handleArrayValue setHere setNext (VObj (built ++ [(k, VArr l)])) k
    (Js.N_to_string (N.of_nat n) :: rest) x popts d =
  (let l1 := Parser.grow l (Z.of_nat n) in
   match rest with
   | [] =>
       let* l' := Obj.array_set (Z.of_nat n) x l1 in
       Ok (VObj (built ++ [(k, VArr l')]))
   | _ =>
       let cur := Obj.array_get (Z.of_nat n) l1 in
       let cur := if falsy cur then VObj [] else cur in
       let* cur' := setNext cur d in
       let* l' := Obj.array_set (Z.of_nat n) cur' l1 in
       Ok (VObj (built ++ [(k, VArr l')]))
   end).
Proof.
  intros Hn Hb. destruct (index_facts n Hn) as (Hidx & Hint & _ & _ & c & s & Hcs).
  unfold Parser.handleArrayValue.
  cbn [popts with_coercion defaultParseOptions plainObjects arrayLimit allowEmptyArrays
       andb hd_error].
  rewrite (get_last k _ built Hb). cbn [bind].
  rewrite Hcs in *. rewrite Hidx, Hint.
  replace (20 <? Z.of_nat n) with false by (symmetry; apply Z.ltb_ge; lia).
  cbv zeta. destruct rest as [|next rest]; cbn [length Nat.eqb].
  - destruct (Obj.array_set _ _ _); cbn [bind]; try reflexivity.
    now rewrite (put_last k _ _ built Hb).
  - destruct (setNext _ d); cbn [bind]; try reflexivity.
    destruct (Obj.array_set _ _ _); cbn [bind]; try reflexivity.
    now rewrite (put_last k _ _ built Hb).
Qed.

Lemma set_array_step (x : value) (k : string) (n : nat) (rest : list string)
      (built : props) (l : list value) (d : Z) :
  d <= 5 -> Spec.key_ok k = true -> (n < 21)%nat -> lookup k built = None ->
  Parser.setNestedValue popts x (k :: Js.N_to_string (N.of_nat n) :: rest)
                        (VObj (built ++ [(k, VArr l)])) d =
  (let l1 := Parser.grow l (Z.of_nat n) in
   match rest with
   | [] =>
       let* l' := Obj.array_set (Z.of_nat n) x l1 in
       Ok (VObj (built ++ [(k, VArr l')]))
   | _ =>
       let cur := Obj.array_get (Z.of_nat n) l1 in
       let cur := if falsy cur then VObj [] else cur in
       let* cur' := Parser.setNestedValue popts x rest cur (d + 1) in
       let* l' := Obj.array_set (Z.of_nat n) cur' l1 in
       Ok (VObj (built ++ [(k, VArr l')]))
   end).
Proof.
  intros Hd Hk Hn Hb. rewrite (set_step x k _ rest _ d Hd Hk). cbv zeta.
  destruct (index_facts n Hn) as (Hidx & _).
  unfold Utils.isArrayIndex in *. rewrite Hidx. cbn [orb].
  rewrite (get_last k _ built Hb). cbn [bind falsy].
  now rewrite (array_step _ _ x k n rest built l (d + 1) Hn Hb).
Qed.

(** A sequence that is not there yet behaves as an empty one. *)
Lemma create_arr (x : value) (k : string) (n : nat) (rest : list string)
      (built : props) (d : Z) :
  d <= 5 -> Spec.key_ok k = true -> (n < 21)%nat -> lookup k built = None ->
  Parser.setNestedValue popts x (k :: Js.N_to_string (N.of_nat n) :: rest) (VObj built) d =
  Parser.setNestedValue popts x (k :: Js.N_to_string (N.of_nat n) :: rest)
                        (VObj (built ++ [(k, VArr [])])) d.
Proof.
  intros Hd Hk Hn Hb. rewrite !(set_step x k _ rest _ d Hd Hk). cbv zeta.
  destruct (index_facts n Hn) as (Hidx & _).
  unfold Utils.isArrayIndex in *. rewrite Hidx. cbn [orb].
  rewrite (get_absent k built Hk Hb), (get_last k _ built Hb).
  cbn [bind falsy]. now rewrite (set_absent k _ built Hk Hb).
Qed.

(** A leaf at the next free index is appended. *)
Lemma lift_arr_leaf (x : value) (k : string) (built : props) (done : list value) (d : Z) :
  d <= 5 -> Spec.key_ok k = true -> (length done < 21)%nat -> lookup k built = None ->
  Parser.setNestedValue popts x [k; Js.N_to_string (N.of_nat (length done))]
                        (VObj (built ++ [(k, VArr done)])) d =
  Ok (VObj (built ++ [(k, VArr (done ++ [x]))])).
Proof.
  intros Hd Hk Hn Hb. rewrite (set_array_step x k _ [] built done d Hd Hk Hn Hb).
  cbv zeta. rewrite (grow_exact done _ eq_refl).
  now rewrite (array_set_last done _ x _ eq_refl Hn).
Qed.

(** An element that is not there yet behaves as an empty mapping. *)
Lemma create_elem (x : value) (k next : string) (rest : list string) (built : props)
      (done : list value) (d : Z) :
  d <= 5 -> Spec.key_ok k = true -> (length done < 21)%nat -> lookup k built = None ->
  Parser.setNestedValue popts x (k :: Js.N_to_string (N.of_nat (length done)) :: next :: rest)
                        (VObj (built ++ [(k, VArr done)])) d =
  Parser.setNestedValue popts x (k :: Js.N_to_string (N.of_nat (length done)) :: next :: rest)
                        (VObj (built ++ [(k, VArr (done ++ [VObj []]))])) d.
Proof.
  intros Hd Hk Hn Hb.
  rewrite !(set_array_step x k _ (next :: rest) built _ d Hd Hk Hn Hb). cbv zeta.
  rewrite (grow_exact done _ eq_refl).
  rewrite (grow_full (done ++ [VObj []]) (length done))
    by (rewrite length_app; cbn; lia).
  rewrite !(array_get_last done _ _ eq_refl). cbn [falsy].
  destruct (Parser.setNestedValue _ _ _ _ _); cbn [bind]; try reflexivity.
  now rewrite !(array_set_last done _ _ _ eq_refl Hn).
Qed.

(** A path through an element that is a mapping continues inside it. *)
Lemma lift_elem (x : value) (k next : string) (rest : list string) (built inner : props)
      (done : list value) (d : Z) :
  d <= 5 -> Spec.key_ok k = true -> (length done < 21)%nat -> lookup k built = None ->
  Parser.setNestedValue popts x (k :: Js.N_to_string (N.of_nat (length done)) :: next :: rest)
                        (VObj (built ++ [(k, VArr (done ++ [VObj inner]))])) d =
  (let* sub := Parser.setNestedValue popts x (next :: rest) (VObj inner) (d + 1) in
   Ok (VObj (built ++ [(k, VArr (done ++ [sub]))]))).
Proof.
  intros Hd Hk Hn Hb.
  rewrite (set_array_step x k _ (next :: rest) built _ d Hd Hk Hn Hb). cbv zeta.
  rewrite (grow_full (done ++ [VObj inner]) (length done))
    by (rewrite length_app; cbn; lia).
  rewrite (array_get_last done _ _ eq_refl). cbn [falsy].
  destruct (Parser.setNestedValue _ _ _ _ _); cbn [bind]; try reflexivity.
  now rewrite (array_set_last done _ _ _ eq_refl Hn).
Qed.

End Build.

(** ** Round trip: folding the pairs into the tree *)
Section Fold.
Variables numbers booleans : bool.
Let popts := with_coercion numbers booleans defaultParseOptions.
Let place := Spec.place popts numbers booleans.
Let cmap := map (fun p : string * value => (fst p, Spec.coerce numbers booleans (snd p))).

Lemma foldM_app {A B} (f : A -> B -> outcome B) (l1 l2 : list A) (b : B) :
  Spec.foldM f (l1 ++ l2) b = (let* b' := Spec.foldM f l1 b in Spec.foldM f l2 b').
Proof.
  revert b. induction l1 as [|x l1 IH]; intros b; [reflexivity|].
  cbn [app Spec.foldM]. destruct (f x b); cbn [bind]; auto.
Qed.

Lemma foldM_map {A B C} (f : A -> B -> outcome B) (g : C -> A) (l : list C) (b : B) :
  Spec.foldM f (map g l) b = Spec.foldM (fun c => f (g c)) l b.
Proof.
  revert b. induction l as [|x l IH]; intros b; [reflexivity|].
  cbn [map Spec.foldM]. destruct (f (g x) b); cbn [bind]; auto.
Qed.

Lemma foldM_ext {A B} (f g : A -> B -> outcome B) (l : list A) (b : B) :
  (forall x y, f x y = g x y) -> Spec.foldM f l b = Spec.foldM g l b.
Proof.
  intros H. revert b. induction l as [|x l IH]; intros b; [reflexivity|].
  cbn [Spec.foldM]. rewrite H. destruct (g x b); cbn [bind]; auto.
Qed.

(** The leaves below a mapping held under [k] are placed inside it. *)
Lemma fold_lift_obj (k : string) (built : props) (d : Z) (Q : list (list string * value)) :
  d <= 5 -> Spec.key_ok k = true -> lookup k built = None ->
  Forall Spec.starts_named Q ->
  forall inner,
    Spec.foldM (place d [k]) Q (VObj (built ++ [(k, VObj inner)])) =
    (let* sub := Spec.foldM (place (d + 1) []) Q (VObj inner) in
     Ok (VObj (built ++ [(k, sub)]))).
Proof.
  intros Hd Hk Hb HQ. induction HQ as [|q Q Hq HQ IH]; intros inner; [reflexivity|].
  destruct Hq as (next & rest & Hpath & Hnext).
  cbn [Spec.foldM]. unfold place at 1 3, Spec.place. rewrite Hpath. cbn [app].
  rewrite (lift_obj numbers booleans _ k next rest built inner d Hd Hk Hnext Hb).
  fold popts.
  destruct (Parser.setNestedValue popts _ (next :: rest) (VObj inner) (d + 1))
    as [sub| |] eqn:E; cbn [bind]; try reflexivity.
  apply set_keeps_object in E as [inner' ->]. apply IH.
Qed.

(** The leaves below an element that is a mapping are placed inside it. *)
Lemma fold_lift_elem (k : string) (built : props) (done : list value) (d : Z)
      (Q : list (list string * value)) :
  d <= 5 -> Spec.key_ok k = true -> lookup k built = None ->
  (length done < 21)%nat ->
  Forall Spec.starts_named Q ->
  forall inner,
    Spec.foldM (place d [k; Js.N_to_string (N.of_nat (length done))]) Q
               (VObj (built ++ [(k, VArr (done ++ [VObj inner]))])) =
    (let* sub := Spec.foldM (place (d + 1) []) Q (VObj inner) in
     Ok (VObj (built ++ [(k, VArr (done ++ [sub]))]))).
Proof.
  intros Hd Hk Hb Hn HQ. induction HQ as [|q Q Hq HQ IH]; intros inner; [reflexivity|].
  destruct Hq as (next & rest & Hpath & Hnext).
  cbn [Spec.foldM]. unfold place at 1 3, Spec.place. rewrite Hpath. cbn [app].
  rewrite (lift_elem numbers booleans _ k next rest built inner done d Hd Hk Hn Hb).
  fold popts.
  destruct (Parser.setNestedValue popts _ (next :: rest) (VObj inner) (d + 1))
    as [sub| |] eqn:E; cbn [bind]; try reflexivity.
  apply set_keeps_object in E as [inner' ->]. apply IH.
Qed.

Lemma lookup_cmap (k : string) (pre : props) :
  existsb (String.eqb k) (map fst pre) = false -> lookup k (cmap pre) = None.
Proof.
  induction pre as [|[k0 v0] pre IH]; [reflexivity|].
  cbn [map fst existsb lookup cmap]. intros H. apply orb_false_elim in H as [H0 H].
  rewrite H0. now apply IH.
Qed.

(** The properties of a mapping are placed one after the other. *)
Lemma fold_props (d : Z) (ps : props) :
  Spec.distinct (map fst ps) = true ->
  forall post pre,
    ps = pre ++ post ->
    Forall (fun p => Spec.key_ok (fst p) = true) post ->
    Forall (fun p => Spec.builds numbers booleans d (snd p)) post ->
    Spec.foldM (place d [])
      (flat_map (fun p => map (fun q => (fst p :: fst q, snd q)) (Spec.paths_of (snd p))) post)
      (VObj (cmap pre))
    = Ok (VObj (cmap (pre ++ post))).
Proof.
  intros Hd. induction post as [|[k v] post IH]; intros pre Hps Hk Hb.
  - now rewrite app_nil_r.
  - inversion Hk as [|? ? Hk0 Hkpost]; inversion Hb as [|? ? Hb0 Hbpost]; subst.
    cbn [fst snd] in *.
    assert (Habs : existsb (String.eqb k) (map fst pre) = false).
    { rewrite map_app in Hd. now apply distinct_head in Hd. }
    cbn [flat_map fst snd]. rewrite foldM_app, foldM_map.
    rewrite (foldM_ext _ (place d [k])) by reflexivity.
    unfold place, popts. rewrite (Hb0 (cmap pre) k Hk0 (lookup_cmap k pre Habs)).
    cbn [bind]. fold popts place.
    specialize (IH (pre ++ [(k, v)])). rewrite <- app_assoc in IH.
    specialize (IH eq_refl Hkpost Hbpost). cbn [app] in IH.
    unfold cmap in IH at 1. rewrite map_app in IH. exact IH.
Qed.

End Fold.

Section BuildTree.
Variables numbers booleans : bool.
Let popts := with_coercion numbers booleans defaultParseOptions.
Let place := Spec.place popts numbers booleans.
Let cmap := map (fun p : string * value => (fst p, Spec.coerce numbers booleans (snd p))).

Lemma builds_leaf (d : Z) (v : value) :
  Spec.is_leaf v = true -> Spec.builds numbers booleans d v.
Proof.
  intros Hl built k Hk Hb.
  assert (Hp : Spec.paths_of v = [([], v)]) by (destruct v; try discriminate Hl; reflexivity).
  assert (Hc : Spec.coerce numbers booleans v = Spec.conv numbers booleans v)
    by (destruct v; try discriminate Hl; reflexivity).
  rewrite Hp, Hc. cbn [Spec.foldM]. unfold Spec.place. cbn [fst snd app].
  now rewrite (set_leaf numbers booleans _ k built d Hk Hb).
Qed.

Lemma paths_named (eps : props) :
  Forall (fun p => Spec.key_ok (fst p) = true) eps ->
  Forall Spec.starts_named
    (flat_map (fun p => map (fun q => (fst p :: fst q, snd q)) (Spec.paths_of (snd p))) eps).
Proof.
  induction 1 as [|p eps Hp Heps IH]; [constructor|].
  cbn [flat_map]. apply Forall_app. split; [|exact IH].
  apply Forall_forall. intros q Hq. apply in_map_iff in Hq as (q0 & <- & _).
  now exists (fst p), (fst q0).
Qed.

Lemma mapping_parts (d : Z) (eps : props) :
  Spec.mapping_built numbers booleans d eps ->
  Forall (fun p => Spec.key_ok (fst p) = true) eps /\
  Forall (fun p => Spec.builds numbers booleans d (snd p)) eps /\
  Spec.paths_of (VObj eps) <> [].
Proof.
  intros (Hne & _ & Hall). repeat split.
  - eapply Forall_impl; [|exact Hall]. now intros p (H & _).
  - eapply Forall_impl; [|exact Hall]. now intros p (_ & H & _).
  - destruct eps as [|p eps]; [congruence|]. inversion Hall as [|? ? (_ & _ & Hp) _]; subst.
    cbn [Spec.paths_of flat_map]. destruct (Spec.paths_of (snd p)); [congruence|discriminate].
Qed.

(** The leaves of a mapping, placed from the empty mapping one level
    down, build its coerced properties. *)
Lemma fold_mapping (d : Z) (eps : props) :
  Spec.mapping_built numbers booleans d eps ->
  Spec.foldM (place d []) (Spec.paths_of (VObj eps)) (VObj []) = Ok (VObj (cmap eps)).
Proof.
  intros H. destruct (mapping_parts d eps H) as (Hk & Hb & _).
  destruct H as (_ & Hd & _).
  exact (fold_props numbers booleans d eps Hd eps [] eq_refl Hk Hb).
Qed.

Lemma builds_object (d : Z) (eps : props) :
  d <= 5 ->
  Spec.mapping_built numbers booleans (d + 1) eps ->
  Spec.builds numbers booleans d (VObj eps).
Proof.
  intros Hd H built k Hk Hb.
  destruct (mapping_parts (d + 1) eps H) as (Hkeys & _ & Hne).
  pose proof (paths_named eps Hkeys) as Hnamed.
  pose proof (fold_mapping (d + 1) eps H) as Hfold.
  change (Spec.coerce numbers booleans (VObj eps)) with (VObj (cmap eps)).
  change (flat_map _ eps) with (Spec.paths_of (VObj eps)) in Hnamed.
  destruct (Spec.paths_of (VObj eps)) as [|q0 Q] eqn:HQ; [congruence|].
  assert (Hfirst :
    Spec.foldM (place d [k]) (q0 :: Q) (VObj built) =
    Spec.foldM (place d [k]) (q0 :: Q) (VObj (built ++ [(k, VObj [])]))).
  { cbn [Spec.foldM]. f_equal.
    inversion Hnamed as [|? ? (next & rest & Hpath & Hnext) _]; subst.
    unfold place, Spec.place. rewrite Hpath. cbn [app].
    apply create_obj; auto. }
  unfold place, popts in *. rewrite Hfirst.
  rewrite (fold_lift_obj numbers booleans k built d (q0 :: Q) Hd Hk Hb Hnamed []).
  rewrite Hfold. reflexivity.
Qed.

Lemma leaf_paths (v : value) : Spec.is_leaf v = true -> Spec.paths_of v = [([], v)].
Proof. destruct v; try discriminate; reflexivity. Qed.

(** The elements of a sequence are placed one after the other. *)
Lemma fold_items (k : string) (built : props) (d : Z) :
  d <= 5 -> Spec.key_ok k = true -> lookup k built = None ->
  forall post done,
    (length done + length post <= 21)%nat ->
    Forall (Spec.item_built numbers booleans (d + 1)) post ->
    Spec.foldM (place d [k])
               (Spec.item_paths Spec.paths_of post (N.of_nat (length done)))
               (VObj (built ++ [(k, VArr done)]))
    = Ok (VObj (built ++ [(k, VArr (done ++ map (Spec.coerce numbers booleans) post))])).
Proof.
  intros Hd Hk Hb. induction post as [|item post IH]; intros done Hlen Hitems.
  - cbn. now rewrite app_nil_r.
  - inversion Hitems as [|? ? Hitem Hpost]; subst. cbn [length] in Hlen.
    assert (Hn : (length done < 21)%nat) by lia.
    cbn [Spec.item_paths map]. rewrite foldM_app.
    assert (Hnext : forall c,
      Spec.foldM (place d [k])
                 (Spec.item_paths Spec.paths_of post (N.of_nat (length done) + 1))
                 (VObj (built ++ [(k, VArr (done ++ [c]))]))
      = Ok (VObj (built ++ [(k, VArr (done ++ c :: map (Spec.coerce numbers booleans) post))]))).
    { intros c. specialize (IH (done ++ [c])). rewrite length_app in IH. cbn [length] in IH.
      replace (N.of_nat (length done) + 1)%N with (N.of_nat (length done + 1)) by lia.
      rewrite IH by (auto; lia). now rewrite <- app_assoc. }
    destruct Hitem as [Hleaf|(eps & -> & Hmap)].
    + rewrite (leaf_paths item Hleaf). cbn [map Spec.foldM fst snd].
      unfold place at 1, Spec.place. cbn [fst snd app].
      rewrite (lift_arr_leaf numbers booleans _ k built done d Hd Hk Hn Hb). cbn [bind].
      rewrite Hnext. do 5 f_equal. destruct item; try discriminate Hleaf; reflexivity.
    + destruct (mapping_parts (d + 1) eps Hmap) as (Hkeys & _ & Hne).
      pose proof (paths_named eps Hkeys) as Hnamed.
      pose proof (fold_mapping (d + 1) eps Hmap) as Hfold.
      change (flat_map _ eps) with (Spec.paths_of (VObj eps)) in Hnamed.
      rewrite foldM_map.
      rewrite (foldM_ext _ (place d [k; Js.N_to_string (N.of_nat (length done))]))
        by reflexivity.
      destruct (Spec.paths_of (VObj eps)) as [|q0 Q] eqn:HQ; [congruence|].
      assert (Hfirst :
        Spec.foldM (place d [k; Js.N_to_string (N.of_nat (length done))]) (q0 :: Q)
                   (VObj (built ++ [(k, VArr done)])) =
        Spec.foldM (place d [k; Js.N_to_string (N.of_nat (length done))]) (q0 :: Q)
                   (VObj (built ++ [(k, VArr (done ++ [VObj []]))]))).
      { cbn [Spec.foldM]. f_equal.
        inversion Hnamed as [|? ? (next & rest & Hpath & _) _]; subst.
        unfold place, Spec.place. rewrite Hpath. cbn [app].
        apply create_elem; auto. }
      unfold place, popts in *. rewrite Hfirst.
      rewrite (fold_lift_elem numbers booleans k built done d (q0 :: Q) Hd Hk Hb Hn Hnamed []).
      rewrite Hfold. cbn [bind]. apply Hnext.
Qed.

Lemma builds_array (d : Z) (items : list value) :
  d <= 5 -> items <> [] -> (length items <= 21)%nat ->
  Forall (Spec.item_built numbers booleans (d + 1)) items ->
  (forall item, In item items -> Spec.paths_of item <> []) ->
  Spec.builds numbers booleans d (VArr items).
Proof.
  intros Hd Hne Hlen Hitems Hpaths built k Hk Hb.
  pose proof (fold_items k built d Hd Hk Hb items [] Hlen Hitems) as Hfold.
  cbn [length app] in Hfold. cbn [Spec.paths_of Spec.coerce].
  change (N.of_nat 0) with 0%N in Hfold. unfold place, popts in *. rewrite <- Hfold.
  destruct items as [|item items]; [congruence|].
  cbn [Spec.item_paths].
  destruct (Spec.paths_of item) as [|q0 Q] eqn:HQ;
    [exfalso; apply (Hpaths item); [now left|exact HQ]|].
  cbn [map app Spec.foldM]. f_equal.
  unfold place, Spec.place. cbn [fst snd app].
  apply (create_arr numbers booleans _ k 0 (fst q0) built d); auto. lia.
Qed.

Lemma tree_ok_paths (r : nat) : forall v, Spec.tree_ok r v = true -> Spec.paths_of v <> [].
Proof.
  assert (Hleaf : forall v, Spec.leaf_ok v = true -> Spec.paths_of v <> []).
  { intros v Hv. rewrite (leaf_paths v (leaf_ok_leaf v Hv)). discriminate. }
  assert (Hmap : forall (P : value -> bool) ps,
    (forall v, P v = true -> Spec.paths_of v <> []) ->
    negb (length ps =? 0)%nat = true ->
    forallb (fun p => Spec.key_ok (fst p) && P (snd p)) ps = true ->
    Spec.paths_of (VObj ps) <> []).
  { intros P ps HP Hne Hall. destruct ps as [|p ps]; [discriminate|].
    cbn [forallb] in Hall. apply andb_prop in Hall as [Hp _].
    apply andb_prop in Hp as [_ Hp]. apply HP in Hp.
    cbn [Spec.paths_of flat_map]. destruct (Spec.paths_of (snd p)); [congruence|discriminate]. }
  induction r as [|r IH]; intros v Hv.
  - destruct v; try discriminate Hv; now apply Hleaf.
  - destruct v as [| | | | | |items|ps]; try discriminate Hv; try (now apply Hleaf).
    + cbn [Spec.tree_ok] in Hv.
      apply andb_prop in Hv as [Hv Hall]. apply andb_prop in Hv as [Hne _].
      destruct items as [|item items]; [discriminate|].
      cbn [forallb] in Hall. apply andb_prop in Hall as [Hitem _].
      assert (Hi : Spec.paths_of item <> []).
      { destruct item as [| | | | | |?|eps]; try discriminate Hitem; try (now apply Hleaf).
        apply andb_prop in Hitem as [Hitem Hps]. apply andb_prop in Hitem as [Hne' _].
        now apply (Hmap (Spec.tree_ok r)). }
      cbn [Spec.paths_of Spec.item_paths].
      destruct (Spec.paths_of item); [congruence|discriminate].
    + cbn [Spec.tree_ok] in Hv.
      apply andb_prop in Hv as [Hv Hps]. apply andb_prop in Hv as [Hne _].
      now apply (Hmap (Spec.tree_ok r)).
Qed.

Lemma tree_ok_builds (r : nat) :
  forall v d, Spec.tree_ok r v = true -> d + Z.of_nat r <= 6 ->
              Spec.builds numbers booleans d v.
Proof.
  assert (Hmap : forall r' d ps,
    (forall v, Spec.tree_ok r' v = true -> Spec.builds numbers booleans d v) ->
    negb (length ps =? 0)%nat && Spec.distinct (map fst ps) &&
    forallb (fun p => Spec.key_ok (fst p) && Spec.tree_ok r' (snd p)) ps = true ->
    Spec.mapping_built numbers booleans d ps).
  { intros r' d ps HP H. apply andb_prop in H as [H Hall]. apply andb_prop in H as [Hne Hd].
    split; [destruct ps; [discriminate|congruence]|]. split; [exact Hd|].
    apply Forall_forall. intros p Hp. rewrite forallb_forall in Hall.
    specialize (Hall p Hp). apply andb_prop in Hall as [Hk Ht].
    repeat split; auto. now apply (tree_ok_paths r'). }
  induction r as [|r IH]; intros v d Hv Hd.
  - destruct v; try discriminate Hv; now apply builds_leaf.
  - destruct v as [| | | | | |items|ps]; try discriminate Hv; try (now apply builds_leaf).
    + cbn [Spec.tree_ok] in Hv.
      apply andb_prop in Hv as [Hv Hall]. apply andb_prop in Hv as [Hne Hlen].
      apply Nat.leb_le in Hlen. rewrite forallb_forall in Hall.
      apply builds_array; [lia | destruct items; [discriminate|congruence] | exact Hlen | |].
      * apply Forall_forall. intros item Hin. specialize (Hall item Hin).
        destruct item as [| | | | | |?|eps]; try discriminate Hall; try (now left).
        right. exists eps. split; [reflexivity|].
        apply (Hmap r); [|exact Hall]. intros v Hv. apply IH; [exact Hv|lia].
      * intros item Hin. specialize (Hall item Hin).
        destruct item as [| | | | | |?|eps]; try discriminate Hall;
          try (rewrite leaf_paths by reflexivity; discriminate).
        apply (tree_ok_paths (S r)). cbn [Spec.tree_ok]. exact Hall.
    + cbn [Spec.tree_ok] in Hv.
      apply builds_object; [lia|].
      apply (Hmap r); [|exact Hv]. intros v Hv'. apply IH; [exact Hv'|lia].
Qed.

End BuildTree.

(** ** Round trip: the whole input *)
Section Whole.
Variables numbers booleans : bool.
Let popts := with_coercion numbers booleans defaultParseOptions.

Lemma uint_text_ascii (u : Decimal.uint) :
  Spec.all_chars Spec.is_ascii (NilEmpty.string_of_uint u) = true.
Proof. induction u; cbn [NilEmpty.string_of_uint Spec.all_chars]; auto. Qed.

Lemma N_text_ascii (n : N) : Spec.all_chars Spec.is_ascii (Js.N_to_string n) = true.
Proof.
  unfold Js.N_to_string, NilZero.string_of_uint.
  destruct (N.to_uint n) eqn:E; try reflexivity; rewrite <- E; apply uint_text_ascii.
Qed.

Lemma pad_zeros_ascii (w : nat) (s : string) :
  Spec.all_chars Spec.is_ascii s = true ->
  Spec.all_chars Spec.is_ascii (Js.pad_zeros w s) = true.
Proof.
  intros Hs. induction w as [|w IH]; cbn [Js.pad_zeros].
  - now destruct (0 - String.length s)%nat.
  - destruct (S w - String.length s)%nat; [exact Hs|]. cbn [Spec.all_chars]. exact IH.
Qed.

Lemma strip_zeros_ascii (s : string) :
  Spec.all_chars Spec.is_ascii s = true ->
  Spec.all_chars Spec.is_ascii (Js.strip_zeros s) = true.
Proof.
  induction s as [|c s IH]; [reflexivity|]. cbn [Spec.all_chars Js.strip_zeros].
  intros H. apply andb_prop in H as [Hc Hs]. specialize (IH Hs).
  destruct (Js.strip_zeros s) as [|c' r].
  - destruct (Ascii.eqb c "0"); [reflexivity|]. cbn [Spec.all_chars]. now rewrite Hc.
  - cbn [Spec.all_chars] in *. now rewrite Hc.
Qed.

Lemma number_text_ascii (n : Js.number) :
  Spec.all_chars Spec.is_ascii (Js.String_of_number n) = true.
Proof.
  destruct n as [m e]. unfold Js.String_of_number.
  assert (Hsign : Spec.all_chars Spec.is_ascii (if m <? 0 then "-" else "") = true)
    by (now destruct (m <? 0)).
  destruct (Js.exponent_form (Js.Num m e)).
  - unfold Js.exponent_text.
    pose proof (strip_zeros_ascii _ (N_text_ascii (Z.to_N (Z.abs m)))) as Hd.
    assert (Hm : Spec.all_chars Spec.is_ascii
                   match Js.strip_zeros (Js.N_to_string (Z.to_N (Z.abs m))) with
                   | String d EmptyString => String d EmptyString
                   | String d r => String d ("." +++ r)
                   | EmptyString => "0"
                   end = true).
    { destruct (Js.strip_zeros _) as [|d r]; [reflexivity|].
      cbn [Spec.all_chars] in Hd. apply andb_prop in Hd as [Hd Hr].
      destruct r; cbn [Spec.all_chars String.append] in *; now rewrite Hd, ?Hr. }
    rewrite !all_chars_app, Hsign, Hm, N_text_ascii.
    now destruct (Js.first_place m e - 1 <? 0).
  - unfold Js.positional_text. destruct e.
    + now rewrite all_chars_app, Hsign, N_text_ascii.
    + rewrite !all_chars_app, Hsign, N_text_ascii, pad_zeros_ascii by apply N_text_ascii.
      reflexivity.
Qed.

Lemma leaf_text_well_formed (v : value) :
  Spec.leaf_ok v = true -> Spec.well_formed (Spec.leaf_text v) = true.
Proof.
  destruct v; try discriminate; cbn [Spec.leaf_ok Spec.leaf_text]; auto.
  - now destruct b.
  - intros _. apply ascii_well_formed, number_text_ascii.
Qed.

Lemma brackets_ok (path : list string) :
  Forall (fun seg => Spec.seg_ok seg = true) path ->
  Spec.well_formed (Spec.brackets path) = true.
Proof.
  induction 1 as [|seg path Hseg Hpath IH]; [reflexivity|].
  rewrite brackets_cons. unfold Spec.seg_ok in Hseg. apply andb_prop in Hseg as [Ha _].
  change (String "[" (seg +++ String "]" (Spec.brackets path)))
    with ("[" +++ seg +++ "]" +++ Spec.brackets path).
  repeat apply well_formed_app; auto.
Qed.

Lemma key_seg_ok (k : string) : Spec.key_ok k = true -> Spec.seg_ok k = true.
Proof.
  intros H. destruct (key_ok_facts k H) as (_ & _ & _ & _ & _ & Ha & Hb).
  unfold Spec.seg_ok. now rewrite Ha, Hb.
Qed.

Lemma paths_cons_ok (k : string) (Q : list (list string * value)) :
  Spec.seg_ok k = true -> Forall Spec.path_ok Q ->
  Forall Spec.path_ok (map (fun q => (k :: fst q, snd q)) Q).
Proof.
  intros Hk HQ. apply Forall_forall. intros q Hq.
  apply in_map_iff in Hq as (q0 & <- & Hin). rewrite Forall_forall in HQ.
  destruct (HQ q0 Hin) as [Hp Hl]. split; [now constructor|exact Hl].
Qed.

Lemma mapping_paths_ok (P : value -> bool) (ps : props) :
  (forall v, P v = true -> Forall Spec.path_ok (Spec.paths_of v)) ->
  forallb (fun p => Spec.key_ok (fst p) && P (snd p)) ps = true ->
  Forall Spec.path_ok (Spec.paths_of (VObj ps)).
Proof.
  intros HP Hall. cbn [Spec.paths_of].
  induction ps as [|p ps IH]; [constructor|].
  cbn [forallb] in Hall. apply andb_prop in Hall as [Hp Hps].
  apply andb_prop in Hp as [Hk Hv]. cbn [flat_map]. apply Forall_app. split.
  - apply paths_cons_ok; [now apply key_seg_ok|now apply HP].
  - now apply IH.
Qed.

Lemma leaf_path_ok (v : value) :
  Spec.leaf_ok v = true -> Forall Spec.path_ok (Spec.paths_of v).
Proof.
  intros Hv. rewrite (leaf_paths v (leaf_ok_leaf v Hv)). repeat constructor. exact Hv.
Qed.

Lemma tree_ok_paths_ok (r : nat) :
  forall v, Spec.tree_ok r v = true -> Forall Spec.path_ok (Spec.paths_of v).
Proof.
  induction r as [|r IH]; intros v Hv.
  - destruct v; try discriminate Hv; now apply leaf_path_ok.
  - destruct v as [| | | | | |items|ps]; try discriminate Hv; try (now apply leaf_path_ok).
    + cbn [Spec.tree_ok] in Hv.
      apply andb_prop in Hv as [Hv Hall]. apply andb_prop in Hv as [_ Hlen].
      apply Nat.leb_le in Hlen. cbn [Spec.paths_of].
      assert (Hgen : forall post n, (n + length post <= 21)%nat ->
                forallb (fun item =>
                           match item with
                           | VObj ps =>
                               negb (length ps =? 0)%nat && Spec.distinct (map fst ps) &&
                               forallb (fun p => Spec.key_ok (fst p) && Spec.tree_ok r (snd p)) ps
                           | _ => Spec.leaf_ok item
                           end) post = true ->
                Forall Spec.path_ok (Spec.item_paths Spec.paths_of post (N.of_nat n))).
      { induction post as [|item post IHp]; intros n Hn Hpost; [constructor|].
        cbn [forallb] in Hpost. apply andb_prop in Hpost as [Hitem Hpost].
        cbn [length] in Hn. cbn [Spec.item_paths]. apply Forall_app. split.
        - destruct (index_facts n ltac:(lia)) as (_ & _ & Ha & Hb & _).
          apply paths_cons_ok; [unfold Spec.seg_ok; now rewrite Ha, Hb|].
          destruct item as [| | | | | |?|eps]; try discriminate Hitem;
            try (now apply leaf_path_ok).
          apply andb_prop in Hitem as [_ Hps].
          now apply (mapping_paths_ok (Spec.tree_ok r)).
        - replace (N.of_nat n + 1)%N with (N.of_nat (S n)) by lia.
          apply IHp; [lia|exact Hpost]. }
      apply (Hgen items 0%nat); [lia|exact Hall].
    + cbn [Spec.tree_ok] in Hv. apply andb_prop in Hv as [_ Hps].
      now apply (mapping_paths_ok (Spec.tree_ok r)).
Qed.

End Whole.

Section RoundTrip.
Variables numbers booleans : bool.
Let popts := with_coercion numbers booleans defaultParseOptions.

Lemma root_loop (ps : props) :
  Spec.distinct (map fst ps) = true ->
  forall post pre,
    ps = pre ++ post ->
    Forall (fun p => Spec.walks (snd p)) post ->
    Stringifier.stringify_loop ps (map fst post) Encoding.rfc3986Encoder
                               defaultStringifyOptions
    = Ok (Spec.pairs_of post).
Proof.
  intros Hd. induction post as [|[k v] post IH]; intros pre Hps Hw; [reflexivity|].
  inversion Hw as [|? ? Hv Hpost]; subst. cbn [fst snd] in Hv.
  assert (Hk : existsb (String.eqb k) (map fst pre) = false).
  { rewrite map_app in Hd. now apply distinct_head in Hd. }
  cbn [map fst Stringifier.stringify_loop].
  rewrite (lookup_middle pre post k v Hk).
  specialize (IH (pre ++ [(k, v)])). rewrite <- app_assoc in IH.
  specialize (IH eq_refl Hpost). cbn [app] in IH. rewrite IH. clear IH.
  pose proof (walks_defined v Hv) as Hu.
  cbn [skipNulls defaultStringifyOptions andb]. rewrite (Hv k []).
  destruct v; try discriminate Hu; reflexivity.
Qed.

(** What stringify returns on a well-formed mapping. *)
Lemma stringify_text (ps : props) :
  Spec.distinct (map fst ps) = true ->
  forallb (fun p => Spec.key_ok (fst p) && Spec.tree_ok 6 (snd p)) ps = true ->
  Stringifier.stringify (VObj ps) defaultStringifyOptions =
  Ok (Js.join "&" (Spec.pairs_of ps)).
Proof.
  intros Hd Hall. destruct (props_ok_split _ _ Hall) as [Hk Ht].
  unfold Stringifier.stringify, Stringifier.emit.
  cbn [validateStringify defaultStringifyOptions encodeDotInKeys andb bind filter
       Stringifier.applyFilter sort Stringifier.sort_keys Types.encode format
       Encoding.getEncoder s_delimiter s_charsetSentinel addQueryPrefix].
  rewrite (Object_keys_named ps Hk).
  rewrite (root_loop ps Hd ps [] eq_refl); [reflexivity|].
  eapply Forall_impl; [|exact Ht]. intros p Hp. now apply (tree_ok_walks 6).
Qed.

Lemma pairs_of_root (ps : props) :
  Spec.pairs_of ps = map Spec.emit_root (Spec.paths_of (VObj ps)).
Proof.
  unfold Spec.pairs_of. cbn [Spec.paths_of].
  induction ps as [|p ps IH]; [reflexivity|].
  cbn [flat_map]. rewrite map_app, map_map, IH. f_equal.
Qed.

Lemma emit_pair_chars (key : string) (q : list string * value) :
  Spec.all_chars Spec.pair_char (Spec.emit_pair key q) = true.
Proof.
  assert (Hw : forall s, Spec.all_chars Spec.pair_char (Encoding.rfc3986Encoder s) = true).
  { intros s. apply (all_chars_weaken Spec.token_char); [|apply encoder_token].
    intros c Hc. unfold Spec.pair_char. now rewrite Hc. }
  unfold Spec.emit_pair. rewrite !all_chars_app, !Hw. reflexivity.
Qed.

Lemma emit_root_chars (q : list string * value) :
  Spec.all_chars Spec.pair_char (Spec.emit_root q) = true.
Proof.
  unfold Spec.emit_root. destruct (fst q); [reflexivity|apply emit_pair_chars].
Qed.

Lemma parseKeyValue_plain (opts : ParseOptions) (result : value) (key : string) (x : value) :
  comma opts = false ->
  Parser.parseKeyValue result key x opts =
  Parser.setNestedValue opts x (Parser.parseKeyPath key opts) result 0.
Proof.
  intros Hc. unfold Parser.parseKeyValue. rewrite Hc. now destruct x.
Qed.

(** What parse does with the pair of one leaf. *)
Lemma parse_root_pair (q : list string * value) (o : value) :
  Spec.starts_named q -> Spec.path_ok q ->
  Parser.parse_pair popts Utf8 (Spec.emit_root q) o =
  Spec.place popts numbers booleans 0 [] q o.
Proof.
  intros (k & path & Hpath & Hk) (Hsegs & Hleaf).
  rewrite Hpath in Hsegs. inversion Hsegs as [|? ? _ Hrest]; subst.
  destruct (key_ok_facts k Hk) as (Hne & _ & _ & _ & _ & Hasc & Hbr).
  unfold Spec.emit_root, Spec.emit_pair, Spec.place, Spec.conv. rewrite Hpath.
  cbn [fst snd app].
  rewrite (parse_pair_encoded numbers booleans).
  - rewrite parseKeyValue_plain by reflexivity.
    rewrite (parseKeyPath_render _ k path); auto.
    + intros ->. discriminate Hne.
    + eapply Forall_impl; [|exact Hrest]. intros seg Hs.
      unfold Spec.seg_ok in Hs. now apply andb_prop in Hs.
  - intros E. destruct k; [discriminate Hne|discriminate E].
  - apply well_formed_app; [exact Hasc|now apply brackets_ok].
  - now apply leaf_text_well_formed.
Qed.

Lemma foldM_ext_in {A B} (f g : A -> B -> outcome B) (l : list A) (b : B) :
  Forall (fun x => forall y, f x y = g x y) l -> Spec.foldM f l b = Spec.foldM g l b.
Proof.
  intros H. revert b. induction H as [|x l Hx Hl IH]; intros b; [reflexivity|].
  cbn [Spec.foldM]. rewrite Hx. destruct (g x b); cbn [bind]; auto.
Qed.

Lemma convert_plain (t : string) : Spec.convert false false t = VStr t.
Proof.
  unfold Spec.convert, Utils.autoConvert. cbn [andb].
  now destruct (String.eqb t "").
Qed.

Lemma coerce_plain_leaf (v : value) :
  Spec.is_leaf v = true -> Spec.coerce false false v = Spec.stringly v.
Proof. destruct v; try discriminate; intros _; cbn; apply convert_plain. Qed.

(** Without coercion every leaf comes back as its text. *)
Lemma coerce_plain (r : nat) :
  forall v, Spec.tree_ok r v = true -> Spec.coerce false false v = Spec.stringly v.
Proof.
  assert (Hmap : forall (P : value -> bool) ps,
    (forall v, P v = true -> Spec.coerce false false v = Spec.stringly v) ->
    forallb (fun p => Spec.key_ok (fst p) && P (snd p)) ps = true ->
    Spec.coerce false false (VObj ps) = Spec.stringly (VObj ps)).
  { intros P ps HP Hall. cbn [Spec.coerce Spec.stringly]. f_equal.
    apply map_ext_in. intros p Hp. rewrite forallb_forall in Hall.
    specialize (Hall p Hp). apply andb_prop in Hall as [_ Hv]. now rewrite (HP _ Hv). }
  induction r as [|r IH]; intros v Hv.
  - destruct v; try discriminate Hv; now apply coerce_plain_leaf.
  - destruct v as [| | | | | |items|ps]; try discriminate Hv;
      try (now apply coerce_plain_leaf).
    + cbn [Spec.tree_ok] in Hv. apply andb_prop in Hv as [_ Hall].
      cbn [Spec.coerce Spec.stringly]. f_equal. apply map_ext_in. intros item Hin.
      rewrite forallb_forall in Hall. specialize (Hall item Hin).
      destruct item as [| | | | | |?|eps]; try discriminate Hall;
        try (now apply coerce_plain_leaf).
      apply andb_prop in Hall as [_ Hps]. now apply (Hmap (Spec.tree_ok r)).
    + cbn [Spec.tree_ok] in Hv. apply andb_prop in Hv as [_ Hps].
      now apply (Hmap (Spec.tree_ok r)).
Qed.

(** parse undoes stringify on a well-formed mapping, up to the coercion
    of the leaves. *)
Lemma parse_stringified (ps : props) :
  Spec.roundtrippable (VObj ps) = true ->
  Parser.parse (Js.join "&" (Spec.pairs_of ps)) popts =
  Ok (Spec.coerce numbers booleans (VObj ps)).
Proof.
  unfold Spec.roundtrippable, Spec.roundtrippable_props. intros H.
  apply andb_prop in H as [H Hcount]. apply andb_prop in H as [Hd Hall].
  apply Nat.leb_le in Hcount.
  destruct (props_ok_split _ _ Hall) as [Hk Ht].
  assert (Hnamed : Forall Spec.starts_named (Spec.paths_of (VObj ps)))
    by (now apply paths_named).
  assert (Hok : Forall Spec.path_ok (Spec.paths_of (VObj ps)))
    by (now apply (mapping_paths_ok (Spec.tree_ok 6)); [apply tree_ok_paths_ok|]).
  assert (Hbuilds : Forall (fun p => Spec.builds numbers booleans 0 (snd p)) ps).
  { eapply Forall_impl; [|exact Ht]. intros p Hp. apply (tree_ok_builds _ _ 6); [exact Hp|lia]. }
  pose proof (fold_props numbers booleans 0 ps Hd ps [] eq_refl Hk Hbuilds) as Hfold.
  cbn [app map] in Hfold.
  change (flat_map _ ps) with (Spec.paths_of (VObj ps)) in Hfold.
  change (VObj (map _ ps)) with (Spec.coerce numbers booleans (VObj ps)) in Hfold.
  rewrite pairs_of_root.
  remember (Spec.paths_of (VObj ps)) as Q eqn:HQ.
  assert (Hchars : Forall (fun a => Spec.all_chars Spec.pair_char a = true)
                          (map Spec.emit_root Q)).
  { apply Forall_forall. intros a Ha. apply in_map_iff in Ha as (q & <- & _).
    apply emit_root_chars. }
  destruct Q as [|q0 Q'].
  - cbn [map Js.join]. rewrite <- Hfold. reflexivity.
  - assert (Htext : String.eqb (Js.join "&" (map Spec.emit_root (q0 :: Q'))) "" = false).
    { apply String.eqb_neq. apply join_empty; [|discriminate].
      apply Forall_forall. intros a Ha. apply in_map_iff in Ha as (q & <- & Hq).
      rewrite Forall_forall in Hnamed. destruct (Hnamed q Hq) as (k & path & Hp & _).
      unfold Spec.emit_root, Spec.emit_pair. rewrite Hp. intros E.
      apply (f_equal String.length) in E. rewrite !length_append in E. cbn in E. lia. }
    unfold Parser.parse, popts.
    cbn [validateParse with_coercion defaultParseOptions arrayLimit depth
         parameterLimit decodeDotInKeys allowDots andb negb Z.ltb Z.compare bind].
    rewrite Htext. unfold Parser.split_pairs.
    cbn [with_coercion defaultParseOptions ignoreQueryPrefix charsetSentinel charset
         delimiter andb bind Utils.splitByDelimiter].
    rewrite (trim_query _ (join_query _ Hchars)).
    assert (Hsome : map Spec.emit_root (q0 :: Q') <> []) by discriminate.
    rewrite (split_join _ Hsome Hchars). cbn [bind].
    rewrite parse_loop_from.
    change (parameterLimit (with_coercion numbers booleans defaultParseOptions))
      with 1000.
    rewrite Z.sub_0_r, firstn_all2 by (rewrite length_map; lia).
    rewrite foldM_map.
    rewrite (foldM_ext_in _ (Spec.place popts numbers booleans 0 [])).
    + exact Hfold.
    + apply Forall_forall. intros q Hq y. rewrite Forall_forall in Hnamed, Hok.
      apply parse_root_pair; auto.
Qed.

End RoundTrip.

(** C1, as stated, fails on mappings nested past the default depth of 5:
    of the eight segments of the key the last two come back as one key. *)
Lemma deep_mapping_not_restored :
  let v := VObj [("a", Spec.nest ["b"; "c"; "d"; "e"; "f"; "g"; "h"] (VStr "x"))] in
  let text := "a%5Bb%5D%5Bc%5D%5Bd%5D%5Be%5D%5Bf%5D%5Bg%5D%5Bh%5D=x" in
  let r := VObj [("a", Spec.nest ["b"; "c"; "d"; "e"; "f"] (VObj [("g[h]", VStr "x")]))] in
  Stringifier.stringify v defaultStringifyOptions = Ok text /\
  Parser.parse text (with_coercion true true defaultParseOptions) = Ok r /\
  Spec.coerce true true v = v /\
  r <> v.
Proof.
  split; [vm_compute; reflexivity|].
  split; [vm_compute; reflexivity|].
  split; [vm_compute; reflexivity|].
  discriminate.
Qed.

(** A sequence inside a sequence comes back as a mapping keyed by "0". *)
Example nested_sequence_as_mapping :
  Stringifier.stringify (VObj [("a", VArr [VArr [VStr "x"]])]) defaultStringifyOptions =
    Ok "a%5B0%5D%5B0%5D=x" /\
  Parser.parse "a%5B0%5D%5B0%5D=x" (with_coercion true true defaultParseOptions) =
    Ok (VObj [("a", VArr [VObj [("0", VStr "x")]])]).
Proof. split; vm_compute; reflexivity. Qed.

(** An empty sequence leaves no trace in the text. *)
Example empty_sequence_lost :
  Stringifier.stringify (VObj [("a", VArr [])]) defaultStringifyOptions = Ok "" /\
  Parser.parse "" (with_coercion true true defaultParseOptions) = Ok (VObj []).
Proof. split; vm_compute; reflexivity. Qed.

(** A sequence of 22 elements passes the array limit of 20: the element at
    index 21 replaces the sequence by a mapping. *)
Example long_sequence_not_restored :
  (let* text := Stringifier.stringify (VObj [("a", VArr (repeat (VStr "x") 22))])
                                      defaultStringifyOptions in
   Parser.parse text (with_coercion true true defaultParseOptions)) =
  Ok (VObj [("a", VObj [("21", VStr "x")])]).
Proof. vm_compute. reflexivity. Qed.

(** A key of digits below another key comes back as an index into a
    sequence, and a key with a bracket is split at it. *)
Example keys_not_restored :
  Stringifier.stringify (VObj [("a", VObj [("1", VStr "y")])]) defaultStringifyOptions =
    Ok "a%5B1%5D=y" /\
  Parser.parse "a%5B1%5D=y" (with_coercion true true defaultParseOptions) =
    Ok (VObj [("a", VArr [VUndefined; VStr "y"])]) /\
  Stringifier.stringify (VObj [("a[b", VStr "x")]) defaultStringifyOptions =
    Ok "a%5Bb=x" /\
  Parser.parse "a%5Bb=x" (with_coercion true true defaultParseOptions) =
    Ok (VObj [("a", VObj [("b", VStr "x")])]).
Proof.
  split; [vm_compute; reflexivity|]. split; [vm_compute; reflexivity|].
  split; vm_compute; reflexivity.
Qed.

(** C1 (amended).  Take a mapping with at most 1000 leaves in which the
    values below each root key nest at most six levels (a mapping or a
    sequence counts one level, a mapping that is an element of a sequence
    counts with its sequence), every leaf is a well-formed string, a number
    or a boolean, every nested mapping is not empty, every sequence holds 1
    to 21 elements, each a leaf or a mapping that is not empty, and the
    keys of every mapping are distinct, not empty, well formed, free of
    brackets, not strings of digits, and neither an injection-guarded name
    nor a name inherited from Object.prototype.  Then stringify returns a
    text; parsing it with number and boolean coercion returns the mapping
    with every leaf replaced by the coercion of its text (the value up to
    scalar widening), and parsing it without coercion returns the mapping
    with every leaf as its text. *)
Theorem round_trip (v : value) :
  Spec.roundtrippable v = true ->
  exists text,
    Stringifier.stringify v defaultStringifyOptions = Ok text /\
    Parser.parse text (with_coercion true true defaultParseOptions) =
      Ok (Spec.coerce true true v) /\
    Parser.parse text defaultParseOptions = Ok (Spec.stringly v).
Proof.
  intros H. destruct v as [| | | | | | |ps]; try discriminate H.
  exists (Js.join "&" (Spec.pairs_of ps)).
  pose proof H as H'. unfold Spec.roundtrippable, Spec.roundtrippable_props in H'.
  apply andb_prop in H' as [H' _]. apply andb_prop in H' as [Hd Hall].
  split; [now apply stringify_text|]. split.
  - now apply (parse_stringified true true).
  - change defaultParseOptions with (with_coercion false false defaultParseOptions).
    rewrite (parse_stringified false false ps H).
    f_equal. cbn [Spec.coerce Spec.stringly]. f_equal.
    apply map_ext_in. intros p Hp. rewrite forallb_forall in Hall.
    specialize (Hall p Hp). apply andb_prop in Hall as [_ Hv].
    now rewrite (coerce_plain 6 _ Hv).
Qed.

Lemma round_trip_witness :
  let v := VObj [("string", VStr "hello world"); ("café", VStr "naïve ✓");
                 ("number", VNum (Js.Num 123 0)); ("boolean", VBool true);
                 ("array", VArr [VStr "a"; VStr "b"; VStr "c"]);
                 ("object", VObj [("nested", VStr "value")]);
                 ("list", VArr [VObj [("id", VStr "1"); ("tags", VArr [VStr "x"])];
                                VStr ""])] in
  Spec.roundtrippable v = true /\
  Spec.coerce true true v =
    VObj [("string", VStr "hello world"); ("café", VStr "naïve ✓");
          ("number", VNum (Js.Num 123 0)); ("boolean", VBool true);
          ("array", VArr [VStr "a"; VStr "b"; VStr "c"]);
          ("object", VObj [("nested", VStr "value")]);
          ("list", VArr [VObj [("id", VNum (Js.Num 1 0)); ("tags", VArr [VStr "x"])];
                         VStr ""])] /\
  exists text,
    Stringifier.stringify v defaultStringifyOptions = Ok text /\
    Parser.parse text (with_coercion true true defaultParseOptions) =
      Ok (Spec.coerce true true v) /\
    Parser.parse text defaultParseOptions = Ok (Spec.stringly v).
Proof.
  split; [vm_compute; reflexivity|].
  split; [vm_compute; reflexivity|].
  apply (round_trip
           (VObj [("string", VStr "hello world"); ("café", VStr "naïve ✓");
                  ("number", VNum (Js.Num 123 0)); ("boolean", VBool true);
                  ("array", VArr [VStr "a"; VStr "b"; VStr "c"]);
                  ("object", VObj [("nested", VStr "value")]);
                  ("list", VArr [VObj [("id", VStr "1"); ("tags", VArr [VStr "x"])];
                                 VStr ""])])).
  vm_compute. reflexivity.
Defined.

(** ** A later pair on a result that is not empty *)
Section Descend.
Variable opts : ParseOptions.
Variable v : value.

Lemma lookup_assign_eq (k : string) (x : value) (ps : props) :
  lookup k (assign k x ps) = Some x.
Proof.
  induction ps as [|[k' y] ps IH]; cbn [assign lookup].
  - now rewrite String.eqb_refl.
  - destruct (String.eqb k k') eqn:E; cbn [lookup]; [now rewrite String.eqb_refl|].
    now rewrite E.
Qed.

Lemma assign_twice (k : string) (x y : value) (ps : props) :
  assign k x (assign k y ps) = assign k x ps.
Proof.
  induction ps as [|[k' z] ps IH]; cbn [assign].
  - now rewrite String.eqb_refl.
  - destruct (String.eqb k k') eqn:E; cbn [assign].
    + now rewrite String.eqb_refl.
    + now rewrite E, IH.
Qed.

Lemma assign_found (k : string) (x : value) (ps : props) :
  lookup k ps = Some x -> assign k x ps = ps.
Proof.
  induction ps as [|[k' z] ps IH]; cbn [assign lookup]; [discriminate|].
  destruct (String.eqb k k') eqn:E.
  - intros H. injection H as ->. apply String.eqb_eq in E. now subst.
  - intros H. now rewrite IH.
Qed.

Lemma named_facts (k : string) :
  Spec.named opts k = true ->
  String.eqb k "" = false /\ Utils.hasPrototypePollution k = false /\
  is_inherited k = false /\ String.eqb k "__proto__" = false /\
  (Utils.isArrayIndex k || String.eqb k "") && parseArrays opts = false.
Proof.
  unfold Spec.named. intros H. apply andb_prop in H as [Ho Ha].
  pose proof (ordinary_not_proto k Ho) as Hproto.
  pose proof (ordinary_not_inherited k Ho) as Hinh.
  unfold Spec.ordinary in Ho. apply andb_prop in Ho as [Ho _].
  apply andb_prop in Ho as [Hne Hpp].
  apply negb_true_iff in Hne, Hpp, Ha. repeat split; assumption.
Qed.

Lemma falsy_no_mapping (k : string) (x : value) (o : props) :
  lookup k o = Some x -> falsy x = true -> Spec.sub k o = [].
Proof.
  intros Hk Hf. unfold Spec.sub. rewrite Hk. now destruct x.
Qed.

(** The walk along named segments: [setNestedValue] goes down the
    mappings that [at_path] follows, and writes each of them back on the
    way up. *)
Lemma descend (p0 : string) (ps : list string) :
  (Utils.isArrayIndex p0 || String.eqb p0 "") && parseArrays opts = false ->
  forall (ks : list string) (o inner : props) (d : Z),
    Forall (fun k => Spec.named opts k = true) ks ->
    d + Z.of_nat (length ks) <= depth opts + 1 ->
    Spec.at_path ks o = Some inner ->
    Parser.setNestedValue opts v (ks ++ p0 :: ps) (VObj o) d =
    (let* r := Parser.setNestedValue opts v (p0 :: ps) (VObj inner)
                                     (d + Z.of_nat (length ks)) in
     Ok (Spec.put_path ks r o)).
Proof.
  intros Hp0. induction ks as [|k ks IH]; intros o inner d Hks Hd Hat.
  - cbn [Spec.at_path] in Hat. injection Hat as <-.
    cbn [app length Z.of_nat Spec.put_path]. rewrite Z.add_0_r.
    now destruct (Parser.setNestedValue opts v (p0 :: ps) (VObj o) d).
  - inversion Hks as [|? ? Hk Hks']; subst.
    destruct (named_facts k Hk) as (Hke & Hkp & Hinh & Hproto & _).
    assert (Hlt : (depth opts <? d) = false).
    { apply Z.ltb_ge. cbn [length] in Hd. lia. }
    assert (Hnext : exists next rest,
               ks ++ p0 :: ps = next :: rest /\
               (Utils.isArrayIndex next || String.eqb next "") && parseArrays opts = false).
    { destruct ks as [|k' ks'].
      - now exists p0, ps.
      - inversion Hks' as [|? ? Hk' _]; subst. exists k', (ks' ++ p0 :: ps).
        split; [reflexivity|]. now destruct (named_facts k' Hk') as (_ & _ & _ & _ & H). }
    destruct Hnext as (next & rest & Heq & Hna).
    remember (Parser.setNestedValue opts v (p0 :: ps) (VObj inner)
                (d + Z.of_nat (length (k :: ks)))) as tailcall eqn:Htail.
    assert (Hstep : forall (o' : props),
               Spec.at_path ks o' = Some inner ->
               (let* sub := Parser.setNestedValue opts v (ks ++ p0 :: ps) (VObj o') (d + 1) in
                Ok (VObj (assign k sub o))) =
               (let* r := tailcall in
                Ok (VObj (assign k (Spec.put_path ks r o') o)))).
    { intros o' Ho'. rewrite (IH o' inner (d + 1) Hks'); [|cbn [length] in Hd; lia|exact Ho'].
      replace (d + 1 + Z.of_nat (length ks)) with (d + Z.of_nat (length (k :: ks)))
        by (cbn [length]; lia).
      rewrite <- Htail. now destruct tailcall. }
    clear Htail.
    cbn [app]. remember (ks ++ p0 :: ps) as kp eqn:Hpath.
    cbn [Parser.setNestedValue]. rewrite Heq. cbv beta match.
    rewrite Hlt, andb_false_r, Hke, Hkp, andb_false_r, Hna.
    unfold Obj.get at 1. rewrite Hinh, andb_false_r.
    cbn [Spec.at_path] in Hat. cbn [Spec.put_path].
    assert (Hnew : Spec.at_path ks [] = Some inner -> Spec.sub k o = [] ->
              (let* obj1 := Obj.set (plainObjects opts) (VObj o) k (VObj []) in
               let* cur1 := Obj.get (plainObjects opts) obj1 k in
               if Utils.isObject cur1
               then let* sub := Parser.setNestedValue opts v (next :: rest) cur1 (d + 1) in
                    Ok (Parser.put obj1 k sub)
               else Ok obj1) =
              (let* r := tailcall in
               Ok (VObj (assign k (Spec.put_path ks r (Spec.sub k o)) o)))).
    { intros Ho' Hsub. unfold Obj.set. rewrite Hproto, andb_false_r. cbn [bind].
      unfold Obj.get. rewrite lookup_assign_eq. cbn [bind Utils.isObject].
      rewrite Hsub, <- (Hstep [] Ho'), <- Heq.
      destruct (Parser.setNestedValue opts v kp (VObj []) (d + 1)); cbn [bind];
        try reflexivity.
      cbn [Parser.put]. now rewrite assign_twice. }
    destruct (lookup k o) as [x|] eqn:Hlk.
    + cbn [bind]. destruct (falsy x) eqn:Hf.
      * apply Hnew; [exact Hat|]. now apply (falsy_no_mapping k x).
      * destruct x; try discriminate Hat. cbn [bind].
        unfold Obj.get. rewrite Hlk. cbn [bind Utils.isObject].
        assert (Hsub : Spec.sub k o = props0) by (unfold Spec.sub; now rewrite Hlk).
        rewrite Hsub, <- (Hstep props0 Hat), <- Heq.
        now destruct (Parser.setNestedValue opts v kp (VObj props0) (d + 1)).
    + cbn [bind falsy]. apply Hnew; [exact Hat|]. unfold Spec.sub. now rewrite Hlk.
Qed.






(** A truthy scalar on the way stops the walk. *)
Lemma setNestedValue_blocked (existing : value) (ps : props) (k next : string)
      (rest : list string) (d : Z) :
  d <= depth opts ->
  lookup k ps = Some existing ->
  Spec.truthy_scalar existing = true ->
  Spec.array_segment opts next = false ->
  Parser.setNestedValue opts v (k :: next :: rest) (VObj ps) d = Ok (VObj ps).
Proof.
  intros Hdepth Hk Ht Hseg.
  cbn [Parser.setNestedValue].
  assert (Hlt : (depth opts <? d) = false) by (apply Z.ltb_ge; exact Hdepth).
  rewrite Hlt, andb_false_r.
  destruct (String.eqb k ""); [reflexivity|].
  destruct (negb (allowPrototypes opts) && Utils.hasPrototypePollution k);
    [reflexivity|].
  unfold Spec.array_segment in Hseg. rewrite Hseg.
  unfold Obj.get at 1. rewrite Hk. cbn [bind].
  assert (Hf : falsy existing = false).
  { destruct existing as [| |b|n|s| | |]; try discriminate Ht.
    - destruct b; [reflexivity|discriminate].
    - cbn in *. now destruct (Js.num_is_zero n).
    - destruct s; [discriminate|reflexivity]. }
  rewrite Hf. cbn [bind]. unfold Obj.get. rewrite Hk. cbn [bind].
  destruct existing; try discriminate Ht; reflexivity.
Qed.

Lemma at_path_empty (ks : list string) : Spec.at_path ks [] = Some [].
Proof. induction ks as [|k ks IH]; [reflexivity|exact IH]. Qed.

(** Writing back what was found changes nothing. *)
Lemma put_path_found (ks : list string) :
  forall (o inner : props),
    Spec.at_path ks o = Some inner -> inner <> [] ->
    Spec.put_path ks (VObj inner) o = VObj o.
Proof.
  induction ks as [|k ks IH]; intros o inner Hat Hne.
  - cbn in *. now injection Hat as <-.
  - cbn [Spec.at_path Spec.put_path] in *.
    assert (Hempty : Spec.at_path ks [] = Some inner -> False).
    { rewrite at_path_empty. intros H. injection H as <-. now apply Hne. }
    destruct (lookup k o) as [x|] eqn:Hlk; [|now apply Hempty in Hat].
    destruct (falsy x); [now apply Hempty in Hat|].
    destruct x; try discriminate Hat.
    unfold Spec.sub. rewrite Hlk, (IH props0 inner Hat Hne).
    now rewrite (assign_found k _ o Hlk).
Qed.

End Descend.

Section Later.
Variable opts : ParseOptions.
Hypothesis Hsyntax : Spec.plain_syntax opts = true.

Lemma plain_syntax_facts :
  validateParse opts = Ok tt /\ delimiter opts = DelimString "&" /\
  ignoreQueryPrefix opts = false /\ charsetSentinel opts = false /\
  allowDots opts = false /\ comma opts = false.
Proof.
  unfold Spec.plain_syntax in Hsyntax.
  repeat match type of Hsyntax with
         | _ && _ = true => let H := fresh "H" in apply andb_prop in Hsyntax as [Hsyntax H];
                            try apply negb_true_iff in H
         end.
  repeat split; try assumption.
  - destruct (validateParse opts) as [[]| |]; [reflexivity|discriminate..].
  - destruct (delimiter opts) as [s|]; [|discriminate].
    apply String.eqb_eq in H3. now subst.
Qed.

Lemma pairs_ok_facts (l : list string) :
  Spec.pairs_ok l = true ->
  Forall (fun a => Spec.all_chars Spec.pair_char a = true) l /\
  Forall (fun a => a <> "") l.
Proof.
  unfold Spec.pairs_ok. induction l as [|a l IH]; cbn [forallb]; intros H.
  - split; constructor.
  - apply andb_prop in H as [Ha Hl]. apply andb_prop in Ha as [Hc Hne].
    destruct (IH Hl) as [H1 H2]. split; constructor; auto.
    intros ->. discriminate Hne.
Qed.

Lemma pairs_ok_app (l1 l2 : list string) :
  Spec.pairs_ok (l1 ++ l2) = Spec.pairs_ok l1 && Spec.pairs_ok l2.
Proof. unfold Spec.pairs_ok. apply forallb_app. Qed.

(** parse on pairs joined by '&': the pairs within the limit, one after
    the other. *)
Lemma parse_pairs (pairs : list string) :
  Spec.pairs_ok pairs = true ->
  Parser.parse (Js.join "&" pairs) opts =
  Spec.foldM (Parser.parse_pair opts (charset opts))
             (firstn (Z.to_nat (parameterLimit opts)) pairs) (VObj []).
Proof.
  intros Hok. destruct (pairs_ok_facts pairs Hok) as [Hchars Hne].
  destruct plain_syntax_facts as (Hvalid & Hdelim & Hprefix & Hsentinel & _ & _).
  unfold Parser.parse. rewrite Hvalid. cbn [bind].
  destruct pairs as [|p0 pairs]; [now rewrite firstn_nil|].
  assert (Htext : String.eqb (Js.join "&" (p0 :: pairs)) "" = false).
  { apply String.eqb_neq. apply join_empty; [exact Hne|discriminate]. }
  rewrite Htext. unfold Parser.split_pairs. rewrite Hprefix, Hsentinel, Hdelim.
  cbn [andb bind Utils.splitByDelimiter].
  rewrite (trim_query _ (join_query _ Hchars)).
  assert (Hsome : p0 :: pairs <> []) by discriminate.
  rewrite (split_join _ Hsome Hchars). cbn [bind].
  rewrite parse_loop_from, Z.sub_0_r. reflexivity.
Qed.

(** A pair [key=value] whose two sides decode goes to [setNestedValue]
    with the path of its key. *)
Lemma later_pair (kt vt key : string) (x r : value) :
  Spec.all_chars Spec.token_char kt = true ->
  Parser.decodeKey kt opts (charset opts) = Ok key ->
  key <> "" ->
  Parser.decodeValue vt opts (charset opts) = Ok x ->
  Parser.parse_pair opts (charset opts) (kt +++ "=" +++ vt) r =
  Parser.setNestedValue opts x (Parser.parseKeyPath key opts) r 0.
Proof.
  intros Hkt Hkey Hne Hval.
  destruct plain_syntax_facts as (_ & _ & _ & _ & _ & Hcomma).
  unfold Parser.parse_pair.
  replace (String.eqb (kt +++ "=" +++ vt) "") with false.
  2:{ symmetry. apply String.eqb_neq. intros E.
      apply (f_equal String.length) in E. rewrite !length_append in E.
      cbn in E. lia. }
  change ("=" +++ vt) with (String "=" vt).
  rewrite (indexOf_eq _ _ Hkt), take_append, drop_append, Hkey, Hval. cbn [bind].
  replace (String.eqb key "") with false by (symmetry; now apply String.eqb_neq).
  unfold Parser.parseKeyValue. rewrite Hcomma.
  now destruct x.
Qed.

(** The pairs before the last one are within the limit: parse has run
    them all. *)
Lemma earlier_result (earlier : list string) (r : value) :
  Spec.pairs_ok earlier = true ->
  Z.of_nat (length earlier) < parameterLimit opts ->
  Parser.parse (Js.join "&" earlier) opts = Ok r ->
  Spec.foldM (Parser.parse_pair opts (charset opts)) earlier (VObj []) = Ok r.
Proof.
  intros Hok Hlen H. rewrite (parse_pairs earlier Hok), firstn_all2 in H by lia.
  exact H.
Qed.

(** parse on an input that goes on after the pairs [earlier]. *)
Lemma parse_after (earlier rest : list string) (r : value) :
  Spec.pairs_ok earlier = true ->
  Spec.pairs_ok rest = true ->
  Z.of_nat (length earlier) < parameterLimit opts ->
  Parser.parse (Js.join "&" earlier) opts = Ok r ->
  Parser.parse (Js.join "&" (earlier ++ rest)) opts =
  Spec.foldM (Parser.parse_pair opts (charset opts))
             (firstn (Z.to_nat (parameterLimit opts) - length earlier) rest) r.
Proof.
  intros Hok Hrest Hlen H.
  rewrite parse_pairs by (now rewrite pairs_ok_app, Hok, Hrest).
  rewrite firstn_app, firstn_all2 by lia.
  now rewrite foldM_app, (earlier_result earlier r Hok Hlen H).
Qed.

End Later.

Section LaterPair.
Variable opts : ParseOptions.
Hypothesis Hsyntax : Spec.plain_syntax opts = true.
Variables kt vt : string.
Variable x : value.
Hypothesis Hkt : Spec.all_chars Spec.token_char kt = true.
Hypothesis Hvt : Spec.all_chars Spec.pair_char vt = true.
Hypothesis Hvalue : Parser.decodeValue vt opts (charset opts) = Ok x.

Lemma pair_ok : Spec.pairs_ok [kt +++ "=" +++ vt] = true.
Proof.
  unfold Spec.pairs_ok. cbn [forallb]. rewrite andb_true_r.
  apply andb_true_intro. split.
  - rewrite !all_chars_app, Hvt, andb_true_r.
    rewrite (all_chars_weaken Spec.token_char Spec.pair_char); [reflexivity| |exact Hkt].
    intros c Hc. unfold Spec.pair_char. now rewrite Hc.
  - apply negb_true_iff, String.eqb_neq. intros E.
    apply (f_equal String.length) in E. rewrite !length_append in E. cbn in E. lia.
Qed.

(** What parse makes of the pair, on the result [r] of the pairs before
    it, when its key is written as the path [first :: path]. *)
Lemma later_path (first : string) (path : list string) (r : value) :
  Parser.decodeKey kt opts (charset opts) = Ok (Spec.collapse (first :: path)) ->
  first <> "" ->
  Spec.bracket_free (first :: path) = true ->
  Parser.parse_pair opts (charset opts) (kt +++ "=" +++ vt) r =
  Parser.setNestedValue opts x (first :: path) r 0.
Proof.
  intros Hkey Hne Hfree.
  destruct (plain_syntax_facts opts Hsyntax) as (_ & _ & _ & _ & Hdots & _).
  unfold Spec.bracket_free in Hfree. cbn [forallb] in Hfree.
  apply andb_prop in Hfree as [Hfirst Hpath]. rewrite forallb_forall in Hpath.
  rewrite (later_pair opts Hsyntax kt vt _ x r Hkt Hkey); [|
    change (Spec.collapse (first :: path)) with (first +++ Spec.brackets path);
    destruct first; [congruence|discriminate] | exact Hvalue].
  change (Spec.collapse (first :: path)) with (first +++ Spec.brackets path).
  rewrite (parseKeyPath_render opts first path Hdots Hne Hfirst); [reflexivity|].
  apply Forall_forall. exact Hpath.
Qed.

End LaterPair.

Lemma named_all (opts : ParseOptions) (ks : list string) (k : string) :
  forallb (Spec.named opts) (ks ++ [k]) = true ->
  Forall (fun s => Spec.named opts s = true) ks /\ Spec.named opts k = true.
Proof.
  rewrite forallb_app. cbn [forallb]. rewrite andb_true_r. intros H.
  apply andb_prop in H as [Hks Hk]. split; [|exact Hk].
  apply Forall_forall. now apply forallb_forall.
Qed.

Lemma path_first (opts : ParseOptions) (ks : list string) (k : string) (rest : list string) :
  Forall (fun s => Spec.named opts s = true) ks -> Spec.named opts k = true ->
  exists first path, ks ++ k :: rest = first :: path /\ first <> "".
Proof.
  intros Hks Hk.
  assert (Hne : forall s, Spec.named opts s = true -> s <> "").
  { intros s Hs. destruct (named_facts opts s Hs) as (H & _). intros ->. discriminate H. }
  destruct ks as [|k0 ks].
  - exists k, rest. split; [reflexivity|now apply Hne].
  - inversion Hks; subst. exists k0, (ks ++ k :: rest). split; [reflexivity|now apply Hne].
Qed.



(** C10 (amended).  A truthy scalar holds its place.  Let the input be
    read in the plain way, let the pairs before the pair [kt=vt] give the
    mapping [o], and let [o] hold, in the mapping that the named segments
    [ks] lead to (none for a key of the top level), a scalar that is not
    falsy under the named key [k], at a level within the depth limit.  If
    the key of the pair is the path [ks], [k], a next segment that does
    not take the array branch, and any further segments, then the pair is
    discarded: with the pair last, parse returns [o] as it was and raises
    nothing, and with any pairs after it parse returns what it returns on
    the input without the pair. *)
Theorem scalar_blocks_deeper_path
        (opts : ParseOptions) (earlier later : list string) (o : props) (kt vt : string)
        (x : value) (ks : list string) (k next : string) (rest : list string)
        (inner : props) (existing : value) :
  Spec.plain_syntax opts = true ->
  Spec.pairs_ok earlier = true ->
  Spec.pairs_ok later = true ->
  Z.of_nat (length earlier + 1 + length later) <= parameterLimit opts ->
  Parser.parse (Js.join "&" earlier) opts = Ok (VObj o) ->
  Spec.all_chars Spec.token_char kt = true ->
  Spec.all_chars Spec.pair_char vt = true ->
  Parser.decodeKey kt opts (charset opts) = Ok (Spec.collapse (ks ++ k :: next :: rest)) ->
  Parser.decodeValue vt opts (charset opts) = Ok x ->
  forallb (Spec.named opts) (ks ++ [k]) = true ->
  Spec.array_segment opts next = false ->
  Spec.bracket_free (ks ++ k :: next :: rest) = true ->
  Z.of_nat (length ks) <= depth opts ->
  Spec.at_path ks o = Some inner ->
  lookup k inner = Some existing ->
  Spec.truthy_scalar existing = true ->
  Parser.parse (Js.join "&" (earlier ++ [kt +++ "=" +++ vt])) opts = Ok (VObj o) /\
  Parser.parse (Js.join "&" (earlier ++ (kt +++ "=" +++ vt) :: later)) opts =
  Parser.parse (Js.join "&" (earlier ++ later)) opts.
Proof.
  intros Hsyntax Hearlier Hlater Hcount Hparse Hkt Hvt Hkey Hvalue Hnamed Hnext Hfree
         Hlen Hat Hk Htruthy.
  destruct (named_all opts ks k Hnamed) as [Hks Hkn].
  destruct (path_first opts ks k (next :: rest) Hks Hkn) as (first & path & Hpath & Hfirst).
  destruct (named_facts opts k Hkn) as (_ & _ & _ & _ & Hseg).
  assert (Hpair : Parser.parse_pair opts (charset opts) (kt +++ "=" +++ vt) (VObj o) =
                  Ok (VObj o)).
  { rewrite Hpath in Hkey, Hfree.
    rewrite (later_path opts Hsyntax kt vt x Hkt Hvalue first path (VObj o) Hkey Hfirst Hfree).
    rewrite <- Hpath,
      (descend opts x k (next :: rest) Hseg ks o inner 0 Hks ltac:(lia) Hat).
    rewrite (setNestedValue_blocked opts x existing inner k next rest
               (0 + Z.of_nat (length ks)) ltac:(lia) Hk Htruthy Hnext).
    cbn [bind]. rewrite (put_path_found ks o inner Hat); [reflexivity|].
    intros ->. discriminate Hk. }
  pose proof (pair_ok kt vt Hkt Hvt) as Hok.
  assert (Hsmall : Z.of_nat (length earlier) < parameterLimit opts) by lia.
  split.
  - rewrite (parse_after opts Hsyntax earlier _ (VObj o) Hearlier Hok Hsmall Hparse).
    replace (Z.to_nat (parameterLimit opts) - length earlier)%nat
      with (S (Z.to_nat (parameterLimit opts) - length earlier - 1)) by lia.
    cbn [firstn Spec.foldM]. rewrite firstn_nil, Hpair. reflexivity.
  - rewrite (parse_after opts Hsyntax earlier _ (VObj o) Hearlier); [|
      change ((kt +++ "=" +++ vt) :: later) with ([kt +++ "=" +++ vt] ++ later);
      now rewrite pairs_ok_app, Hok, Hlater | exact Hsmall | exact Hparse].
    rewrite (parse_after opts Hsyntax earlier later (VObj o) Hearlier Hlater Hsmall Hparse).
    rewrite (firstn_all2 (n := Z.to_nat (parameterLimit opts) - length earlier) later) by lia.
    replace (Z.to_nat (parameterLimit opts) - length earlier)%nat
      with (S (Z.to_nat (parameterLimit opts) - length earlier - 1)) by lia.
    cbn [firstn Spec.foldM]. rewrite Hpair. cbn [bind].
    rewrite firstn_all2 by lia. reflexivity.
Qed.

Lemma scalar_blocks_deeper_path_witness :
  let opts := defaultParseOptions in
  let o := [("x", VObj [("a", VStr "1")])] in
  Spec.plain_syntax opts = true /\
  Parser.parse "x[a]=1" opts = Ok (VObj o) /\
  Spec.at_path ["x"] o = Some [("a", VStr "1")] /\
  Spec.truthy_scalar (VStr "1") = true /\
  (Parser.parse "x[a]=1&x[a][b]=2" opts = Ok (VObj o) /\
   Parser.parse "x[a]=1&x[a][b]=2&y=3" opts = Parser.parse "x[a]=1&y=3" opts) /\
  (Parser.parse "a=1&a[b]=2" opts = Ok (VObj [("a", VStr "1")]) /\
   Parser.parse "a=1&a[b]=2" opts = Parser.parse "a=1" opts).
Proof.
  split; [reflexivity|]. split; [vm_compute; reflexivity|].
  split; [reflexivity|]. split; [reflexivity|]. split.
  - exact (scalar_blocks_deeper_path defaultParseOptions ["x[a]=1"] ["y=3"]
             [("x", VObj [("a", VStr "1")])] "x[a][b]" "2" (VStr "2") ["x"] "a" "b" []
             [("a", VStr "1")] (VStr "1")
             eq_refl eq_refl eq_refl ltac:(vm_compute; discriminate) eq_refl eq_refl eq_refl
             eq_refl eq_refl eq_refl eq_refl eq_refl ltac:(vm_compute; discriminate)
             eq_refl eq_refl eq_refl).
  - exact (scalar_blocks_deeper_path defaultParseOptions ["a=1"] []
             [("a", VStr "1")] "a[b]" "2" (VStr "2") [] "a" "b" []
             [("a", VStr "1")] (VStr "1")
             eq_refl eq_refl eq_refl ltac:(vm_compute; discriminate) eq_refl eq_refl eq_refl
             eq_refl eq_refl eq_refl eq_refl eq_refl ltac:(vm_compute; discriminate)
             eq_refl eq_refl eq_refl).
Defined.

(** * Further properties of the code *)

(** ** Encoders and the decoder *)
Section Formats.

Lemma encoder_per_char (s : string) :
  Encoding.rfc3986Encoder s = Laws.per_char Spec.encode_char s.
Proof.
  induction s as [|c s IH]; [reflexivity|].
  now rewrite encoder_cons, IH.
Qed.

Lemma form_step (c : ascii) (rest : string) :
  Js.replace_from "%20" "+" (Spec.encode_char c +++ rest) 0 =
  Laws.form_char c +++ Js.replace_from "%20" "+" rest 0.
Proof. destruct c as [[] [] [] [] [] [] [] []]; reflexivity. Qed.

Lemma form_per_char (s : string) :
  Encoding.rfc1738Encoder s = Laws.per_char Laws.form_char s.
Proof.
  unfold Encoding.rfc1738Encoder, Js.replaceAll. rewrite encoder_per_char.
  induction s as [|c s IH]; [reflexivity|].
  cbn [Laws.per_char]. now rewrite form_step, IH.
Qed.

Lemma spaced_step (c : ascii) (rest : string) :
  Js.replace_from "+" " " (Laws.form_char c +++ rest) 0 =
  Laws.spaced_char c +++ Js.replace_from "+" " " rest 0.
Proof. destruct c as [[] [] [] [] [] [] [] []]; reflexivity. Qed.

Lemma spaced_per_char (s : string) :
  Js.replaceAll "+" " " (Laws.per_char Laws.form_char s) = Laws.per_char Laws.spaced_char s.
Proof.
  unfold Js.replaceAll. induction s as [|c s IH]; [reflexivity|].
  cbn [Laws.per_char]. now rewrite spaced_step, IH.
Qed.

Lemma decode_spaced (c : ascii) (rest : string) :
  Spec.is_ascii c = true ->
  Js.decode_from (Laws.spaced_char c +++ rest) 0 =
  option_map (String c) (Js.decode_from rest 0).
Proof.
  intros H. destruct c as [[] [] [] [] [] [] [] []]; try discriminate H; reflexivity.
Qed.

Lemma spaced_high (c : ascii) :
  (N_of_ascii c <? 128)%N = false -> Laws.spaced_char c = Spec.encode_char c.
Proof.
  intros H. destruct c as [[] [] [] [] [] [] [] []]; try discriminate H; reflexivity.
Qed.

(** Decoding a character-wise text whose ASCII characters decode to
    themselves and whose other bytes are escaped as RFC 3986 asks. *)
Lemma decode_per_char (f : ascii -> string) :
  (forall c rest, Spec.is_ascii c = true ->
     Js.decode_from (f c +++ rest) 0 = option_map (String c) (Js.decode_from rest 0)) ->
  (forall c, (N_of_ascii c <? 128)%N = false -> f c = Spec.encode_char c) ->
  forall n s, (String.length s <= n)%nat -> Spec.well_formed s = true ->
              Js.decode_from (Laws.per_char f s) 0 = Some s.
Proof.
  intros Hlow Hhigh. induction n as [|n IH]; intros s Hlen H.
  - destruct s; [reflexivity|cbn in Hlen; lia].
  - destruct s as [|c0 s1]; [reflexivity|].
    cbn [String.length] in Hlen. cbn [Spec.well_formed] in H. cbn [Laws.per_char].
    destruct (N_of_ascii c0 <? 128)%N eqn:E0.
    { rewrite (Hlow c0 _ E0), (IH s1); [reflexivity|lia|exact H]. }
    destruct s1 as [|c1 s2]; [discriminate H|]. cbn [String.length] in Hlen.
    cbn [Laws.per_char].
    destruct (Js.utf8_valid (N_of_ascii c0) [N_of_ascii c1]) eqn:V1.
    { pose proof (valid_conts _ _ V1) as Hc. inversion Hc as [|? ? H1 _]; subst.
      rewrite (Hhigh c0 E0), (Hhigh c1 H1).
      rewrite (encode_char_high c0 _ E0), (encode_char_high c1 _ H1).
      rewrite (decode2 c0 c1 _ V1), (IH s2); [reflexivity|lia|exact H]. }
    destruct s2 as [|c2 s3]; [discriminate H|]. cbn [String.length] in Hlen.
    cbn [Laws.per_char].
    destruct (Js.utf8_valid (N_of_ascii c0) [N_of_ascii c1; N_of_ascii c2]) eqn:V2.
    { pose proof (valid_conts _ _ V2) as Hc.
      inversion Hc as [|? ? H1 Hc']; subst. inversion Hc' as [|? ? H2 _]; subst.
      rewrite (Hhigh c0 E0), (Hhigh c1 H1), (Hhigh c2 H2).
      rewrite (encode_char_high c0 _ E0), (encode_char_high c1 _ H1),
        (encode_char_high c2 _ H2).
      rewrite (decode3 c0 c1 c2 _ V2), (IH s3); [reflexivity|lia|exact H]. }
    destruct s3 as [|c3 s4]; [discriminate H|]. cbn [String.length] in Hlen.
    cbn [Laws.per_char]. apply andb_prop in H as [V3 H].
    pose proof (valid_conts _ _ V3) as Hc.
    inversion Hc as [|? ? H1 Hc']; subst. inversion Hc' as [|? ? H2 Hc'']; subst.
    inversion Hc'' as [|? ? H3 _]; subst.
    rewrite (Hhigh c0 E0), (Hhigh c1 H1), (Hhigh c2 H2), (Hhigh c3 H3).
    rewrite (encode_char_high c0 _ E0), (encode_char_high c1 _ H1),
      (encode_char_high c2 _ H2), (encode_char_high c3 _ H3).
    rewrite (decode4 c0 c1 c2 c3 _ V3), (IH s4); [reflexivity|lia|exact H].
Qed.

End Formats.

(** X1.  Under both formats the default decoder undoes the encoder on
    every well-formed text: RFC 3986 escapes, and the '+' that RFC 1738
    writes for a space, are read back as the characters they stand for. *)
Theorem getEncoder_round_trip (f : Format) (s : string) :
  Spec.well_formed s = true ->
  Encoding.defaultDecoder (Encoding.getEncoder f s) = s.
Proof.
  intros H. destruct f; cbn [Encoding.getEncoder].
  - apply defaultDecoder_encoder, H.
  - unfold Encoding.defaultDecoder, Js.decodeURIComponent.
    rewrite form_per_char, spaced_per_char.
    rewrite (decode_per_char Laws.spaced_char decode_spaced spaced_high
               (String.length s) s (Nat.le_refl _) H).
    reflexivity.
Qed.

Lemma getEncoder_round_trip_witness :
  Spec.well_formed "a b&c=é" = true /\
  Encoding.getEncoder RFC1738 "a b&c=é" = "a+b%26c%3D%C3%A9" /\
  Encoding.defaultDecoder (Encoding.getEncoder RFC1738 "a b&c=é") = "a b&c=é".
Proof.
  split; [reflexivity|]. split; [reflexivity|].
  apply (getEncoder_round_trip RFC1738 "a b&c=é"). reflexivity.
Defined.

Lemma encode_char_alphabet (c : ascii) :
  Spec.all_chars Laws.encoded_char (Spec.encode_char c) = true.
Proof. destruct c as [[] [] [] [] [] [] [] []]; reflexivity. Qed.

Lemma form_char_alphabet (c : ascii) :
  Spec.all_chars (fun c => Laws.encoded_char c || Ascii.eqb c "+") (Laws.form_char c) = true.
Proof. destruct c as [[] [] [] [] [] [] [] []]; reflexivity. Qed.

Lemma per_char_alphabet (P : ascii -> bool) (f : ascii -> string) (s : string) :
  (forall c, Spec.all_chars P (f c) = true) -> Spec.all_chars P (Laws.per_char f s) = true.
Proof.
  intros H. induction s as [|c s IH]; [reflexivity|].
  cbn [Laws.per_char]. now rewrite all_chars_app, H, IH.
Qed.

(** X2.  The encoders write only letters, digits, the marks - _ . ~ and
    '%'; RFC 1738 writes '+' besides.  No text they return holds a space,
    '&', '=', a bracket or a byte outside ASCII. *)
Theorem encoder_alphabet (s : string) :
  Spec.all_chars Laws.encoded_char (Encoding.rfc3986Encoder s) = true /\
  Spec.all_chars (fun c => Laws.encoded_char c || Ascii.eqb c "+")
                 (Encoding.rfc1738Encoder s) = true.
Proof.
  split.
  - rewrite encoder_per_char. apply per_char_alphabet, encode_char_alphabet.
  - rewrite form_per_char. apply per_char_alphabet, form_char_alphabet.
Qed.

(** ** The charset sentinel *)

Lemma until_amp_stop (a rest : string) :
  Spec.all_chars (fun c => negb (Ascii.eqb c "&")) a = true ->
  Encoding.until_amp (a +++ String "&" rest) = a /\ Encoding.until_amp a = a.
Proof.
  induction a as [|c a IH]; [split; reflexivity|].
  cbn [Spec.all_chars]. intros H. apply andb_prop in H as [Hc Ha].
  destruct (IH Ha) as [H1 H2]. cbn [String.append Encoding.until_amp].
  apply negb_true_iff in Hc. rewrite Hc, H1, H2. split; reflexivity.
Qed.

(** X3.  Removing the sentinel undoes adding it, and detection reads back
    the charset the sentinel was written for, whatever the text. *)
Theorem charset_sentinel_round_trip (str : string) (cs : Charset) :
  Encoding.removeCharsetSentinel (Encoding.addCharsetSentinel str cs) = str /\
  Encoding.detectCharset (Encoding.addCharsetSentinel str cs) = Ok cs.
Proof.
  unfold Encoding.addCharsetSentinel.
  destruct str as [|c str].
  - destruct cs; split; reflexivity.
  - change (String.eqb (String c str) "") with false. cbv iota.
    destruct cs.
    + split.
      * unfold Encoding.removeCharsetSentinel.
        change (Js.is_prefix "utf8=" ("utf8=%E2%9C%93" +++ "&" +++ String c str)) with true.
        cbv iota.
        change (Js.drop 5 ("utf8=%E2%9C%93" +++ "&" +++ String c str))
          with ("%E2%9C%93" +++ String "&" (String c str)).
        destruct (until_amp_stop "%E2%9C%93" (String c str) eq_refl) as [-> _].
        reflexivity.
      * unfold Encoding.detectCharset.
        change (Encoding.utf8_match ("utf8=%E2%9C%93" +++ "&" +++ String c str))
          with (Some (Encoding.until_amp ("%E2%9C%93" +++ String "&" (String c str)))).
        destruct (until_amp_stop "%E2%9C%93" (String c str) eq_refl) as [-> _].
        reflexivity.
    + split.
      * unfold Encoding.removeCharsetSentinel.
        change (Js.is_prefix "utf8=" ("utf8=%26%2310003%3B" +++ "&" +++ String c str))
          with true.
        cbv iota.
        change (Js.drop 5 ("utf8=%26%2310003%3B" +++ "&" +++ String c str))
          with ("%26%2310003%3B" +++ String "&" (String c str)).
        destruct (until_amp_stop "%26%2310003%3B" (String c str) eq_refl) as [-> _].
        reflexivity.
      * unfold Encoding.detectCharset.
        change (Encoding.utf8_match ("utf8=%26%2310003%3B" +++ "&" +++ String c str))
          with (Some (Encoding.until_amp ("%26%2310003%3B" +++ String "&" (String c str)))).
        destruct (until_amp_stop "%26%2310003%3B" (String c str) eq_refl) as [-> _].
        reflexivity.
Qed.

(** ** The ISO-8859-1 charset *)
Section Latin1.

Lemma concat_cons (x : string) (l : list string) :
  String.concat "" (x :: l) = x +++ String.concat "" l.
Proof. destruct l; cbn [String.concat]; [now rewrite append_nil_r|reflexivity]. Qed.

Lemma seq_len_ascii (b : N) : (b <? 128)%N = true -> Js.utf8_seq_len b = 0%nat.
Proof.
  intros H. apply N.ltb_lt in H. unfold Js.utf8_seq_len.
  now rewrite !in_range_false by lia.
Qed.

Lemma code_units_ascii (c : ascii) (s : string) :
  (N_of_ascii c <? 128)%N = true ->
  Js.code_units (String c s) = N_of_ascii c :: Js.code_units s.
Proof.
  intros H. unfold Js.code_units. cbn [Js.code_points_from].
  rewrite (seq_len_ascii _ H). cbn [Nat.ltb Nat.leb andb flat_map].
  apply N.ltb_lt in H.
  replace (N_of_ascii c <? 65536)%N with true by (symmetry; apply N.ltb_lt; lia).
  reflexivity.
Qed.

Lemma code_units_pair (c0 c1 : ascii) (s : string) :
  Js.in_range 194 195 (N_of_ascii c0) = true ->
  Js.is_cont (N_of_ascii c1) = true ->
  Js.code_units (String c0 (String c1 s)) =
  ((N_of_ascii c0 - 192) * 64 + (N_of_ascii c1 - 128))%N :: Js.code_units s.
Proof.
  intros H0 H1. pose proof H0 as R0. pose proof H1 as R1.
  unfold Js.is_cont in R1. apply in_range_spec in R0, R1.
  unfold Js.code_units. cbn [Js.code_points_from].
  assert (Hlen : Js.utf8_seq_len (N_of_ascii c0) = 2%nat).
  { unfold Js.utf8_seq_len. now rewrite (in_range_true 194 223) by lia. }
  rewrite Hlen. cbn [Nat.sub Js.take Js.raw_bytes list_ascii_of_string map].
  assert (Hv : Js.utf8_valid (N_of_ascii c0) [N_of_ascii c1] = true).
  { cbn [Js.utf8_valid]. now rewrite (in_range_true 194 223), H1 by lia. }
  rewrite Hv. cbn [Nat.ltb Nat.leb andb flat_map Js.utf8_code_point].
  replace ((N_of_ascii c0 - 192) * 64 + (N_of_ascii c1 - 128) <? 65536)%N with true
    by (symmetry; apply N.ltb_lt; lia).
  reflexivity.
Qed.

Lemma escape_text (n : N) :
  (n < 256)%N -> "%" +++ Js.hex2 n = Spec.escaped (ascii_of_N n) "".
Proof.
  intros H. unfold Spec.escaped, Js.hex2. now rewrite N_ascii_embedding.
Qed.

Lemma decodeISO88591_escaped (c : ascii) (rest : string) :
  Encoding.decodeISO88591_from (Spec.escaped c rest) 0 =
  Js.utf8_encode (N_of_ascii c) +++ Encoding.decodeISO88591_from rest 0.
Proof.
  pose proof (escape_at_escaped c rest) as He.
  unfold Spec.escaped in *. cbn [Encoding.decodeISO88591_from]. now rewrite He.
Qed.

Lemma utf8_encode_pair (b0 b1 : N) :
  (194 <= b0 <= 195)%N -> (128 <= b1 <= 191)%N ->
  Js.utf8_encode ((b0 - 192) * 64 + (b1 - 128)) = Js.bytes_to_string [b0; b1].
Proof.
  intros H0 H1. unfold Js.utf8_encode.
  replace ((b0 - 192) * 64 + (b1 - 128) <? 128)%N with false
    by (symmetry; apply N.ltb_ge; lia).
  replace ((b0 - 192) * 64 + (b1 - 128) <? 2048)%N with true
    by (symmetry; apply N.ltb_lt; lia).
  assert (Hq : (((b0 - 192) * 64 + (b1 - 128)) / 64 = b0 - 192)%N).
  { symmetry. apply (N.div_unique _ 64 _ (b1 - 128)); lia. }
  assert (Hr : (((b0 - 192) * 64 + (b1 - 128)) mod 64 = b1 - 128)%N).
  { symmetry. apply (N.mod_unique _ 64 (b0 - 192)); lia. }
  rewrite Hq, Hr. f_equal. f_equal; [f_equal; lia|f_equal; f_equal; lia].
Qed.

Lemma iso_round_trip_bound (n : nat) :
  forall s, (String.length s <= n)%nat -> Laws.latin1 s = true ->
            Encoding.decodeISO88591 (Encoding.encodeISO88591 s) = s.
Proof.
  unfold Encoding.decodeISO88591, Encoding.encodeISO88591.
  induction n as [|n IH]; intros s Hlen H.
  - destruct s; [reflexivity|cbn in Hlen; lia].
  - destruct s as [|c0 s1]; [reflexivity|].
    cbn [String.length] in Hlen. cbn [Laws.latin1] in H.
    destruct (N_of_ascii c0 <? 128)%N eqn:E0.
    + rewrite (code_units_ascii c0 s1 E0). cbn [map]. rewrite concat_cons.
      apply N.ltb_lt in E0.
      replace (N_of_ascii c0 <=? 255)%N with true by (symmetry; apply N.leb_le; lia).
      cbv iota. rewrite (escape_text (N_of_ascii c0)) by lia.
      rewrite ascii_N_embedding.
      change (Spec.escaped c0 "" +++ ?r) with (Spec.escaped c0 r).
      rewrite decodeISO88591_escaped, (IH s1) by (auto; lia).
      unfold Js.utf8_encode.
      replace (N_of_ascii c0 <? 128)%N with true by (symmetry; apply N.ltb_lt; lia).
      unfold Js.bytes_to_string. cbn [map string_of_list_ascii].
      now rewrite ascii_N_embedding.
    + destruct s1 as [|c1 s2]; [discriminate H|]. cbn [String.length] in Hlen.
      apply andb_prop in H as [H H2]. apply andb_prop in H as [H0 H1].
      rewrite (code_units_pair c0 c1 s2 H0 H1). cbn [map]. rewrite concat_cons.
      pose proof H0 as R0. pose proof H1 as R1.
      unfold Js.is_cont in R1. apply in_range_spec in R0, R1.
      replace ((N_of_ascii c0 - 192) * 64 + (N_of_ascii c1 - 128) <=? 255)%N with true
        by (symmetry; apply N.leb_le; lia).
      cbv iota. rewrite escape_text by lia.
      change (Spec.escaped ?c "" +++ ?r) with (Spec.escaped c r).
      rewrite decodeISO88591_escaped, (IH s2) by (auto; lia).
      rewrite N_ascii_embedding by lia.
      rewrite (utf8_encode_pair _ _ R0 R1).
      unfold Js.bytes_to_string. cbn [map string_of_list_ascii].
      now rewrite !ascii_N_embedding.
Qed.

End Latin1.

(** X4.  Under charset iso-8859-1 decoding undoes encoding on every text
    of ISO-8859-1: each character is written as one escape and read back
    from it. *)
Theorem iso88591_round_trip (s : string) (enc dec : string -> string) :
  Laws.latin1 s = true ->
  Encoding.decode (Encoding.encode s enc Iso88591) dec Iso88591 = s.
Proof.
  intros H. cbn [Encoding.encode Encoding.decode].
  now apply (iso_round_trip_bound (String.length s)).
Qed.

Lemma iso88591_round_trip_witness :
  Laws.latin1 "café au lait" = true /\
  Encoding.encode "café au lait" Encoding.rfc3986Encoder Iso88591 = "%63%61%66%E9%20%61%75%20%6C%61%69%74" /\
  Encoding.decode (Encoding.encode "café au lait" Encoding.rfc3986Encoder Iso88591)
                  Encoding.defaultDecoder Iso88591 = "café au lait".
Proof.
  split; [reflexivity|]. split; [vm_compute; reflexivity|].
  apply (iso88591_round_trip "café au lait"). reflexivity.
Defined.

(** ** Key paths *)
Lemma join_brackets (path : list string) :
  Js.join "" (map (fun key => "[" +++ key +++ "]") path) = Spec.brackets path.
Proof.
  unfold Spec.brackets. induction path as [|p path IH]; [reflexivity|].
  destruct path as [|q path]; [reflexivity|].
  change (map (fun key => "[" +++ key +++ "]") (p :: q :: path))
    with (("[" +++ p +++ "]") :: map (fun key => "[" +++ key +++ "]") (q :: path)).
  change (map (fun key => "[" +++ key +++ "]") (q :: path))
    with (("[" +++ q +++ "]") :: map (fun key => "[" +++ key +++ "]") path) at 1.
  rewrite join_cons.
  change (("[" +++ q +++ "]") :: map (fun key => "[" +++ key +++ "]") path)
    with (map (fun key => "[" +++ key +++ "]") (q :: path)).
  rewrite IH. reflexivity.
Qed.

(** X5.  [parseBracketNotation] undoes [getNestedPath]: a path whose first
    segment is not empty and whose segments hold no bracket is read back,
    segment by segment, from the key written for it.  The other segments
    may be empty, as for the key of a push. *)
Theorem nested_path_round_trip (first : string) (rest : list string) :
  first <> "" ->
  Forall (fun seg => Spec.all_chars Spec.not_bracket seg = true) (first :: rest) ->
  Utils.parseBracketNotation (Utils.getNestedPath (first :: rest)) = first :: rest.
Proof.
  intros Hne Hall. inversion Hall as [|? ? Hfirst Hrest]; subst.
  assert (Hkey : Utils.getNestedPath (first :: rest) = first +++ Spec.brackets rest).
  { destruct rest as [|p rest]; [now rewrite append_nil_r|].
    unfold Utils.getNestedPath. now rewrite join_brackets. }
  rewrite Hkey. unfold Utils.parseBracketNotation.
  rewrite (loop_plain first Hfirst). cbn [String.append].
  destruct rest as [|p rest].
  - cbn. destruct first; [contradiction|reflexivity].
  - inversion Hrest as [|? ? Hp Hrest']; subst.
    rewrite brackets_cons, (loop_segment p _ [] first 0 Hp).
    replace (negb (String.eqb first "")) with true
      by (symmetry; apply negb_true_iff; now apply String.eqb_neq).
    now rewrite (loop_brackets rest Hrest').
Qed.

Lemma nested_path_round_trip_witness :
  "user" <> "" /\
  Forall (fun seg => Spec.all_chars Spec.not_bracket seg = true) ["user"; "tags"; ""; "id"] /\
  Utils.getNestedPath ["user"; "tags"; ""; "id"] = "user[tags][][id]" /\
  Utils.parseBracketNotation (Utils.getNestedPath ["user"; "tags"; ""; "id"]) =
    ["user"; "tags"; ""; "id"].
Proof.
  split; [discriminate|].
  split; [repeat constructor|].
  split; [reflexivity|].
  apply (nested_path_round_trip "user" ["tags"; ""; "id"]); [discriminate|repeat constructor].
Defined.

(** ** Guarded property names *)
Section Guard.
Variable opts : ParseOptions.
Hypothesis Hallow : allowPrototypes opts = false.

Lemma bind_ok {A B} (m : outcome A) (k : A -> outcome B) (b : B) :
  bind m k = Ok b -> exists a, m = Ok a /\ k a = Ok b.
Proof. destruct m as [a| |]; cbn; intros H; try discriminate. now exists a. Qed.

























End Guard.



(** ** Blank input and the query prefix *)
Section Blank.

Lemma parse_loop_blank (opts : ParseOptions) (cs : Charset) (l : list string) :
  Forall (fun p => p = "") l ->
  forall count o, Parser.parse_loop opts cs l count o = Ok o.
Proof.
  induction 1 as [|p l -> Hl IH]; intros count o; [reflexivity|].
  cbn [Parser.parse_loop]. rewrite checkLimit_silent. cbn [bind].
  destruct (parameterLimit opts <? count + 1); [reflexivity|].
  change (Parser.parse_pair opts cs "" o) with (Ok o). cbn [bind]. apply IH.
Qed.

End Blank.

(** X7.  An input that is empty, or holds nothing but white space, parses
    to the empty mapping under every valid configuration that splits on a
    string. *)
Theorem parse_blank_input (input : string) (opts : ParseOptions) (d : string) :
  validateParse opts = Ok tt ->
  delimiter opts = DelimString d ->
  Js.trim input = "" ->
  Parser.parse input opts = Ok (VObj []).
Proof.
  intros Hvalid Hd Htrim. unfold Parser.parse. rewrite Hvalid. cbn [bind].
  destruct (String.eqb input ""); [reflexivity|].
  unfold Parser.split_pairs. rewrite Htrim.
  change (Js.is_prefix "?" "") with false. rewrite andb_false_r.
  assert (Hpairs : Forall (fun p => p = "") (Utils.splitByDelimiter "" (delimiter opts))).
  { rewrite Hd. cbn [Utils.splitByDelimiter]. destruct d; cbn; repeat constructor. }
  destruct (charsetSentinel opts); cbn [bind]; now apply parse_loop_blank.
Qed.

Lemma parse_blank_input_witness :
  validateParse defaultParseOptions = Ok tt /\
  delimiter defaultParseOptions = DelimString "&" /\
  Js.trim "  " = "" /\
  Parser.parse "  " defaultParseOptions = Ok (VObj []).
Proof.
  split; [reflexivity|]. split; [reflexivity|]. split; [reflexivity|].
  apply (parse_blank_input "  " defaultParseOptions "&"); reflexivity.
Defined.

Section Prefix.

Lemma trimEnd_scan_shift (s : string) :
  forall k pos keep,
    Js.trimEnd_scan s k (S pos) (S keep) = S (Js.trimEnd_scan s k pos keep).
Proof.
  induction s as [|c s IH]; intros k pos keep; [reflexivity|].
  cbn [Js.trimEnd_scan]. destruct k as [|k]; [|apply IH].
  destruct (Js.ws_prefix_len (String c s)); apply IH.
Qed.

Lemma trimEnd_cons (c : ascii) (s : string) :
  Js.ws_prefix_len (String c s) = 0%nat ->
  Js.trimEnd (String c s) = String c (Js.trimEnd s).
Proof.
  intros H. unfold Js.trimEnd. cbn [Js.trimEnd_scan]. rewrite H.
  rewrite trimEnd_scan_shift. reflexivity.
Qed.

Lemma trimStart_fuel_length (f : nat) :
  forall s, (String.length (Js.trimStart_fuel f s) <= String.length s)%nat.
Proof.
  induction f as [|f IH]; intros s; [apply Nat.le_refl|].
  cbn [Js.trimStart_fuel]. destruct (Js.ws_prefix_len s) as [|n] eqn:E; [apply Nat.le_refl|].
  etransitivity; [apply IH|].
  assert (Hd : forall m t, (String.length (Js.drop m t) <= String.length t)%nat).
  { induction m as [|m IHm]; intros [|a t]; cbn; try lia. specialize (IHm t). lia. }
  apply Hd.
Qed.

Lemma drop_shorter (n : nat) (c : ascii) (s : string) :
  (String.length (Js.drop (S n) (String c s)) < String.length (String c s))%nat.
Proof.
  cbn [Js.drop String.length].
  assert (Hd : forall m t, (String.length (Js.drop m t) <= String.length t)%nat).
  { induction m as [|m IHm]; intros [|a t]; cbn; try lia. specialize (IHm t). lia. }
  specialize (Hd n s). lia.
Qed.

Lemma trimStart_fixed (c : ascii) (s : string) :
  Js.trimStart (String c s) = String c s -> Js.ws_prefix_len (String c s) = 0%nat.
Proof.
  unfold Js.trimStart. cbn [String.length Js.trimStart_fuel].
  destruct (Js.ws_prefix_len (String c s)) as [|n] eqn:E; [reflexivity|].
  intros H. apply (f_equal String.length) in H.
  pose proof (trimStart_fuel_length (String.length s) (Js.drop (S n) (String c s))) as H1.
  pose proof (drop_shorter n c s) as H2. lia.
Qed.

End Prefix.

(** X8.  With ignoreQueryPrefix a leading question mark makes no
    difference: the input with the mark parses as the input without it,
    for every input that is not empty and starts neither with white space
    nor with a question mark of its own. *)
Theorem parse_ignores_query_prefix (s : string) (opts : ParseOptions) :
  ignoreQueryPrefix opts = true ->
  s <> "" ->
  Js.trimStart s = s ->
  Js.is_prefix "?" s = false ->
  Parser.parse ("?" +++ s) opts = Parser.parse s opts.
Proof.
  intros Hopt Hne Hstart Hq. destruct s as [|c s]; [congruence|].
  pose proof (trimStart_fixed c s Hstart) as Hws.
  unfold Parser.parse. destruct (validateParse opts); cbn [bind]; try reflexivity.
  change (String.eqb ("?" +++ String c s) "") with false.
  change (String.eqb (String c s) "") with false. cbv iota.
  unfold Parser.split_pairs. rewrite Hopt. cbn [andb].
  assert (H1 : Js.trim ("?" +++ String c s) = String "?" (Js.trim (String c s))).
  { unfold Js.trim. rewrite Hstart.
    change (Js.trimStart ("?" +++ String c s)) with (String "?" (String c s)).
    now rewrite (trimEnd_cons "?" (String c s) eq_refl). }
  assert (H2 : Js.trim (String c s) = String c (Js.trimEnd s)).
  { unfold Js.trim. rewrite Hstart. now apply trimEnd_cons. }
  rewrite H1, H2. cbn [Js.is_prefix Js.drop]. cbn [Js.is_prefix] in Hq.
  rewrite andb_true_r in *. rewrite Hq. reflexivity.
Qed.

Lemma parse_ignores_query_prefix_witness :
  let opts := with_ignoreQueryPrefix true defaultParseOptions in
  ignoreQueryPrefix opts = true /\
  "a=b&c=d" <> "" /\
  Js.trimStart "a=b&c=d" = "a=b&c=d" /\
  Js.is_prefix "?" "a=b&c=d" = false /\
  Parser.parse "a=b&c=d" opts = Ok (VObj [("a", VStr "b"); ("c", VStr "d")]) /\
  Parser.parse ("?" +++ "a=b&c=d") opts = Parser.parse "a=b&c=d" opts.
Proof.
  split; [reflexivity|]. split; [discriminate|]. split; [reflexivity|].
  split; [reflexivity|]. split; [vm_compute; reflexivity|].
  apply (parse_ignores_query_prefix "a=b&c=d"); try reflexivity. discriminate.
Defined.

(** ** The errors of parse *)
Section Errors.
Variable opts : ParseOptions.

(** An error out of [handleArrayValue] is its own TypeError or comes out of
    one of its two calls to [setNestedValue]. *)
Lemma handleArrayValue_throws (setHere setNext : value -> Z -> outcome value)
      (o : value) (k : string) (rp : list string) (x : value) (d : Z) (e : error) :
  Parser.handleArrayValue setHere setNext o k rp x opts d = Throw e ->
  e = TypeError \/ (exists t, setHere t d = Throw e) \/
  ((2 <= length rp)%nat /\ exists t, setNext t d = Throw e).
Proof.
  unfold Parser.handleArrayValue. intros H.
  apply bind_throw in H as [H|(arr & _ & H)]; [now apply get_quiet in H|].
  assert (Hlen : forall s, hd_error rp = Some s -> (length rp =? 1)%nat = false ->
                           (2 <= length rp)%nat).
  { intros s Hs Hl. apply Nat.eqb_neq in Hl. destruct rp; [discriminate|cbn in *; lia]. }
  destruct (hd_error rp) as [indexKey|] eqn:Hhd.
  - specialize (Hlen indexKey eq_refl).
    destruct indexKey as [|c0 s0].
    + destruct arr; try (injection H as <-; now left).
      destruct (length rp =? 1)%nat; [discriminate|].
      apply bind_throw in H as [H|(? & _ & H)]; [|discriminate].
      right. right. split; [now apply Hlen|]. eauto.
    + destruct (Utils.isArrayIndex (String c0 s0)).
      * destruct (arrayLimit opts <? Js.parseInt (String c0 s0)).
        -- apply bind_throw in H as [H|(obj1 & _ & H)].
           { destruct (negb (Utils.isObject arr)); [now apply set_quiet in H|discriminate]. }
           apply bind_throw in H as [H|(target & _ & H)]; [now apply get_quiet in H|].
           apply bind_throw in H as [H|(? & _ & H)]; [|discriminate].
           right. left. eauto.
        -- destruct arr; try discriminate.
           ++ destruct (length rp =? 1)%nat.
              ** apply bind_throw in H as [H|(? & _ & H)];
                   [now apply array_set_quiet in H|discriminate].
              ** apply bind_throw in H as [H|(? & _ & H)].
                 { right. right. split; [now apply Hlen|]. eauto. }
                 apply bind_throw in H as [H|(? & _ & H)];
                   [now apply array_set_quiet in H|discriminate].
           ++ destruct (lookup "length" props0); [discriminate|].
              destruct (length rp =? 1)%nat.
              ** apply bind_throw in H as [H|(? & _ & H)];
                   [now apply set_quiet in H|discriminate].
              ** apply bind_throw in H as [H|(? & _ & H)]; [now apply get_quiet in H|].
                 apply bind_throw in H as [H|(? & _ & H)].
                 { right. right. split; [now apply Hlen|]. eauto. }
                 apply bind_throw in H as [H|(? & _ & H)];
                   [now apply set_quiet in H|discriminate].
      * destruct arr; try discriminate.
        apply bind_throw in H as [H|(? & _ & H)]; [now apply set_quiet in H|].
        apply bind_throw in H as [H|(? & _ & H)]; [|discriminate].
        right. left. eauto.
  - destruct arr; try discriminate.
    apply bind_throw in H as [H|(? & _ & H)]; [now apply set_quiet in H|].
    apply bind_throw in H as [H|(? & _ & H)]; [|discriminate].
    right. left. eauto.
Qed.

Lemma setNestedValue_throws (v : value) (n : nat) (e : error) :
  forall (kp : list string) (o : value) (d : Z),
    (length kp <= n)%nat ->
    Parser.setNestedValue opts v kp o d = Throw e ->
    e = TypeError \/ (e = Spec.depth_exceeded /\ strictDepth opts = true).
Proof.
  induction n as [|n IH]; intros kp o d Hn H.
  - destruct kp; [|cbn in Hn; lia]. cbn [Parser.setNestedValue] in H.
    destruct (strictDepth opts) eqn:Hs; cbn [andb] in H.
    + destruct (depth opts <? d); [injection H as <-; now right|discriminate].
    + destruct (depth opts <? d); [now apply handleDuplicateKey_quiet in H|discriminate].
  - destruct kp as [|k rest].
    { cbn [Parser.setNestedValue] in H.
      destruct (strictDepth opts) eqn:Hs; cbn [andb] in H.
      + destruct (depth opts <? d); [injection H as <-; now right|discriminate].
      + destruct (depth opts <? d); [now apply handleDuplicateKey_quiet in H|discriminate]. }
    cbn [length] in Hn.
    remember rest as rest0 eqn:Hrest in H.
    cbn [Parser.setNestedValue] in H.
    assert (Hbody :
      (if String.eqb k "" then Ok o
       else if negb (allowPrototypes opts) && Utils.hasPrototypePollution k then Ok o
       else match rest0 with
            | [] => Parser.handleDuplicateKey o k v opts
            | nextKey :: rest' =>
                let* cur := Obj.get (plainObjects opts) o k in
                let* obj1 :=
                  if falsy cur
                  then Obj.set (plainObjects opts) o k
                         (if (Utils.isArrayIndex nextKey || String.eqb nextKey "") &&
                             parseArrays opts then VArr [] else VObj [])
                  else Ok o in
                if (Utils.isArrayIndex nextKey || String.eqb nextKey "") && parseArrays opts
                then Parser.handleArrayValue (Parser.setNestedValue opts v rest)
                       (Parser.setNestedValue opts v rest') obj1 k rest v opts (d + 1)
                else
                  let* cur1 := Obj.get (plainObjects opts) obj1 k in
                  if Utils.isObject cur1
                  then let* sub := Parser.setNestedValue opts v rest cur1 (d + 1) in
                       Ok (Parser.put obj1 k sub)
                  else Ok obj1
            end) = Throw e ->
      e = TypeError \/ (e = Spec.depth_exceeded /\ strictDepth opts = true)).
    { clear H. intros H. subst rest0.
      destruct (String.eqb k ""); [discriminate|].
      destruct (negb (allowPrototypes opts) && Utils.hasPrototypePollution k);
        [discriminate|].
      destruct rest as [|nextKey rest']; [now apply handleDuplicateKey_quiet in H|].
      cbn [length] in Hn.
      apply bind_throw in H as [H|(cur & _ & H)]; [now apply get_quiet in H|].
      apply bind_throw in H as [H|(obj1 & _ & H)].
      { destruct (falsy cur); [now apply set_quiet in H|discriminate]. }
      destruct ((Utils.isArrayIndex nextKey || String.eqb nextKey "") && parseArrays opts).
      - apply handleArrayValue_throws in H as [H|[(t & H)|(_ & t & H)]].
        + now left.
        + apply IH in H; [exact H|cbn [length]; lia].
        + apply IH in H; [exact H|lia].
      - apply bind_throw in H as [H|(cur1 & _ & H)]; [now apply get_quiet in H|].
        destruct (Utils.isObject cur1); [|discriminate].
        apply bind_throw in H as [H|(? & _ & H)]; [|discriminate].
        apply IH in H; [exact H|cbn [length]; lia]. }
    destruct (strictDepth opts) eqn:Hs; cbn [andb] in H.
    + destruct (depth opts <? d); [injection H as <-; now right|]. subst rest0. apply Hbody. exact H.
    + destruct (depth opts <? d); [now apply handleDuplicateKey_quiet in H|].
      subst rest0. apply Hbody. exact H.
Qed.

Lemma parse_pair_throws (cs : Charset) (p : string) (o : value) (e : error) :
  Parser.parse_pair opts cs p o = Throw e ->
  e = TypeError \/ (e = Spec.depth_exceeded /\ strictDepth opts = true).
Proof.
  unfold Parser.parse_pair. destruct (String.eqb p ""); [discriminate|].
  destruct (match Js.indexOf "=" p with Some i => _ | None => _ end) as [key t].
  intros H. apply bind_throw in H as [H|(dk & _ & H)]; [now apply decodeKey_quiet in H|].
  apply bind_throw in H as [H|(dv & _ & H)]; [now apply decodeValue_quiet in H|].
  destruct (String.eqb dk ""); [discriminate|].
  unfold Parser.parseKeyValue in H.
  apply bind_throw in H as [H|(x & _ & H)].
  - destruct dv; try discriminate.
    destruct (comma opts && Js.includes "," s); [|discriminate].
    apply bind_throw in H as [H|(? & _ & H)]; [|discriminate].
    exfalso. revert H. apply mapM_quiet. intros a. apply autoConvert_quiet.
  - apply (setNestedValue_throws x (length (Parser.parseKeyPath dk opts)) e
             (Parser.parseKeyPath dk opts) o 0 (Nat.le_refl _) H).
Qed.

Lemma parse_loop_throws (cs : Charset) (pairs : list string) (e : error) :
  forall count o,
    Parser.parse_loop opts cs pairs count o = Throw e ->
    e = TypeError \/ (e = Spec.depth_exceeded /\ strictDepth opts = true).
Proof.
  induction pairs as [|p pairs IH]; intros count o H; [discriminate|].
  cbn [Parser.parse_loop] in H. rewrite checkLimit_silent in H. cbn [bind] in H.
  destruct (parameterLimit opts <? count + 1); [discriminate|].
  apply bind_throw in H as [H|(o' & _ & H)]; [now apply parse_pair_throws in H|].
  now apply IH in H.
Qed.

Lemma detectCharset_throws (s : string) (e : error) :
  Encoding.detectCharset s = Throw e -> e = URIError.
Proof.
  unfold Encoding.detectCharset. destruct (Encoding.utf8_match s); [|discriminate].
  destruct (String.eqb s0 ""); [discriminate|].
  intros H. apply bind_throw in H as [H|(value & _ & H)].
  - unfold Js.decodeURIComponent in H. destruct (Js.decode_from s0 0); [discriminate|].
    now injection H as <-.
  - destruct (String.eqb value Encoding.check_mark); [discriminate|].
    destruct (Js.includes "10003" value); discriminate.
Qed.

End Errors.

(** Where the errors of the functions that parse calls come from: the
    configuration check, the charset sentinel, the depth check, or a call
    on a value that is no sequence. *)
Lemma parse_throws (input : string) (opts : ParseOptions) (e : error) :
  Parser.parse input opts = Throw e ->
  validateParse opts = Throw e \/
  (e = URIError /\ charsetSentinel opts = true) \/
  (e = Spec.depth_exceeded /\ strictDepth opts = true) \/
  e = TypeError.
Proof.
  unfold Parser.parse. intros H.
  apply bind_throw in H as [H|([] & _ & H)]; [now left|]. right.
  destruct (String.eqb input ""); [discriminate|].
  apply bind_throw in H as [H|([cs pairs] & _ & H)].
  - left. unfold Parser.split_pairs in H.
    apply bind_throw in H as [H|([cs str] & _ & H)]; [|discriminate].
    destruct (charsetSentinel opts); [|discriminate]. split; [|reflexivity].
    apply bind_throw in H as [H|(? & _ & H)]; [|discriminate].
    now apply detectCharset_throws in H.
  - right. apply parse_loop_throws in H as [H|H]; [now right|now left].
Qed.

Lemma validateParse_codes (opts : ParseOptions) (code : string) :
  validateParse opts = Throw (TsQsError code) ->
  In code ["INVALID_ARRAY_LIMIT"; "INVALID_DEPTH"; "INVALID_PARAMETER_LIMIT";
           "INVALID_DOT_DECODE"].
Proof.
  unfold validateParse. intros H.
  repeat match type of H with
         | (if ?c then _ else _) = _ => destruct c
         end; try discriminate H; injection H as <-; cbn [In]; auto.
Qed.

(** X9.  The errors of the library that parse raises.  A TsQsError that
    comes out of parse is an error of the configuration check, with one
    of its four codes, or it is DEPTH_EXCEEDED, and then strictDepth is
    set.  parse raises no LIMIT_EXCEEDED error (the parameter limit cuts
    the input silently), and a TsQsError that the decoder of the options
    raises does not come out of parse.  The errors of the host (TypeError,
    URIError, RangeError) are no TsQsError and are not spoken of. *)
Theorem parse_errors (input : string) (opts : ParseOptions) (code : string) :
  Parser.parse input opts = Throw (TsQsError code) ->
  (validateParse opts = Throw (TsQsError code) /\
   In code ["INVALID_ARRAY_LIMIT"; "INVALID_DEPTH"; "INVALID_PARAMETER_LIMIT";
            "INVALID_DOT_DECODE"]) \/
  (code = "DEPTH_EXCEEDED" /\ strictDepth opts = true).
Proof.
  intros H. apply parse_throws in H as [H|[[H _]|[[H Hs]|H]]]; try discriminate H.
  - left. split; [exact H|]. now apply validateParse_codes in H.
  - right. unfold Spec.depth_exceeded in H. injection H as ->. now split.
Qed.

Lemma parse_errors_witness :
  Parser.parse "a[b][c]=1" (with_depth 1 true defaultParseOptions) =
    Throw (TsQsError "DEPTH_EXCEEDED") /\
  Parser.parse "a=1" (with_depth (-1) false defaultParseOptions) =
    Throw (TsQsError "INVALID_DEPTH") /\
  ((validateParse (with_depth 1 true defaultParseOptions) = Throw (TsQsError "DEPTH_EXCEEDED") /\
    In "DEPTH_EXCEEDED" ["INVALID_ARRAY_LIMIT"; "INVALID_DEPTH"; "INVALID_PARAMETER_LIMIT";
                         "INVALID_DOT_DECODE"]) \/
   ("DEPTH_EXCEEDED" = "DEPTH_EXCEEDED" /\
    strictDepth (with_depth 1 true defaultParseOptions) = true)).
Proof.
  split; [vm_compute; reflexivity|]. split; [vm_compute; reflexivity|].
  apply (parse_errors "a[b][c]=1" (with_depth 1 true defaultParseOptions) "DEPTH_EXCEEDED").
  vm_compute. reflexivity.
Defined.

(** ** deepMerge *)
Section Merge.

Lemma distinct_NoDup (l : list string) : Spec.distinct l = true -> NoDup l.
Proof.
  induction l as [|k l IH]; [constructor|].
  cbn [Spec.distinct]. intros H. apply andb_prop in H as [Hk Hl].
  constructor; [|now apply IH].
  intros Hin. apply negb_true_iff in Hk.
  assert (existsb (String.eqb k) l = true); [|congruence].
  apply existsb_exists. exists k. split; [exact Hin|apply String.eqb_refl].
Qed.

Lemma insert_by_index_perm (k : string) (l : list string) :
  Permutation (insert_by_index k l) (k :: l).
Proof.
  induction l as [|h t IH]; [reflexivity|]. cbn [insert_by_index].
  destruct (Js.parseInt k <? Js.parseInt h); [reflexivity|].
  rewrite IH. apply perm_swap.
Qed.

Lemma partition_perm {A} (f : A -> bool) (l : list A) :
  Permutation (List.filter f l ++ List.filter (fun x => negb (f x)) l) l.
Proof.
  induction l as [|a l IH]; [reflexivity|]. cbn [List.filter].
  destruct (f a); cbn [negb app].
  - now constructor.
  - symmetry. apply Permutation_cons_app. now symmetry.
Qed.

Lemma Object_keys_perm (ps : props) : Permutation (Object_keys ps) (map fst ps).
Proof.
  unfold Object_keys. etransitivity; [|apply (partition_perm is_index_key)].
  apply Permutation_app_tail.
  induction (List.filter is_index_key (map fst ps)) as [|k l IH]; [reflexivity|].
  cbn [fold_right]. rewrite insert_by_index_perm. now constructor.
Qed.

Lemma lookup_none (k : string) (ps : props) :
  lookup k ps = None <-> ~ In k (map fst ps).
Proof.
  induction ps as [|[k' v'] ps IH]; cbn [lookup map fst In]; [tauto|].
  destruct (String.eqb k k') eqn:E.
  - apply String.eqb_eq in E. subst. split; [discriminate|tauto].
  - apply String.eqb_neq in E. rewrite IH. split; [intros H [H1|H1]; congruence|tauto].
Qed.

Lemma lookup_assign (k key : string) (x : value) (ps : props) :
  lookup k (assign key x ps) = if String.eqb k key then Some x else lookup k ps.
Proof.
  induction ps as [|[k' v'] ps IH]; cbn [assign lookup].
  - reflexivity.
  - destruct (String.eqb key k') eqn:E; cbn [lookup].
    + apply String.eqb_eq in E. subst k'. now destruct (String.eqb k key).
    + rewrite IH. destruct (String.eqb k k') eqn:E1; [|reflexivity].
      apply String.eqb_eq in E1. subst k'.
      rewrite String.eqb_sym in E. now rewrite E.
Qed.

(** The copy reads like the object it copies. *)
Lemma lookup_spread (k : string) (ps : props) :
  lookup k (Utils.spread (VObj ps)) = lookup k ps.
Proof.
  cbn [Utils.spread].
  assert (Hgen : forall keys,
    lookup k (map (fun k0 => (k0, match lookup k0 ps with Some x => x | None => VUndefined end))
                  keys) =
    if existsb (String.eqb k) keys
    then Some (match lookup k ps with Some x => x | None => VUndefined end) else None).
  { induction keys as [|k0 keys IH]; [reflexivity|]. cbn [map lookup existsb].
    destruct (String.eqb k k0) eqn:E; [|exact IH].
    apply String.eqb_eq in E. now subst k0. }
  rewrite Hgen. destruct (existsb (String.eqb k) (Object_keys ps)) eqn:E.
  - apply existsb_exists in E as (k0 & Hin & E). apply String.eqb_eq in E. subst k0.
    apply (Permutation_in _ (Object_keys_perm ps)) in Hin.
    destruct (lookup k ps) eqn:El; [reflexivity|]. now apply lookup_none in El.
  - symmetry. apply lookup_none. intros Hin.
    apply (Permutation_in _ (Permutation_sym (Object_keys_perm ps))) in Hin.
    assert (existsb (String.eqb k) (Object_keys ps) = true); [|congruence].
    apply existsb_exists. exists k. split; [exact Hin|apply String.eqb_refl].
Qed.

Lemma find_sub {B} (F : string * value -> B) (sps : props) (key : string) (sv : value) :
  lookup key sps = Some sv ->
  exists p, find (fun s => String.eqb key (fst s)) (map (fun p => (fst p, F p)) sps)
            = Some (fst p, F p) /\ snd p = sv /\ In p sps.
Proof.
  induction sps as [|[k' v'] sps IH]; [discriminate|]. cbn [lookup map find fst].
  destruct (String.eqb key k').
  - intros H. injection H as <-. exists (k', v'). repeat split. now left.
  - intros H. destruct (IH H) as (p & Hf & Hs & Hin). exists p. repeat split; auto. now right.
Qed.

Lemma value_nested_ind (P : value -> Prop) :
  P VUndefined -> P VNull -> (forall b, P (VBool b)) -> (forall n, P (VNum n)) ->
  (forall s, P (VStr s)) -> (forall iso, P (VDate iso)) ->
  (forall items, Forall P items -> P (VArr items)) ->
  (forall ps, Forall (fun p => P (snd p)) ps -> P (VObj ps)) ->
  forall v, P v.
Proof.
  intros HU HN HB HNum HS HD HA HO. fix IH 1.
  intros [| |b|n|s|iso|items|ps];
    [exact HU|exact HN|apply HB|apply HNum|apply HS|apply HD| |].
  - apply HA. revert items. fix IHl 1. intros [|x items]; constructor.
    + apply IH.
    + apply IHl.
  - apply HO. revert ps. fix IHl 1. intros [|[k x] ps]; constructor.
    + apply IH.
    + apply IHl.
Qed.

(** What one merge returns, given that the merges of the values do as
    [inner] says. *)
Lemma deepMerge_loop_spec (sps : props)
      (inner : value -> value -> value -> Prop) :
  (forall p, In p sps -> is_inherited (fst p) = false) ->
  (forall p tv, In p sps -> Utils.isObject (snd p) = true -> Utils.isObject tv = true ->
                exists m, Utils.deepMerge tv (snd p) = Ok m /\ inner tv (snd p) m) ->
  forall keys r0,
    NoDup keys -> (forall k, In k keys -> In k (map fst sps)) ->
    exists r,
      Utils.deepMerge_loop (map (fun p => (fst p, fun t => Utils.deepMerge t (snd p))) sps)
                            sps keys (VObj r0) = Ok (VObj r) /\
      (forall k, ~ In k keys -> lookup k r = lookup k r0) /\
      (forall k sv, In k keys -> lookup k sps = Some sv ->
         exists m, lookup k r = Some m /\
           match lookup k r0 with
           | Some tv => if Utils.isObject sv && Utils.isObject tv then inner tv sv m else m = sv
           | None => m = sv
           end).
Proof.
  intros Hnames Hinner. induction keys as [|key keys IH]; intros r0 Hnd Hin.
  - exists r0. split; [reflexivity|]. split; [reflexivity|]. intros k sv [].
  - inversion Hnd as [|? ? Hnotin Hnd']; subst.
    assert (Hkey : In key (map fst sps)) by (apply Hin; now left).
    destruct (lookup key sps) as [sv|] eqn:Hsv; [|now apply lookup_none in Hsv].
    destruct (find_sub (fun p t => Utils.deepMerge t (snd p)) sps key sv Hsv)
      as (p & Hfind & Hp & Hpin).
    assert (Hname : is_inherited key = false).
    { apply in_map_iff in Hkey as (q & <- & Hq). now apply Hnames. }
    assert (Hproto : String.eqb key "__proto__" = false).
    { destruct (String.eqb key "__proto__") eqn:E; [|reflexivity].
      apply String.eqb_eq in E. subst key. discriminate Hname. }
    cbn [Utils.deepMerge_loop]. rewrite Hsv.
    unfold Obj.get at 1. cbn [negb andb]. rewrite Hname.
    assert (Hstep : forall tv m,
              (match lookup key r0 with Some v => Ok v | None => Ok VUndefined end) = Ok tv ->
              (match lookup key r0 with
               | Some tv => if Utils.isObject sv && Utils.isObject tv then inner tv sv m
                            else m = sv
               | None => m = sv
               end) ->
              exists r,
                (let* result' := Obj.set false (VObj r0) key m in
                 Utils.deepMerge_loop
                   (map (fun p => (fst p, fun t => Utils.deepMerge t (snd p))) sps) sps keys
                   result') = Ok (VObj r) /\
                (forall k, ~ In k (key :: keys) -> lookup k r = lookup k r0) /\
                (forall k sv0, In k (key :: keys) -> lookup k sps = Some sv0 ->
                   exists m0, lookup k r = Some m0 /\
                     match lookup k r0 with
                     | Some tv => if Utils.isObject sv0 && Utils.isObject tv
                                  then inner tv sv0 m0 else m0 = sv0
                     | None => m0 = sv0
                     end)).
    { intros tv m _ Hm. unfold Obj.set. cbn [negb andb]. rewrite Hproto. cbn [bind].
      destruct (IH (assign key m r0) Hnd' (fun k Hk => Hin k (or_intror Hk)))
        as (r & Hr & Hout & Hins).
      exists r. split; [exact Hr|]. split.
      - intros k Hk. rewrite Hout by (intros Hk'; apply Hk; now right).
        rewrite lookup_assign.
        destruct (String.eqb k key) eqn:E; [|reflexivity].
        apply String.eqb_eq in E. subst k. exfalso. apply Hk. now left.
      - intros k sv0 [<-|Hk] Hsv0.
        + rewrite Hsv in Hsv0. injection Hsv0 as <-.
          exists m. split; [|exact Hm].
          rewrite (Hout key Hnotin), lookup_assign. now rewrite String.eqb_refl.
        + destruct (Hins k sv0 Hk Hsv0) as (m0 & Hm0 & Hspec).
          exists m0. split; [exact Hm0|].
          rewrite lookup_assign in Hspec.
          destruct (String.eqb k key) eqn:E; [|exact Hspec].
          apply String.eqb_eq in E. subst k. contradiction. }
    destruct (lookup key r0) as [tv|] eqn:Htv; cbn [bind].
    + destruct (Utils.isObject sv && Utils.isObject tv) eqn:Hboth.
      * rewrite Hfind. apply andb_prop in Hboth as [Hso Hto].
        subst sv. destruct (Hinner p tv Hpin Hso Hto) as (m & Hm & Hspec).
        rewrite Hm. cbn [bind]. apply (Hstep tv m eq_refl). exact Hspec.
      * cbn [bind]. apply (Hstep tv sv eq_refl). reflexivity.
    + cbn [Utils.isObject]. rewrite andb_false_r. cbn [bind].
      apply (Hstep VUndefined sv eq_refl). reflexivity.
Qed.

End Merge.

Section MergeSpec.

(** [m] is what merging [sv] into [tv] gives: where both are objects,
    every key of the source holds the source's value or, for two objects,
    their merge, and every other key of the target keeps its value. *)
Lemma deepMerge_value :
  forall source target,
    Laws.mergeable source = true -> Utils.isObject source = true ->
    Utils.isObject target = true ->
    exists r, Utils.deepMerge target source = Ok (VObj r) /\
      match source with
      | VObj sps =>
          (forall k, lookup k sps = None -> lookup k r = lookup k (Utils.spread target)) /\
          (forall k sv, lookup k sps = Some sv ->
             exists m, lookup k r = Some m /\
               match lookup k (Utils.spread target) with
               | Some tv => if Utils.isObject sv && Utils.isObject tv
                            then Utils.deepMerge tv sv = Ok m else m = sv
               | None => m = sv
               end)
      | _ => r = Utils.spread target
      end.
Proof.
  induction source as [| |b|n|s|iso|items IH|sps IH] using value_nested_ind;
    intros target Hm Hs Ht; try discriminate Hs.
  - exists (Utils.spread target). cbn [Utils.deepMerge]. rewrite Ht. split; reflexivity.
  - cbn [Laws.mergeable] in Hm. apply andb_prop in Hm as [Hd Hall].
    cbn [Utils.deepMerge]. rewrite Ht. cbn [negb].
    rewrite forallb_forall in Hall. rewrite Forall_forall in IH.
    destruct (deepMerge_loop_spec sps (fun tv sv m => Utils.deepMerge tv sv = Ok m))
      with (keys := Object_keys sps) (r0 := Utils.spread target) as (r & Hr & Hout & Hin).
    + intros p Hp. specialize (Hall p Hp). apply andb_prop in Hall as [Hn _].
      now apply negb_true_iff.
    + intros p tv Hp Hpo Hto. specialize (Hall p Hp). apply andb_prop in Hall as [_ Hpm].
      destruct (IH p Hp tv Hpm Hpo Hto) as (m & Hm' & _). eauto.
    + apply (Permutation_NoDup (Permutation_sym (Object_keys_perm sps))).
      now apply distinct_NoDup.
    + intros k Hk. now apply (Permutation_in _ (Object_keys_perm sps)).
    + exists r. split; [exact Hr|]. split.
      * intros k Hk. apply Hout. intros Hin'.
        apply (Permutation_in _ (Object_keys_perm sps)) in Hin'.
        now apply lookup_none in Hk.
      * intros k sv Hk. apply Hin; [|exact Hk].
        apply (Permutation_in _ (Permutation_sym (Object_keys_perm sps))).
        destruct (In_dec string_dec k (map fst sps)) as [Hi|Hi]; [exact Hi|].
        apply lookup_none in Hi. congruence.
Qed.

End MergeSpec.

(** X10.  [deepMerge] on two mappings, the source with distinct keys that
    are not names of Object.prototype at every level: the call returns a
    mapping in which a key the source lacks reads as in the target, and a
    key of the source reads as the source's value, unless source and
    target both hold an object there, when it reads as their merge. *)
Theorem deepMerge_spec (tps sps : props) :
  Laws.mergeable (VObj sps) = true ->
  exists r,
    Utils.deepMerge (VObj tps) (VObj sps) = Ok (VObj r) /\
    (forall k, lookup k sps = None -> lookup k r = lookup k tps) /\
    (forall k sv, lookup k sps = Some sv ->
       exists m, lookup k r = Some m /\
         match lookup k tps with
         | Some tv => if Utils.isObject sv && Utils.isObject tv
                      then Utils.deepMerge tv sv = Ok m else m = sv
         | None => m = sv
         end).
Proof.
  intros Hm.
  destruct (deepMerge_value (VObj sps) (VObj tps) Hm eq_refl eq_refl) as (r & Hr & Hout & Hin).
  exists r. split; [exact Hr|]. split.
  - intros k Hk. rewrite (Hout k Hk). apply lookup_spread.
  - intros k sv Hk. destruct (Hin k sv Hk) as (m & Hm' & Hspec).
    exists m. split; [exact Hm'|]. now rewrite lookup_spread in Hspec.
Qed.

Lemma deepMerge_spec_witness :
  let tps := [("a", VStr "1"); ("o", VObj [("x", VStr "1"); ("y", VStr "2")])] in
  let sps := [("o", VObj [("y", VStr "3")]); ("b", VStr "4")] in
  Laws.mergeable (VObj sps) = true /\
  Utils.deepMerge (VObj tps) (VObj sps) =
    Ok (VObj [("a", VStr "1"); ("o", VObj [("x", VStr "1"); ("y", VStr "3")]);
              ("b", VStr "4")]) /\
  exists r,
    Utils.deepMerge (VObj tps) (VObj sps) = Ok (VObj r) /\
    (forall k, lookup k sps = None -> lookup k r = lookup k tps) /\
    (forall k sv, lookup k sps = Some sv ->
       exists m, lookup k r = Some m /\
         match lookup k tps with
         | Some tv => if Utils.isObject sv && Utils.isObject tv
                      then Utils.deepMerge tv sv = Ok m else m = sv
         | None => m = sv
         end).
Proof.
  split; [reflexivity|]. split; [vm_compute; reflexivity|].
  apply (deepMerge_spec [("a", VStr "1"); ("o", VObj [("x", VStr "1"); ("y", VStr "2")])]
                        [("o", VObj [("y", VStr "3")]); ("b", VStr "4")]).
  reflexivity.
Defined.

(** X11.  [deepMerge] takes a date for an object: where the source holds a
    date and the target an object or a date under the same key, the result
    holds a copy of the own properties of the target's value and the date
    of the source is lost; two dates merge into the empty mapping. *)
Theorem deepMerge_drops_dates (tps sps : props) (k iso : string) (tv : value) :
  Laws.mergeable (VObj sps) = true ->
  lookup k sps = Some (VDate iso) ->
  lookup k tps = Some tv ->
  Utils.isObject tv = true ->
  exists r,
    Utils.deepMerge (VObj tps) (VObj sps) = Ok (VObj r) /\
    lookup k r = Some (VObj (Utils.spread tv)).
Proof.
  intros Hm Hs Ht Hto.
  destruct (deepMerge_value (VObj sps) (VObj tps) Hm eq_refl eq_refl) as (r & Hr & _ & Hin).
  exists r. split; [exact Hr|].
  destruct (Hin k (VDate iso) Hs) as (m & Hm' & Hspec).
  rewrite lookup_spread, Ht in Hspec. cbn [Utils.isObject andb] in Hspec.
  rewrite Hto in Hspec. cbn [Utils.deepMerge] in Hspec. rewrite Hto in Hspec.
  cbn [negb] in Hspec. injection Hspec as <-. exact Hm'.
Qed.

Lemma deepMerge_drops_dates_witness :
  let tps := [("at", VDate "2023-01-01T00:00:00.000Z")] in
  let sps := [("at", VDate "2024-06-30T12:00:00.000Z")] in
  Laws.mergeable (VObj sps) = true /\
  lookup "at" sps = Some (VDate "2024-06-30T12:00:00.000Z") /\
  lookup "at" tps = Some (VDate "2023-01-01T00:00:00.000Z") /\
  Utils.isObject (VDate "2023-01-01T00:00:00.000Z") = true /\
  Utils.deepMerge (VObj tps) (VObj sps) = Ok (VObj [("at", VObj [])]) /\
  exists r,
    Utils.deepMerge (VObj tps) (VObj sps) = Ok (VObj r) /\
    lookup "at" r = Some (VObj (Utils.spread (VDate "2023-01-01T00:00:00.000Z"))).
Proof.
  split; [reflexivity|]. split; [reflexivity|]. split; [reflexivity|].
  split; [reflexivity|]. split; [vm_compute; reflexivity|].
  apply (deepMerge_drops_dates [("at", VDate "2023-01-01T00:00:00.000Z")]
                               [("at", VDate "2024-06-30T12:00:00.000Z")]
                               "at" "2024-06-30T12:00:00.000Z"); reflexivity.
Defined.

(** ** Numbers and their text *)
Section Decimals.
Import DecimalFacts DecimalPos DecimalN.




Lemma N_text_uint (n : N) : Js.N_to_string n = NilEmpty.string_of_uint (N.to_uint n).
Proof.
  unfold Js.N_to_string, NilZero.string_of_uint.
  destruct (N.to_uint n) eqn:E; try reflexivity.
  destruct n; [discriminate E|]. cbn in E. now apply DecimalPos.Unsigned.to_uint_nonnil in E.
Qed.


Lemma uint_text_digits (u : Decimal.uint) :
  Js.all_digits (NilEmpty.string_of_uint u) = true.
Proof. induction u; cbn [NilEmpty.string_of_uint Js.all_digits]; auto. Qed.

Lemma N_text_digits (n : N) : Js.is_digits1 (Js.N_to_string n) = true.
Proof.
  rewrite N_text_uint. unfold Js.is_digits1.
  destruct (NilEmpty.string_of_uint (N.to_uint n)) eqn:E.
  - destruct (N.to_uint n) eqn:E'; try discriminate E.
    destruct n; [discriminate E'|]. cbn in E'.
    now apply DecimalPos.Unsigned.to_uint_nonnil in E'.
  - rewrite <- E. apply uint_text_digits.
Qed.










End Decimals.

Section NumberText.
Import DecimalFacts DecimalPos DecimalN.












End NumberText.


(** The text of a number written with an exponent does not pass the
    numeric pattern: it comes back as a string. *)
Example exponent_text_stays_string :
  Js.String_of_number (Js.Num 1 7) = "1e-7" /\
  Js.String_of_number (Js.Num (10 ^ 21) 0) = "1e+21" /\
  Js.String_of_number (Js.Num (-15) 8) = "-1.5e-7" /\
  Js.String_of_number (Js.Num 1 6) = "0.000001" /\
  Js.String_of_number (Js.Num (10 ^ 20) 0) = "100000000000000000000" /\
  Utils.autoConvert (Js.String_of_number (Js.Num 1 7)) true true false = Ok (VStr "1e-7").
Proof. repeat split; vm_compute; reflexivity. Qed.



(** ** The brackets and repeat formats *)
Section FlatEmit.

Lemma flat_leaf (fmt : ArrayFormat) (key : string) (v : value) (kp : list string) :
  Spec.is_leaf v = true ->
  Stringifier.stringifyValue Encoding.rfc3986Encoder (with_arrayFormat fmt defaultStringifyOptions) key v kp
  = Ok [Laws.flat_pair key v].
Proof. intros Hl. destruct v; try discriminate Hl; reflexivity. Qed.

Lemma flat_array_loop (fmt : ArrayFormat) (key : string) (array : list value)
      (kp : list string) :
  fmt = Brackets \/ fmt = Repeat ->
  forall items i,
    Forall (fun x => Spec.is_leaf x = true) items ->
    Stringifier.stringifyArray_loop Encoding.rfc3986Encoder (with_arrayFormat fmt defaultStringifyOptions)
      (Stringifier.stringifyValue Encoding.rfc3986Encoder (with_arrayFormat fmt defaultStringifyOptions))
      key array kp items i
    = Ok (map (Laws.flat_pair (Laws.element_key fmt key)) items).
Proof.
  intros Hfmt. induction items as [|x items IH]; intros i Hall; [reflexivity|].
  inversion Hall as [|? ? Hx Hrest]; subst.
  cbn [Stringifier.stringifyArray_loop].
  replace (Utils.is_undefined x) with false by (now destruct x).
  specialize (IH (i + 1)%N Hrest).
  destruct Hfmt as [-> | ->]; cbn [with_arrayFormat arrayFormat]; cbv iota;
    rewrite (flat_leaf _ _ x _ Hx); cbn [bind]; rewrite IH; reflexivity.
Qed.

Lemma flat_value_pairs (fmt : ArrayFormat) (least : nat) (key : string) (v : value)
      (kp : list string) :
  fmt = Brackets \/ fmt = Repeat ->
  (1 <= least)%nat -> Laws.flat_value least v = true ->
  Stringifier.stringifyValue Encoding.rfc3986Encoder (with_arrayFormat fmt defaultStringifyOptions) key v kp =
  Ok (map (Laws.flat_pair (Laws.flat_key fmt (key, v))) (Laws.flat_items v)).
Proof.
  intros Hfmt Hleast Hv. destruct v as [| | | | | |items|]; try discriminate Hv;
    try (apply flat_leaf; reflexivity).
  cbn [Laws.flat_value] in Hv. apply andb_prop in Hv as [Hlen Hall].
  apply Nat.leb_le in Hlen.
  cbn [Stringifier.stringifyValue Laws.flat_items Laws.flat_key snd fst].
  unfold Stringifier.stringifyArray.
  replace (length items =? 0)%nat with false by (symmetry; apply Nat.eqb_neq; lia).
  apply flat_array_loop; [exact Hfmt|]. rewrite forallb_forall in Hall. apply Forall_forall.
  intros x Hx. apply leaf_ok_leaf. now apply Hall.
Qed.

Lemma flat_value_defined (least : nat) (v : value) :
  Laws.flat_value least v = true -> Utils.is_undefined v = false.
Proof. destruct v; try discriminate; reflexivity. Qed.

Lemma flat_root_loop (fmt : ArrayFormat) (least : nat) (ps : props) :
  fmt = Brackets \/ fmt = Repeat ->
  (1 <= least)%nat ->
  Spec.distinct (map fst ps) = true ->
  forall post pre,
    ps = pre ++ post ->
    Forall (fun p => Laws.flat_value least (snd p) = true) post ->
    Stringifier.stringify_loop ps (map fst post) Encoding.rfc3986Encoder
                               (with_arrayFormat fmt defaultStringifyOptions)
    = Ok (Laws.flat_pairs fmt post).
Proof.
  intros Hfmt Hleast Hd. induction post as [|[k v] post IH]; intros pre Hps Hw;
    [reflexivity|].
  inversion Hw as [|? ? Hv Hpost]; subst. cbn [fst snd] in Hv.
  assert (Hk : existsb (String.eqb k) (map fst pre) = false).
  { rewrite map_app in Hd. now apply distinct_head in Hd. }
  cbn [map fst Stringifier.stringify_loop].
  rewrite (lookup_middle pre post k v Hk).
  specialize (IH (pre ++ [(k, v)])). rewrite <- app_assoc in IH.
  specialize (IH eq_refl Hpost). cbn [app] in IH. rewrite IH. clear IH.
  pose proof (flat_value_defined least v Hv) as Hu.
  cbn [with_arrayFormat skipNulls defaultStringifyOptions andb].
  change (mkStringifyOptions _ _ _ fmt _ _ _ _ _ _ _ _ _ _ _ _ _ _ _)
    with (with_arrayFormat fmt defaultStringifyOptions).
  rewrite (flat_value_pairs fmt least k v [] Hfmt Hleast Hv).
  destruct v; try discriminate Hu; reflexivity.
Qed.

(** What stringify returns on a flat mapping. *)
Lemma flat_text (fmt : ArrayFormat) (least : nat) (ps : props) :
  fmt = Brackets \/ fmt = Repeat ->
  (1 <= least)%nat -> Laws.flat least ps = true ->
  Stringifier.stringify (VObj ps) (with_arrayFormat fmt defaultStringifyOptions)
  = Ok (Js.join "&" (Laws.flat_pairs fmt ps)).
Proof.
  intros Hfmt Hleast H. unfold Laws.flat in H. apply andb_prop in H as [Hd Hall].
  destruct (props_ok_split _ _ Hall) as [Hk Hv].
  unfold Stringifier.stringify, Stringifier.emit.
  cbn [validateStringify with_arrayFormat defaultStringifyOptions encodeDotInKeys andb bind
       filter Stringifier.applyFilter sort Stringifier.sort_keys Types.encode format
       Encoding.getEncoder s_delimiter s_charsetSentinel addQueryPrefix].
  rewrite (Object_keys_named ps Hk).
  change (mkStringifyOptions _ _ _ fmt _ _ _ _ _ _ _ _ _ _ _ _ _ _ _)
    with (with_arrayFormat fmt defaultStringifyOptions).
  now rewrite (flat_root_loop fmt least ps Hfmt Hleast Hd ps [] eq_refl Hv).
Qed.

End FlatEmit.

Section FlatParse.
Variables numbers booleans : bool.
Let popts := with_coercion numbers booleans defaultParseOptions.
Let conv := Spec.conv numbers booleans.

(** parse on a text of pairs: the pairs are handled one after the other. *)
Lemma parse_joined (pairs : list string) :
  Forall (fun a => Spec.all_chars Spec.pair_char a = true) pairs ->
  Forall (fun a => a <> "") pairs ->
  (length pairs <= 1000)%nat ->
  Parser.parse (Js.join "&" pairs) popts =
  Spec.foldM (Parser.parse_pair popts Utf8) pairs (VObj []).
Proof.
  intros Hchars Hne Hcount. destruct pairs as [|p0 pairs]; [reflexivity|].
  assert (Htext : String.eqb (Js.join "&" (p0 :: pairs)) "" = false).
  { apply String.eqb_neq. apply join_empty; [exact Hne|discriminate]. }
  unfold Parser.parse, popts.
  cbn [validateParse with_coercion defaultParseOptions arrayLimit depth
       parameterLimit decodeDotInKeys allowDots andb negb Z.ltb Z.compare bind].
  rewrite Htext. unfold Parser.split_pairs.
  cbn [with_coercion defaultParseOptions ignoreQueryPrefix charsetSentinel charset
       delimiter andb bind Utils.splitByDelimiter].
  rewrite (trim_query _ (join_query _ Hchars)).
  assert (Hsome : p0 :: pairs <> []) by discriminate.
  rewrite (split_join _ Hsome Hchars). cbn [bind].
  rewrite parse_loop_from.
  change (parameterLimit (with_coercion numbers booleans defaultParseOptions)) with 1000.
  rewrite Z.sub_0_r, firstn_all2 by lia. reflexivity.
Qed.

Lemma convert_leaf (t : string) : Spec.is_leaf (Spec.convert numbers booleans t) = true.
Proof.
  unfold Spec.convert, Utils.autoConvert.
  destruct (String.eqb t ""); [reflexivity|].
  destruct (booleans && Utils.isBooleanString t); [reflexivity|].
  destruct (numbers && Utils.isNumericString t); [|reflexivity].
  destruct (Js.Number t); reflexivity.
Qed.

Lemma flat_pair_chars (key : string) (item : value) :
  Spec.all_chars Spec.pair_char (Laws.flat_pair key item) = true /\
  Laws.flat_pair key item <> "".
Proof.
  assert (Hw : forall s, Spec.all_chars Spec.pair_char (Encoding.rfc3986Encoder s) = true).
  { intros s. apply (all_chars_weaken Spec.token_char); [|apply encoder_token].
    intros c Hc. unfold Spec.pair_char. now rewrite Hc. }
  unfold Laws.flat_pair. split.
  - rewrite !all_chars_app, !Hw. reflexivity.
  - intros E. apply (f_equal String.length) in E. rewrite !length_append in E.
    cbn in E. lia.
Qed.

Lemma parse_flat_pair (key : string) (item o : value) :
  key <> "" -> Spec.well_formed key = true -> Spec.leaf_ok item = true ->
  Parser.parse_pair popts Utf8 (Laws.flat_pair key item) o =
  Parser.setNestedValue popts (conv item) (Parser.parseKeyPath key popts) o 0.
Proof.
  intros Hne Hk Hitem. unfold Laws.flat_pair, popts, conv.
  rewrite (parse_pair_encoded numbers booleans key _ o Hne Hk
             (leaf_text_well_formed item Hitem)).
  apply parseKeyValue_plain. reflexivity.
Qed.

Lemma path_brackets (k : string) :
  Spec.key_ok k = true -> Parser.parseKeyPath (k +++ "[]") popts = [k; ""].
Proof.
  intros Hk. unfold popts. destruct (key_ok_facts k Hk) as (Hne & _ & _ & _ & _ & _ & Hbr).
  apply (parseKeyPath_render popts k [""]); auto.
  intros ->. discriminate Hne.
Qed.

Lemma path_plain (k : string) :
  Spec.key_ok k = true -> Parser.parseKeyPath k popts = [k].
Proof.
  intros Hk. unfold popts. destruct (key_ok_facts k Hk) as (Hne & _ & _ & _ & _ & _ & Hbr).
  rewrite <- (append_nil_r k) at 1.
  apply (parseKeyPath_render popts k []); auto.
  intros ->. discriminate Hne.
Qed.

(** A push onto the sequence under [k], which is made when it is not
    there. *)
Lemma push_new (x : value) (k : string) (built : props) :
  Spec.key_ok k = true -> lookup k built = None ->
  Parser.setNestedValue popts x [k; ""] (VObj built) 0 =
  Ok (VObj (built ++ [(k, VArr [x])])).
Proof.
  intros Hk Hb. unfold popts. rewrite (set_step numbers booleans x k "" [] _ 0 ltac:(lia) Hk).
  cbv zeta. cbn [Utils.isArrayIndex Js.is_digits1 String.eqb orb].
  rewrite (get_absent k built Hk Hb). cbn [bind falsy].
  rewrite (set_absent k _ built Hk Hb). cbn [bind].
  unfold Parser.handleArrayValue.
  change (plainObjects (with_coercion numbers booleans defaultParseOptions)) with false.
  rewrite (get_last k _ built Hb). cbn [bind hd_error length Nat.eqb].
  now rewrite (put_last k _ _ built Hb).
Qed.

Lemma push_more (x : value) (k : string) (built : props) (done : list value) :
  Spec.key_ok k = true -> lookup k built = None ->
  Parser.setNestedValue popts x [k; ""] (VObj (built ++ [(k, VArr done)])) 0 =
  Ok (VObj (built ++ [(k, VArr (done ++ [x]))])).
Proof.
  intros Hk Hb. unfold popts. rewrite (set_step numbers booleans x k "" [] _ 0 ltac:(lia) Hk).
  cbv zeta. cbn [Utils.isArrayIndex Js.is_digits1 String.eqb orb].
  rewrite (get_last k _ built Hb). cbn [bind falsy].
  unfold Parser.handleArrayValue.
  change (plainObjects (with_coercion numbers booleans defaultParseOptions)) with false.
  rewrite (get_last k _ built Hb). cbn [bind hd_error length Nat.eqb].
  now rewrite (put_last k _ _ built Hb).
Qed.

(** A second value under [k]: the two are combined into a sequence, and a
    later value is appended to it. *)
Lemma combine_more (x y : value) (k : string) (built : props) :
  Spec.key_ok k = true -> lookup k built = None -> Utils.is_undefined y = false ->
  Parser.setNestedValue popts x [k] (VObj (built ++ [(k, y)])) 0 =
  Ok (VObj (built ++ [(k, match y with
                          | VArr done => VArr (done ++ [x])
                          | _ => VArr [y; x]
                          end)])).
Proof.
  intros Hk Hb Hy. unfold popts.
  destruct (key_ok_facts k Hk) as (Hne & Hpp & Hinh & Hproto & _).
  cbn [Parser.setNestedValue hd tl map String.concat].
  rewrite Hne, Hpp, andb_false_r.
  cbn [with_coercion defaultParseOptions strictDepth depth andb Z.ltb Z.compare].
  unfold Parser.handleDuplicateKey.
  cbn [with_coercion defaultParseOptions plainObjects duplicates allowPrototypes].
  rewrite (inherited_own _ _ k Hinh), (get_last k y built Hb). cbn [bind]. rewrite Hy.
  destruct y; try discriminate Hy;
    try (unfold Utils.safeSetProperty, Obj.set; rewrite Hpp, Hproto; cbn [negb andb];
         now rewrite (assign_last k _ _ built Hb)).
  now rewrite (put_last k _ _ built Hb).
Qed.

Lemma conv_defined (item : value) : Utils.is_undefined (conv item) = false.
Proof.
  unfold conv, Spec.conv. pose proof (convert_leaf (Spec.leaf_text item)) as H.
  now destruct (Spec.convert numbers booleans (Spec.leaf_text item)).
Qed.

Lemma coerce_leaf (item : value) :
  Spec.leaf_ok item = true -> Spec.coerce numbers booleans item = conv item.
Proof. intros H. destruct item; try discriminate H; reflexivity. Qed.

Lemma coerce_leaves (items : list value) :
  forallb Spec.leaf_ok items = true ->
  map (Spec.coerce numbers booleans) items = map conv items.
Proof.
  intros H. apply map_ext_in. intros x Hx. rewrite forallb_forall in H.
  now apply coerce_leaf, H.
Qed.

Lemma push_items (k : string) (built : props) :
  Spec.key_ok k = true -> lookup k built = None ->
  forall post done,
    Spec.foldM (fun item o => Parser.setNestedValue popts (conv item) [k; ""] o 0)
               post (VObj (built ++ [(k, VArr done)]))
    = Ok (VObj (built ++ [(k, VArr (done ++ map conv post))])).
Proof.
  intros Hk Hb. induction post as [|x post IH]; intros done.
  - cbn [Spec.foldM map]. now rewrite app_nil_r.
  - cbn [Spec.foldM map]. rewrite (push_more (conv x) k built done Hk Hb). cbn [bind].
    rewrite IH, <- app_assoc. reflexivity.
Qed.

Lemma combine_items (k : string) (built : props) :
  Spec.key_ok k = true -> lookup k built = None ->
  forall post done,
    Spec.foldM (fun item o => Parser.setNestedValue popts (conv item) [k] o 0)
               post (VObj (built ++ [(k, VArr done)]))
    = Ok (VObj (built ++ [(k, VArr (done ++ map conv post))])).
Proof.
  intros Hk Hb. induction post as [|x post IH]; intros done.
  - cbn [Spec.foldM map]. now rewrite app_nil_r.
  - cbn [Spec.foldM map].
    rewrite (combine_more (conv x) (VArr done) k built Hk Hb eq_refl). cbn [bind].
    rewrite IH, <- app_assoc. reflexivity.
Qed.

(** The pairs of one property put the coerced value under its key. *)
Lemma flat_property (fmt : ArrayFormat) (least : nat) (k : string) (v : value)
      (built : props) :
  (fmt = Brackets /\ (1 <= least)%nat) \/ (fmt = Repeat /\ (2 <= least)%nat) ->
  Spec.key_ok k = true -> Laws.flat_value least v = true -> lookup k built = None ->
  Spec.foldM (Parser.parse_pair popts Utf8)
             (map (Laws.flat_pair (Laws.flat_key fmt (k, v))) (Laws.flat_items v))
             (VObj built)
  = Ok (VObj (built ++ [(k, Spec.coerce numbers booleans v)])).
Proof.
  intros Hfmt Hk Hv Hb.
  destruct (key_ok_facts k Hk) as (Hne & _ & _ & _ & _ & Hwf & _).
  assert (Hkne : k <> "") by (intros ->; discriminate Hne).
  assert (Hleaf : Spec.leaf_ok v = true ->
            Spec.foldM (Parser.parse_pair popts Utf8) [Laws.flat_pair k v] (VObj built)
            = Ok (VObj (built ++ [(k, Spec.coerce numbers booleans v)]))).
  { intros Hl. cbn [Spec.foldM]. rewrite (parse_flat_pair k v _ Hkne Hwf Hl).
    rewrite (path_plain k Hk). unfold popts, conv.
    rewrite (set_leaf numbers booleans _ k built 0 Hk Hb). cbn [bind].
    now rewrite (coerce_leaf v Hl). }
  destruct v as [| | | | | |items|]; try discriminate Hv; try (now apply Hleaf).
  cbn [Laws.flat_value] in Hv. apply andb_prop in Hv as [Hlen Hall].
  apply Nat.leb_le in Hlen.
  cbn [Laws.flat_items Laws.flat_key snd fst Spec.coerce].
  rewrite (coerce_leaves items Hall), foldM_map.
  assert (Hitems : Forall (fun x => Spec.leaf_ok x = true) items)
    by (apply Forall_forall; now apply forallb_forall).
  destruct Hfmt as [[-> Hleast]|[-> Hleast]]; cbn [Laws.element_key].
  - assert (Hkey : k +++ "[]" <> "") by (destruct k; discriminate).
    assert (Hkwf : Spec.well_formed (k +++ "[]") = true)
      by (apply well_formed_app; [exact Hwf|reflexivity]).
    rewrite (foldM_ext_in _ (fun item o => Parser.setNestedValue popts (conv item) [k; ""] o 0)).
    + destruct items as [|x items]; [cbn in Hlen; lia|].
      cbn [Spec.foldM map]. rewrite (push_new (conv x) k built Hk Hb). cbn [bind].
      apply (push_items k built Hk Hb items [conv x]).
    + eapply Forall_impl; [|exact Hitems]. intros x Hx o.
      rewrite (parse_flat_pair _ x o Hkey Hkwf Hx). now rewrite (path_brackets k Hk).
  - rewrite (foldM_ext_in _ (fun item o => Parser.setNestedValue popts (conv item) [k] o 0)).
    + destruct items as [|x [|y items]]; try (cbn in Hlen; lia).
      cbn [Spec.foldM map]. unfold popts.
      rewrite (set_leaf numbers booleans (conv x) k built 0 Hk Hb). cbn [bind].
      fold popts.
      rewrite (combine_more (conv y) (conv x) k built Hk Hb (conv_defined x)). cbn [bind].
      replace (match conv x with VArr done => VArr (done ++ [conv y]) | _ => VArr [conv x; conv y] end)
        with (VArr [conv x; conv y]).
      * apply (combine_items k built Hk Hb items [conv x; conv y]).
      * unfold conv, Spec.conv. pose proof (convert_leaf (Spec.leaf_text x)) as H.
        now destruct (Spec.convert numbers booleans (Spec.leaf_text x)).
    + eapply Forall_impl; [|exact Hitems]. intros x Hx o.
      rewrite (parse_flat_pair _ x o Hkne Hwf Hx). now rewrite (path_plain k Hk).
Qed.

Lemma flat_fold (fmt : ArrayFormat) (least : nat) (ps : props) :
  (fmt = Brackets /\ (1 <= least)%nat) \/ (fmt = Repeat /\ (2 <= least)%nat) ->
  Spec.distinct (map fst ps) = true ->
  forall post pre,
    ps = pre ++ post ->
    Forall (fun p => Spec.key_ok (fst p) = true) post ->
    Forall (fun p => Laws.flat_value least (snd p) = true) post ->
    Spec.foldM (Parser.parse_pair popts Utf8) (Laws.flat_pairs fmt post)
      (VObj (map (fun p => (fst p, Spec.coerce numbers booleans (snd p))) pre))
    = Ok (VObj (map (fun p => (fst p, Spec.coerce numbers booleans (snd p))) (pre ++ post))).
Proof.
  intros Hfmt Hd. induction post as [|[k v] post IH]; intros pre Hps Hk Hv.
  - cbn [Laws.flat_pairs flat_map Spec.foldM]. now rewrite app_nil_r.
  - inversion Hk as [|? ? Hk0 Hk']; subst. inversion Hv as [|? ? Hv0 Hv']; subst.
    cbn [fst snd] in *.
    assert (Hpre : existsb (String.eqb k) (map fst pre) = false).
    { rewrite map_app in Hd. now apply distinct_head in Hd. }
    unfold Laws.flat_pairs. cbn [flat_map]. rewrite foldM_app.
    cbn [fst snd].
    rewrite (flat_property fmt least k v _ Hfmt Hk0 Hv0
               (lookup_cmap numbers booleans k pre Hpre)).
    cbn [bind].
    specialize (IH (pre ++ [(k, v)])). rewrite <- app_assoc in IH.
    specialize (IH eq_refl Hk' Hv'). rewrite map_app in IH. cbn [map fst snd] in IH.
    exact IH.
Qed.

(** parse undoes stringify on a flat mapping, under both formats. *)
Lemma flat_parse (fmt : ArrayFormat) (least : nat) (ps : props) :
  (fmt = Brackets /\ (1 <= least)%nat) \/ (fmt = Repeat /\ (2 <= least)%nat) ->
  Laws.flat least ps = true ->
  (length (Laws.flat_pairs fmt ps) <= 1000)%nat ->
  Parser.parse (Js.join "&" (Laws.flat_pairs fmt ps)) popts =
  Ok (Spec.coerce numbers booleans (VObj ps)).
Proof.
  intros Hfmt H Hcount. unfold Laws.flat in H. apply andb_prop in H as [Hd Hall].
  destruct (props_ok_split _ _ Hall) as [Hk Hv].
  rewrite parse_joined; [|
    apply Forall_forall; intros a Ha; unfold Laws.flat_pairs in Ha;
    apply in_flat_map in Ha as (p & _ & Ha); apply in_map_iff in Ha as (x & <- & _);
    apply flat_pair_chars ..| exact Hcount].
  apply (flat_fold fmt least ps Hfmt Hd ps [] eq_refl Hk Hv).
Qed.

End FlatParse.

(** X13.  The brackets format comes back: a mapping with distinct keys
    whose values are leaves or sequences of one or more leaves, with at
    most 1000 leaves in all, is returned by parse, up to the coercion of
    its leaves, from the text stringify writes for it with arrayFormat
    'brackets'. *)
Theorem brackets_round_trip (numbers booleans : bool) (ps : props) :
  Laws.flat 1 ps = true ->
  (length (Laws.flat_pairs Brackets ps) <= 1000)%nat ->
  exists text,
    Stringifier.stringify (VObj ps) (with_arrayFormat Brackets defaultStringifyOptions)
      = Ok text /\
    Parser.parse text (with_coercion numbers booleans defaultParseOptions)
      = Ok (Spec.coerce numbers booleans (VObj ps)).
Proof.
  intros H Hcount. exists (Js.join "&" (Laws.flat_pairs Brackets ps)). split.
  - apply (flat_text Brackets 1); auto.
  - apply (flat_parse numbers booleans Brackets 1); auto.
Qed.

Lemma brackets_round_trip_witness :
  let ps := [("q", VStr "café"); ("tags", VArr [VStr "a b"; VStr "c"]);
             ("n", VArr [VNum (Js.Num 7 0)])] in
  Laws.flat 1 ps = true /\
  (length (Laws.flat_pairs Brackets ps) <= 1000)%nat /\
  Stringifier.stringify (VObj ps) (with_arrayFormat Brackets defaultStringifyOptions)
    = Ok "q=caf%C3%A9&tags%5B%5D=a%20b&tags%5B%5D=c&n%5B%5D=7" /\
  exists text,
    Stringifier.stringify (VObj ps) (with_arrayFormat Brackets defaultStringifyOptions)
      = Ok text /\
    Parser.parse text (with_coercion true false defaultParseOptions)
      = Ok (Spec.coerce true false (VObj ps)).
Proof.
  split; [vm_compute; reflexivity|]. split; [vm_compute; lia|].
  split; [vm_compute; reflexivity|].
  apply (brackets_round_trip true false
           [("q", VStr "café"); ("tags", VArr [VStr "a b"; VStr "c"]);
            ("n", VArr [VNum (Js.Num 7 0)])]); [vm_compute; reflexivity|vm_compute; lia].
Defined.

(** X14.  The repeat format comes back when every sequence holds two
    leaves or more: the values written under one repeated key are combined
    into a sequence in their order.  (A sequence of one element would come
    back as that element.) *)
Theorem repeat_round_trip (numbers booleans : bool) (ps : props) :
  Laws.flat 2 ps = true ->
  (length (Laws.flat_pairs Repeat ps) <= 1000)%nat ->
  exists text,
    Stringifier.stringify (VObj ps) (with_arrayFormat Repeat defaultStringifyOptions)
      = Ok text /\
    Parser.parse text (with_coercion numbers booleans defaultParseOptions)
      = Ok (Spec.coerce numbers booleans (VObj ps)).
Proof.
  intros H Hcount. exists (Js.join "&" (Laws.flat_pairs Repeat ps)). split.
  - apply (flat_text Repeat 2); auto.
  - apply (flat_parse numbers booleans Repeat 2); auto.
Qed.

Lemma repeat_round_trip_witness :
  let ps := [("a", VArr [VStr "b"; VStr "c"; VStr "d"]); ("e", VStr "f")] in
  Laws.flat 2 ps = true /\
  (length (Laws.flat_pairs Repeat ps) <= 1000)%nat /\
  Stringifier.stringify (VObj ps) (with_arrayFormat Repeat defaultStringifyOptions)
    = Ok "a=b&a=c&a=d&e=f" /\
  exists text,
    Stringifier.stringify (VObj ps) (with_arrayFormat Repeat defaultStringifyOptions)
      = Ok text /\
    Parser.parse text (with_coercion false false defaultParseOptions)
      = Ok (Spec.coerce false false (VObj ps)).
Proof.
  split; [vm_compute; reflexivity|]. split; [vm_compute; lia|].
  split; [vm_compute; reflexivity|].
  apply (repeat_round_trip false false
           [("a", VArr [VStr "b"; VStr "c"; VStr "d"]); ("e", VStr "f")]);
    [vm_compute; reflexivity|vm_compute; lia].
Defined.

(** A sequence of one element does not come back under the repeat
    format. *)
Example repeat_single_element :
  Stringifier.stringify (VObj [("a", VArr [VStr "b"])])
                        (with_arrayFormat Repeat defaultStringifyOptions) = Ok "a=b" /\
  Parser.parse "a=b" defaultParseOptions = Ok (VObj [("a", VStr "b")]).
Proof. split; vm_compute; reflexivity. Qed.

(** ** Exact round trip *)
Section Exact.

Lemma number_eqb_eq (a b : Js.number) : Js.number_eqb a b = true -> a = b.
Proof.
  destruct a as [m e], b as [m' e']. cbn [Js.number_eqb]. intros H.
  apply andb_prop in H as [Hm He]. apply Z.eqb_eq in Hm. apply Nat.eqb_eq in He.
  now subst.
Qed.


End Exact.



(** A number written with an exponent is not such a leaf: it comes back
    as the string of its text. *)
Example round_trip_exponent_number :
  let v := VObj [("rate", VNum (Js.Num 1 7))] in
  Spec.roundtrippable v = true /\
  Laws.exact v = false /\
  Stringifier.stringify v defaultStringifyOptions = Ok "rate=1e-7" /\
  Parser.parse "rate=1e-7" (with_coercion true true defaultParseOptions) =
    Ok (VObj [("rate", VStr "1e-7")]).
Proof. repeat split; vm_compute; reflexivity. Qed.

(** ** The alphabet of stringify *)
Section Alphabet.
Variable opts : StringifyOptions.
Hypothesis Hencode : Types.encode opts = true.
Hypothesis Hencoder : Types.encoder opts = None.
Hypothesis Hkeys : encodeValuesOnly opts = false.
Hypothesis Hempty : s_allowEmptyArrays opts = false.

Let enc : string -> string := Encoding.getEncoder (format opts).
Let safe (s : string) : Prop := Spec.all_chars Laws.query_safe s = true.

Lemma safe_app (a b : string) : safe a -> safe b -> safe (a +++ b).
Proof. unfold safe. intros Ha Hb. now rewrite all_chars_app, Ha, Hb. Qed.

Lemma getEncoder_safe (f : Format) (s : string) : safe (Encoding.getEncoder f s).
Proof.
  unfold safe. destruct f; cbn [Encoding.getEncoder].
  - rewrite encoder_per_char. apply per_char_alphabet. intros c.
    apply (all_chars_weaken Laws.encoded_char); [|apply encode_char_alphabet].
    intros x Hx. unfold Laws.query_safe. now rewrite Hx.
  - rewrite form_per_char. apply per_char_alphabet. intros c.
    apply (all_chars_weaken (fun c => Laws.encoded_char c || Ascii.eqb c "+"));
      [|apply form_char_alphabet].
    intros x Hx. unfold Laws.query_safe. cbn [existsb].
    apply orb_prop in Hx as [-> | ->]; [reflexivity|]. now rewrite orb_true_r.
Qed.

Lemma hex_digit_safe (d : N) : (d < 16)%N -> Laws.query_safe (Js.hex_digit d) = true.
Proof.
  intros H.
  assert (Hd : In d [0; 1; 2; 3; 4; 5; 6; 7; 8; 9; 10; 11; 12; 13; 14; 15]%N).
  { cbn [In]. lia. }
  cbn [In] in Hd.
  repeat (destruct Hd as [<- | Hd]; [reflexivity|]). contradiction.
Qed.

Lemma digits_safe (s : string) : Js.all_digits s = true -> safe s.
Proof.
  unfold safe. induction s as [|c s IH]; [reflexivity|].
  cbn [Js.all_digits Spec.all_chars]. intros H. apply andb_prop in H as [Hc Hs].
  rewrite (IH Hs), andb_true_r. clear - Hc.
  destruct c as [[] [] [] [] [] [] [] []]; try discriminate Hc; reflexivity.
Qed.

Lemma encodeISO88591_safe (s : string) : safe (Encoding.encodeISO88591 s).
Proof.
  unfold Encoding.encodeISO88591. induction (Js.code_units s) as [|code l IH];
    [reflexivity|].
  cbn [map]. rewrite concat_cons. apply safe_app; [|exact IH].
  destruct (code <=? 255)%N eqn:E.
  - apply N.leb_le in E. unfold safe, Js.hex2.
    cbn [String.append Spec.all_chars].
    rewrite !hex_digit_safe; [reflexivity| |].
    + apply N.mod_lt. discriminate.
    + apply N.Div0.div_lt_upper_bound. lia.
  - apply (safe_app "%26%23"); [reflexivity|]. apply safe_app; [|reflexivity].
    apply digits_safe. pose proof (N_text_digits code) as Hd.
    unfold Js.is_digits1 in Hd. now destruct (Js.N_to_string code).
Qed.

Lemma encode_safe (s : string) (cs : Charset) : safe (Encoding.encode s enc cs).
Proof.
  destruct cs; cbn [Encoding.encode]; [apply getEncoder_safe|apply encodeISO88591_safe].
Qed.

Lemma encodeKey_safe (key k : string) :
  Stringifier.encodeKey key enc opts = Ok k -> safe k.
Proof.
  unfold Stringifier.encodeKey. rewrite Hencode, Hencoder, Hkeys. cbn [negb].
  intros H. injection H as <-. apply encode_safe.
Qed.

Lemma encodeValue_safe (v k : string) :
  Stringifier.encodeValue v enc opts = Ok k -> safe k.
Proof.
  unfold Stringifier.encodeValue. rewrite Hencode, Hencoder. cbn [negb].
  intros H. injection H as <-. apply encode_safe.
Qed.

Lemma join_safe (sep : string) (l : list string) :
  safe sep -> Forall safe l -> safe (Js.join sep l).
Proof.
  intros Hsep. induction l as [|a l IH]; intros H; [reflexivity|].
  inversion H as [|? ? Ha Hl]; subst. destruct l as [|b l]; [exact Ha|].
  rewrite join_cons. apply safe_app; [exact Ha|]. apply safe_app; [exact Hsep|].
  now apply IH.
Qed.

Lemma mapM_forall {A B} (f : A -> outcome B) (P : B -> Prop) (l : list A) :
  (forall x y, f x = Ok y -> P y) ->
  forall r, Parser.mapM f l = Ok r -> Forall P r.
Proof.
  intros Hf. induction l as [|x l IH]; intros r H.
  - injection H as <-. constructor.
  - cbn [Parser.mapM] in H. apply bind_ok in H as (y & Hy & H).
    apply bind_ok in H as (ys & Hys & H). injection H as <-.
    constructor; [now apply (Hf x)|now apply IH].
Qed.

Lemma pair_safe (k v : string) : safe k -> safe v -> safe (k +++ "=" +++ v).
Proof. intros Hk Hv. apply safe_app; [exact Hk|]. now apply (safe_app "="). Qed.

Lemma comma_values_safe (array : list value) (values : string) :
  Stringifier.comma_values array enc opts = Ok values -> safe values.
Proof.
  unfold Stringifier.comma_values. intros H. apply bind_ok in H as (l & Hl & H).
  injection H as <-. apply join_safe; [apply getEncoder_safe|].
  revert Hl. apply mapM_forall. intros x y Hy.
  apply bind_ok in Hy as (text & _ & Hy). now apply encodeValue_safe in Hy.
Qed.

Lemma array_loop_safe (recur : string -> value -> list string -> outcome (list string))
      (key : string) (array : list value) (keyPath : list string) :
  forall items i pairs,
    Forall (fun v => forall k kp ps, recur k v kp = Ok ps -> Forall safe ps) items ->
    Stringifier.stringifyArray_loop enc opts recur key array keyPath items i = Ok pairs ->
    Forall safe pairs.
Proof.
  induction items as [|v items IH]; intros i pairs Hall H.
  - injection H as <-. constructor.
  - inversion Hall as [|? ? Hv Hrest]; subst. cbn [Stringifier.stringifyArray_loop] in H.
    destruct (Utils.is_undefined v); [now apply (IH _ _ Hrest H)|].
    destruct (arrayFormat opts) eqn:Hfmt.
    1-3: apply bind_ok in H as (vp & Hvp & H); apply bind_ok in H as (more & Hmore & H);
         injection H as <-; apply Forall_app; split;
         [now apply (Hv _ _ _ Hvp)|now apply (IH _ _ Hrest Hmore)].
    destruct (i =? 0)%N; [|now apply (IH _ _ Hrest H)].
    apply bind_ok in H as (values & Hvalues & H). apply bind_ok in H as (k & Hk & H).
    injection H as <-. constructor; [|constructor].
    apply pair_safe; [now apply encodeKey_safe in Hk|now apply comma_values_safe in Hvalues].
Qed.

Lemma object_loop_safe (obj : props) (F : string * value -> string -> list string -> outcome (list string))
      (key : string) (keyPath : list string) :
  (forall p, In p obj -> forall k kp ps, F p k kp = Ok ps -> Forall safe ps) ->
  forall ks pairs,
    Stringifier.stringifyObject_loop opts (map (fun p => (fst p, F p)) obj) key obj keyPath ks
      = Ok pairs ->
    Forall safe pairs.
Proof.
  intros HF. induction ks as [|objKey ks IH]; intros pairs H.
  - injection H as <-. constructor.
  - cbn [Stringifier.stringifyObject_loop] in H.
    destruct (lookup objKey obj) as [v|] eqn:Hv; [|now apply IH].
    destruct (find_sub F obj objKey v Hv) as (p & Hfind & _ & Hin).
    rewrite Hfind in H.
    assert (Hgo : forall nestedKey,
               (let* valuePairs := F p nestedKey (keyPath ++ [key]) in
                let* more := Stringifier.stringifyObject_loop opts
                               (map (fun p => (fst p, F p)) obj) key obj keyPath ks in
                Ok (valuePairs ++ more)) = Ok pairs -> Forall safe pairs).
    { intros nk H'. apply bind_ok in H' as (vp & Hvp & H').
      apply bind_ok in H' as (more & Hmore & H'). injection H' as <-.
      apply Forall_app. split; [now apply (HF p Hin _ _ _ Hvp)|now apply IH]. }
    destruct v; try (now apply IH);
      try (destruct (skipNulls opts); cbn [andb] in H; [now apply IH|]);
      cbn [andb] in H; rewrite ?andb_false_r in H; now apply Hgo in H.
Qed.

Lemma stringifyValue_safe : forall v key keyPath pairs,
  Stringifier.stringifyValue enc opts key v keyPath = Ok pairs -> Forall safe pairs.
Proof.
  induction v as [| |b|n|s|iso|items IH|ps IH] using value_nested_ind;
    intros key keyPath pairs H; cbn [Stringifier.stringifyValue] in H.
  - injection H as <-. constructor.
  - unfold Stringifier.stringifyNull in H. apply bind_ok in H as (k & Hk & H).
    apply encodeKey_safe in Hk.
    destruct (s_strictNullHandling opts); injection H as <-; constructor;
      try constructor; [exact Hk|]. apply safe_app; [exact Hk|reflexivity].
  - unfold Stringifier.stringifyPrimitive in H. apply bind_ok in H as (k & Hk & H).
    apply bind_ok in H as (text & _ & H). apply bind_ok in H as (ev & Hev & H).
    injection H as <-. constructor; [|constructor].
    apply pair_safe; [now apply encodeKey_safe in Hk|now apply encodeValue_safe in Hev].
  - unfold Stringifier.stringifyPrimitive in H. apply bind_ok in H as (k & Hk & H).
    apply bind_ok in H as (text & _ & H). apply bind_ok in H as (ev & Hev & H).
    injection H as <-. constructor; [|constructor].
    apply pair_safe; [now apply encodeKey_safe in Hk|now apply encodeValue_safe in Hev].
  - unfold Stringifier.stringifyPrimitive in H. apply bind_ok in H as (k & Hk & H).
    apply bind_ok in H as (text & _ & H). apply bind_ok in H as (ev & Hev & H).
    injection H as <-. constructor; [|constructor].
    apply pair_safe; [now apply encodeKey_safe in Hk|now apply encodeValue_safe in Hev].
  - unfold Stringifier.stringifyDate in H. apply bind_ok in H as (k & Hk & H).
    apply bind_ok in H as (ev & Hev & H).
    injection H as <-. constructor; [|constructor].
    apply pair_safe; [now apply encodeKey_safe in Hk|now apply encodeValue_safe in Hev].
  - unfold Stringifier.stringifyArray in H. rewrite Hempty in H.
    destruct (length items =? 0)%nat; [injection H as <-; constructor|].
    revert H. apply array_loop_safe.
    rewrite Forall_forall in IH |- *. intros x Hx k kp ps. now apply IH.
  - unfold Stringifier.stringifyObject in H. revert H.
    apply (object_loop_safe ps (fun p nestedKey kp =>
             Stringifier.stringifyValue enc opts nestedKey (snd p) kp)).
    rewrite Forall_forall in IH. intros p Hp k kp pairs'. now apply IH.
Qed.

Lemma stringify_loop_safe (filtered : props) : forall keys pairs,
  Stringifier.stringify_loop filtered keys enc opts = Ok pairs -> Forall safe pairs.
Proof.
  induction keys as [|key keys IH]; intros pairs H.
  - injection H as <-. constructor.
  - cbn [Stringifier.stringify_loop] in H.
    destruct (lookup key filtered) as [v|]; [|now apply IH].
    assert (Hgo : (let* encodedPairs := Stringifier.stringifyValue enc opts key v [] in
                   let* more := Stringifier.stringify_loop filtered keys enc opts in
                   Ok (encodedPairs ++ more)) = Ok pairs -> Forall safe pairs).
    { intros H'. apply bind_ok in H' as (vp & Hvp & H').
      apply bind_ok in H' as (more & Hmore & H'). injection H' as <-.
      apply Forall_app. split; [now apply stringifyValue_safe in Hvp|now apply IH]. }
    destruct v; try (now apply IH);
      try (destruct (skipNulls opts); cbn [andb] in H; [now apply IH|]);
      cbn [andb] in H; rewrite ?andb_false_r in H; now apply Hgo in H.
Qed.

Lemma emit_safe (filtered : props) (text : string) :
  addQueryPrefix opts = false ->
  s_delimiter opts = "&" ->
  Stringifier.emit filtered opts = Ok text -> safe text.
Proof.
  intros Hprefix Hdelim. unfold Stringifier.emit. rewrite Hencode, Hprefix, Hdelim.
  cbn [andb]. intros H. apply bind_ok in H as (pairs & Hpairs & H). injection H as <-.
  apply stringify_loop_safe in Hpairs.
  assert (Hjoin : safe (Js.join "&" pairs)) by (now apply join_safe).
  destruct (s_charsetSentinel opts); [|exact Hjoin].
  unfold Encoding.addCharsetSentinel.
  destruct (s_charset opts); destruct (String.eqb (Js.join "&" pairs) "");
    try reflexivity; apply safe_app; try reflexivity; now apply (safe_app "&").
Qed.

End Alphabet.

(** X16.  The text stringify writes is safe in a URL.  With encoding on
    (no custom encoder, keys encoded too), without allowEmptyArrays and
    addQueryPrefix and with the delimiter '&', every text stringify
    returns, for every input and whatever the other options, holds only
    letters, digits and the characters - _ . ~ % + & =. *)
Theorem stringify_alphabet (v : value) (opts : StringifyOptions) (text : string) :
  Types.encode opts = true ->
  Types.encoder opts = None ->
  encodeValuesOnly opts = false ->
  s_allowEmptyArrays opts = false ->
  addQueryPrefix opts = false ->
  s_delimiter opts = "&" ->
  Stringifier.stringify v opts = Ok text ->
  Spec.all_chars Laws.query_safe text = true.
Proof.
  intros He Hc Hk Ha Hp Hd H. unfold Stringifier.stringify in H.
  apply bind_ok in H as (_ & _ & H).
  destruct v as [| | | | | | |ps]; try discriminate H; try (injection H as <-; reflexivity).
  apply bind_ok in H as (filtered & _ & H).
  now apply (emit_safe opts He Hc Hk Ha filtered text Hp Hd).
Qed.

Lemma stringify_alphabet_witness :
  let v := VObj [("a b", VStr "x&y=z"); ("é", VArr [VNull; VStr "[1]"]);
                 ("o", VObj [("k?", VNum (Js.Num (-15) 1))])] in
  Stringifier.stringify v defaultStringifyOptions
    = Ok "a%20b=x%26y%3Dz&%C3%A9%5B0%5D=&%C3%A9%5B1%5D=%5B1%5D&o%5Bk%3F%5D=-1.5" /\
  Spec.all_chars Laws.query_safe
    "a%20b=x%26y%3Dz&%C3%A9%5B0%5D=&%C3%A9%5B1%5D=%5B1%5D&o%5Bk%3F%5D=-1.5" = true.
Proof.
  split; [vm_compute; reflexivity|].
  apply (stringify_alphabet
           (VObj [("a b", VStr "x&y=z"); ("é", VArr [VNull; VStr "[1]"]);
                  ("o", VObj [("k?", VNum (Js.Num (-15) 1))])])
           defaultStringifyOptions); vm_compute; reflexivity.
Defined.

(** ** skipNulls *)
Section SkipNulls.
Variable encoder : string -> string.
Variable opts : StringifyOptions.

Let skip := with_skipNulls true opts.
Let keep := with_skipNulls false opts.

(** The value a property holds after the change. *)
Let prop_value (x : value) : value :=
  match x with VNull => VUndefined | _ => Laws.without_nulls x end.

Lemma Object_keys_map (g : string * value -> value) (ps : props) :
  Object_keys (map (fun p => (fst p, g p)) ps) = Object_keys ps.
Proof. unfold Object_keys. now rewrite map_map. Qed.

Lemma lookup_map (g : value -> value) (k : string) (ps : props) :
  lookup k (map (fun p => (fst p, g (snd p))) ps) = option_map g (lookup k ps).
Proof.
  induction ps as [|[k' x] ps IH]; [reflexivity|]. cbn [map lookup fst snd].
  destruct (String.eqb k k'); [reflexivity|exact IH].
Qed.

Lemma String_of_without_nulls : forall v,
  Stringifier.String_of (Laws.without_nulls v) = Stringifier.String_of v.
Proof.
  induction v as [| |b|n|s|iso|items IH|ps IH] using value_nested_ind; try reflexivity.
  - cbn [Laws.without_nulls Stringifier.String_of]. f_equal.
    induction IH as [|x items Hx _ IHl]; [reflexivity|]. cbn [map].
    rewrite IHl. f_equal.
    destruct x; try reflexivity; exact Hx.
  - cbn [Laws.without_nulls Stringifier.String_of].
    rewrite (lookup_map prop_value). now destruct (lookup "toString" ps).
Qed.

Lemma comma_values_without_nulls (array : list value) :
  Stringifier.comma_values (map Laws.without_nulls array) encoder keep =
  Stringifier.comma_values array encoder skip.
Proof.
  unfold Stringifier.comma_values. f_equal.
  induction array as [|x array IH]; [reflexivity|]. cbn [map List.filter].
  assert (Hu : Utils.is_undefined (Laws.without_nulls x) = Utils.is_undefined x)
    by (now destruct x).
  rewrite Hu. destruct (Utils.is_undefined x); cbn [negb]; [exact IH|].
  cbn [Parser.mapM]. rewrite String_of_without_nulls, IH. reflexivity.
Qed.

Lemma array_loop_without_nulls (key : string) (array : list value) (keyPath : list string) :
  forall items i,
    Forall (fun v => forall k kp,
              Stringifier.stringifyValue encoder keep k (Laws.without_nulls v) kp =
              Stringifier.stringifyValue encoder skip k v kp) items ->
    Stringifier.stringifyArray_loop encoder keep (Stringifier.stringifyValue encoder keep)
      key (map Laws.without_nulls array) keyPath (map Laws.without_nulls items) i =
    Stringifier.stringifyArray_loop encoder skip (Stringifier.stringifyValue encoder skip)
      key array keyPath items i.
Proof.
  induction items as [|v items IH]; intros i Hall; [reflexivity|].
  inversion Hall as [|? ? Hv Hrest]; subst.
  cbn [map Stringifier.stringifyArray_loop].
  assert (Hu : Utils.is_undefined (Laws.without_nulls v) = Utils.is_undefined v)
    by (now destruct v).
  rewrite Hu. destruct (Utils.is_undefined v); [now apply IH|].
  change (arrayFormat keep) with (arrayFormat skip).
  destruct (arrayFormat skip);
    rewrite ?Hv, ?(IH _ Hrest), ?comma_values_without_nulls; reflexivity.
Qed.

Lemma find_map (g : value -> value)
      (F : value -> string -> list string -> outcome (list string))
      (k : string) (ps : props) :
  find (fun s => String.eqb k (fst s))
       (map (fun p => (fst p, F (snd p))) (map (fun p => (fst p, g (snd p))) ps)) =
  option_map (fun s => (fst s, F (g (snd s))))
             (find (fun s => String.eqb k (fst s)) ps).
Proof.
  induction ps as [|[k' x] ps IH]; [reflexivity|]. cbn [map find fst snd].
  destruct (String.eqb k k'); [reflexivity|exact IH].
Qed.

Lemma find_lookup (k : string) (ps : props) :
  option_map snd (find (fun s => String.eqb k (fst s)) ps) = lookup k ps.
Proof.
  induction ps as [|[k' x] ps IH]; [reflexivity|]. cbn [find lookup fst].
  destruct (String.eqb k k'); [reflexivity|exact IH].
Qed.

Lemma find_in (k : string) (ps : props) (p : string * value) :
  find (fun s => String.eqb k (fst s)) ps = Some p -> In p ps.
Proof. intros H. now apply find_some in H. Qed.

Lemma object_loop_without_nulls (key : string) (obj : props) (keyPath : list string) :
  Forall (fun p => forall k kp,
            Stringifier.stringifyValue encoder keep k (Laws.without_nulls (snd p)) kp =
            Stringifier.stringifyValue encoder skip k (snd p) kp) obj ->
  forall ks,
    Stringifier.stringifyObject_loop keep
      (map (fun p => (fst p, fun nk kp => Stringifier.stringifyValue encoder keep nk (snd p) kp))
           (map (fun p => (fst p, prop_value (snd p))) obj))
      key (map (fun p => (fst p, prop_value (snd p))) obj) keyPath ks =
    Stringifier.stringifyObject_loop skip
      (map (fun p => (fst p, fun nk kp => Stringifier.stringifyValue encoder skip nk (snd p) kp))
           obj)
      key obj keyPath ks.
Proof.
  intros Hall. rewrite Forall_forall in Hall.
  induction ks as [|objKey ks IH]; [reflexivity|].
  cbn [Stringifier.stringifyObject_loop]. rewrite IH, (lookup_map prop_value).
  rewrite (find_map prop_value
             (fun x nk kp => Stringifier.stringifyValue encoder keep nk x kp)).
  rewrite <- (find_lookup objKey obj).
  destruct (find (fun s => String.eqb objKey (fst s)) obj) as [[k' x]|] eqn:Hfind.
  2: { cbn [option_map].
       replace (find (fun s => String.eqb objKey (fst s))
                  (map (fun p => (fst p, fun nk kp =>
                     Stringifier.stringifyValue encoder skip nk (snd p) kp)) obj))
         with (@None (string * (string -> list string -> outcome (list string)))).
       - reflexivity.
       - symmetry. clear - Hfind. induction obj as [|[k0 x0] obj IHo]; [reflexivity|].
         cbn [map find fst] in *. destruct (String.eqb objKey k0); [discriminate|auto]. }
  pose proof (Hall _ (find_in _ _ _ Hfind)) as Hx. cbn [snd] in Hx.
  assert (Hsub : find (fun s => String.eqb objKey (fst s))
                   (map (fun p => (fst p, fun nk kp =>
                      Stringifier.stringifyValue encoder skip nk (snd p) kp)) obj)
                 = Some (k', fun nk kp => Stringifier.stringifyValue encoder skip nk x kp)).
  { clear - Hfind. induction obj as [|[k0 x0] obj IHo]; [discriminate|].
    cbn [map find fst snd] in *. destruct (String.eqb objKey k0).
    - now injection Hfind as -> ->.
    - auto. }
  rewrite Hsub. cbn [option_map fst snd].
  destruct x; cbn [prop_value Laws.without_nulls andb]; rewrite ?andb_false_r;
    try reflexivity;
    try (change (skipNulls keep) with false; cbn [andb]; now rewrite <- Hx).
Qed.

Lemma stringifyValue_without_nulls : forall v key keyPath,
  Stringifier.stringifyValue encoder keep key (Laws.without_nulls v) keyPath =
  Stringifier.stringifyValue encoder skip key v keyPath.
Proof.
  induction v as [| |b|n|s|iso|items IH|ps IH] using value_nested_ind;
    intros key keyPath; try reflexivity.
  - cbn [Laws.without_nulls Stringifier.stringifyValue]. unfold Stringifier.stringifyArray.
    rewrite length_map. change (s_allowEmptyArrays keep) with (s_allowEmptyArrays skip).
    destruct (length items =? 0)%nat; [reflexivity|].
    now apply array_loop_without_nulls.
  - cbn [Laws.without_nulls Stringifier.stringifyValue]. unfold Stringifier.stringifyObject.
    change (sort keep) with (sort skip).
    rewrite (Object_keys_map (fun p => prop_value (snd p))).
    now apply object_loop_without_nulls.
Qed.

Lemma stringify_loop_without_nulls (ps : props) : forall keys,
  Stringifier.stringify_loop (map (fun p => (fst p, prop_value (snd p))) ps) keys encoder keep =
  Stringifier.stringify_loop ps keys encoder skip.
Proof.
  induction keys as [|key keys IH]; [reflexivity|].
  cbn [Stringifier.stringify_loop]. rewrite IH, (lookup_map prop_value).
  destruct (lookup key ps) as [x|]; [|reflexivity]. cbn [option_map].
  destruct x; cbn [prop_value andb]; rewrite ?andb_false_r; try reflexivity;
    change (skipNulls keep) with false; cbn [andb];
    now rewrite <- stringifyValue_without_nulls.
Qed.

End SkipNulls.

(** X17.  skipNulls reads a property that holds null as one that holds
    undefined, in the mappings at every level and nowhere else: without a
    filter, stringify with skipNulls gives what stringify without it gives
    on the input in which those properties hold undefined.  A null element
    of a sequence is written as before. *)
Theorem skipNulls_as_undefined (v : value) (opts : StringifyOptions) :
  filter opts = None ->
  Stringifier.stringify v (with_skipNulls true opts) =
  Stringifier.stringify (Laws.without_nulls v) (with_skipNulls false opts).
Proof.
  intros Hf. unfold Stringifier.stringify.
  change (validateStringify (with_skipNulls true opts))
    with (validateStringify (with_skipNulls false opts)).
  destruct (validateStringify (with_skipNulls false opts)); cbn [bind];
    try reflexivity.
  destruct v as [| | | | | |items|ps]; try reflexivity.
  cbn [Laws.without_nulls].
  change (filter (with_skipNulls true opts)) with (filter opts).
  change (filter (with_skipNulls false opts)) with (filter opts).
  rewrite Hf. cbn [Stringifier.applyFilter bind]. unfold Stringifier.emit.
  rewrite (Object_keys_map (fun p => match snd p with
                                     | VNull => VUndefined
                                     | _ => Laws.without_nulls (snd p)
                                     end)).
  cbn [with_skipNulls sort Types.encode format s_delimiter s_charsetSentinel
       s_charset addQueryPrefix].
  pose proof (stringify_loop_without_nulls
                (if Types.encode opts then Encoding.getEncoder (format opts)
                 else fun str => str) opts ps
                (Stringifier.sort_keys (sort opts) (Object_keys ps))) as H.
  cbn [with_skipNulls] in H. rewrite <- H. reflexivity.
Qed.

Lemma skipNulls_as_undefined_witness :
  let v := VObj [("a", VStr "x"); ("b", VNull);
                 ("c", VObj [("d", VNull); ("e", VArr [VNull; VStr "y"])])] in
  filter defaultStringifyOptions = None /\
  Laws.without_nulls v =
    VObj [("a", VStr "x"); ("b", VUndefined);
          ("c", VObj [("d", VUndefined); ("e", VArr [VNull; VStr "y"])])] /\
  Stringifier.stringify v (with_skipNulls true defaultStringifyOptions)
    = Ok "a=x&c%5Be%5D%5B0%5D=&c%5Be%5D%5B1%5D=y" /\
  Stringifier.stringify v (with_skipNulls true defaultStringifyOptions) =
  Stringifier.stringify (Laws.without_nulls v)
                        (with_skipNulls false defaultStringifyOptions).
Proof.
  split; [reflexivity|]. split; [reflexivity|]. split; [vm_compute; reflexivity|].
  apply (skipNulls_as_undefined
           (VObj [("a", VStr "x"); ("b", VNull);
                  ("c", VObj [("d", VNull); ("e", VArr [VNull; VStr "y"])])])
           defaultStringifyOptions).
  reflexivity.
Defined.

(** ** The leaves of a parse result *)
Section Leaves.
Variable opts : ParseOptions.
Hypothesis Hnumbers : parseNumbers opts = false.
Hypothesis Hbooleans : parseBooleans opts = false.
Hypothesis Hdates : parseDates opts = false.
Hypothesis Hnull : strictNullHandling opts = false.

Lemma textual_lookup (ps : props) (k : string) (x : value) :
  Laws.textual (VObj ps) = true -> lookup k ps = Some x -> Laws.textual x = true.
Proof.
  cbn [Laws.textual]. induction ps as [|[k' v'] ps IH]; [discriminate|].
  cbn [forallb lookup fst snd]. intros H Hk.
  apply andb_prop in H as [Hv Hps].
  destruct (String.eqb k k'); [now injection Hk as <-|now apply IH].
Qed.

Lemma textual_assign (ps : props) (k : string) (x : value) :
  Laws.textual (VObj ps) = true ->
  Laws.textual x = true -> Laws.textual (VObj (assign k x ps)) = true.
Proof.
  cbn [Laws.textual]. intros H Hx.
  induction ps as [|[k' v'] ps IH]; cbn [assign forallb fst snd].
  - now rewrite Hx.
  - cbn [forallb fst snd] in H. apply andb_prop in H as [H Hps].
    destruct (String.eqb k k'); cbn [forallb fst snd].
    + now rewrite Hx, Hps.
    + now rewrite H, (IH Hps).
Qed.

Lemma textual_get (plain : bool) (o : value) (k : string) (x : value) :
  Laws.textual o = true -> Obj.get plain o k = Ok x -> Laws.textual x = true.
Proof.
  unfold Obj.get. intros Ho H. destruct o; try discriminate.
  destruct (lookup k props0) eqn:E.
  - injection H as <-. now apply (textual_lookup _ _ _ Ho E).
  - destruct (negb plain && is_inherited k); [discriminate|]. now injection H as <-.
Qed.

Lemma textual_set (plain : bool) (o : value) (k : string) (x o' : value) :
  Laws.textual o = true ->
  Laws.textual x = true -> Obj.set plain o k x = Ok o' -> Laws.textual o' = true.
Proof.
  unfold Obj.set. intros Ho Hx H. destruct o; try discriminate.
  destruct (negb plain && String.eqb k "__proto__"); [discriminate|].
  injection H as <-. now apply textual_assign.
Qed.

Lemma textual_put (o : value) (k : string) (x : value) :
  Laws.textual o = true ->
  Laws.textual x = true -> Laws.textual (Parser.put o k x) = true.
Proof.
  intros Ho Hx. destruct o; try exact Ho. now apply textual_assign.
Qed.

Lemma textual_safeSet (plain allow : bool) (o : value) (k : string) (x o' : value) :
  Laws.textual o = true -> Laws.textual x = true ->
  Utils.safeSetProperty plain o k x allow = Ok o' -> Laws.textual o' = true.
Proof.
  unfold Utils.safeSetProperty. intros Ho Hx H.
  destruct (negb allow && Utils.hasPrototypePollution k).
  - now injection H as <-.
  - now apply (textual_set plain o k x o').
Qed.

Lemma textual_items (l : list value) :
  Laws.textual (VArr l) = true <-> Forall (fun x => Laws.textual x = true) l.
Proof. cbn [Laws.textual]. now rewrite forallb_forall, Forall_forall. Qed.

Lemma textual_push (l : list value) (x : value) :
  Laws.textual (VArr l) = true -> Laws.textual x = true ->
  Laws.textual (VArr (l ++ [x])) = true.
Proof.
  rewrite !textual_items. intros Hl Hx. apply Forall_app. split; [exact Hl|now constructor].
Qed.

Lemma textual_grow (l : list value) (i : Z) :
  Laws.textual (VArr l) = true -> Laws.textual (VArr (Parser.grow l i)) = true.
Proof.
  rewrite !textual_items. intros Hl. unfold Parser.grow. apply Forall_app. split; [exact Hl|].
  apply Forall_forall. intros x Hx. apply repeat_spec in Hx. now subst x.
Qed.

Lemma textual_array_get (l : list value) (i : Z) :
  Laws.textual (VArr l) = true -> Laws.textual (Obj.array_get i l) = true.
Proof.
  rewrite textual_items. intros Hl. unfold Obj.array_get.
  destruct (i <? 0); [reflexivity|].
  destruct (nth_in_or_default (Z.to_nat i) l VUndefined) as [Hin| ->]; [|reflexivity].
  rewrite Forall_forall in Hl. now apply Hl.
Qed.

Lemma textual_array_set (l l' : list value) (i : Z) (x : value) :
  Laws.textual (VArr l) = true -> Laws.textual x = true ->
  Obj.array_set i x l = Ok l' -> Laws.textual (VArr l') = true.
Proof.
  rewrite !textual_items. intros Hl Hx. unfold Obj.array_set.
  destruct ((i <? 0) || (4294967295 <=? i)); [discriminate|].
  destruct (Z.to_nat i <? length l)%nat; intros H; injection H as <-.
  - pose proof Hl as Hl1. pose proof Hl as Hl2.
    rewrite <- (firstn_skipn (Z.to_nat i) l) in Hl1. apply Forall_app in Hl1 as [Hf _].
    rewrite <- (firstn_skipn (S (Z.to_nat i)) l) in Hl2. apply Forall_app in Hl2 as [_ Hs].
    apply Forall_app. split; [exact Hf|now constructor].
  - apply Forall_app. split; [exact Hl|]. apply Forall_app. split; [|now constructor].
    apply Forall_forall. intros y Hy. apply repeat_spec in Hy. now subst y.
Qed.

Lemma textual_copy (l : list value) :
  Laws.textual (VArr l) = true ->
  forall i acc, Laws.textual (VObj acc) = true ->
                Laws.textual (VObj (Parser.copy_elements l i acc)) = true.
Proof.
  rewrite textual_items. induction 1 as [|x l Hx Hl IH]; intros i acc Hacc; [exact Hacc|].
  cbn [Parser.copy_elements]. apply IH.
  destruct (Utils.is_undefined x); [exact Hacc|].
  apply textual_assign; auto.
Qed.

Lemma handleDuplicateKey_textual (o : value) (k : string) (x r : value) :
  Laws.textual o = true -> Laws.textual x = true ->
  Parser.handleDuplicateKey o k x opts = Ok r -> Laws.textual r = true.
Proof.
  intros Ho Hx. unfold Parser.handleDuplicateKey. intros H.
  destruct (Obj.inherited (plainObjects opts) o k).
  { destruct (duplicates opts).
    - destruct (negb _ && _); [now injection H as <-|discriminate].
    - now injection H as <-.
    - now apply textual_safeSet in H. }
  apply bind_ok in H as (existing & Hget & H).
  pose proof (textual_get _ _ _ _ Ho Hget) as He.
  destruct (Utils.is_undefined existing); [now apply textual_safeSet in H|].
  destruct (duplicates opts).
  - destruct existing;
      try (eapply textual_safeSet; [exact Ho| |exact H];
           cbn [Laws.textual forallb] in *; now rewrite ?He, ?Hx).
    injection H as <-. unfold Obj.get in Hget. destruct o; try discriminate.
    destruct (lookup k props0) eqn:E.
    + injection Hget as ->. apply textual_put; auto. now apply textual_push.
    + destruct (negb (plainObjects opts) && is_inherited k); discriminate.
  - now injection H as <-.
  - now apply textual_safeSet in H.
Qed.

(** [handleArrayValue] keeps the invariant when its two calls back do. *)
Lemma handleArrayValue_textual (setHere setNext : value -> Z -> outcome value)
      (o : value) (k : string) (rp : list string) (x r : value) (d : Z) :
  (forall t d' t', Laws.textual t = true -> setHere t d' = Ok t' -> Laws.textual t' = true) ->
  (forall t d' t', Laws.textual t = true -> setNext t d' = Ok t' -> Laws.textual t' = true) ->
  Laws.textual o = true -> Laws.textual x = true ->
  Parser.handleArrayValue setHere setNext o k rp x opts d = Ok r ->
  Laws.textual r = true.
Proof.
  intros Hhere Hnext Ho Hx. unfold Parser.handleArrayValue. intros H.
  apply bind_ok in H as (arr & Hget & H).
  pose proof (textual_get _ _ _ _ Ho Hget) as Harr.
  assert (Hstored : forall b : bool, Laws.textual (if b then VArr [] else x) = true)
    by (intros []; auto).
  assert (Hempty : forall c : value, Laws.textual c = true ->
                     Laws.textual (if falsy c then VObj [] else c) = true)
    by (intros c Hc; destruct (falsy c); auto).
  assert (Hconv : forall l, arr = VArr l ->
            (let* obj1 := Obj.set (plainObjects opts) o k (VObj (Parser.copy_elements l 0 [])) in
             let* objValue' := setHere (VObj (Parser.copy_elements l 0 [])) d in
             Ok (Parser.put obj1 k objValue')) = Ok r -> Laws.textual r = true).
  { intros l -> H'. apply bind_ok in H' as (obj1 & Hset & H').
    apply bind_ok in H' as (ov & Hov & H'). injection H' as <-.
    assert (Hc : Laws.textual (VObj (Parser.copy_elements l 0 [])) = true)
      by (now apply textual_copy).
    apply textual_put; auto.
    - eapply textual_set; [exact Ho|exact Hc|exact Hset].
    - eapply Hhere; eauto. }
  destruct (hd_error rp) as [indexKey|].
  - destruct indexKey as [|c0 s0].
    + destruct arr; try discriminate.
      destruct (length rp =? 1)%nat.
      * injection H as <-. apply textual_put; auto. now apply textual_push.
      * apply bind_ok in H as (newObj & Hn & H). injection H as <-.
        apply textual_put; auto. apply textual_push; auto.
        eapply Hnext; [|exact Hn]. reflexivity.
    + destruct (Utils.isArrayIndex (String c0 s0)).
      * destruct (arrayLimit opts <? Js.parseInt (String c0 s0)).
        -- apply bind_ok in H as (obj1 & Hobj1 & H).
           apply bind_ok in H as (target & Htarget & H).
           apply bind_ok in H as (target' & Ht' & H). injection H as <-.
           assert (Ho1 : Laws.textual obj1 = true).
           { destruct (negb (Utils.isObject arr)).
             - eapply textual_set; [exact Ho| |exact Hobj1]. reflexivity.
             - now injection Hobj1 as <-. }
           apply textual_put; auto. eapply Hhere; [|exact Ht'].
           now apply (textual_get _ _ _ _ Ho1 Htarget).
        -- destruct arr; try discriminate.
           ++ pose proof (textual_grow items (Js.parseInt (String c0 s0)) Harr) as Hg.
              destruct (length rp =? 1)%nat.
              ** apply bind_ok in H as (l' & Hl' & H). injection H as <-.
                 apply textual_put; auto.
                 eapply textual_array_set; [exact Hg| |exact Hl']. apply Hstored.
              ** apply bind_ok in H as (cur' & Hcur & H).
                 apply bind_ok in H as (l' & Hl' & H). injection H as <-.
                 apply textual_put; auto.
                 eapply textual_array_set; [exact Hg| |exact Hl'].
                 eapply Hnext; [|exact Hcur]. apply Hempty. now apply textual_array_get.
           ++ destruct (lookup "length" props0); [discriminate|].
              destruct (length rp =? 1)%nat.
              ** apply bind_ok in H as (arr' & Harr' & H). injection H as <-.
                 apply textual_put; auto.
                 eapply textual_set; [exact Harr| |exact Harr'].
                 apply Hstored.
              ** apply bind_ok in H as (cur & Hcur & H).
                 apply bind_ok in H as (cur' & Hcur' & H).
                 apply bind_ok in H as (arr' & Harr' & H). injection H as <-.
                 apply textual_put; auto.
                 eapply textual_set; [exact Harr| |exact Harr'].
                 eapply Hnext; [|exact Hcur']. apply Hempty.
                 now apply (textual_get _ _ _ _ Harr Hcur).
      * destruct arr; try discriminate. now apply (Hconv items).
  - destruct arr; try discriminate. now apply (Hconv items).
Qed.

Lemma setNestedValue_textual (v : value) (n : nat) :
  Laws.textual v = true ->
  forall (kp : list string) (o : value) (d : Z) (r : value),
    (length kp <= n)%nat ->
    Laws.textual o = true ->
    Parser.setNestedValue opts v kp o d = Ok r -> Laws.textual r = true.
Proof.
  intros Hv. induction n as [|n IH]; intros kp o d r Hn Ho H.
  - destruct kp; [|cbn in Hn; lia]. cbn [Parser.setNestedValue] in H.
    destruct (strictDepth opts && (depth opts <? d)); [discriminate|].
    destruct (depth opts <? d); [now apply handleDuplicateKey_textual in H|].
    now injection H as <-.
  - destruct kp as [|k rest].
    { cbn [Parser.setNestedValue] in H.
      destruct (strictDepth opts && (depth opts <? d)); [discriminate|].
      destruct (depth opts <? d); [now apply handleDuplicateKey_textual in H|].
      now injection H as <-. }
    cbn [length] in Hn.
    remember rest as rest0 eqn:Hr in H.
    cbn [Parser.setNestedValue] in H.
    destruct (strictDepth opts && (depth opts <? d)); [discriminate|].
    destruct (depth opts <? d); [now apply handleDuplicateKey_textual in H|].
    destruct (String.eqb k ""); [now injection H as <-|].
    destruct (negb (allowPrototypes opts) && Utils.hasPrototypePollution k);
      [now injection H as <-|].
    subst rest0. destruct rest as [|nextKey rest'];
      [now apply handleDuplicateKey_textual in H|].
    cbn [length] in Hn.
    apply bind_ok in H as (cur & Hcur & H).
    apply bind_ok in H as (obj1 & Hobj1 & H).
    assert (Ho1 : Laws.textual obj1 = true).
    { destruct (falsy cur).
      - eapply textual_set; [exact Ho| |exact Hobj1].
        now destruct ((Utils.isArrayIndex nextKey || String.eqb nextKey "") && parseArrays opts).
      - now injection Hobj1 as <-. }
    destruct ((Utils.isArrayIndex nextKey || String.eqb nextKey "") && parseArrays opts).
    + eapply (handleArrayValue_textual _ _ obj1 k); [| |exact Ho1|exact Hv|exact H].
      * intros t d' t' Ht Hs. eapply (IH (nextKey :: rest')); [cbn [length]; lia|exact Ht|exact Hs].
      * intros t d' t' Ht Hs. eapply (IH rest'); [lia|exact Ht|exact Hs].
    + apply bind_ok in H as (cur1 & Hcur1 & H).
      destruct (Utils.isObject cur1).
      * apply bind_ok in H as (sub & Hsub & H). injection H as <-.
        apply textual_put; auto.
        eapply (IH (nextKey :: rest')); [cbn [length]; lia| |exact Hsub].
        now apply (textual_get _ _ _ _ Ho1 Hcur1).
      * now injection H as <-.
Qed.

Lemma autoConvert_text (s : string) (x : value) :
  Utils.autoConvert s (parseNumbers opts) (parseBooleans opts) (parseDates opts) = Ok x ->
  Laws.textual x = true.
Proof.
  rewrite Hnumbers, Hbooleans, Hdates. unfold Utils.autoConvert. cbn [andb].
  destruct (String.eqb s ""); intros H; now injection H as <-.
Qed.

Lemma mapM_text {A} (f : A -> outcome value) (l : list A) (items : list value) :
  (forall a x, f a = Ok x -> Laws.textual x = true) ->
  Parser.mapM f l = Ok items -> Laws.textual (VArr items) = true.
Proof.
  intros Hf. revert items. induction l as [|a l IH]; intros items H.
  - now injection H as <-.
  - cbn [Parser.mapM] in H. apply bind_ok in H as (y & Hy & H).
    apply bind_ok in H as (ys & Hys & H). injection H as <-.
    cbn [Laws.textual forallb]. rewrite (Hf _ _ Hy). now apply IH.
Qed.

Lemma decodeValue_text (t : string) (cs : Charset) (x : value) :
  Parser.decodeValue t opts cs = Ok x -> Laws.textual x = true.
Proof.
  unfold Parser.decodeValue. destruct (String.eqb t "").
  - intros H. injection H as <-. now rewrite Hnull.
  - unfold try_catch.
    destruct (let* decoded := _ in _) eqn:E; intros H; try discriminate.
    + injection H as <-. apply bind_ok in E as (? & _ & E).
      apply bind_ok in E as (? & _ & E). now apply autoConvert_text in E.
    + now injection H as <-.
Qed.

Lemma parseKeyValue_textual (o : value) (key : string) (x r : value) :
  Laws.textual o = true -> Laws.textual x = true ->
  Parser.parseKeyValue o key x opts = Ok r -> Laws.textual r = true.
Proof.
  intros Ho Hx. unfold Parser.parseKeyValue. intros H.
  apply bind_ok in H as (x' & Hx' & H).
  eapply (setNestedValue_textual x' (length (Parser.parseKeyPath key opts)));
    [|apply Nat.le_refl|exact Ho|exact H].
  destruct x; try (now injection Hx' as <-).
  destruct (comma opts && Js.includes "," s); [|now injection Hx' as <-].
  apply bind_ok in Hx' as (items & Hitems & Hx'). injection Hx' as <-.
  eapply mapM_text; [|exact Hitems]. intros a y. apply autoConvert_text.
Qed.

Lemma parse_pair_textual (cs : Charset) (p : string) (o r : value) :
  Laws.textual o = true ->
  Parser.parse_pair opts cs p o = Ok r -> Laws.textual r = true.
Proof.
  intros Ho. unfold Parser.parse_pair.
  destruct (String.eqb p ""); [intros H; now injection H as <-|].
  destruct (match Js.indexOf "=" p with
            | Some i => _ | None => _ end) as [key t].
  intros H. apply bind_ok in H as (dk & _ & H). apply bind_ok in H as (dv & Hdv & H).
  destruct (String.eqb dk ""); [now injection H as <-|].
  eapply parseKeyValue_textual; [exact Ho| |exact H]. now apply decodeValue_text in Hdv.
Qed.

Lemma parse_loop_textual (cs : Charset) (pairs : list string) :
  forall (count : Z) (o r : value),
    Laws.textual o = true ->
    Parser.parse_loop opts cs pairs count o = Ok r -> Laws.textual r = true.
Proof.
  induction pairs as [|p pairs IH]; intros count o r Ho H.
  - now injection H as <-.
  - cbn [Parser.parse_loop] in H. apply bind_ok in H as (? & _ & H).
    destruct (parameterLimit opts <? count + 1); [now injection H as <-|].
    apply bind_ok in H as (o' & Ho' & H).
    eapply IH; [|exact H]. now apply parse_pair_textual in Ho'.
Qed.

End Leaves.


(** Under the strategy 'combine' a key that names a function inherited
    from Object.prototype has that function combined with its value: the
    result is no tree of values.  Under 'last' the value takes its
    place. *)
Example inherited_name_combined :
  Parser.parse "toString=1" defaultParseOptions = Unmodelled /\
  Parser.parse "toString=1" (with_duplicates Last defaultParseOptions) =
    Ok (VObj [("toString", VStr "1")]) /\
  Parser.parse "toString=1" (with_duplicates First defaultParseOptions) = Ok (VObj []).
Proof. repeat split; vm_compute; reflexivity. Qed.

(** X18.  Without the coercion options the leaves of a parse result are
    strings: when parseNumbers, parseBooleans, parseDates and
    strictNullHandling are off and the strategy for duplicates is 'first'
    or 'last', every tree parse returns is made of mappings, sequences,
    strings and undefined (the holes of a sequence); no number, boolean,
    null or date appears in it.  The strategy 'combine' is left out: there
    a key such as toString, found on Object.prototype, puts a function
    into the result. *)
Theorem parse_leaves_are_strings (input : string) (opts : ParseOptions) (r : value) :
  parseNumbers opts = false ->
  parseBooleans opts = false ->
  parseDates opts = false ->
  strictNullHandling opts = false ->
  duplicates opts <> Combine ->
  Parser.parse input opts = Ok r ->
  Laws.textual r = true.
Proof.
  intros Hn Hb Hd Hs _. unfold Parser.parse. intros H.
  apply bind_ok in H as (? & _ & H).
  destruct (String.eqb input ""); [now injection H as <-|].
  apply bind_ok in H as ([cs pairs] & _ & H).
  now apply (parse_loop_textual opts Hn Hb Hd Hs cs pairs 0 (VObj []) r).
Qed.

Lemma parse_leaves_are_strings_witness :
  let opts := with_duplicates Last defaultParseOptions in
  parseNumbers opts = false /\
  parseBooleans opts = false /\
  parseDates opts = false /\
  strictNullHandling opts = false /\
  duplicates opts <> Combine /\
  Parser.parse "n=1&b=true&d=2023-01-01T00:00:00.000Z&e&l[2]=x&o[k]=1.5&toString=2" opts =
    Ok (VObj [("n", VStr "1"); ("b", VStr "true"); ("d", VStr "2023-01-01T00:00:00.000Z");
              ("e", VStr ""); ("l", VArr [VUndefined; VUndefined; VStr "x"]);
              ("o", VObj [("k", VStr "1.5")]); ("toString", VStr "2")]) /\
  Laws.textual
    (VObj [("n", VStr "1"); ("b", VStr "true"); ("d", VStr "2023-01-01T00:00:00.000Z");
           ("e", VStr ""); ("l", VArr [VUndefined; VUndefined; VStr "x"]);
           ("o", VObj [("k", VStr "1.5")]); ("toString", VStr "2")]) = true.
Proof.
  split; [reflexivity|]. split; [reflexivity|]. split; [reflexivity|].
  split; [reflexivity|]. split; [discriminate|]. split; [vm_compute; reflexivity|].
  apply (parse_leaves_are_strings
           "n=1&b=true&d=2023-01-01T00:00:00.000Z&e&l[2]=x&o[k]=1.5&toString=2"
           (with_duplicates Last defaultParseOptions));
    [reflexivity|reflexivity|reflexivity|reflexivity|discriminate|vm_compute; reflexivity].
Defined.

(** ** Strategies for duplicates *)
(** The defaults of parse with coercion, the comma option, a strategy for
    duplicates and strict null handling. *)
Section Variants.
Variables numbers booleans commas : bool.
Variable strategy : DuplicateStrategy.
Variable strict : bool.

Let vopts := with_duplicates strategy
               (with_comma commas
                  (with_strictNullHandling strict
                     (with_coercion numbers booleans defaultParseOptions))).

Lemma variant_parse_joined (pairs : list string) :
  Forall (fun a => Spec.all_chars Spec.pair_char a = true) pairs ->
  Forall (fun a => a <> "") pairs ->
  (length pairs <= 1000)%nat ->
  Parser.parse (Js.join "&" pairs) vopts =
  Spec.foldM (Parser.parse_pair vopts Utf8) pairs (VObj []).
Proof.
  intros Hchars Hne Hcount. destruct pairs as [|p0 pairs]; [reflexivity|].
  assert (Htext : String.eqb (Js.join "&" (p0 :: pairs)) "" = false).
  { apply String.eqb_neq. apply join_empty; [exact Hne|discriminate]. }
  unfold Parser.parse, vopts.
  cbn [validateParse with_duplicates with_comma with_strictNullHandling
       with_coercion defaultParseOptions arrayLimit depth
       parameterLimit decodeDotInKeys allowDots andb negb Z.ltb Z.compare bind].
  rewrite Htext. unfold Parser.split_pairs.
  cbn [with_duplicates with_comma with_strictNullHandling with_coercion
       defaultParseOptions ignoreQueryPrefix charsetSentinel charset
       delimiter andb bind Utils.splitByDelimiter].
  rewrite (trim_query _ (join_query _ Hchars)).
  assert (Hsome : p0 :: pairs <> []) by discriminate.
  rewrite (split_join _ Hsome Hchars). cbn [bind].
  rewrite parse_loop_from.
  match goal with
  | |- context [Z.to_nat (parameterLimit ?o - 0)] =>
      change (parameterLimit o) with 1000
  end.
  rewrite Z.sub_0_r, firstn_all2 by lia. reflexivity.
Qed.

Lemma variant_decodeKey (k : string) :
  Spec.well_formed k = true ->
  Parser.decodeKey (Encoding.rfc3986Encoder k) vopts Utf8 = Ok k.
Proof.
  intros Hk. unfold Parser.decodeKey.
  destruct (String.eqb (Encoding.rfc3986Encoder k) "") eqn:E.
  - apply String.eqb_eq in E. apply encoder_empty in E. now subst.
  - cbn [vopts with_duplicates with_comma with_strictNullHandling
         with_coercion decoder defaultParseOptions interpretNumericEntities bind
         Encoding.decode try_catch].
    now rewrite (defaultDecoder_encoder k Hk).
Qed.

Lemma indexOf_none (s : string) :
  Spec.all_chars Spec.token_char s = true -> Js.indexOf "=" s = None.
Proof.
  induction s as [|c s IH]; [reflexivity|]. cbn [Spec.all_chars]. intros H.
  apply andb_prop in H as [Hc Hs]. cbn [Js.indexOf].
  now rewrite is_prefix_char, (token_not_eq c Hc), (IH Hs).
Qed.

(** A pair that is a key alone. *)
Lemma variant_pair_bare (k : string) (result : value) :
  k <> "" ->
  Spec.well_formed k = true ->
  Parser.parse_pair vopts Utf8 (Encoding.rfc3986Encoder k) result =
  Parser.parseKeyValue result k (if strict then VNull else VStr "") vopts.
Proof.
  intros Hne Hk. unfold Parser.parse_pair.
  replace (String.eqb (Encoding.rfc3986Encoder k) "") with false.
  2:{ symmetry. apply String.eqb_neq. intros E. now apply encoder_empty in E. }
  rewrite (indexOf_none _ (encoder_token k)), (variant_decodeKey k Hk). cbn [bind].
  unfold Parser.decodeValue. cbn [String.eqb].
  change (strictNullHandling vopts) with strict.
  replace (String.eqb k "") with false by (symmetry; now apply String.eqb_neq).
  now destruct strict.
Qed.

Lemma variant_pair_encoded (k t : string) (result : value) :
  k <> "" ->
  Spec.well_formed k = true ->
  Spec.well_formed t = true ->
  Parser.parse_pair vopts Utf8
    (Encoding.rfc3986Encoder k +++ "=" +++ Encoding.rfc3986Encoder t) result =
  Parser.parseKeyValue result k
    (if strict && String.eqb t "" then VNull else Spec.convert numbers booleans t) vopts.
Proof.
  intros Hne Hk Ht. unfold Parser.parse_pair.
  replace (String.eqb (Encoding.rfc3986Encoder k +++ "=" +++ Encoding.rfc3986Encoder t) "")
    with false.
  2:{ symmetry. apply String.eqb_neq. intros E.
      apply (f_equal String.length) in E. rewrite !length_append in E.
      cbn in E. lia. }
  change ("=" +++ Encoding.rfc3986Encoder t) with (String "=" (Encoding.rfc3986Encoder t)).
  rewrite (indexOf_eq _ _ (encoder_token k)), take_append, drop_append.
  assert (Hvalue : Parser.decodeValue (Encoding.rfc3986Encoder t) vopts Utf8 =
                   Ok (if strict && String.eqb t "" then VNull
                       else Spec.convert numbers booleans t)).
  { unfold Parser.decodeValue.
    destruct (String.eqb (Encoding.rfc3986Encoder t) "") eqn:E.
    - apply String.eqb_eq in E. apply encoder_empty in E. subst.
      change (strictNullHandling vopts) with strict. now destruct strict.
    - assert (Ht' : String.eqb t "" = false).
      { destruct t; [discriminate E|reflexivity]. }
      rewrite Ht', andb_false_r.
      cbn [vopts with_duplicates with_comma with_strictNullHandling
           with_coercion decoder
           defaultParseOptions interpretNumericEntities bind Encoding.decode
           parseNumbers parseBooleans parseDates].
      rewrite (defaultDecoder_encoder t Ht), autoConvert_convert. reflexivity. }
  rewrite (variant_decodeKey k Hk), Hvalue. cbn [bind].
  replace (String.eqb k "") with false; [reflexivity|].
  symmetry. now apply String.eqb_neq.
Qed.

Lemma variant_path (k : string) :
  Spec.key_ok k = true -> Parser.parseKeyPath k vopts = [k].
Proof.
  intros Hk. destruct (key_ok_facts k Hk) as (Hne & _ & _ & _ & _ & _ & Hbr).
  rewrite <- (append_nil_r k) at 1.
  apply (parseKeyPath_render vopts k []); auto.
  intros ->. discriminate Hne.
Qed.

(** A path of one plain segment goes to [handleDuplicateKey]. *)
Lemma variant_set_single (x : value) (k : string) (o : value) :
  Spec.key_ok k = true ->
  Parser.setNestedValue vopts x [k] o 0 = Parser.handleDuplicateKey o k x vopts.
Proof.
  intros Hk. destruct (key_ok_facts k Hk) as (Hne & Hpp & _).
  cbn [Parser.setNestedValue]. rewrite Hne, Hpp, andb_false_r. reflexivity.
Qed.

Lemma variant_fresh (x : value) (k : string) (built : props) :
  Spec.key_ok k = true -> lookup k built = None ->
  Parser.handleDuplicateKey (VObj built) k x vopts = Ok (VObj (built ++ [(k, x)])).
Proof.
  intros Hk Hb. destruct (key_ok_facts k Hk) as (_ & Hpp & Hinh & Hproto & _).
  unfold Parser.handleDuplicateKey, Obj.inherited, Obj.get.
  rewrite Hb, Hinh, andb_false_r.
  cbn [bind Utils.is_undefined]. unfold Utils.safeSetProperty, Obj.set.
  rewrite Hpp, Hproto, !andb_false_r. now rewrite (assign_absent k x built Hb).
Qed.

(** A second value for a key: kept out, or put in the place of the
    first. *)
Lemma variant_again (x y : value) (k : string) (built : props) :
  Spec.key_ok k = true -> lookup k built = Some y -> Utils.is_undefined y = false ->
  Parser.handleDuplicateKey (VObj built) k x vopts =
  match strategy with
  | First => Ok (VObj built)
  | Last => Ok (VObj (assign k x built))
  | Combine =>
      match y with
      | VArr l => Ok (VObj (assign k (VArr (l ++ [x])) built))
      | _ => Ok (VObj (assign k (VArr [y; x]) built))
      end
  end.
Proof.
  intros Hk Hb Hy. destruct (key_ok_facts k Hk) as (_ & Hpp & Hinh & Hproto & _).
  unfold Parser.handleDuplicateKey, Obj.inherited, Obj.get. rewrite Hb.
  cbn [bind]. rewrite Hy.
  cbn [vopts duplicates with_duplicates].
  unfold Utils.safeSetProperty, Obj.set, Parser.put.
  rewrite Hpp, Hproto, !andb_false_r.
  destruct strategy; [|reflexivity|reflexivity]. now destruct y.
Qed.

Lemma variant_leaf_pair (k : string) (item o : value) :
  commas = false -> strict = false ->
  Spec.key_ok k = true -> Spec.leaf_ok item = true ->
  Parser.parse_pair vopts Utf8 (Laws.flat_pair k item) o =
  Parser.handleDuplicateKey o k (Spec.conv numbers booleans item) vopts.
Proof.
  intros Hc Hs Hk Hitem. destruct (key_ok_facts k Hk) as (Hne & _ & _ & _ & _ & Hwf & _).
  unfold Laws.flat_pair.
  rewrite (variant_pair_encoded k _ o); [|intros ->; discriminate Hne|exact Hwf|
                                          now apply leaf_text_well_formed].
  rewrite Hs. cbn [andb].
  rewrite parseKeyValue_plain by (cbn [vopts comma with_duplicates with_comma];
                                  exact Hc).
  rewrite (variant_path k Hk). now apply variant_set_single.
Qed.

End Variants.

Section Duplicates.
Variables numbers booleans : bool.

Let conv := Spec.conv numbers booleans.
Let opts_of (s : DuplicateStrategy) : ParseOptions :=
  with_duplicates s (with_coercion numbers booleans defaultParseOptions).

Lemma conv_is_defined (item : value) : Utils.is_undefined (conv item) = false.
Proof.
  unfold conv, Spec.conv. pose proof (convert_leaf numbers booleans (Spec.leaf_text item)) as H.
  now destruct (Spec.convert numbers booleans (Spec.leaf_text item)).
Qed.

Lemma lookup_app (k : string) (a b : props) :
  lookup k (a ++ b) = match lookup k a with Some x => Some x | None => lookup k b end.
Proof.
  induction a as [|[k' x] a IH]; [reflexivity|]. cbn [app lookup].
  destruct (String.eqb k k'); [reflexivity|exact IH].
Qed.

Lemma leaf_pair_step (s : DuplicateStrategy) (k : string) (item o : value) :
  Spec.key_ok k = true -> Spec.leaf_ok item = true ->
  Parser.parse_pair (opts_of s) Utf8 (Laws.flat_pair k item) o =
  Parser.handleDuplicateKey o k (conv item) (opts_of s).
Proof.
  intros Hk Hitem.
  exact (variant_leaf_pair numbers booleans false s false k item o eq_refl eq_refl Hk Hitem).
Qed.

(** The first value of a key stays. *)
Lemma fold_first (ps : props) :
  Laws.plain_pairs ps = true ->
  forall built,
    Forall (fun p => Utils.is_undefined (snd p) = false) built ->
    exists r,
      Spec.foldM (Parser.parse_pair (opts_of First) Utf8)
                 (map (fun p => Laws.flat_pair (fst p) (snd p)) ps) (VObj built) = Ok (VObj r) /\
      forall k, lookup k r = match lookup k built with
                             | Some y => Some y
                             | None => option_map conv (lookup k ps)
                             end.
Proof.
  unfold Laws.plain_pairs. induction ps as [|[k item] ps IH]; intros Hps built Hbuilt.
  - exists built. split; [reflexivity|]. intros k. now destruct (lookup k built).
  - cbn [forallb fst snd] in Hps. apply andb_prop in Hps as [Hp Hps].
    apply andb_prop in Hp as [Hk Hitem].
    cbn [map Spec.foldM fst snd]. rewrite (leaf_pair_step First k item _ Hk Hitem).
    destruct (lookup k built) as [y|] eqn:Hb.
    + assert (Hy : Utils.is_undefined y = false).
      { clear - Hb Hbuilt. induction Hbuilt as [|[k' x] built Hx _ IHb]; [discriminate|].
        cbn [lookup] in Hb. destruct (String.eqb k k'); [now injection Hb as <-|auto]. }
      rewrite (variant_again numbers booleans false First false _ y k built Hk Hb Hy). cbn [bind].
      destruct (IH Hps built Hbuilt) as (r & Hr & Hlook). exists r. split; [exact Hr|].
      intros k0. rewrite Hlook. cbn [lookup].
      destruct (lookup k0 built) eqn:E; [reflexivity|].
      destruct (String.eqb k0 k) eqn:E0; [|reflexivity].
      apply String.eqb_eq in E0. subst k0. congruence.
    + rewrite (variant_fresh numbers booleans false First false _ k built Hk Hb). cbn [bind].
      destruct (IH Hps (built ++ [(k, conv item)])) as (r & Hr & Hlook).
      { apply Forall_app. split; [exact Hbuilt|]. constructor; [|constructor].
        apply conv_is_defined. }
      exists r. split; [exact Hr|]. intros k0. rewrite Hlook, lookup_app. cbn [lookup].
      destruct (lookup k0 built) eqn:E; [reflexivity|].
      now destruct (String.eqb k0 k).
Qed.

(** The last value of a key takes the place of the earlier ones. *)
Lemma fold_last (ps : props) :
  Laws.plain_pairs ps = true ->
  forall built,
    Forall (fun p => Utils.is_undefined (snd p) = false) built ->
    exists r,
      Spec.foldM (Parser.parse_pair (opts_of Last) Utf8)
                 (map (fun p => Laws.flat_pair (fst p) (snd p)) ps) (VObj built) = Ok (VObj r) /\
      forall k, lookup k r = match lookup k (rev ps) with
                             | Some x => Some (conv x)
                             | None => lookup k built
                             end.
Proof.
  unfold Laws.plain_pairs. induction ps as [|[k item] ps IH]; intros Hps built Hbuilt.
  - exists built. split; reflexivity.
  - cbn [forallb fst snd] in Hps. apply andb_prop in Hps as [Hp Hps].
    apply andb_prop in Hp as [Hk Hitem].
    cbn [map Spec.foldM fst snd]. rewrite (leaf_pair_step Last k item _ Hk Hitem).
    assert (Hstep : Parser.handleDuplicateKey (VObj built) k (conv item) (opts_of Last)
                    = Ok (VObj (assign k (conv item) built))).
    { destruct (lookup k built) as [y|] eqn:Hb.
      - assert (Hy : Utils.is_undefined y = false).
        { clear - Hb Hbuilt. induction Hbuilt as [|[k' x] built Hx _ IHb]; [discriminate|].
          cbn [lookup] in Hb. destruct (String.eqb k k'); [now injection Hb as <-|auto]. }
        exact (variant_again numbers booleans false Last false _ y k built Hk Hb Hy).
      - rewrite (assign_absent k _ built Hb).
        exact (variant_fresh numbers booleans false Last false _ k built Hk Hb). }
    rewrite Hstep. cbn [bind].
    destruct (IH Hps (assign k (conv item) built)) as (r & Hr & Hlook).
    { clear - Hbuilt conv. induction Hbuilt as [|[k' x] built Hx Hrest IHb]; cbn [assign].
      - constructor; [apply conv_is_defined|constructor].
      - destruct (String.eqb k k'); constructor;
          [apply conv_is_defined|exact Hrest|exact Hx|exact IHb]. }
    exists r. split; [exact Hr|]. intros k0. rewrite Hlook. cbn [rev].
    rewrite lookup_app, lookup_assign. cbn [lookup].
    destruct (lookup k0 (rev ps)); [reflexivity|].
    now destruct (String.eqb k0 k).
Qed.

Lemma query_of_pairs (s : DuplicateStrategy) (ps : props) :
  Laws.plain_pairs ps = true ->
  (length ps <= 1000)%nat ->
  Parser.parse (Laws.query_of ps) (opts_of s) =
  Spec.foldM (Parser.parse_pair (opts_of s) Utf8)
             (map (fun p => Laws.flat_pair (fst p) (snd p)) ps) (VObj []).
Proof.
  intros Hps Hcount. unfold Laws.query_of.
  apply (variant_parse_joined numbers booleans false s false).
  - apply Forall_forall. intros a Ha. apply in_map_iff in Ha as (p & <- & _).
    apply flat_pair_chars.
  - apply Forall_forall. intros a Ha. apply in_map_iff in Ha as (p & <- & _).
    apply flat_pair_chars.
  - now rewrite length_map.
Qed.

End Duplicates.

(** X19.  The strategies 'first' and 'last'.  On a query of at most 1000
    pairs with plain keys, in which a key may come many times, parse with
    duplicates 'first' gives every key the value of its first pair, and
    with duplicates 'last' the value of its last pair (each as coerced
    from its text). *)
Theorem duplicates_first_last (numbers booleans : bool) (ps : props) :
  Laws.plain_pairs ps = true ->
  (length ps <= 1000)%nat ->
  exists first last,
    Parser.parse (Laws.query_of ps)
      (with_duplicates First (with_coercion numbers booleans defaultParseOptions))
      = Ok (VObj first) /\
    Parser.parse (Laws.query_of ps)
      (with_duplicates Last (with_coercion numbers booleans defaultParseOptions))
      = Ok (VObj last) /\
    forall k,
      lookup k first = option_map (Spec.coerce numbers booleans) (lookup k ps) /\
      lookup k last = option_map (Spec.coerce numbers booleans) (lookup k (rev ps)).
Proof.
  intros Hps Hcount.
  destruct (fold_first numbers booleans ps Hps [] ltac:(constructor)) as (first & Hf & Hlf).
  destruct (fold_last numbers booleans ps Hps [] ltac:(constructor)) as (last & Hl & Hll).
  exists first, last. rewrite !(query_of_pairs numbers booleans _ ps Hps Hcount).
  split; [exact Hf|]. split; [exact Hl|]. intros k.
  assert (Hleaf : forall l, Laws.plain_pairs l = true ->
            option_map (Spec.conv numbers booleans) (lookup k l) =
            option_map (Spec.coerce numbers booleans) (lookup k l)).
  { intros l Hl'. unfold Laws.plain_pairs in Hl'.
    induction l as [|[k' x] l IHl]; [reflexivity|].
    cbn [forallb fst snd] in Hl'. apply andb_prop in Hl' as [Hp Hl'].
    apply andb_prop in Hp as [_ Hx]. cbn [lookup].
    destruct (String.eqb k k'); [|now apply IHl].
    cbn [option_map]. f_equal. symmetry. now apply coerce_leaf. }
  split.
  - rewrite Hlf. cbn [lookup]. now apply Hleaf.
  - rewrite Hll. cbn [lookup]. rewrite <- Hleaf.
    + now destruct (lookup k (rev ps)).
    + unfold Laws.plain_pairs in *. rewrite forallb_forall in *.
      intros p Hp. apply Hps. now apply in_rev.
Qed.

Lemma duplicates_first_last_witness :
  let ps := [("a", VStr "1"); ("b", VStr "x y"); ("a", VStr "2"); ("a", VStr "3")] in
  Laws.plain_pairs ps = true /\
  (length ps <= 1000)%nat /\
  Laws.query_of ps = "a=1&b=x%20y&a=2&a=3" /\
  Parser.parse "a=1&b=x%20y&a=2&a=3"
    (with_duplicates First (with_coercion true false defaultParseOptions))
    = Ok (VObj [("a", VNum (Js.Num 1 0)); ("b", VStr "x y")]) /\
  Parser.parse "a=1&b=x%20y&a=2&a=3"
    (with_duplicates Last (with_coercion true false defaultParseOptions))
    = Ok (VObj [("a", VNum (Js.Num 3 0)); ("b", VStr "x y")]) /\
  exists first last,
    Parser.parse (Laws.query_of ps)
      (with_duplicates First (with_coercion true false defaultParseOptions))
      = Ok (VObj first) /\
    Parser.parse (Laws.query_of ps)
      (with_duplicates Last (with_coercion true false defaultParseOptions))
      = Ok (VObj last) /\
    forall k,
      lookup k first = option_map (Spec.coerce true false) (lookup k ps) /\
      lookup k last = option_map (Spec.coerce true false) (lookup k (rev ps)).
Proof.
  split; [vm_compute; reflexivity|]. split; [vm_compute; lia|].
  split; [vm_compute; reflexivity|]. split; [vm_compute; reflexivity|].
  split; [vm_compute; reflexivity|].
  apply (duplicates_first_last true false
           [("a", VStr "1"); ("b", VStr "x y"); ("a", VStr "2"); ("a", VStr "3")]);
    [vm_compute; reflexivity|vm_compute; lia].
Defined.

(** ** The comma format, there and back *)
Section CommaEmit.

Let sopts := with_arrayFormat Comma defaultStringifyOptions.

Lemma per_char_app (f : ascii -> string) (a b : string) :
  Laws.per_char f (a +++ b) = Laws.per_char f a +++ Laws.per_char f b.
Proof.
  induction a as [|c a IH]; [reflexivity|].
  cbn [String.append Laws.per_char]. now rewrite IH, append_assoc.
Qed.

Lemma encoder_app (a b : string) :
  Encoding.rfc3986Encoder (a +++ b) = Encoding.rfc3986Encoder a +++ Encoding.rfc3986Encoder b.
Proof. rewrite !encoder_per_char. apply per_char_app. Qed.

Lemma encoder_join (l : list string) :
  Js.join (Encoding.rfc3986Encoder ",") (map Encoding.rfc3986Encoder l) =
  Encoding.rfc3986Encoder (Js.join "," l).
Proof.
  induction l as [|a l IH]; [reflexivity|]. destruct l as [|b l]; [reflexivity|].
  cbn [map] in *. rewrite !join_cons, IH, !encoder_app. reflexivity.
Qed.

Lemma comma_values_leaves (items : list value) :
  Forall (fun x => Spec.is_leaf x = true) items ->
  Stringifier.comma_values items Encoding.rfc3986Encoder sopts =
  Ok (Js.join (Encoding.rfc3986Encoder ",")
              (map Encoding.rfc3986Encoder (map Spec.leaf_text items))).
Proof.
  intros Hall. unfold Stringifier.comma_values.
  assert (H : Parser.mapM
                (fun v => let* text := Stringifier.String_of v in
                          Stringifier.encodeValue text Encoding.rfc3986Encoder sopts)
                (List.filter (fun v => negb (Utils.is_undefined v)) items)
              = Ok (map Encoding.rfc3986Encoder (map Spec.leaf_text items))).
  { induction Hall as [|x items Hx _ IH]; [reflexivity|].
    cbn [List.filter map]. replace (Utils.is_undefined x) with false by (now destruct x).
    cbn [negb Parser.mapM]. rewrite IH.
    destruct x; try discriminate Hx; reflexivity. }
  rewrite H. reflexivity.
Qed.

Lemma comma_value_pairs (key : string) (v : value) (kp : list string) :
  Laws.comma_value_ok v = true ->
  Stringifier.stringifyValue Encoding.rfc3986Encoder sopts key v kp =
  Ok [Laws.comma_pair (key, v)].
Proof.
  intros Hv. unfold Laws.comma_pair. cbn [fst snd].
  destruct v as [| | | | | |items|]; try discriminate Hv; try reflexivity.
  cbn [Laws.comma_value_ok] in Hv. apply andb_prop in Hv as [Hlen Hall].
  apply Nat.leb_le in Hlen.
  assert (Hleaves : Forall (fun x => Spec.is_leaf x = true) items).
  { rewrite forallb_forall in Hall. apply Forall_forall. intros x Hx.
    specialize (Hall x Hx). unfold Laws.item_ok, Laws.piece_ok in Hall.
    apply andb_prop in Hall as [Hall _]. apply andb_prop in Hall as [Hall _].
    now apply leaf_ok_leaf. }
  cbn [Stringifier.stringifyValue Laws.comma_text]. unfold Stringifier.stringifyArray.
  destruct items as [|x items]; [cbn in Hlen; lia|].
  cbn [length Nat.eqb Stringifier.stringifyArray_loop].
  replace (Utils.is_undefined x) with false
    by (inversion Hleaves as [|? ? Hx _]; now destruct x).
  cbn [sopts with_arrayFormat arrayFormat N.eqb].
  change (mkStringifyOptions _ _ _ Comma _ _ _ _ _ _ _ _ _ _ _ _ _ _ _) with sopts.
  rewrite (comma_values_leaves (x :: items) Hleaves). cbn [bind].
  rewrite encoder_join. reflexivity.
Qed.

Lemma comma_value_defined (v : value) :
  Laws.comma_value_ok v = true -> Utils.is_undefined v = false.
Proof. destruct v; try discriminate; reflexivity. Qed.

Lemma comma_root_loop (ps : props) :
  Spec.distinct (map fst ps) = true ->
  forall post pre,
    ps = pre ++ post ->
    Forall (fun p => Laws.comma_value_ok (snd p) = true) post ->
    Stringifier.stringify_loop ps (map fst post) Encoding.rfc3986Encoder sopts
    = Ok (map Laws.comma_pair post).
Proof.
  intros Hd. induction post as [|[k v] post IH]; intros pre Hps Hw; [reflexivity|].
  inversion Hw as [|? ? Hv Hpost]; subst. cbn [fst snd] in Hv.
  assert (Hk : existsb (String.eqb k) (map fst pre) = false).
  { rewrite map_app in Hd. now apply distinct_head in Hd. }
  cbn [map fst Stringifier.stringify_loop].
  rewrite (lookup_middle pre post k v Hk).
  specialize (IH (pre ++ [(k, v)])). rewrite <- app_assoc in IH.
  specialize (IH eq_refl Hpost). cbn [app] in IH. rewrite IH. clear IH.
  pose proof (comma_value_defined v Hv) as Hu.
  change (skipNulls sopts) with false. cbn [andb].
  rewrite (comma_value_pairs k v [] Hv).
  destruct v; try discriminate Hu; reflexivity.
Qed.

(** What stringify returns under the comma format. *)
Lemma comma_text_of (ps : props) :
  Laws.comma_flat ps = true ->
  Stringifier.stringify (VObj ps) sopts = Ok (Js.join "&" (map Laws.comma_pair ps)).
Proof.
  intros H. unfold Laws.comma_flat in H. apply andb_prop in H as [Hd Hall].
  destruct (props_ok_split _ _ Hall) as [Hk Hv].
  unfold Stringifier.stringify, Stringifier.emit.
  cbn [sopts validateStringify with_arrayFormat defaultStringifyOptions encodeDotInKeys
       andb bind filter Stringifier.applyFilter sort Stringifier.sort_keys Types.encode
       format Encoding.getEncoder s_delimiter s_charsetSentinel addQueryPrefix].
  rewrite (Object_keys_named ps Hk).
  change (mkStringifyOptions _ _ _ Comma _ _ _ _ _ _ _ _ _ _ _ _ _ _ _) with sopts.
  now rewrite (comma_root_loop ps Hd ps [] eq_refl Hv).
Qed.

End CommaEmit.

Section CommaParse.
Variables numbers booleans : bool.

Local Abbreviation copts :=
  (with_duplicates Combine
     (with_comma true
        (with_strictNullHandling false
           (with_coercion numbers booleans defaultParseOptions)))).
Let conv := Spec.conv numbers booleans.

(** A part of a text split at the dots holds every other character of
    the text. *)
Lemma split_keeps (c : ascii) (s : string) :
  Ascii.eqb "." c = false ->
  Js.includes (String c "") s = true ->
  Exists (fun part => Js.includes (String c "") part = true) (Js.split_from "." s 0).
Proof.
  intros Hc. induction s as [|a s IH]; [discriminate|].
  rewrite includes_cons. cbn [Js.split_from]. rewrite is_prefix_char.
  cbn [String.length Nat.sub]. intros H.
  destruct (Ascii.eqb "." a) eqn:Ea.
  - apply Exists_cons_tl. apply IH. apply orb_prop in H as [H|H]; [|exact H].
    apply Ascii.eqb_eq in Ea, H. subst. now rewrite Ascii.eqb_refl in Hc.
  - destruct (Js.split_from "." s 0) as [|h t] eqn:Es.
    + apply Exists_cons_hd. rewrite includes_cons.
      apply orb_prop in H as [->|H]; [reflexivity|].
      specialize (IH H). inversion IH.
    + apply orb_prop in H as [H|H].
      * apply Exists_cons_hd. rewrite includes_cons, H. reflexivity.
      * specialize (IH H). inversion IH as [? ? Hh|? ? Ht]; subst.
        -- apply Exists_cons_hd. rewrite includes_cons, Hh. apply orb_true_r.
        -- now apply Exists_cons_tl.
Qed.

Lemma digits_no_comma (s : string) : Js.all_digits s = true -> Js.includes "," s = false.
Proof.
  induction s as [|c s IH]; [reflexivity|]. cbn [Js.all_digits]. intros H.
  apply andb_prop in H as [Hc Hs]. rewrite includes_cons, (IH Hs), orb_false_r.
  clear - Hc. destruct c as [[] [] [] [] [] [] [] []]; try discriminate Hc; reflexivity.
Qed.

Lemma digits1_no_comma (s : string) : Js.is_digits1 s = true -> Js.includes "," s = false.
Proof. destruct s; [discriminate|]. apply digits_no_comma. Qed.

Lemma numeric_no_comma (s : string) :
  Js.includes "," s = true -> Js.numeric_regex s = false.
Proof.
  intros H. unfold Js.numeric_regex.
  assert (Hbody : Js.includes ","
                    match s with String "-" r => r | _ => s end = true).
  { destruct s as [|c r]; [discriminate|].
    destruct (Ascii.eqb c "-") eqn:E.
    - apply Ascii.eqb_eq in E. subst c. rewrite includes_cons in H. exact H.
    - destruct c as [[] [] [] [] [] [] [] []]; try discriminate E; exact H. }
  pose proof (split_keeps "," _ eq_refl Hbody) as Hex.
  destruct (Js.split_from "." match s with String "-" r => r | _ => s end 0)
    as [|i [|f [|? ?]]]; try reflexivity.
  - inversion Hex as [? ? Hi|? ? Hn]; subst; [|inversion Hn].
    destruct (Js.is_digits1 i) eqn:E; [|reflexivity].
    apply digits1_no_comma in E. congruence.
  - inversion Hex as [? ? Hi|? ? Hn]; subst.
    + destruct (Js.is_digits1 i) eqn:E; [|reflexivity].
      apply digits1_no_comma in E. congruence.
    + inversion Hn as [? ? Hf|? ? Hn']; subst; [|inversion Hn'].
      destruct (Js.is_digits1 f) eqn:E; [|now rewrite andb_false_r].
      apply digits1_no_comma in E. congruence.
Qed.

(** A text with a comma is left as a string by the conversion. *)
Lemma convert_comma (s : string) :
  Js.includes "," s = true -> Spec.convert numbers booleans s = VStr s.
Proof.
  intros H. unfold Spec.convert, Utils.autoConvert, Utils.isNumericString.
  rewrite (numeric_no_comma s H). cbn [andb]. rewrite andb_false_r.
  destruct (String.eqb s ""); [reflexivity|].
  assert (Hb : Utils.isBooleanString s = false).
  { unfold Utils.isBooleanString.
    destruct (String.eqb s "true") eqn:E1.
    - apply String.eqb_eq in E1. subst. discriminate H.
    - destruct (String.eqb s "false") eqn:E2; [|reflexivity].
      apply String.eqb_eq in E2. subst. discriminate H. }
  rewrite Hb, andb_false_r. reflexivity.
Qed.

(** The conversion gives a string only as the text itself. *)
Lemma convert_string (t s : string) :
  Spec.convert numbers booleans t = VStr s -> s = t.
Proof.
  unfold Spec.convert, Utils.autoConvert.
  destruct (String.eqb t ""); [intros H; now injection H|].
  destruct (booleans && Utils.isBooleanString t); [discriminate|].
  destruct (numbers && Utils.isNumericString t).
  - destruct (Js.Number t); [discriminate|]. intros H. now injection H.
  - intros H. now injection H.
Qed.

Lemma split_comma_single (a : string) :
  Js.includes "," a = false -> Js.split_from "," a 0 = [a].
Proof.
  induction a as [|c a IH]; [reflexivity|]. rewrite includes_cons. intros H.
  apply orb_false_elim in H as [Hc Ha]. cbn [Js.split_from].
  now rewrite is_prefix_char, Hc, (IH Ha).
Qed.

Lemma split_comma_cons (a rest : string) :
  Js.includes "," a = false ->
  Js.split_from "," (a +++ String "," rest) 0 = a :: Js.split_from "," rest 0.
Proof.
  induction a as [|c a IH]; [reflexivity|]. rewrite includes_cons. intros H.
  apply orb_false_elim in H as [Hc Ha]. cbn [String.append Js.split_from].
  now rewrite is_prefix_char, Hc, (IH Ha).
Qed.

Lemma split_comma_join (l : list string) :
  l <> [] ->
  Forall (fun a => Js.includes "," a = false) l ->
  Js.split "," (Js.join "," l) = l.
Proof.
  unfold Js.split. intros Hne Hl. induction Hl as [|a l Ha Hl IH]; [congruence|].
  destruct l as [|b l]; [now apply split_comma_single|].
  rewrite join_cons.
  change ("," +++ Js.join "," (b :: l)) with (String "," (Js.join "," (b :: l))).
  rewrite (split_comma_cons a _ Ha), IH; [reflexivity|discriminate].
Qed.

Lemma includes_app (c : ascii) (a b : string) :
  Js.includes (String c "") (a +++ b) =
  Js.includes (String c "") a || Js.includes (String c "") b.
Proof.
  induction a as [|x a IH]; [reflexivity|].
  cbn [String.append]. rewrite !includes_cons, IH. apply orb_assoc.
Qed.

Lemma join_has_comma (a b : string) (l : list string) :
  Js.includes "," (Js.join "," (a :: b :: l)) = true.
Proof.
  rewrite join_cons, includes_app.
  change ("," +++ Js.join "," (b :: l)) with (String "," (Js.join "," (b :: l))).
  rewrite includes_cons. cbn [Ascii.eqb Bool.eqb]. apply orb_true_r.
Qed.

Lemma join_well_formed (l : list string) :
  Forall (fun a => Spec.well_formed a = true) l ->
  Spec.well_formed (Js.join "," l) = true.
Proof.
  induction 1 as [|a l Ha Hl IH]; [reflexivity|].
  destruct l as [|b l]; [exact Ha|]. rewrite join_cons.
  apply well_formed_app; [exact Ha|]. apply (well_formed_app ","); [reflexivity|exact IH].
Qed.

Lemma comma_text_well_formed (v : value) :
  Laws.comma_value_ok v = true -> Spec.well_formed (Laws.comma_text v) = true.
Proof.
  intros Hv. destruct v as [| | | | | |items|]; try discriminate Hv;
    try (cbn [Laws.comma_value_ok] in Hv; unfold Laws.piece_ok in Hv;
         apply andb_prop in Hv as [Hv _]; now apply leaf_text_well_formed).
  cbn [Laws.comma_value_ok] in Hv. apply andb_prop in Hv as [_ Hall].
  cbn [Laws.comma_text]. apply join_well_formed.
  rewrite forallb_forall in Hall. apply Forall_forall. intros t Ht.
  apply in_map_iff in Ht as (x & <- & Hx). specialize (Hall x Hx).
  unfold Laws.item_ok, Laws.piece_ok in Hall.
  apply andb_prop in Hall as [Hall _]. apply andb_prop in Hall as [Hall _].
  now apply leaf_text_well_formed.
Qed.

(** What [parseKeyValue] stores for the text of a value. *)
Lemma comma_value_parsed (o : value) (k : string) (v : value) :
  Laws.comma_value_ok v = true ->
  Parser.parseKeyValue o k (Spec.convert numbers booleans (Laws.comma_text v)) copts =
  Parser.setNestedValue copts (Spec.coerce numbers booleans v)
                        (Parser.parseKeyPath k copts) o 0.
Proof.
  intros Hv. unfold Parser.parseKeyValue.
  change (comma copts) with true. cbn [andb].
  change (parseNumbers copts) with numbers. change (parseBooleans copts) with booleans.
  change (parseDates copts) with false.
  destruct v as [| | | | | |items|]; try discriminate Hv.
  1-3: cbn [Laws.comma_value_ok] in Hv; unfold Laws.piece_ok in Hv;
       apply andb_prop in Hv as [_ Hv]; apply negb_true_iff in Hv;
       cbn [Laws.comma_text Spec.coerce];
       destruct (Spec.convert numbers booleans _) eqn:E; try reflexivity;
       apply convert_string in E; subst; rewrite Hv; reflexivity.
  cbn [Laws.comma_value_ok] in Hv. apply andb_prop in Hv as [Hlen Hall].
  apply Nat.leb_le in Hlen. cbn [Laws.comma_text Spec.coerce].
  destruct items as [|x [|y items]]; try (cbn in Hlen; lia).
  set (l := x :: y :: items) in *.
  assert (Hhas : Js.includes "," (Js.join "," (map Spec.leaf_text l)) = true)
    by apply join_has_comma.
  rewrite (convert_comma _ Hhas), Hhas.
  assert (Hparts : Forall (fun a => Js.includes "," a = false) (map Spec.leaf_text l)).
  { rewrite forallb_forall in Hall. apply Forall_forall. intros t Ht.
    apply in_map_iff in Ht as (z & <- & Hz). specialize (Hall z Hz).
    unfold Laws.item_ok, Laws.piece_ok in Hall.
    apply andb_prop in Hall as [Hall _]. apply andb_prop in Hall as [_ Hall].
    now apply negb_true_iff. }
  assert (Hsome : map Spec.leaf_text l <> []) by (unfold l; discriminate).
  rewrite (split_comma_join _ Hsome Hparts).
  assert (Hitems : Parser.mapM (fun piece => Utils.autoConvert (Js.trim piece)
                                               numbers booleans false)
                               (map Spec.leaf_text l)
                   = Ok (map (Spec.coerce numbers booleans) l)).
  { clearbody l. clear - Hall. induction l as [|z l IH]; [reflexivity|].
    cbn [forallb] in Hall. apply andb_prop in Hall as [Hz Hall].
    unfold Laws.item_ok, Laws.piece_ok in Hz.
    apply andb_prop in Hz as [Hz Htrim]. apply andb_prop in Hz as [Hleaf _].
    apply String.eqb_eq in Htrim.
    cbn [map Parser.mapM]. rewrite Htrim, autoConvert_convert, (IH Hall). cbn [bind].
    f_equal. f_equal. destruct z; try discriminate Hleaf; reflexivity. }
  rewrite Hitems. reflexivity.
Qed.

Lemma comma_pair_chars (p : string * value) :
  Spec.all_chars Spec.pair_char (Laws.comma_pair p) = true /\ Laws.comma_pair p <> "".
Proof.
  exact (flat_pair_chars (fst p) (VStr (Laws.comma_text (snd p)))).
Qed.

Lemma comma_fold (ps : props) :
  Spec.distinct (map fst ps) = true ->
  forall post pre,
    ps = pre ++ post ->
    Forall (fun p => Spec.key_ok (fst p) = true) post ->
    Forall (fun p => Laws.comma_value_ok (snd p) = true) post ->
    Spec.foldM (Parser.parse_pair copts Utf8) (map Laws.comma_pair post)
               (VObj (map (fun p => (fst p, Spec.coerce numbers booleans (snd p))) pre))
    = Ok (VObj (map (fun p => (fst p, Spec.coerce numbers booleans (snd p))) ps)).
Proof.
  intros Hd. induction post as [|[k v] post IH]; intros pre Hps Hk Hv.
  - rewrite app_nil_r in Hps. now subst.
  - inversion Hk as [|? ? Hk0 Hkrest]; inversion Hv as [|? ? Hv0 Hvrest]; subst.
    cbn [fst snd] in Hk0, Hv0.
    destruct (key_ok_facts k Hk0) as (Hne & _ & _ & _ & _ & Hwf & _).
    assert (Habsent : lookup k (map (fun p => (fst p, Spec.coerce numbers booleans (snd p))) pre)
                      = None).
    { rewrite (lookup_map (Spec.coerce numbers booleans)).
      assert (Hex : existsb (String.eqb k) (map fst pre) = false).
      { rewrite map_app in Hd. now apply distinct_head in Hd. }
      clear - Hex. induction pre as [|[k' x] pre IHp]; [reflexivity|].
      cbn [map existsb fst lookup] in *. apply orb_false_elim in Hex as [-> Hex].
      now apply IHp. }
    cbn [map Spec.foldM]. unfold Laws.comma_pair at 1. cbn [fst snd].
    rewrite (variant_pair_encoded numbers booleans true Combine false k _ _
               ltac:(intros ->; discriminate Hne) Hwf (comma_text_well_formed v Hv0)).
    cbn [andb].
    rewrite (comma_value_parsed _ k v Hv0).
    rewrite (variant_path numbers booleans true Combine false k Hk0).
    rewrite (variant_set_single numbers booleans true Combine false _ k _ Hk0).
    rewrite (variant_fresh numbers booleans true Combine false _ k _ Hk0 Habsent). cbn [bind].
    specialize (IH (pre ++ [(k, v)])). rewrite <- app_assoc in IH.
    specialize (IH eq_refl Hkrest Hvrest). rewrite map_app in IH. exact IH.
Qed.

Lemma comma_parse (ps : props) :
  Laws.comma_flat ps = true ->
  (length ps <= 1000)%nat ->
  Parser.parse (Js.join "&" (map Laws.comma_pair ps)) copts =
  Ok (Spec.coerce numbers booleans (VObj ps)).
Proof.
  intros H Hcount. unfold Laws.comma_flat in H. apply andb_prop in H as [Hd Hall].
  destruct (props_ok_split _ _ Hall) as [Hk Hv].
  rewrite (variant_parse_joined numbers booleans true Combine false).
  - apply (comma_fold ps Hd ps [] eq_refl Hk Hv).
  - apply Forall_forall. intros a Ha. apply in_map_iff in Ha as (p & <- & _).
    apply comma_pair_chars.
  - apply Forall_forall. intros a Ha. apply in_map_iff in Ha as (p & <- & _).
    apply comma_pair_chars.
  - now rewrite length_map.
Qed.

End CommaParse.

(** X20.  The comma format comes back when parse reads commas.  A mapping
    with distinct plain keys and at most 1000 of them, whose values are
    leaves or sequences of two or more leaves, no text holding a comma and
    no element of a sequence starting or ending with white space, is
    returned by parse with the comma option, up to the coercion of its
    leaves, from the text stringify writes for it with arrayFormat
    'comma'. *)
Theorem comma_round_trip (numbers booleans : bool) (ps : props) :
  Laws.comma_flat ps = true ->
  (length ps <= 1000)%nat ->
  exists text,
    Stringifier.stringify (VObj ps) (with_arrayFormat Comma defaultStringifyOptions)
      = Ok text /\
    Parser.parse text
      (with_comma true (with_coercion numbers booleans defaultParseOptions))
      = Ok (Spec.coerce numbers booleans (VObj ps)).
Proof.
  intros H Hcount. exists (Js.join "&" (map Laws.comma_pair ps)). split.
  - now apply comma_text_of.
  - now apply (comma_parse numbers booleans ps).
Qed.

Lemma comma_round_trip_witness :
  let ps := [("q", VStr "a b"); ("tags", VArr [VStr "x"; VStr "y z"; VStr ""]);
             ("n", VArr [VNum (Js.Num 1 0); VNum (Js.Num 25 1)])] in
  Laws.comma_flat ps = true /\
  (length ps <= 1000)%nat /\
  Stringifier.stringify (VObj ps) (with_arrayFormat Comma defaultStringifyOptions)
    = Ok "q=a%20b&tags=x%2Cy%20z%2C&n=1%2C2.5" /\
  exists text,
    Stringifier.stringify (VObj ps) (with_arrayFormat Comma defaultStringifyOptions)
      = Ok text /\
    Parser.parse text (with_comma true (with_coercion true false defaultParseOptions))
      = Ok (Spec.coerce true false (VObj ps)).
Proof.
  split; [vm_compute; reflexivity|]. split; [vm_compute; lia|].
  split; [vm_compute; reflexivity|].
  apply (comma_round_trip true false
           [("q", VStr "a b"); ("tags", VArr [VStr "x"; VStr "y z"; VStr ""]);
            ("n", VArr [VNum (Js.Num 1 0); VNum (Js.Num 25 1)])]);
    [vm_compute; reflexivity|vm_compute; lia].
Defined.

(** A sequence of one element does not come back under the comma format,
    and neither does a string that holds a comma. *)
Example comma_single_element :
  Stringifier.stringify (VObj [("a", VArr [VStr "b"])])
                        (with_arrayFormat Comma defaultStringifyOptions) = Ok "a=b" /\
  Parser.parse "a=b" (with_comma true defaultParseOptions)
    = Ok (VObj [("a", VStr "b")]) /\
  Stringifier.stringify (VObj [("a", VStr "b,c")])
                        (with_arrayFormat Comma defaultStringifyOptions) = Ok "a=b%2Cc" /\
  Parser.parse "a=b%2Cc" (with_comma true defaultParseOptions)
    = Ok (VObj [("a", VArr [VStr "b"; VStr "c"])]).
Proof. repeat split; vm_compute; reflexivity. Qed.

(** ** Strict null handling, there and back *)
Section StrictNulls.
Variables numbers booleans : bool.

Let sopts := with_strictNulls true defaultStringifyOptions.
Local Abbreviation kopts :=
  (with_duplicates Combine
     (with_comma false
        (with_strictNullHandling true
           (with_coercion numbers booleans defaultParseOptions)))).

Lemma null_value_pairs (key : string) (v : value) (kp : list string) :
  Laws.null_or_leaf v = true ->
  Stringifier.stringifyValue Encoding.rfc3986Encoder sopts key v kp =
  Ok [Laws.null_pair (key, v)].
Proof. intros Hv. destruct v; try discriminate Hv; reflexivity. Qed.

Lemma null_root_loop (ps : props) :
  Spec.distinct (map fst ps) = true ->
  forall post pre,
    ps = pre ++ post ->
    Forall (fun p => Laws.null_or_leaf (snd p) = true) post ->
    Stringifier.stringify_loop ps (map fst post) Encoding.rfc3986Encoder sopts
    = Ok (map Laws.null_pair post).
Proof.
  intros Hd. induction post as [|[k v] post IH]; intros pre Hps Hw; [reflexivity|].
  inversion Hw as [|? ? Hv Hpost]; subst. cbn [fst snd] in Hv.
  assert (Hk : existsb (String.eqb k) (map fst pre) = false).
  { rewrite map_app in Hd. now apply distinct_head in Hd. }
  cbn [map fst Stringifier.stringify_loop].
  rewrite (lookup_middle pre post k v Hk).
  specialize (IH (pre ++ [(k, v)])). rewrite <- app_assoc in IH.
  specialize (IH eq_refl Hpost). cbn [app] in IH. rewrite IH. clear IH.
  change (skipNulls sopts) with false. cbn [andb].
  rewrite (null_value_pairs k v [] Hv).
  destruct v; try discriminate Hv; reflexivity.
Qed.

Lemma null_text_of (ps : props) :
  Laws.null_flat ps = true ->
  Stringifier.stringify (VObj ps) sopts = Ok (Js.join "&" (map Laws.null_pair ps)).
Proof.
  intros H. unfold Laws.null_flat in H. apply andb_prop in H as [Hd Hall].
  destruct (props_ok_split _ _ Hall) as [Hk Hv].
  unfold Stringifier.stringify, Stringifier.emit.
  cbn [sopts with_strictNulls validateStringify defaultStringifyOptions
       encodeDotInKeys andb bind filter Stringifier.applyFilter sort
       Stringifier.sort_keys Types.encode
       format Encoding.getEncoder s_delimiter s_charsetSentinel addQueryPrefix].
  rewrite (Object_keys_named ps Hk).
  change (mkStringifyOptions _ _ _ _ _ _ _ _ _ _ _ _ _ _ _ _ _ _ true) with sopts.
  now rewrite (null_root_loop ps Hd ps [] eq_refl Hv).
Qed.

Lemma null_pair_chars (p : string * value) :
  fst p <> "" ->
  Spec.all_chars Spec.pair_char (Laws.null_pair p) = true /\ Laws.null_pair p <> "".
Proof.
  intros Hne. unfold Laws.null_pair.
  destruct (snd p); try apply flat_pair_chars. split.
  - apply (all_chars_weaken Spec.token_char); [|apply encoder_token].
    intros c Hc. unfold Spec.pair_char. now rewrite Hc.
  - intros E. now apply encoder_empty in E.
Qed.

Lemma null_pair_parsed (k : string) (v o : value) :
  Spec.key_ok k = true -> Laws.null_or_leaf v = true ->
  Parser.parse_pair kopts Utf8 (Laws.null_pair (k, v)) o =
  Parser.handleDuplicateKey o k (Spec.coerce numbers booleans v) kopts.
Proof.
  intros Hk Hv. destruct (key_ok_facts k Hk) as (Hne & _ & _ & _ & _ & Hwf & _).
  assert (Hne' : k <> "") by (intros ->; discriminate Hne).
  assert (Hset : forall x,
            Parser.parseKeyValue o k x kopts =
            Parser.handleDuplicateKey o k x kopts).
  { intros x. rewrite parseKeyValue_plain by reflexivity.
    rewrite (variant_path numbers booleans false Combine true k Hk).
    now apply (variant_set_single numbers booleans false Combine true). }
  unfold Laws.null_pair. cbn [fst snd].
  destruct v; try discriminate Hv.
  1: { rewrite (variant_pair_bare numbers booleans false Combine true k o Hne' Hwf).
       apply Hset. }
  all: cbn [Laws.null_or_leaf] in Hv; apply andb_prop in Hv as [Hleaf Hv];
       apply negb_true_iff in Hv; unfold Laws.flat_pair;
       rewrite (variant_pair_encoded numbers booleans false Combine true k _ o Hne' Hwf
                  (leaf_text_well_formed _ Hleaf));
       rewrite Hv; cbn [andb]; apply Hset.
Qed.

Lemma null_fold (ps : props) :
  Spec.distinct (map fst ps) = true ->
  forall post pre,
    ps = pre ++ post ->
    Forall (fun p => Spec.key_ok (fst p) = true) post ->
    Forall (fun p => Laws.null_or_leaf (snd p) = true) post ->
    Spec.foldM (Parser.parse_pair kopts Utf8) (map Laws.null_pair post)
               (VObj (map (fun p => (fst p, Spec.coerce numbers booleans (snd p))) pre))
    = Ok (VObj (map (fun p => (fst p, Spec.coerce numbers booleans (snd p))) ps)).
Proof.
  intros Hd. induction post as [|[k v] post IH]; intros pre Hps Hk Hv.
  - rewrite app_nil_r in Hps. now subst.
  - inversion Hk as [|? ? Hk0 Hkrest]; inversion Hv as [|? ? Hv0 Hvrest]; subst.
    cbn [fst snd] in Hk0, Hv0.
    assert (Habsent : lookup k (map (fun p => (fst p, Spec.coerce numbers booleans (snd p))) pre)
                      = None).
    { rewrite (lookup_map (Spec.coerce numbers booleans)).
      assert (Hex : existsb (String.eqb k) (map fst pre) = false).
      { rewrite map_app in Hd. now apply distinct_head in Hd. }
      clear - Hex. induction pre as [|[k' x] pre IHp]; [reflexivity|].
      cbn [map existsb fst lookup] in *. apply orb_false_elim in Hex as [-> Hex].
      now apply IHp. }
    cbn [map Spec.foldM]. rewrite (null_pair_parsed k v _ Hk0 Hv0).
    rewrite (variant_fresh numbers booleans false Combine true _ k _ Hk0 Habsent).
    cbn [bind].
    specialize (IH (pre ++ [(k, v)])). rewrite <- app_assoc in IH.
    specialize (IH eq_refl Hkrest Hvrest). rewrite map_app in IH. exact IH.
Qed.

Lemma null_parse (ps : props) :
  Laws.null_flat ps = true ->
  (length ps <= 1000)%nat ->
  Parser.parse (Js.join "&" (map Laws.null_pair ps)) kopts =
  Ok (Spec.coerce numbers booleans (VObj ps)).
Proof.
  intros H Hcount. unfold Laws.null_flat in H. apply andb_prop in H as [Hd Hall].
  destruct (props_ok_split _ _ Hall) as [Hk Hv].
  assert (Hchars : forall a, In a (map Laws.null_pair ps) ->
            Spec.all_chars Spec.pair_char a = true /\ a <> "").
  { intros a Ha. apply in_map_iff in Ha as (p & <- & Hp). apply null_pair_chars.
    rewrite Forall_forall in Hk. specialize (Hk p Hp).
    destruct (key_ok_facts _ Hk) as (Hne & _). intros E. rewrite E in Hne. discriminate Hne. }
  rewrite (variant_parse_joined numbers booleans false Combine true).
  - apply (null_fold ps Hd ps [] eq_refl Hk Hv).
  - apply Forall_forall. intros a Ha. now apply Hchars.
  - apply Forall_forall. intros a Ha. now apply Hchars.
  - now rewrite length_map.
Qed.

End StrictNulls.

(** X21.  Null comes back under strict null handling.  A mapping with
    distinct plain keys, at most 1000 of them, whose values are null or
    leaves with a text that is not empty, is returned by parse with
    strictNullHandling, up to the coercion of its leaves, from the text
    stringify writes for it with strictNullHandling: a null is written as
    its key alone and read back as null. *)
Theorem strict_null_round_trip (numbers booleans : bool) (ps : props) :
  Laws.null_flat ps = true ->
  (length ps <= 1000)%nat ->
  exists text,
    Stringifier.stringify (VObj ps) (with_strictNulls true defaultStringifyOptions)
      = Ok text /\
    Parser.parse text
      (with_strictNullHandling true (with_coercion numbers booleans defaultParseOptions))
      = Ok (Spec.coerce numbers booleans (VObj ps)).
Proof.
  intros H Hcount. exists (Js.join "&" (map Laws.null_pair ps)). split.
  - now apply null_text_of.
  - now apply (null_parse numbers booleans ps).
Qed.

Lemma strict_null_round_trip_witness :
  let ps := [("a", VNull); ("b", VStr "x y"); ("c", VNum (Js.Num 7 0)); ("d", VNull)] in
  Laws.null_flat ps = true /\
  (length ps <= 1000)%nat /\
  Stringifier.stringify (VObj ps) (with_strictNulls true defaultStringifyOptions)
    = Ok "a&b=x%20y&c=7&d" /\
  exists text,
    Stringifier.stringify (VObj ps) (with_strictNulls true defaultStringifyOptions)
      = Ok text /\
    Parser.parse text
      (with_strictNullHandling true (with_coercion true false defaultParseOptions))
      = Ok (Spec.coerce true false (VObj ps)).
Proof.
  split; [vm_compute; reflexivity|]. split; [vm_compute; lia|].
  split; [vm_compute; reflexivity|].
  apply (strict_null_round_trip true false
           [("a", VNull); ("b", VStr "x y"); ("c", VNum (Js.Num 7 0)); ("d", VNull)]);
    [vm_compute; reflexivity|vm_compute; lia].
Defined.

(** The empty string does not come back under strict null handling: it is
    written as [key=] and read as null. *)
Example strict_null_empty_string :
  Stringifier.stringify (VObj [("a", VStr "")])
                        (with_strictNulls true defaultStringifyOptions) = Ok "a=" /\
  Parser.parse "a=" (with_strictNullHandling true defaultParseOptions)
    = Ok (VObj [("a", VNull)]).
Proof. split; vm_compute; reflexivity. Qed.
